(** * export_webots: a shallow embedding of the Webots exporter

    The development follows [src/export_webots.py].  Python strings are
    modelled as ASCII [string]s, Python dictionaries as association lists in
    insertion order, host objects (Blender objects, meshes, images) as
    records that carry an identity key, and Python floats as exact rationals
    ([Q]); the nested functions of [export] thread one explicit state.

    A character above 127 stands for a character outside ASCII.  [str.upper]
    and [str.strip] are followed on ASCII text only ([ascii_text]): Python
    upper-cases some characters outside ASCII into ASCII letters and strips
    white space outside ASCII, the model leaves such characters alone.
    Statements that depend on either are made for ASCII text. *)

From Stdlib Require Import List Bool Arith NArith ZArith QArith Qabs Lia String Ascii.
From Stdlib Require Import Permutation Sorted.
From Stdlib Require Import Lqa.
From Stdlib Require PrimFloat FloatOps SpecFloat FloatAxioms.
Import ListNotations.

Set Warnings "-register-all".

Local Open Scope string_scope.
Local Open Scope list_scope.
Local Open Scope nat_scope.

(* ================================================================== *)
(** * Python string primitives *)
(* ================================================================== *)

Module PyStr.

(** [str.isspace] on the ASCII range: 9..13, 28..31 and 32; white space
    outside ASCII is not recognised. *)
Definition isspace (c : ascii) : bool :=
  let n := nat_of_ascii c in
  ((9 <=? n) && (n <=? 13)) || ((28 <=? n) && (n <=? 32)).

Fixpoint lstrip (s : string) : string :=
  match s with
  | EmptyString => EmptyString
  | String c r => if isspace c then lstrip r else s
  end.

Fixpoint rstrip (s : string) : string :=
  match s with
  | EmptyString => EmptyString
  | String c r =>
      match rstrip r with
      | EmptyString => if isspace c then EmptyString else String c EmptyString
      | r' => String c r'
      end
  end.

(** [s.strip()] *)
Definition strip (s : string) : string := rstrip (lstrip s).

(** [s.startswith(c)] and [s.endswith(c)] for a one-character argument. *)
Definition startswith (s : string) (c : ascii) : bool :=
  match s with
  | String a _ => Ascii.eqb a c
  | EmptyString => false
  end.

Fixpoint last (s : string) : option ascii :=
  match s with
  | EmptyString => None
  | String c EmptyString => Some c
  | String _ r => last r
  end.

Definition endswith (s : string) (c : ascii) : bool :=
  match last s with
  | Some a => Ascii.eqb a c
  | None => false
  end.

(** [s[:k]] and [s[k:]] *)
Fixpoint take (k : nat) (s : string) : string :=
  match k, s with
  | S k', String c r => String c (take k' r)
  | _, _ => EmptyString
  end.

Fixpoint drop (k : nat) (s : string) : string :=
  match k, s with
  | S k', String _ r => drop k' r
  | _, _ => s
  end.

(** [s[:-1]] *)
Fixpoint init (s : string) : string :=
  match s with
  | EmptyString => EmptyString
  | String _ EmptyString => EmptyString
  | String c r => String c (init r)
  end.

Fixpoint all_chars (p : ascii -> bool) (s : string) : bool :=
  match s with
  | EmptyString => true
  | String c r => p c && all_chars p r
  end.

Fixpoint any_char (p : ascii -> bool) (s : string) : bool :=
  match s with
  | EmptyString => false
  | String c r => p c || any_char p r
  end.

Fixpoint map_chars (f : ascii -> ascii) (s : string) : string :=
  match s with
  | EmptyString => EmptyString
  | String c r => String (f c) (map_chars f r)
  end.

(** ['  ' * n] and friends; a negative count gives the empty string, which
    is what [Z.to_nat] does to it. *)
Fixpoint repeat_str (s : string) (n : nat) : string :=
  match n with
  | 0 => EmptyString
  | S n' => s ++ repeat_str s n'
  end.

(** [sep.join(l)] *)
Fixpoint join (sep : string) (l : list string) : string :=
  match l with
  | [] => EmptyString
  | [x] => x
  | x :: r => x ++ sep ++ join sep r
  end.

(** [s.replace(a, b)] for one-character [a]. *)
Fixpoint replace_char (a : ascii) (b : string) (s : string) : string :=
  match s with
  | EmptyString => EmptyString
  | String c r =>
      if Ascii.eqb c a then b ++ replace_char a b r
      else String c (replace_char a b r)
  end.

(** Decimal digits of a natural number ([%d] / [%i]); the number of binary
    digits is fuel enough for the decimal ones. *)
Definition digit_char (n : N) : ascii := ascii_of_N (48 + n mod 10).

Fixpoint digits_acc (fuel : nat) (n : N) (acc : string) : string :=
  match fuel with
  | 0 => acc
  | S f =>
      let acc' := String (digit_char n) acc in
      if (n <? 10)%N then acc' else digits_acc f (n / 10) acc'
  end.

Definition of_N (n : N) : string := digits_acc (S (N.size_nat n)) n EmptyString.

Definition of_nat (n : nat) : string := of_N (N.of_nat n).

(** Left padding with zeros up to [w] characters ([%0wd]). *)
Definition zfill (w : nat) (s : string) : string :=
  repeat_str "0" (w - String.length s) ++ s.

Definition isdigit (c : ascii) : bool :=
  let n := nat_of_ascii c in (48 <=? n) && (n <=? 57).

(** The characters of ASCII. *)
Definition is_ascii (c : ascii) : bool := nat_of_ascii c <? 128.

End PyStr.

(** Text within ASCII, on which the string primitives above are those of
    Python. *)
Definition ascii_text (s : string) : Prop :=
  PyStr.all_chars PyStr.is_ascii s = true.

(* ================================================================== *)
(** * [slugify] *)
(* ================================================================== *)

Definition underscore : ascii := "_"%char.

(** [re.match(r'[A-Z]', c)] on a one-character string. *)
Definition is_AZ (c : ascii) : bool :=
  let n := nat_of_ascii c in (65 <=? n) && (n <=? 90).

Definition is_az (c : ascii) : bool :=
  let n := nat_of_ascii c in (97 <=? n) && (n <=? 122).

Definition upper_char (c : ascii) : ascii :=
  if is_az c then ascii_of_nat (nat_of_ascii c - 32) else c.

(** [s.upper()], on ASCII text. *)
Definition upper (s : string) : string := PyStr.map_chars upper_char s.

(** One turn of the loop [for k in range(len(s))]:
    [if not re.match(r'[A-Z]', s[k]): s = s[:k] + '_' + s[(k + 1):]]. *)
Definition slug_step (s : string) (k : nat) : string :=
  match String.get k s with
  | Some c =>
      if is_AZ c then s
      else PyStr.take k s ++ String underscore (PyStr.drop (S k) s)
  | None => s
  end.

Definition slug_loop (s : string) : string :=
  fold_left slug_step (seq 0 (String.length s)) s.

(** ['__' in s] *)
Fixpoint has_dunder (s : string) : bool :=
  match s with
  | EmptyString => false
  | String c r =>
      match r with
      | EmptyString => false
      | String d _ =>
          (Ascii.eqb c underscore && Ascii.eqb d underscore) || has_dunder r
      end
  end.

(** [s.replace('__', '_')]: one left-to-right pass over non-overlapping
    occurrences. *)
Fixpoint replace_dunder (s : string) : string :=
  match s with
  | EmptyString => EmptyString
  | String c r =>
      match r with
      | EmptyString => s
      | String d r' =>
          if Ascii.eqb c underscore && Ascii.eqb d underscore
          then String underscore (replace_dunder r')
          else String c (replace_dunder r)
      end
  end.

(** [while '__' in s: s = s.replace('__', '_')]; every turn shortens [s],
    so [String.length s] turns are enough (lemma [collapse_no_dunder]). *)
Fixpoint collapse (fuel : nat) (s : string) : string :=
  match fuel with
  | 0 => s
  | S f => if has_dunder s then collapse f (replace_dunder s) else s
  end.

Definition slugify (s : string) : string :=
  let s := match s with EmptyString => "none" | _ => s end in
  let s := upper s in
  let s := slug_loop s in
  let s := match s with
           | String c _ => if is_AZ c then s else String underscore s
           | EmptyString => s
           end in
  let s := collapse (String.length s) s in
  match PyStr.last s with
  | Some c => if Ascii.eqb c underscore then PyStr.init s else s
  | None => s
  end.

(** The grammar of the testable property: [^[A-Z][A-Z0-9_]*$]. *)
Definition id_char (c : ascii) : bool :=
  is_AZ c || PyStr.isdigit c || Ascii.eqb c underscore.

Definition legal_identifier (s : string) : bool :=
  match s with
  | String c r => is_AZ c && PyStr.all_chars id_char r
  | EmptyString => false
  end.

Definition is_letter (c : ascii) : bool := is_AZ c || is_az c.

Definition slug_char (c : ascii) : bool := is_AZ c || Ascii.eqb c underscore.

Definition starts_with_letter (s : string) : bool :=
  match s with
  | String c _ => is_letter c
  | EmptyString => false
  end.

(* ================================================================== *)
(** * Numbers and their formatting *)
(* ================================================================== *)

(** The host's floats are modelled as exact rationals; rounding of the
    binary64 operations is not part of the model. *)

(** [int(x)]: truncation toward zero. *)
Definition py_int (x : Q) : Z := Z.quot (Qnum x) (Zpos (Qden x)).

(** [nearly_equal(a, b, sig_fig)]:
    [a == b or int(a * 10 ** sig_fig) == int(b * 10 ** sig_fig)] *)
Definition nearly_equal_sig (a b : Q) (sig_fig : nat) : bool :=
  Qeq_bool a b
  || Z.eqb (py_int (a * inject_Z (10 ^ Z.of_nat sig_fig)))
           (py_int (b * inject_Z (10 ^ Z.of_nat sig_fig))).

(** The default [sig_fig=5] is the only one the exporter uses. *)
Definition nearly_equal (a b : Q) : bool := nearly_equal_sig a b 5.

(** Rounding of a non-negative rational to the nearest integer, ties to
    even, as the [%.Nf] conversion does with the value it is given. *)
Definition round_half_even (x : Q) : Z :=
  let n := Qnum x in
  let d := Zpos (Qden x) in
  let fl := (n / d)%Z in
  let r2 := (2 * (n mod d))%Z in
  if (r2 <? d)%Z then fl
  else if (d <? r2)%Z then (fl + 1)%Z
  else if Z.even fl then fl else (fl + 1)%Z.

(** ['%.<prec>f' % x] *)
Definition format_fixed (prec : nat) (x : Q) : string :=
  let m := Z.to_N (round_half_even (Qabs x * inject_Z (10 ^ Z.of_nat prec))) in
  let p := (10 ^ N.of_nat prec)%N in
  ((if (Qnum x <? 0)%Z then "-" else EmptyString)
   ++ PyStr.of_N (m / p) ++ "." ++ PyStr.zfill prec (PyStr.of_N (m mod p)))%string.

Definition vec3 : Type := Q * Q * Q.
Definition vec4 : Type := Q * Q * Q * Q.

(** [clamp_color]: [max(min(c, 1.0), 0.0)] on each channel. *)
Definition clamp_channel (c : Q) : Q :=
  let m := if Qle_bool c 1 then c else 1%Q in
  if Qle_bool m 0 then 0%Q else m.

Definition clamp_color (col : vec3) : vec3 :=
  let '(r, g, b) := col in (clamp_channel r, clamp_channel g, clamp_channel b).

(** The line terminator and the double quote. *)
Definition LF : string := String (ascii_of_nat 10) EmptyString.
Definition DQ : string := String (ascii_of_nat 34) EmptyString.
Definition BACKSLASH : ascii := ascii_of_nat 92.

(** ['<prec>f <prec>f <prec>f' % v] *)
Definition format_vec3 (prec : nat) (v : vec3) : string :=
  let '(x, y, z) := v in
  (format_fixed prec x ++ " " ++ format_fixed prec y ++ " "
   ++ format_fixed prec z)%string.

Definition format_vec4 (prec : nat) (v : vec4) : string :=
  let '(x, y, z, w) := v in
  (format_fixed prec x ++ " " ++ format_fixed prec y ++ " "
   ++ format_fixed prec z ++ " " ++ format_fixed prec w)%string.

(* ================================================================== *)
(** * Host data *)
(* ================================================================== *)

(** A transform as [write_transform_begin] sees it: the result of
    [matrix.decompose()] with the rotation already turned into the
    axis-angle 4-tuple [( *rot[0], rot[1])]. *)
Record Matrix : Type := mkMatrix {
  m_loc : vec3;
  m_rot : vec4;
  m_sca : vec3
}.

(** An image datablock.  [im_key] is the host identity the caches hash on;
    the three paths are what [path_reference], [os.path.basename] and
    [bpy.path.abspath] return for it. *)
Record Image : Type := mkImage {
  im_key : nat;
  im_name : string;
  im_filepath_ref : string;
  im_filepath_base : string;
  im_filepath_full : string
}.

Record Texture : Type := mkTexture {
  tex_type : string;
  tex_image : option Image
}.

Record TextureSlot : Type := mkTextureSlot {
  mtex_texture : option Texture
}.

Record Material : Type := mkMaterial {
  mat_diffuse_color : vec3;
  mat_ambient : Q;
  mat_emit : Q;
  mat_use_face_texture : bool;
  mat_texture_slots : list (option TextureSlot)
}.

Record Face : Type := mkFace {
  f_material_index : nat;
  f_vertices : list nat;
  f_use_smooth : bool
}.

Record FaceUV : Type := mkFaceUV {
  fuv_image : option Image;
  fuv_uv : list (Q * Q)
}.

(** A mesh datablock.  [me_tessfaces] is [mesh.tessfaces] as found;
    [me_calc_tessface] is what it holds after
    [mesh.update(calc_tessface=True)], which the exporter calls when there
    are polygons but no tessellated faces; [me_polygons] tells whether
    [mesh.polygons] is non-empty. *)
Record Mesh : Type := mkMesh {
  me_key : nat;
  me_name : string;
  me_tessfaces : list Face;
  me_polygons : bool;
  me_calc_tessface : list Face;
  me_materials : list (option Material);
  me_uv_active : option (list FaceUV);
  me_vertices : list vec3;
  me_use_auto_smooth : bool;
  me_auto_smooth_angle : Q
}.

(** A scene object.  The parent chain is part of the value, so it is finite
    and free of cycles, as the host's object tree is. *)
Inductive Object : Type := mkObject {
  ob_key : nat;
  ob_name : string;
  ob_visible : bool;
  ob_select : bool;
  ob_bound_box : list vec3;
  ob_dimensions : vec3;
  ob_parent : option Object
}.

(** One entry of [create_derived_objects].  [d_matrix] stands for
    [obj_main_matrix_world_invert * obj_matrix]; [d_to_mesh] is the result
    of [obj.to_mesh(...)], under the name the host reports for it once the
    exporter has renamed it: a new datablock, untagged, which the model
    renders by a key that no other mesh bears; [d_data] is [obj.data]. *)
Record Derived : Type := mkDerived {
  d_obj : Object;
  d_matrix : Matrix;
  d_type : string;
  d_is_modified : bool;
  d_to_mesh : option Mesh;
  d_data : option Mesh
}.

(** What the exporter asks the host and the scene.  [set_order l] is the
    order in which Python iterates [set(l)]: some enumeration of the
    distinct elements of [l]. *)
Record Host : Type := mkHost {
  h_objects : list Object;
  h_world : option vec3;
  h_matrix : option Object -> Object -> Matrix;
  h_derived : Object -> option (list Derived);
  h_set_order : list (option Image) -> list (option Image)
}.

(** One value of the override table [user_data]: a JSON object that holds
    the key [webotsType]; an entry without it, on which line 93 raises, is
    not a value of this type. *)
Record NodeData : Type := mkNodeData {
  webotsType : string;
  hingeJointParameters_axis : option string;
  motorName : option string;
  positionSensorName : option string
}.

Definition UserData : Type := list (string * NodeData).

Fixpoint dict_get {V : Type} (k : string) (d : list (string * V)) : option V :=
  match d with
  | [] => None
  | (k', v) :: r => if String.eqb k' k then Some v else dict_get k r
  end.

(* ================================================================== *)
(** * The text emitter *)
(* ================================================================== *)

(** [fw.indentation], [fw.isLastCharacterACariageReturn] and the text handed
    to [file.write] so far. *)
Record Emitter : Type := mkEmitter {
  indentation : Z;
  isLastCharacterACariageReturn : bool;
  written : string
}.

Definition emitter_start : Emitter :=
  {| indentation := 0; isLastCharacterACariageReturn := false;
     written := EmptyString |}.

Definition opens (strippedLine : string) : bool :=
  PyStr.endswith strippedLine "{" || PyStr.endswith strippedLine "[".

Definition closes (strippedLine : string) : bool :=
  PyStr.startswith strippedLine "}" || PyStr.startswith strippedLine "]".

(** The body of [fw(line)], lines 56-64, on the emitter's own state. *)
Definition fw_step (e : Emitter) (line : string) : Emitter :=
  let strippedLine := PyStr.strip line in
  let indentation1 :=
    if closes strippedLine then (indentation e - 1)%Z else indentation e in
  let written1 :=
    if isLastCharacterACariageReturn e
    then (written e ++ PyStr.repeat_str "  " (Z.to_nat indentation1))%string
    else written e in
  {| indentation :=
       if opens strippedLine then (indentation1 + 1)%Z else indentation1;
     isLastCharacterACariageReturn := PyStr.endswith line (ascii_of_nat 10);
     written := (written1 ++ line)%string |}.

(** The emitter after the calls [fw(l)] for [l] in [lines], in order. *)
Definition emit (lines : list string) : Emitter :=
  fold_left fw_step lines emitter_start.

(* ================================================================== *)
(** * The state of one [export] call *)
(* ================================================================== *)

(** The arguments of the calls of [fw] so far, the three identifier caches,
    and the [tag] flag of meshes and images (the keys whose flag is set;
    [export_main] clears them all on entry).  Nothing but [fw] reads or
    writes the emitter, so its state is [emit] of the recorded calls. *)
Record State : Type := mkState {
  fw_log : list string;
  uuid_cache_object : list (nat * string);
  uuid_cache_mesh : list (nat * string);
  uuid_cache_image : list (nat * string);
  mesh_tag : list nat;
  image_tag : list nat
}.

Definition initial_state : State :=
  {| fw_log := [];
     uuid_cache_object := [];
     uuid_cache_mesh := [];
     uuid_cache_image := [];
     mesh_tag := [];
     image_tag := [] |}.

(** [fw.indentation] and the text of the file in a state. *)
Definition fw_indentation (st : State) : Z := indentation (emit (fw_log st)).
Definition file (st : State) : string := written (emit (fw_log st)).

(** Computations on the state that may raise: [None] is an uncaught Python
    exception. *)
Definition M (A : Type) : Type := State -> option (A * State).

Definition ret {A : Type} (a : A) : M A := fun st => Some (a, st).

Definition bind {A B : Type} (m : M A) (f : A -> M B) : M B :=
  fun st => match m st with
            | Some (a, st') => f a st'
            | None => None
            end.

Definition raise {A : Type} : M A := fun _ => None.

Declare Scope exp_scope.
Delimit Scope exp_scope with exp.
Notation "x <- m ;; f" := (bind m (fun x => f))
  (at level 61, m at next level, right associativity) : exp_scope.
Notation "m ;;; f" := (bind m (fun _ => f))
  (at level 61, right associativity) : exp_scope.
Local Open Scope exp_scope.

(** [for x in l: body(x)] *)
Fixpoint for_each {A : Type} (l : list A) (body : A -> M unit) : M unit :=
  match l with
  | [] => ret tt
  | x :: r => body x ;;; for_each r body
  end.

Definition when (b : bool) (m : M unit) : M unit := if b then m else ret tt.

(** [fw(line)] *)
Definition fw (line : string) : M unit := fun st =>
  Some (tt,
        {| fw_log := fw_log st ++ [line];
           uuid_cache_object := uuid_cache_object st;
           uuid_cache_mesh := uuid_cache_mesh st;
           uuid_cache_image := uuid_cache_image st;
           mesh_tag := mesh_tag st;
           image_tag := image_tag st |}).

(** ** [bpy_extras.io_utils.unique_name]

    The host library's helper, as the exporter calls it
    ([clean_func=slugify], [sep='_'], no [name_max]): the cached name of
    [key] if there is one, else the cleaned name, followed by [sep] and a
    three-digit counter from [001] on while the name is already a value of
    the dictionary; the result is stored under [key]. *)
Fixpoint cache_get (key : nat) (d : list (nat * string)) : option string :=
  match d with
  | [] => None
  | (k, v) :: r => if Nat.eqb k key then Some v else cache_get key r
  end.

Definition in_values (name : string) (d : list (nat * string)) : bool :=
  existsb (fun kv => String.eqb (snd kv) name) d.

Fixpoint unique_name_loop (fuel : nat) (name_new_orig name_new : string)
    (count : nat) (d : list (nat * string)) : string :=
  match fuel with
  | 0 => name_new
  | S f =>
      if in_values name_new d
      then unique_name_loop f name_new_orig
             (name_new_orig ++ "_" ++ PyStr.zfill 3 (PyStr.of_nat count))%string
             (S count) d
      else name_new
  end.

Definition unique_name (key : nat) (name : string)
    (name_dict : list (nat * string)) : string * list (nat * string) :=
  match cache_get key name_dict with
  | Some name_new => (name_new, name_dict)
  | None =>
      let name_new_orig := slugify name in
      let name_new :=
        unique_name_loop (S (List.length name_dict)) name_new_orig
          name_new_orig 1 name_dict in
      (name_new, name_dict ++ [(key, name_new)])
  end.

Definition unique_name_object (key : nat) (name : string) : M string :=
  fun st =>
    let '(id, d) := unique_name key name (uuid_cache_object st) in
    Some (id,
          {| fw_log := fw_log st;
             uuid_cache_object := d;
             uuid_cache_mesh := uuid_cache_mesh st;
             uuid_cache_image := uuid_cache_image st;
             mesh_tag := mesh_tag st;
             image_tag := image_tag st |}).

Definition unique_name_mesh (key : nat) (name : string) : M string :=
  fun st =>
    let '(id, d) := unique_name key name (uuid_cache_mesh st) in
    Some (id,
          {| fw_log := fw_log st;
             uuid_cache_object := uuid_cache_object st;
             uuid_cache_mesh := d;
             uuid_cache_image := uuid_cache_image st;
             mesh_tag := mesh_tag st;
             image_tag := image_tag st |}).

Definition unique_name_image (key : nat) (name : string) : M string :=
  fun st =>
    let '(id, d) := unique_name key name (uuid_cache_image st) in
    Some (id,
          {| fw_log := fw_log st;
             uuid_cache_object := uuid_cache_object st;
             uuid_cache_mesh := uuid_cache_mesh st;
             uuid_cache_image := d;
             mesh_tag := mesh_tag st;
             image_tag := image_tag st |}).

(** [mesh.tag] / [image.tag], read and set. *)
Definition mem_key (k : nat) (l : list nat) : bool := existsb (Nat.eqb k) l.

Definition get_mesh_tag (k : nat) : M bool :=
  fun st => Some (mem_key k (mesh_tag st), st).

Definition set_mesh_tag (k : nat) : M unit := fun st =>
  Some (tt,
        {| fw_log := fw_log st;
           uuid_cache_object := uuid_cache_object st;
           uuid_cache_mesh := uuid_cache_mesh st;
           uuid_cache_image := uuid_cache_image st;
           mesh_tag := k :: mesh_tag st;
           image_tag := image_tag st |}).

Definition get_image_tag (k : nat) : M bool :=
  fun st => Some (mem_key k (image_tag st), st).

Definition set_image_tag (k : nat) : M unit := fun st =>
  Some (tt,
        {| fw_log := fw_log st;
           uuid_cache_object := uuid_cache_object st;
           uuid_cache_mesh := uuid_cache_mesh st;
           uuid_cache_image := uuid_cache_image st;
           mesh_tag := mesh_tag st;
           image_tag := k :: image_tag st |}).

(** The decorators of [export]. *)
Definition COORDS_ : string := "COORDS_".
Definition OB_ : string := "OB_".
Definition ME_ : string := "ME_".
Definition IM_ : string := "IM_".
Definition GROUP_ : string := "GROUP_".
Definition _IFS : string := "_IFS".
Definition _TRANSFORM : string := "_TRANSFORM".

(* ================================================================== *)
(** * The writers nested in [export] *)
(* ================================================================== *)

Definition write_header : M unit :=
  fw ("#VRML_SIM R2019a utf8" ++ LF) ;;;
  fw ("WorldInfo {" ++ LF) ;;;
  fw ("basicTimeStep 8" ++ LF) ;;;
  fw ("}" ++ LF) ;;;
  fw ("Viewpoint {" ++ LF) ;;;
  fw ("orientation -0.5 -0.852 -0.159 0.71" ++ LF) ;;;
  fw ("position -3.6 2.0 5.4" ++ LF) ;;;
  fw ("}" ++ LF) ;;;
  fw ("TexturedBackground {" ++ LF) ;;;
  fw ("}" ++ LF) ;;;
  fw ("TexturedBackgroundLight {" ++ LF) ;;;
  fw ("}" ++ LF).

(** [max(l)] and [min(l)]; [None] is the [ValueError] of an empty list. *)
Definition py_max (l : list Q) : option Q :=
  match l with
  | [] => None
  | x :: r => Some (fold_left (fun acc y => if Qle_bool y acc then acc else y) r x)
  end.

Definition py_min (l : list Q) : option Q :=
  match l with
  | [] => None
  | x :: r => Some (fold_left (fun acc y => if Qle_bool acc y then acc else y) r x)
  end.

Definition lift {A : Type} (o : option A) : M A :=
  match o with
  | Some a => ret a
  | None => raise
  end.

(** [0.5 * (max([v[i] for v in obj.bound_box]) + min([v[i] for v in obj.bound_box]))] *)
Definition bound_box_mid (coords : list Q) : option Q :=
  match py_max coords, py_min coords with
  | Some mx, Some mn => Some ((1 # 2) * (mx + mn))%Q
  | _, _ => None
  end.

Definition vx (v : vec3) : Q := fst (fst v).
Definition vy (v : vec3) : Q := snd (fst v).
Definition vz (v : vec3) : Q := snd v.

(** Lines 105-148 of the source: the part of [write_transform_begin] that
    follows the choice of the node type. *)
Definition write_transform_fields (obj : Object) (matrix : Matrix)
    (node_data : option NodeData)
    (hingeJoint exportPhysics exportBoundingObject : bool) : M (bool * bool) :=
  let loc := m_loc matrix in
  let rot := m_rot matrix in
  let sca := m_sca matrix in
  (if hingeJoint then
     nd <- lift node_data ;;
     fw ("jointParameters HingeJointParameters {" ++ LF) ;;;
     fw ("anchor " ++ format_vec3 6 loc ++ LF) ;;;
     axis <- lift (hingeJointParameters_axis nd) ;;
     fw ("axis " ++ axis ++ LF) ;;;
     fw ("}" ++ LF) ;;;
     fw ("device [" ++ LF) ;;;
     match motorName nd with
     | Some name =>
         fw ("RotationalMotor {" ++ LF) ;;;
         fw ("name " ++ DQ ++ name ++ DQ ++ LF) ;;;
         fw ("maxTorque 100000" ++ LF) ;;;
         fw ("}" ++ LF)
     | None => ret tt
     end ;;;
     match positionSensorName nd with
     | Some name =>
         fw ("PositionSensor {" ++ LF) ;;;
         fw ("name " ++ DQ ++ name ++ DQ ++ LF) ;;;
         fw ("}" ++ LF)
     | None => ret tt
     end ;;;
     fw ("]" ++ LF) ;;;
     fw ("endPoint Solid {" ++ LF) ;;;
     match motorName nd with
     | Some name => fw ("name " ++ DQ ++ name ++ DQ ++ LF)
     | None => ret tt
     end
   else ret tt) ;;;
  fw ("translation " ++ format_vec3 6 loc ++ LF) ;;;
  fw ("scale " ++ format_vec3 6 sca ++ LF) ;;;
  fw ("rotation " ++ format_vec4 6 rot ++ LF) ;;;
  when exportPhysics
    (fw ("physics Physics {" ++ LF) ;;;
     fw ("}" ++ LF)) ;;;
  when exportBoundingObject
    (fw ("boundingObject Transform {" ++ LF) ;;;
     x <- lift (bound_box_mid (map vx (ob_bound_box obj))) ;;
     y <- lift (bound_box_mid (map vy (ob_bound_box obj))) ;;
     z <- lift (bound_box_mid (map vz (ob_bound_box obj))) ;;
     fw ("translation " ++ format_vec3 6 (x, y, z) ++ LF) ;;;
     fw ("children [" ++ LF) ;;;
     fw ("Box {" ++ LF) ;;;
     fw ("size " ++ format_vec3 6 (ob_dimensions obj) ++ LF) ;;;
     fw ("}" ++ LF) ;;;
     fw ("]" ++ LF) ;;;
     fw ("}" ++ LF)) ;;;
  fw ("children [" ++ LF) ;;;
  ret (false, hingeJoint).

(** The identity test of line 97. *)
Definition is_identity (matrix : Matrix) : bool :=
  let '(l0, l1, l2) := m_loc matrix in
  let '(_, _, _, r3) := m_rot matrix in
  let '(s0, s1, s2) := m_sca matrix in
  nearly_equal l0 0 && nearly_equal l1 0 && nearly_equal l2 0
  && nearly_equal r3 0
  && nearly_equal s0 1 && nearly_equal s1 1 && nearly_equal s2 1.

(** [def_id in user_data] followed by [user_data[def_id]]. *)
Definition lookup_override (user_data : UserData) (def_id : option string)
    : option NodeData :=
  match def_id with
  | Some k => dict_get k user_data
  | None => None
  end.

(** [write_transform_begin(obj, matrix, def_id)]; the result is
    [(skipped, supplementaryCurvyBracket)]. *)
Definition write_transform_begin (user_data : UserData) (obj : Object)
    (matrix : Matrix) (def_id : option string) : M (bool * bool) :=
  match lookup_override user_data def_id with
  | Some node_data =>
      fw ("DEF " ++ match def_id with Some k => k | None => "None" end ++ " ") ;;;
      fw (webotsType node_data ++ " {" ++ LF) ;;;
      write_transform_fields obj matrix (Some node_data)
        (String.eqb (webotsType node_data) "HingeJoint")
        (negb (String.eqb (webotsType node_data) "Robot"))
        true
  | None =>
      if is_identity matrix then ret (true, false)
      else
        match def_id with
        | Some k => fw ("DEF " ++ k ++ " ")
        | None => ret tt
        end ;;;
        fw ("Transform {" ++ LF) ;;;
        write_transform_fields obj matrix None false false false
  end.

Definition write_transform_end (supplementaryCurvyBracket : bool) : M unit :=
  fw ("]" ++ LF) ;;;
  fw ("}" ++ LF) ;;;
  when supplementaryCurvyBracket (fw ("}" ++ LF)).

(** [xml.sax.saxutils.escape] *)
Definition escape (data : string) : string :=
  PyStr.replace_char "<" "&lt;"
    (PyStr.replace_char ">" "&gt;" (PyStr.replace_char "&" "&amp;" data)).

(** [[f for i, f in enumerate(images) if f not in images[:i]]] *)
Fixpoint dedup_from (seen l : list string) : list string :=
  match l with
  | [] => []
  | f :: r =>
      if existsb (String.eqb f) seen then dedup_from (seen ++ [f]) r
      else f :: dedup_from (seen ++ [f]) r
  end.

Definition image_urls (path_mode : string) (image : Image) : list string :=
  let images :=
    [im_filepath_ref image; im_filepath_base image]
    ++ (if String.eqb path_mode "RELATIVE" then [] else [im_filepath_full image]) in
  let images := map (PyStr.replace_char BACKSLASH "/") images in
  dedup_from [] images.

Definition write_image_texture (path_mode : string) (image : Image) : M unit :=
  image_id <- unique_name_image (im_key image) (IM_ ++ im_name image) ;;
  tag <- get_image_tag (im_key image) ;;
  if tag then fw ("texture USE " ++ image_id ++ LF)
  else
    set_image_tag (im_key image) ;;;
    fw "texture " ;;;
    fw ("DEF " ++ image_id ++ " ") ;;;
    fw ("ImageTexture {" ++ LF) ;;;
    fw ("url [ " ++ DQ
        ++ PyStr.join " "
             (map (fun f => (DQ ++ escape f ++ DQ)%string)
                  (image_urls path_mode image))
        ++ DQ ++ " ]" ++ LF) ;;;
    fw ("}" ++ LF).

(** ** Face groups *)

(** Images are compared by identity; [None] is the absent image. *)
Definition image_eqb (a b : option Image) : bool :=
  match a, b with
  | None, None => true
  | Some x, Some y => Nat.eqb (im_key x) (im_key y)
  | _, _ => false
  end.

Definition GroupKey : Type := nat * option Image.

Definition key_eqb (a b : GroupKey) : bool :=
  Nat.eqb (fst a) (fst b) && image_eqb (snd a) (snd b).

(** Lines 188-199: the image of the first image-bearing texture slot. *)
Fixpoint first_slot_image (slots : list (option TextureSlot)) : option Image :=
  match slots with
  | [] => None
  | None :: r => first_slot_image r
  | Some mtex :: r =>
      match mtex_texture mtex with
      | Some tex =>
          if String.eqb (tex_type tex) "IMAGE" then
            match tex_image tex with
            | Some image => Some image
            | None => first_slot_image r
            end
          else first_slot_image r
      | None => first_slot_image r
      end
  end.

Definition material_image (material : option Material) : option Image :=
  match material with
  | Some m => first_slot_image (mat_texture_slots m)
  | None => None
  end.

(** [getattr(material, 'use_face_texture', True)] *)
Definition use_face_texture (material : option Material) : bool :=
  match material with
  | Some m => mat_use_face_texture m
  | None => true
  end.

(** [mesh.materials[:]], or [[None]] when it is empty. *)
Definition mesh_materials_of (mesh : Mesh) : list (option Material) :=
  match me_materials mesh with
  | [] => [None]
  | l => l
  end.

(** The faces the exporter works on: [mesh.tessfaces] after the optional
    [mesh.update(calc_tessface=True)] of lines 163-164. *)
Definition tessfaces_of (mesh : Mesh) : list Face :=
  match me_tessfaces mesh with
  | [] => if me_polygons mesh then me_calc_tessface mesh else []
  | l => l
  end.

Fixpoint map_all {A B : Type} (f : A -> option B) (l : list A)
    : option (list B) :=
  match l with
  | [] => Some []
  | x :: r =>
      match f x with
      | Some y =>
          match map_all f r with
          | Some ys => Some (y :: ys)
          | None => None
          end
      | None => None
      end
  end.

(** [enumerate(l)] *)
Definition enumerate {A : Type} (l : list A) : list (nat * A) :=
  combine (seq 0 (List.length l)) l.

Definition is_some {A : Type} (o : option A) : bool :=
  match o with Some _ => true | None => false end.

(** Lines 207-220: the image of every face and the set of those images, in
    the order Python iterates it.  [None] is an [IndexError]. *)
Definition faces_images (set_order : list (option Image) -> list (option Image))
    (mesh : Mesh) : option (list (option Image) * list (option Image)) :=
  let mesh_materials := mesh_materials_of mesh in
  let mesh_material_images := map material_image mesh_materials in
  let mesh_materials_use_face_texture := map use_face_texture mesh_materials in
  let mesh_faces := tessfaces_of mesh in
  let mesh_faces_materials := map f_material_index mesh_faces in
  match me_uv_active mesh with
  | Some data =>
      if existsb (fun b => b) mesh_materials_use_face_texture then
        match
          map_all
            (fun ifuv : nat * FaceUV =>
               match nth_error mesh_faces_materials (fst ifuv) with
               | Some mi =>
                   match nth_error mesh_materials_use_face_texture mi with
                   | Some true => Some (fuv_image (snd ifuv))
                   | Some false => nth_error mesh_material_images mi
                   | None => None
                   end
               | None => None
               end)
            (enumerate data)
        with
        | Some mesh_faces_image =>
            Some (mesh_faces_image, set_order mesh_faces_image)
        | None => None
        end
      else if existsb is_some mesh_material_images then
        match map_all (nth_error mesh_material_images) mesh_faces_materials with
        | Some mesh_faces_image =>
            Some (mesh_faces_image, set_order mesh_faces_image)
        | None => None
        end
      else Some (map (fun _ => None) mesh_faces, [None])
  | None =>
      if existsb is_some mesh_material_images then
        match map_all (nth_error mesh_material_images) mesh_faces_materials with
        | Some mesh_faces_image =>
            Some (mesh_faces_image, set_order mesh_faces_image)
        | None => None
        end
      else Some (map (fun _ => None) mesh_faces, [None])
  end.

(** [face_groups], a dictionary in insertion order. *)
Definition FaceGroups : Type := list (GroupKey * list nat).

(** [face_groups[k] = []] *)
Fixpoint groups_set (k : GroupKey) (d : FaceGroups) : FaceGroups :=
  match d with
  | [] => [(k, [])]
  | (k', v) :: r =>
      if key_eqb k' k then (k', []) :: r else (k', v) :: groups_set k r
  end.

(** [face_groups[k].append(i)]; [None] is the [KeyError]. *)
Fixpoint groups_append (k : GroupKey) (i : nat) (d : FaceGroups)
    : option FaceGroups :=
  match d with
  | [] => None
  | (k', v) :: r =>
      if key_eqb k' k then Some ((k', v ++ [i]) :: r)
      else
        match groups_append k i r with
        | Some r' => Some ((k', v) :: r')
        | None => None
        end
  end.

(** Lines 223-226. *)
Definition groups_init (n_materials : nat) (unique : list (option Image))
    : FaceGroups :=
  fold_left
    (fun d material_index =>
       fold_left (fun d image => groups_set (material_index, image) d) unique d)
    (seq 0 n_materials) [].

(** Lines 229-230. *)
Fixpoint groups_fill (faces : list (nat * (nat * option Image)))
    (d : FaceGroups) : option FaceGroups :=
  match faces with
  | [] => Some d
  | (i, k) :: r =>
      match groups_append k i d with
      | Some d' => groups_fill r d'
      | None => None
      end
  end.

(** The sort key [(m[0][0], getattr(m[0][1], 'name', ''))] and the order of
    Python tuples on it. *)
Definition image_name (image : option Image) : string :=
  match image with
  | Some im => im_name im
  | None => EmptyString
  end.

Definition sort_key (item : GroupKey * list nat) : nat * string :=
  (fst (fst item), image_name (snd (fst item))).

Definition sort_key_leb (a b : nat * string) : bool :=
  (fst a <? fst b) || ((fst a =? fst b) && String.leb (snd a) (snd b)).

(** [list.sort(key=...)] is stable; so is insertion from the right. *)
Fixpoint insert_item (x : GroupKey * list nat) (l : FaceGroups) : FaceGroups :=
  match l with
  | [] => [x]
  | y :: r =>
      if sort_key_leb (sort_key x) (sort_key y) then x :: l
      else y :: insert_item x r
  end.

Definition sort_items (l : FaceGroups) : FaceGroups :=
  fold_right insert_item [] l.

(** Lines 203-234: [face_groups_items]. *)
Definition face_groups_items
    (set_order : list (option Image) -> list (option Image)) (mesh : Mesh)
    : option FaceGroups :=
  match faces_images set_order mesh with
  | Some (mesh_faces_image, mesh_faces_image_unique) =>
      let mesh_faces_materials := map f_material_index (tessfaces_of mesh) in
      let face_groups :=
        groups_init (List.length (mesh_materials_of mesh))
          mesh_faces_image_unique in
      match
        groups_fill (enumerate (combine mesh_faces_materials mesh_faces_image))
          face_groups
      with
      | Some face_groups => Some (sort_items face_groups)
      | None => None
      end
  | None => None
  end.

(** ** Shapes *)

Definition scale_vec3 (k : Q) (v : vec3) : vec3 :=
  let '(x, y, z) := v in (k * x, k * y, k * z)%Q.

(** Lines 255-257. *)
Definition emissive_color (world : option vec3) (material : Material) : vec3 :=
  let '(d0, d1, d2) := mat_diffuse_color material in
  let '(a0, a1, a2) :=
    match world with
    | Some ambient_color => scale_vec3 (mat_ambient material * 2) ambient_color
    | None => (0, 0, 0)%Q
    end in
  (((d0 * mat_emit material) + a0) / 2,
   ((d1 * mat_emit material) + a1) / 2,
   ((d2 * mat_emit material) + a2) / 2)%Q.

(** Lines 279-286: the [texCoordIndex] fragments, [j] running. *)
Fixpoint tex_coord_index (mesh_faces_vertices : list (list nat))
    (face_group : list nat) (j : nat) : M unit :=
  match face_group with
  | [] => ret tt
  | i :: r =>
      fv <- lift (nth_error mesh_faces_vertices i) ;;
      if List.length fv =? 4 then
        fw (PyStr.of_nat j ++ " " ++ PyStr.of_nat (j + 1) ++ " "
            ++ PyStr.of_nat (j + 2) ++ " " ++ PyStr.of_nat (j + 3) ++ " -1 ") ;;;
        tex_coord_index mesh_faces_vertices r (j + 4)
      else
        fw (PyStr.of_nat j ++ " " ++ PyStr.of_nat (j + 1) ++ " "
            ++ PyStr.of_nat (j + 2) ++ " -1 ") ;;;
        tex_coord_index mesh_faces_vertices r (j + 3)
  end.

(** Lines 292-297; a face with neither three nor four vertices makes the
    [%] operator raise. *)
Definition coord_index_line (fv : list nat) : option string :=
  match fv with
  | [a; b; c] =>
      Some (PyStr.of_nat a ++ " " ++ PyStr.of_nat b ++ " " ++ PyStr.of_nat c
            ++ " -1 ")%string
  | [a; b; c; d] =>
      Some (PyStr.of_nat a ++ " " ++ PyStr.of_nat b ++ " " ++ PyStr.of_nat c
            ++ " " ++ PyStr.of_nat d ++ " -1 ")%string
  | _ => None
  end.

Definition format_uv (uv : Q * Q) : string :=
  (format_fixed 4 (fst uv) ++ " " ++ format_fixed 4 (snd uv) ++ " ")%string.

(** One turn of the loop of line 236; the result is [is_coords_written]. *)
Definition write_shape (path_mode : string) (world : option vec3) (mesh : Mesh)
    (mesh_id_coords : string) (item : GroupKey * list nat)
    (is_coords_written : bool) : M bool :=
  let mesh_faces := tessfaces_of mesh in
  let mesh_faces_vertices := map f_vertices mesh_faces in
  let '((material_index, image), face_group) := item in
  match face_group with
  | [] => ret is_coords_written
  | _ :: _ =>
      material <- lift (nth_error (mesh_materials_of mesh) material_index) ;;
      fw ("Shape {" ++ LF) ;;;
      let is_smooth :=
        existsb (fun i => match nth_error mesh_faces i with
                          | Some f => f_use_smooth f
                          | None => false
                          end) face_group in
      fw ("appearance PBRAppearance {" ++ LF) ;;;
      match image with
      | Some im => write_image_texture path_mode im
      | None => ret tt
      end ;;;
      match material with
      | Some mat =>
          fw ("baseColor " ++ format_vec3 3 (clamp_color (mat_diffuse_color mat))
              ++ LF) ;;;
          fw ("emissiveColor "
              ++ format_vec3 3 (clamp_color (emissive_color world mat)) ++ LF) ;;;
          fw ("metalness 0" ++ LF) ;;;
          fw ("roughness 0.5" ++ LF)
      | None => ret tt
      end ;;;
      fw ("}" ++ LF) ;;;
      fw ("geometry IndexedFaceSet {" ++ LF) ;;;
      when is_smooth
        (fw ("creaseAngle "
             ++ format_fixed 4 (if me_use_auto_smooth mesh
                                then me_auto_smooth_angle mesh else 1%Q)
             ++ LF)) ;;;
      match me_uv_active mesh with
      | Some _ =>
          fw ("texCoordIndex [" ++ LF) ;;;
          tex_coord_index mesh_faces_vertices face_group 0 ;;;
          fw LF ;;;
          fw ("]" ++ LF)
      | None => ret tt
      end ;;;
      fw ("coordIndex [" ++ LF) ;;;
      for_each face_group
        (fun i =>
           fv <- lift (nth_error mesh_faces_vertices i) ;;
           line <- lift (coord_index_line fv) ;;
           fw line) ;;;
      fw LF ;;;
      fw ("]" ++ LF) ;;;
      (if is_coords_written then fw ("coord USE " ++ mesh_id_coords ++ LF)
       else
         fw "coord " ;;;
         fw ("DEF " ++ mesh_id_coords ++ " ") ;;;
         fw ("Coordinate {" ++ LF) ;;;
         fw ("point [" ++ LF) ;;;
         for_each (me_vertices mesh) (fun v => fw (format_vec3 6 v ++ " ")) ;;;
         fw LF ;;;
         fw ("]" ++ LF) ;;;
         fw ("}" ++ LF)) ;;;
      match me_uv_active mesh with
      | Some mesh_faces_uv =>
          fw ("texCoord TextureCoordinate {" ++ LF) ;;;
          fw ("point [" ++ LF) ;;;
          for_each face_group
            (fun i =>
               fuv <- lift (nth_error mesh_faces_uv i) ;;
               for_each (fuv_uv fuv) (fun uv => fw (format_uv uv))) ;;;
          fw LF ;;;
          fw ("]" ++ LF) ;;;
          fw ("}" ++ LF)
      | None => ret tt
      end ;;;
      fw ("}" ++ LF) ;;;
      fw ("}" ++ LF) ;;;
      ret true
  end.

(** The loop of line 236 over [face_groups_items]. *)
Fixpoint write_shapes (path_mode : string) (world : option vec3) (mesh : Mesh)
    (mesh_id_coords : string) (items : FaceGroups) (is_coords_written : bool)
    : M unit :=
  match items with
  | [] => ret tt
  | item :: r =>
      w <- write_shape path_mode world mesh mesh_id_coords item
             is_coords_written ;;
      write_shapes path_mode world mesh mesh_id_coords r w
  end.

(** The parameters fixed for one [export] call. *)
Record Options : Type := mkOptions {
  user_data : UserData;
  use_mesh_modifiers : bool;
  use_selection : bool;
  path_mode : string
}.

(** Lines 172-329 of [write_indexed_face_set]: the reference to a mesh that
    is tagged, or the tag and the shapes of one that is not. *)
Definition write_geometry (h : Host) (opts : Options) (mesh : Mesh)
    (mesh_id : string) (world : option vec3) : M unit :=
  let mesh_id_group := (GROUP_ ++ mesh_id)%string in
  let mesh_id_coords := (COORDS_ ++ mesh_id)%string in
  tag <- get_mesh_tag (me_key mesh) ;;
  if tag then fw ("USE " ++ mesh_id_group ++ LF)
  else
    set_mesh_tag (me_key mesh) ;;;
    items <- lift (face_groups_items (h_set_order h) mesh) ;;
    write_shapes (path_mode opts) world mesh mesh_id_coords items false.

(** [write_indexed_face_set(obj, mesh, matrix, world)] *)
Definition write_indexed_face_set (h : Host) (opts : Options)
    (obj : Object) (mesh : Mesh) (matrix : Matrix) (world : option vec3)
    : M unit :=
  obj_id <- unique_name_object (ob_key obj) (OB_ ++ ob_name obj) ;;
  mesh_id <- unique_name_mesh (me_key mesh) (ME_ ++ me_name mesh) ;;
  match tessfaces_of mesh with
  | [] => ret tt
  | _ :: _ =>
      r <- write_transform_begin (user_data opts) obj matrix
             (Some (obj_id ++ _IFS ++ _TRANSFORM)%string) ;;
      write_geometry h opts mesh mesh_id world ;;;
      if fst r then ret tt else write_transform_end (snd r)
  end.

(* ================================================================== *)
(** * [build_hierarchy] *)
(* ================================================================== *)

(** Membership in [objects_set]: host objects hash and compare by
    identity. *)
Definition in_objects (objects_set : list Object) (o : Object) : bool :=
  existsb (fun x => Nat.eqb (ob_key x) (ob_key o)) objects_set.

(** [test_parent], entered with a parent that is not [None]. *)
Fixpoint test_parent_from (objects_set : list Object) (parent : Object)
    {struct parent} : option Object :=
  if in_objects objects_set parent then Some parent
  else
    match ob_parent parent with
    | Some p => test_parent_from objects_set p
    | None => None
    end.

Definition test_parent (objects_set : list Object) (parent : option Object)
    : option Object :=
  match parent with
  | Some p => test_parent_from objects_set p
  | None => None
  end.

(** A tuple [(obj, subchildren)]: the object and the address of its list of
    children.  The lists are mutable and shared, so they live in a store. *)
Definition Entry : Type := Object * nat.
Definition Store : Type := nat -> list Entry.

Definition parent_eqb (a b : option Object) : bool :=
  match a, b with
  | None, None => true
  | Some x, Some y => Nat.eqb (ob_key x) (ob_key y)
  | _, _ => false
  end.

Definition ParLookup : Type := list (option Object * list Entry).

(** [par_lookup.get(k, [])] *)
Fixpoint par_get (k : option Object) (d : ParLookup) : list Entry :=
  match d with
  | [] => []
  | (k', v) :: r => if parent_eqb k' k then v else par_get k r
  end.

(** [par_lookup.setdefault(k, []).append(e)] *)
Fixpoint par_setdefault_append (k : option Object) (e : Entry) (d : ParLookup)
    : ParLookup :=
  match d with
  | [] => [(k, [e])]
  | (k', v) :: r =>
      if parent_eqb k' k then (k', v ++ [e]) :: r
      else (k', v) :: par_setdefault_append k e r
  end.

(** The first loop (lines 522-523); the [n]-th object gets the fresh empty
    list at address [n]. *)
Fixpoint par_lookup_fill (objects_set : list Object) (objects : list Object)
    (next : nat) (d : ParLookup) : ParLookup :=
  match objects with
  | [] => d
  | obj :: r =>
      par_lookup_fill objects_set r (S next)
        (par_setdefault_append (test_parent objects_set (ob_parent obj))
           (obj, next) d)
  end.

Definition store_set (a : nat) (v : list Entry) (s : Store) : Store :=
  fun b => if Nat.eqb b a then v else s b.

(** The second loop (lines 525-527): [subchildren[:] = par_lookup.get(obj, [])]
    copies the tuples, which keep pointing to the same lists. *)
Definition link_children (d : ParLookup) (children : list Entry) (s : Store)
    : Store :=
  fold_left (fun s e => store_set (snd e) (par_get (Some (fst e)) d) s)
            children s.

Definition link_all (d : ParLookup) : Store :=
  fold_left (fun s kv => link_children d (snd kv) s) d (fun _ => []).

(** The hierarchy as the caller reads it. *)
Inductive Tree : Type :=
| Node (obj : Object) (children : list Tree).

(** Reading the nested lists out of the store; [None] when [fuel] levels do
    not reach the leaves. *)
Fixpoint read_entries (fuel : nat) (s : Store) (l : list Entry)
    : option (list Tree) :=
  match fuel with
  | 0 => match l with [] => Some [] | _ :: _ => None end
  | S f =>
      map_all (fun e : Entry =>
                 match read_entries f s (s (snd e)) with
                 | Some ts => Some (Node (fst e) ts)
                 | None => None
                 end) l
  end.

Definition build_hierarchy (objects : list Object) : option (list Tree) :=
  let par_lookup := par_lookup_fill objects objects 0 [] in
  let store := link_all par_lookup in
  read_entries (List.length objects) store (par_get None par_lookup).

(* ================================================================== *)
(** * [export_object], [export_main], [export] and [save] *)
(* ================================================================== *)

(** Lines 383-412: one entry of the derived list. *)
Definition export_derived (h : Host) (opts : Options) (d : Derived) : M unit :=
  let obj_type := d_type d in
  if String.eqb obj_type "MESH" || String.eqb obj_type "CURVE"
     || String.eqb obj_type "SURFACE" || String.eqb obj_type "FONT"
  then
    let me :=
      if negb (String.eqb obj_type "MESH")
         || (use_mesh_modifiers opts && d_is_modified d)
      then d_to_mesh d else d_data d in
    match me with
    | Some me => write_indexed_face_set h opts (d_obj d) me (d_matrix d) (h_world h)
    | None => ret tt
    end
  else ret tt.

(** [export_object(obj_main_parent, obj_main, obj_children)] *)
Fixpoint export_object (h : Host) (opts : Options)
    (obj_main_parent : option Object) (node : Tree) {struct node} : M unit :=
  match node with
  | Node obj_main obj_children =>
      obj_main_id <- unique_name_object (ob_key obj_main) (ob_name obj_main) ;;
      r <- write_transform_begin (user_data opts) obj_main
             (h_matrix h obj_main_parent obj_main)
             (Some (obj_main_id ++ _TRANSFORM)%string) ;;
      for_each (match h_derived h obj_main with
                | Some derived => derived
                | None => []
                end)
               (export_derived h opts) ;;;
      (fix export_children (l : list Tree) : M unit :=
         match l with
         | [] => ret tt
         | obj_child :: rest =>
             export_object h opts (Some obj_main) obj_child ;;;
             export_children rest
         end) obj_children ;;;
      if fst r then ret tt else write_transform_end (snd r)
  end.

(** [export_main()]; the tags are cleared on entry. *)
Definition clear_tags : M unit := fun st =>
  Some (tt,
        {| fw_log := fw_log st;
           uuid_cache_object := uuid_cache_object st;
           uuid_cache_mesh := uuid_cache_mesh st;
           uuid_cache_image := uuid_cache_image st;
           mesh_tag := [];
           image_tag := [] |}).

Definition selected_objects (h : Host) (opts : Options) : list Object :=
  if use_selection opts
  then filter (fun obj => ob_visible obj && ob_select obj) (h_objects h)
  else filter ob_visible (h_objects h).

Definition export_main (h : Host) (opts : Options) : M unit :=
  clear_tags ;;;
  write_header ;;;
  objects_hierarchy <- lift (build_hierarchy (selected_objects h opts)) ;;
  for_each objects_hierarchy (export_object h opts None).

(** [export(...)]: the final state, whose [file] is the text written. *)
Definition export (h : Host) (opts : Options) : option State :=
  match export_main h opts initial_state with
  | Some (_, st) => Some st
  | None => None
  end.

(** What [json.load] finds in the override file: a document, or text it
    rejects with an exception. *)
Inductive FileContent : Type :=
| JsonDocument (table : UserData)
| Malformed.

Inductive Outcome : Type :=
| Finished (text : string)
| Raised.

(** Lines 470-473 of [save]; [files p] is [None] when [os.path.isfile(p)]
    is false. *)
Definition load_user_data (files : string -> option FileContent)
    (user_data_path : string) : option UserData :=
  match user_data_path with
  | EmptyString => Some []
  | _ =>
      match files user_data_path with
      | None => Some []
      | Some (JsonDocument table) => Some table
      | Some Malformed => None
      end
  end.

(** [save(...)]: [{'FINISHED'}] with the text of the file, or the exception
    that left it. *)
Definition save (h : Host) (files : string -> option FileContent)
    (use_selection use_mesh_modifiers : bool) (user_data_path path_mode : string)
    : Outcome :=
  match load_user_data files user_data_path with
  | None => Raised
  | Some table =>
      match export h {| user_data := table;
                        use_mesh_modifiers := use_mesh_modifiers;
                        use_selection := use_selection;
                        path_mode := path_mode |} with
      | Some st => Finished (file st)
      | None => Raised
      end
  end.

(* ================================================================== *)
(** * The identity test on binary64 numbers *)
(* ================================================================== *)

(** [nearly_equal] evaluated on the host's own number format, to check that
    an input on which the rational model is run gives the same answer with
    binary64 arithmetic.  [None] is the exception [int] raises on an
    infinity or a NaN. *)
Module Binary64.
Import PrimFloat.

Definition b64_int (x : PrimFloat.float) : option Z :=
  match FloatOps.Prim2SF x with
  | SpecFloat.S754_zero _ => Some 0%Z
  | SpecFloat.S754_finite s m e =>
      let v := match e with
               | Z0 => Zpos m
               | Zpos p => Z.shiftl (Zpos m) (Zpos p)
               | Zneg p => Z.shiftr (Zpos m) (Zpos p)
               end in
      Some (if s then Z.opp v else v)
  | _ => None
  end.

Definition nearly_equal_b64 (a b : PrimFloat.float) : option bool :=
  if PrimFloat.eqb a b then Some true
  else
    match b64_int (PrimFloat.mul a 100000%float),
          b64_int (PrimFloat.mul b 100000%float) with
    | Some x, Some y => Some (Z.eqb x y)
    | _, _ => None
    end.

(** The binary64 numbers nearest to 0.00031 and to 0.000305: the product
    of the first with 10^5 is rounded up to 31. *)
Definition near_31 : PrimFloat.float := 0x1.450efdc9c4da9p-12%float.
Definition near_30_5 : PrimFloat.float := 0x1.3fd0d0678c005p-12%float.

(** The binary64 numbers nearest to 0.999995 and to 1. *)
Definition just_below_one : PrimFloat.float := 0x1.ffff583a53b8ep-1%float.
Definition one : PrimFloat.float := 1%float.

End Binary64.

(* ================================================================== *)
(** * Example scenes *)
(* ================================================================== *)

Module Scenes.

Definition identity_matrix : Matrix :=
  {| m_loc := (0, 0, 0)%Q; m_rot := (0, 0, 1, 0)%Q; m_sca := (1, 1, 1)%Q |}.

Definition quad (a b c d : nat) : Face :=
  {| f_material_index := 0; f_vertices := [a; b; c; d]; f_use_smooth := false |}.

Definition plain (diffuse : vec3) : Material :=
  {| mat_diffuse_color := diffuse; mat_ambient := 1; mat_emit := 0;
     mat_use_face_texture := false; mat_texture_slots := [] |}.

(** The default cube: eight vertices, six quads, one material. *)
Definition cube_mesh (key : nat) (name : string) (diffuse : vec3) : Mesh :=
  {| me_key := key; me_name := name;
     me_tessfaces := [quad 0 1 2 3; quad 4 7 6 5; quad 0 4 5 1;
                      quad 1 5 6 2; quad 2 6 7 3; quad 4 0 3 7];
     me_polygons := true; me_calc_tessface := [];
     me_materials := [Some (plain diffuse)];
     me_uv_active := None;
     me_vertices := [(1, 1, -1); (1, -1, -1); (-1, -1, -1); (-1, 1, -1);
                     (1, 1, 1); (1, -1, 1); (-1, -1, 1); (-1, 1, 1)]%Q;
     me_use_auto_smooth := false; me_auto_smooth_angle := 0 |}.

Definition the_cube : Mesh := cube_mesh 100 "Cube" (8 # 10, 1 # 10, 3 # 2)%Q.


Definition cube_object (key : nat) (name : string) (parent : option Object)
    : Object :=
  {| ob_key := key; ob_name := name; ob_visible := true; ob_select := true;
     ob_bound_box := me_vertices the_cube; ob_dimensions := (2, 2, 2)%Q;
     ob_parent := parent |}.

Definition derived_self (m : Mesh) (o : Object) : Derived :=
  {| d_obj := o; d_matrix := identity_matrix; d_type := "MESH";
     d_is_modified := false; d_to_mesh := None; d_data := Some m |}.

(** One possible iteration order of a set of images: first occurrences. *)
Fixpoint first_seen (l : list (option Image)) : list (option Image) :=
  match l with
  | [] => []
  | x :: r => x :: filter (fun y => negb (image_eqb x y)) (first_seen r)
  end.


Definition scene (objects : list Object) (matrix : Matrix) (m : Mesh) : Host :=
  {| h_objects := objects;
     h_world := None;
     h_matrix := fun _ _ => matrix;
     h_derived := fun o => Some [derived_self m o];
     h_set_order := first_seen |}.

(** A single cube, and two sibling cubes that share one mesh. *)
Definition one_cube : Host :=
  scene [cube_object 1 "Cube" None] identity_matrix the_cube.

Definition two_cubes : Host :=
  scene [cube_object 1 "Cube" None; cube_object 2 "Cube.001" None]
        identity_matrix the_cube.


(** A mesh of four triangles over two materials and two images, the faces
    textured through the UV layer. *)
Definition image_a : Image :=
  {| im_key := 11; im_name := "a.png"; im_filepath_ref := "//textures/a.png";
     im_filepath_base := "a.png"; im_filepath_full := "/home/user/textures/a.png" |}.

Definition image_b : Image :=
  {| im_key := 12; im_name := "b.png"; im_filepath_ref := "//textures/b.png";
     im_filepath_base := "b.png"; im_filepath_full := "/home/user/textures/b.png" |}.

Definition textured (diffuse : vec3) : Material :=
  {| mat_diffuse_color := diffuse; mat_ambient := 1; mat_emit := 0;
     mat_use_face_texture := true; mat_texture_slots := [] |}.

Definition tri (material_index a b c : nat) : Face :=
  {| f_material_index := material_index; f_vertices := [a; b; c];
     f_use_smooth := false |}.

Definition tri_uv (image : Image) : FaceUV :=
  {| fuv_image := Some image; fuv_uv := [(0, 0); (1, 0); (0, 1)]%Q |}.

Definition two_tone : Mesh :=
  {| me_key := 200; me_name := "Tetra";
     me_tessfaces := [tri 1 0 1 2; tri 0 0 1 3; tri 1 0 2 3; tri 0 1 2 3];
     me_polygons := true; me_calc_tessface := [];
     me_materials := [Some (textured (1, 0, 0)%Q); Some (textured (0, 0, 1)%Q)];
     me_uv_active := Some [tri_uv image_b; tri_uv image_b; tri_uv image_a;
                           tri_uv image_a];
     me_vertices := [(0, 0, 0); (1, 0, 0); (0, 1, 0); (0, 0, 1)]%Q;
     me_use_auto_smooth := false; me_auto_smooth_angle := 0 |}.

Definition two_tone_scene (order : list (option Image) -> list (option Image))
    : Host :=
  {| h_objects := [cube_object 1 "Tetra" None];
     h_world := None;
     h_matrix := fun _ _ => identity_matrix;
     h_derived := fun o => Some [derived_self two_tone o];
     h_set_order := order |}.




(** A chain of three objects of which the middle one is not a candidate. *)
Definition grandparent : Object := cube_object 1 "Base" None.
Definition hidden_parent : Object := cube_object 2 "Arm" (Some grandparent).
Definition grandchild : Object := cube_object 3 "Hand" (Some hidden_parent).
Definition family : list Object := [grandparent; grandchild].

Definition options (table : UserData) : Options :=
  {| user_data := table; use_mesh_modifiers := false; use_selection := true;
     path_mode := "AUTO" |}.

Definition plain_override (type : string) : NodeData :=
  {| webotsType := type; hingeJointParameters_axis := None;
     motorName := None; positionSensorName := None |}.

(** Two sibling cubes that share one mesh and carry a modifier: [to_mesh]
    hands out a new mesh datablock for each of them, named after the object
    as the exporter renames it. *)
Definition derived_modified (m evaluated : Mesh) (o : Object) : Derived :=
  {| d_obj := o; d_matrix := identity_matrix; d_type := "MESH";
     d_is_modified := true; d_to_mesh := Some evaluated; d_data := Some m |}.

Definition modified_cubes : Host :=
  {| h_objects := [cube_object 1 "Cube" None; cube_object 2 "Cube.001" None];
     h_world := None;
     h_matrix := fun _ _ => identity_matrix;
     h_derived := fun o =>
       Some [derived_modified the_cube
               (cube_mesh (200 + ob_key o)
                  (if ob_key o =? 1 then "Cube" else "Cube.000")
                  (8 # 10, 1 # 10, 3 # 2)%Q)
               o];
     h_set_order := first_seen |}.

Definition with_modifiers (table : UserData) : Options :=
  {| user_data := table; use_mesh_modifiers := true; use_selection := true;
     path_mode := "AUTO" |}.

(** Override entries whose strings carry a bracket at an end: a hinge joint
    whose axis ends with an opening bracket, and a type that starts with a
    closing one. *)
Definition hinge_open_axis : UserData :=
  [("CUBE_TRANSFORM",
    {| webotsType := "HingeJoint";
       hingeJointParameters_axis := Some "0 0 1 [";
       motorName := None; positionSensorName := None |})].

Definition closing_type : UserData :=
  [("CUBE_TRANSFORM", plain_override "} Solid")].

(** No file at any path, and a file that [json.load] rejects. *)
Definition no_files : string -> option FileContent := fun _ => None.

Definition broken_file (path : string) : string -> option FileContent :=
  fun p => if String.eqb p path then Some Malformed else None.

End Scenes.

(* ================================================================== *)
(** * Predicates used in the statements *)
(* ================================================================== *)

(** Strictly within 1e-5 of zero. *)
Definition near_zero (t : Q) : Prop := (Qabs t < 1 # 100000)%Q.

(** At least one and less than 1 + 1e-5. *)
Definition from_one (s : Q) : Prop := (1 <= s)%Q /\ (s < 100001 # 100000)%Q.

Definition identity_within (matrix : Matrix) : Prop :=
  let '(l0, l1, l2) := m_loc matrix in
  let '(_, _, _, r3) := m_rot matrix in
  let '(s0, s1, s2) := m_sca matrix in
  near_zero l0 /\ near_zero l1 /\ near_zero l2 /\ near_zero r3
  /\ from_one s0 /\ from_one s1 /\ from_one s2.

(** The state after further calls of [fw]. *)
Definition log_add (st : State) (lines : list string) : State :=
  {| fw_log := fw_log st ++ lines;
     uuid_cache_object := uuid_cache_object st;
     uuid_cache_mesh := uuid_cache_mesh st;
     uuid_cache_image := uuid_cache_image st;
     mesh_tag := mesh_tag st;
     image_tag := image_tag st |}.

(** The fragments [write_header] hands to [fw]. *)
Definition header_fragments : list string :=
  [ "#VRML_SIM R2019a utf8" ++ LF; "WorldInfo {" ++ LF; "basicTimeStep 8" ++ LF;
    "}" ++ LF; "Viewpoint {" ++ LF;
    "orientation -0.5 -0.852 -0.159 0.71" ++ LF; "position -3.6 2.0 5.4" ++ LF;
    "}" ++ LF; "TexturedBackground {" ++ LF; "}" ++ LF;
    "TexturedBackgroundLight {" ++ LF; "}" ++ LF ]%string.

(** The fragments of the one shape of the default cube. *)
Definition cube_shape_fragments (diffuse : vec3) (coords_id : string)
    : list string :=
  [ "Shape {" ++ LF; "appearance PBRAppearance {" ++ LF;
    "baseColor " ++ format_vec3 3 (clamp_color diffuse) ++ LF;
    "emissiveColor "
      ++ format_vec3 3 (clamp_color (emissive_color None (Scenes.plain diffuse)))
      ++ LF;
    "metalness 0" ++ LF; "roughness 0.5" ++ LF; "}" ++ LF;
    "geometry IndexedFaceSet {" ++ LF; "coordIndex [" ++ LF;
    "0 1 2 3 -1 "; "4 7 6 5 -1 "; "0 4 5 1 -1 "; "1 5 6 2 -1 ";
    "2 6 7 3 -1 "; "4 0 3 7 -1 "; LF; "]" ++ LF;
    "coord "; "DEF " ++ coords_id ++ " "; "Coordinate {" ++ LF; "point [" ++ LF;
    "1.000000 1.000000 -1.000000 "; "1.000000 -1.000000 -1.000000 ";
    "-1.000000 -1.000000 -1.000000 "; "-1.000000 1.000000 -1.000000 ";
    "1.000000 1.000000 1.000000 "; "1.000000 -1.000000 1.000000 ";
    "-1.000000 -1.000000 1.000000 "; "-1.000000 1.000000 1.000000 ";
    LF; "]" ++ LF; "}" ++ LF; "}" ++ LF; "}" ++ LF ]%string.


(** The faces of a mesh as the loop of line 229 enumerates them: the index
    with the pair (material index, image). *)
Definition face_keys (mesh : Mesh) (mesh_faces_image : list (option Image))
    : list (nat * GroupKey) :=
  enumerate (combine (map f_material_index (tessfaces_of mesh)) mesh_faces_image).

(** The indices of the faces whose pair is [k], ascending. *)
Definition faces_of_key (faces : list (nat * GroupKey)) (k : GroupKey)
    : list nat :=
  map fst (filter (fun e => key_eqb k (snd e)) faces).



(** A dictionary holds a key once. *)
Inductive distinct_keys : FaceGroups -> Prop :=
| distinct_nil : distinct_keys []
| distinct_cons (k : GroupKey) (v : list nat) (d : FaceGroups) :
    (forall kv, In kv d -> key_eqb k (fst kv) = false) ->
    distinct_keys d -> distinct_keys ((k, v) :: d).

(** [k in face_groups] *)
Definition has_key (k : GroupKey) (d : FaceGroups) : bool :=
  existsb (fun kv => key_eqb (fst kv) k) d.

(** The keys [groups_init] goes through, in order. *)
Definition init_keys (n_materials : nat) (unique : list (option Image))
    : list GroupKey :=
  flat_map (fun material_index => map (pair material_index) unique)
           (seq 0 n_materials).

(** [if face_group:] of line 237. *)
Definition nonempty_group (item : GroupKey * list nat) : bool :=
  match snd item with
  | [] => false
  | _ :: _ => true
  end.

(* ================================================================== *)
(** * The hierarchy, as the specification words it *)
(* ================================================================== *)

(** The ancestor chain of an object: parent, grandparent, and so on. *)
Fixpoint ancestors (o : Object) : list Object :=
  match ob_parent o with
  | Some p => p :: ancestors p
  | None => []
  end.

(** The nearest ancestor that is itself a candidate. *)
Definition nearest (objects : list Object) (o : Object) : option Object :=
  find (in_objects objects) (ancestors o).

(** Keys are identities: no two candidates share a key, and an ancestor of
    a candidate that carries the key of a candidate is that candidate. *)
Definition scene_wf (objects : list Object) : Prop :=
  NoDup (map ob_key objects)
  /\ forall c a p, In c objects -> In a (ancestors c) -> In p objects ->
                   ob_key a = ob_key p -> a = p.

Definition root (t : Tree) : Object :=
  match t with Node obj _ => obj end.

Definition children (t : Tree) : list Tree :=
  match t with Node _ l => l end.

(** The nodes of a tree and of a forest, in depth-first order. *)
Fixpoint nodes (t : Tree) : list Tree :=
  match t with
  | Node _ l => t :: flat_map nodes l
  end.

Definition all_nodes (forest : list Tree) : list Tree := flat_map nodes forest.

(** The candidates whose nearest candidate ancestor is [p] ([None]: the
    candidates without candidate ancestor). *)
Definition children_of (objects : list Object) (p : option Object)
    : list Object :=
  filter (fun c => parent_eqb (nearest objects c) p) objects.

(** The forest with [fuel] levels below [p]. *)
Fixpoint forest_of (fuel : nat) (objects : list Object) (p : option Object)
    : list Tree :=
  match fuel with
  | 0 => []
  | S f =>
      map (fun c => Node c (forest_of f objects (Some c)))
          (children_of objects p)
  end.

(** The candidate ancestors of an object, nearest first, and the level of
    a node: one more than the number of its candidate ancestors. *)
Definition chain (objects : list Object) (o : Object) : list Object :=
  filter (in_objects objects) (ancestors o).

Definition level (objects : list Object) (p : option Object) : nat :=
  match p with
  | Some q => S (List.length (chain objects q))
  | None => 0
  end.

(** [p] is the top of the forest or a candidate. *)
Definition parent_ok (objects : list Object) (p : option Object) : Prop :=
  match p with
  | Some q => In q objects
  | None => True
  end.

(** The tuples of [build_hierarchy]: every candidate with the address of
    its list, from [next] on; and those filed under the parent [k]. *)
Definition indexed (next : nat) (objects : list Object) : list Entry :=
  combine objects (seq next (List.length objects)).

Definition entries_of (objects : list Object) (k : option Object)
    : list Entry :=
  filter (fun e => parent_eqb (test_parent objects (ob_parent (fst e))) k)
         (indexed 0 objects).

(* ================================================================== *)
(** * Fragments and depth *)
(* ================================================================== *)

(** Whether [fw] lowers the depth before, and raises it after, a line. *)
Definition line_closes (line : string) : bool := closes (PyStr.strip line).
Definition line_opens (line : string) : bool := opens (PyStr.strip line).

Definition b2z (b : bool) : Z := if b then 1%Z else 0%Z.

(** The change of [fw.indentation] over a run of calls, and the lowest value
    it takes in between, relative to the value at the start. *)
Fixpoint net (lines : list string) : Z :=
  match lines with
  | [] => 0
  | l :: r => (b2z (line_opens l) - b2z (line_closes l) + net r)%Z
  end.

Fixpoint low (lines : list string) : Z :=
  match lines with
  | [] => 0
  | l :: r =>
      Z.min (- b2z (line_closes l))
            (b2z (line_opens l) - b2z (line_closes l) + low r)
  end.

(** The strings of an override entry do not act on the depth by themselves:
    the type does not start with a closing bracket, the axis does not end
    with an opening one (white space aside); both are ASCII text, on which
    [PyStr.strip] is [str.strip]. *)
Definition override_ok (nd : NodeData) : Prop :=
  closes (PyStr.lstrip (webotsType nd)) = false
  /\ match hingeJointParameters_axis nd with
     | Some axis => opens (PyStr.rstrip axis) = false
     | None => True
     end
  /\ ascii_text (webotsType nd)
  /\ match hingeJointParameters_axis nd with
     | Some axis => ascii_text axis
     | None => True
     end.

Definition table_ok (table : UserData) : Prop :=
  Forall (fun kv => override_ok (snd kv)) table.

(** Identifiers are made of the characters of [id_char]. *)
Definition plain (s : string) : Prop := PyStr.all_chars id_char s = true.

Definition ids_ok (st : State) : Prop :=
  Forall (fun kv => plain (snd kv)) (uuid_cache_object st)
  /\ Forall (fun kv => plain (snd kv)) (uuid_cache_mesh st)
  /\ Forall (fun kv => plain (snd kv)) (uuid_cache_image st).

(** What a run of the writers does to the state: it calls [fw] on [seg],
    sets tags and adds identifiers. *)
Definition extends (st st' : State) (seg : list string) : Prop :=
  fw_log st' = fw_log st ++ seg
  /\ (forall k, mem_key k (mesh_tag st) = true -> mem_key k (mesh_tag st') = true)
  /\ (forall k, mem_key k (image_tag st) = true ->
                mem_key k (image_tag st') = true)
  /\ (forall k v, cache_get k (uuid_cache_object st) = Some v ->
                  cache_get k (uuid_cache_object st') = Some v)
  /\ (forall k v, cache_get k (uuid_cache_mesh st) = Some v ->
                  cache_get k (uuid_cache_mesh st') = Some v)
  /\ (forall k v, cache_get k (uuid_cache_image st) = Some v ->
                  cache_get k (uuid_cache_image st') = Some v).

(** [writes m Q]: a completed run of [m] from a state with plain identifiers
    leaves one, and [Q] holds of its result and of the fragments it wrote. *)
Definition writes {A : Type} (m : M A) (Q : A -> list string -> Prop) : Prop :=
  forall st a st',
    ids_ok st -> m st = Some (a, st') ->
    ids_ok st' /\ exists seg, extends st st' seg /\ Q a seg.

(** The number of definitions of a coordinate block among the fragments. *)
Definition is_coordinate_def (line : string) : bool :=
  String.eqb line ("Coordinate {" ++ LF).

Definition coord_defs (seg : list string) : nat :=
  List.length (filter is_coordinate_def seg).

(** The UV layer of a mesh, when there is one, has an entry per face. *)
Definition uv_per_face (mesh : Mesh) : Prop :=
  match me_uv_active mesh with
  | Some data => List.length data = List.length (tessfaces_of mesh)
  | None => True
  end.

(** A run of fragments that changes the depth by [k] and takes it down to
    [l] at the lowest, both relative to the depth at its start. *)
Definition bal (k l : Z) (seg : list string) : Prop :=
  net seg = k /\ low seg = l.

Definition balQ {A : Type} (k l : Z) : A -> list string -> Prop :=
  fun _ seg => bal k l seg.

(** [emits m Q]: a completed run of [m] keeps the tags and the identifiers,
    and the fragments it calls [fw] on satisfy [Q] with its result. *)
Definition emits {A : Type} (m : M A) (Q : A -> list string -> Prop) : Prop :=
  forall st a st',
    m st = Some (a, st') -> exists seg, extends st st' seg /\ Q a seg.

(** A run with [n] definitions of a coordinate block. *)
Definition cdQ {A : Type} (n : nat) : A -> list string -> Prop :=
  fun _ seg => coord_defs seg = n.

(** The same with a result that satisfies [P]. *)
Definition cdR {A : Type} (P : A -> Prop) (n : nat)
    : A -> list string -> Prop :=
  fun a seg => P a /\ coord_defs seg = n.

Definition anyQ {A : Type} : A -> list string -> Prop := fun _ _ => True.

(** The reuse references among the fragments. *)
Definition use_refs (seg : list string) : nat :=
  List.length (filter (String.prefix "USE ") seg).

(** A run that leaves the tags and the identifiers as they are. *)
Definition same_ids (st st' : State) : Prop :=
  mesh_tag st' = mesh_tag st
  /\ image_tag st' = image_tag st
  /\ uuid_cache_object st' = uuid_cache_object st
  /\ uuid_cache_mesh st' = uuid_cache_mesh st
  /\ uuid_cache_image st' = uuid_cache_image st.

Definition logs {A : Type} (m : M A) : Prop :=
  forall st a st', m st = Some (a, st') -> same_ids st st'.

(** A computation that does not call [fw] and whose result satisfies [P]. *)
Definition pureQ {A : Type} (P : A -> Prop) : A -> list string -> Prop :=
  fun a seg => P a /\ seg = [].

(** The depth a transform wrapper leaves open, from the flags that
    [write_transform_begin] returns. *)
Definition wrapper_depth (r : bool * bool) : Z :=
  if fst r then 0%Z else if snd r then 3%Z else 2%Z.

(** A run of known depth whose result satisfies [P]. *)
Definition balR {A : Type} (P : A -> Prop) (k l : Z)
    : A -> list string -> Prop :=
  fun a seg => P a /\ bal k l seg.

(* ================================================================== *)
(** * Auxiliary notions of the proofs *)
(* ================================================================== *)

(** What [slugify] makes of one character. *)
Definition sanitize (c : ascii) : ascii := if is_AZ c then c else underscore.

(** The string [slugify] hands to its last two steps. *)
Definition slug_body (s : string) : string :=
  let s := match s with EmptyString => "none" | _ => s end in
  let s := slug_loop (upper s) in
  match s with
  | String c _ => if is_AZ c then s else String underscore s
  | EmptyString => s
  end.

Definition starts_AZ (s : string) : bool :=
  match s with
  | String c _ => is_AZ c
  | EmptyString => false
  end.

(** The number of ancestors of an object. *)
Fixpoint height (o : Object) : nat :=
  match ob_parent o with
  | Some p => S (height p)
  | None => 0
  end.

(** The chain of a parent that may be absent, the parent included. *)
Definition chain_from (objs : list Object) (p : option Object) : list Object :=
  match p with
  | Some q => q :: chain objs q
  | None => []
  end.

(** Strings without any bracket. *)
Definition not_bracket (c : ascii) : bool :=
  negb (Ascii.eqb c "{" || Ascii.eqb c "[" || Ascii.eqb c "}" || Ascii.eqb c "]").

Definition bracket_free (s : string) : Prop :=
  PyStr.all_chars not_bracket s = true.

(* ================================================================== *)
(** * Further notions *)
(* ================================================================== *)

(** The text of the header as it stands in the file. *)
Definition header_text : string :=
  ("#VRML_SIM R2019a utf8" ++ LF
   ++ "WorldInfo {" ++ LF
   ++ "  basicTimeStep 8" ++ LF
   ++ "}" ++ LF
   ++ "Viewpoint {" ++ LF
   ++ "  orientation -0.5 -0.852 -0.159 0.71" ++ LF
   ++ "  position -3.6 2.0 5.4" ++ LF
   ++ "}" ++ LF
   ++ "TexturedBackground {" ++ LF
   ++ "}" ++ LF
   ++ "TexturedBackgroundLight {" ++ LF
   ++ "}" ++ LF)%string.

Definition is_underscore (c : ascii) : bool := Ascii.eqb c underscore.

(** A computation that never raises. *)
Definition total {A : Type} (m : M A) : Prop := forall st, m st <> None.

(** The iteration of a set of images reaches every image of the set. *)
Definition covers (o : list (option Image) -> list (option Image)) : Prop :=
  forall l x, In x l -> exists y, In y (o l) /\ image_eqb y x = true.

(** A mesh the geometry writer can write: the UV layer has an entry per
    face, and every face names a material slot of the mesh and has three or
    four vertices. *)
Definition mesh_wf (mesh : Mesh) : Prop :=
  uv_per_face mesh
  /\ forall f, In f (tessfaces_of mesh) ->
       f_material_index f < List.length (mesh_materials_of mesh)
       /\ (List.length (f_vertices f) = 3 \/ List.length (f_vertices f) = 4).

(** The mesh [export_object] hands to the geometry writer for an entry of
    the derived list (lines 383-390). *)
Definition derived_mesh (opts : Options) (d : Derived) : option Mesh :=
  let obj_type := d_type d in
  if String.eqb obj_type "MESH" || String.eqb obj_type "CURVE"
     || String.eqb obj_type "SURFACE" || String.eqb obj_type "FONT"
  then
    if negb (String.eqb obj_type "MESH")
       || (use_mesh_modifiers opts && d_is_modified d)
    then d_to_mesh d else d_data d
  else None.

(** An object the exporter can write: it has a bounding box, and so has
    every object of its derived list, whose meshes are well formed. *)
Definition object_wf (h : Host) (opts : Options) (o : Object) : Prop :=
  ob_bound_box o <> []
  /\ forall derived d,
       h_derived h o = Some derived -> In d derived ->
       ob_bound_box (d_obj d) <> []
       /\ forall me, derived_mesh opts d = Some me -> mesh_wf me.

(** An override entry for a hinge joint has its axis. *)
Definition hinges_ok (table : UserData) : Prop :=
  Forall (fun kv => webotsType (snd kv) = "HingeJoint" ->
                    hingeJointParameters_axis (snd kv) <> None) table.

(** The characters of the numbers the exporter prints, and of the blanks
    between them. *)
Definition numeric (c : ascii) : bool :=
  PyStr.isdigit c || Ascii.eqb c " " || Ascii.eqb c "-" || Ascii.eqb c ".".

(** References to a coordinate block among the fragments. *)
Definition is_coord_use (line : string) : bool :=
  String.prefix "coord USE " line.

Definition coord_uses (seg : list string) : nat :=
  List.length (filter is_coord_use seg).

(** A fragment that neither defines nor references a coordinate block. *)
Definition quiet (line : string) : Prop :=
  is_coordinate_def line = false /\ is_coord_use line = false.

(** A fragment that defines no coordinate block and references none but
    [id]. *)
Definition uses_only (id : string) (line : string) : Prop :=
  is_coordinate_def line = false
  /\ (is_coord_use line = true -> line = ("coord USE " ++ id ++ LF)%string).

(** ** Notions of the further properties *)

(** The state right after the header: its fragments in the log, no
    identifier taken, nothing tagged. *)
Definition header_state : State :=
  {| fw_log := header_fragments;
     uuid_cache_object := []; uuid_cache_mesh := []; uuid_cache_image := [];
     mesh_tag := []; image_tag := [] |}.


(** The [url] field of an image texture. *)
Definition url_fragment (path_mode : string) (image : Image) : string :=
  ("url [ " ++ DQ
   ++ PyStr.join " "
        (map (fun f => (DQ ++ escape f ++ DQ)%string)
             (image_urls path_mode image))
   ++ DQ ++ " ]" ++ LF)%string.

(** [f.replace('\\', '/')]. *)
Definition normalized (f : string) : string :=
  PyStr.replace_char BACKSLASH "/" f.

(** No character of [f] is a backslash. *)
Definition no_backslash (f : string) : Prop :=
  PyStr.all_chars (fun c => negb (Ascii.eqb c BACKSLASH)) f = true.

(** Every fragment written is [quiet]. *)
Definition quietQ {A : Type} : A -> list string -> Prop :=
  fun _ seg => Forall quiet seg.

(** What one shape writes about coordinates: before and after the block. *)
Definition shapeQ (id : string) (w : bool) (g : list nat)
    : bool -> list string -> Prop :=
  fun w' seg =>
    match g with
    | [] => w' = w /\ seg = []
    | _ :: _ =>
        w' = true
        /\ exists p q,
             Forall quiet p /\ Forall quiet q
             /\ seg = p ++ (if w then [("coord USE " ++ id ++ LF)%string]
                            else ["coord "; ("DEF " ++ id ++ " ")%string;
                                  ("Coordinate {" ++ LF)%string]%string)
                        ++ q
    end.

(** What the shapes of a mesh write about coordinates, from the flag
    [is_coords_written] on. *)
Definition shapesQ (id : string) (w : bool) (n : nat)
    : unit -> list string -> Prop :=
  fun _ seg =>
    if w then Forall (uses_only id) seg /\ coord_uses seg = n
    else
      match n with
      | 0 => Forall quiet seg
      | S k =>
          exists p q,
            Forall quiet p
            /\ Forall (uses_only id) q /\ coord_uses q = k
            /\ coord_defs q = 0
            /\ seg = p ++ ["coord "; ("DEF " ++ id ++ " ")%string;
                           ("Coordinate {" ++ LF)%string]%string ++ q
      end.

(** ** Where the model follows the host

    The numbers of the model are exact and [int] never raises on them; on
    binary64 it raises on a product that is not finite.  A transform is in
    range when the numbers [nearly_equal] is called on are below 10^300 in
    magnitude, so that their product with 10^5 is finite. *)
Definition in_range (x : Q) : Prop := (Qabs x < inject_Z (10 ^ 300))%Q.

Definition matrix_in_range (matrix : Matrix) : Prop :=
  let '(l0, l1, l2) := m_loc matrix in
  let '(_, _, _, r3) := m_rot matrix in
  let '(s0, s1, s2) := m_sca matrix in
  in_range l0 /\ in_range l1 /\ in_range l2 /\ in_range r3
  /\ in_range s0 /\ in_range s1 /\ in_range s2.

(** The transforms of the nodes to export and of their derived objects. *)
Definition transforms_in_range (h : Host) (opts : Options) : Prop :=
  forall o, In o (selected_objects h opts) ->
    (forall parent, matrix_in_range (h_matrix h parent o))
    /\ forall derived d, h_derived h o = Some derived -> In d derived ->
                         matrix_in_range (d_matrix d).

(** [test_parent] and [export_object] call themselves once per level of
    the hierarchy; the levels stay below the recursion limit of Python. *)
Definition within_recursion_limit (objects : list Object) : Prop :=
  Forall (fun o => List.length (ancestors o) < 500) objects.

(** The path modes that [bpy_extras.io_utils.path_reference] accepts; it
    raises on any other, the model takes its result from the image. *)
Definition valid_path_mode (pm : string) : Prop :=
  In pm ["AUTO"; "ABSOLUTE"; "RELATIVE"; "MATCH"; "STRIP"; "COPY"].

(* ================================================================== *)
(** * Notions of the statements on shapes and on shared meshes *)
(* ================================================================== *)

(** [runs m Q]: a completed run of [m] calls [fw] on fragments that satisfy
    [Q] with its result. *)
Definition runs {A : Type} (m : M A) (Q : A -> list string -> Prop) : Prop :=
  forall st a st',
    m st = Some (a, st') -> exists seg, fw_log st' = fw_log st ++ seg /\ Q a seg.

(** [steady m P]: a completed run of [m] tags no mesh and calls [fw] on
    fragments that satisfy [P]. *)
Definition steady {A : Type} (m : M A) (P : string -> Prop) : Prop :=
  forall st a st',
    m st = Some (a, st') ->
    mesh_tag st' = mesh_tag st
    /\ exists seg, fw_log st' = fw_log st ++ seg /\ Forall P seg.





(** Whether a mesh is written at all: line 166. *)
Definition has_faces (mesh : Mesh) : bool :=
  match tessfaces_of mesh with
  | [] => false
  | _ :: _ => true
  end.

(** The meshes with faces that [export_object] hands to
    [write_indexed_face_set], in the order of the calls: for the derived
    objects of a node, then for the nodes below it. *)
Definition derived_meshes (h : Host) (opts : Options) (obj_main : Object)
    : list Mesh :=
  flat_map (fun d => match derived_mesh opts d with
                     | Some me => if has_faces me then [me] else []
                     | None => []
                     end)
           (match h_derived h obj_main with
            | Some derived => derived
            | None => []
            end).

Fixpoint tree_meshes (h : Host) (opts : Options) (node : Tree) : list Mesh :=
  match node with
  | Node obj_main obj_children =>
      derived_meshes h opts obj_main ++ flat_map (tree_meshes h opts) obj_children
  end.

Definition encountered (h : Host) (opts : Options) : list Mesh :=
  match build_hierarchy (selected_objects h opts) with
  | Some forest => flat_map (tree_meshes h opts) forest
  | None => []
  end.

(** For a run of encounters of meshes, by their keys: whether each is the
    first encounter of its mesh, and the keys seen afterwards. *)
Fixpoint first_met (seen : list nat) (keys : list nat) : list bool :=
  match keys with
  | [] => []
  | k :: r =>
      if mem_key k seen then false :: first_met seen r
      else true :: first_met (k :: seen) r
  end.

Fixpoint seen_after (seen : list nat) (keys : list nat) : list nat :=
  match keys with
  | [] => seen
  | k :: r => seen_after (if mem_key k seen then seen else k :: seen) r
  end.

(** The fragments that mark the geometry of a mesh: the definition of a
    coordinate block, written with the geometry in full, and the reuse
    reference; [geometry_marks] lists them in the order of the file, [true]
    for a definition. *)
Definition is_mark (line : string) : bool :=
  is_coordinate_def line || String.prefix "USE " line.

Definition geometry_marks (seg : list string) : list bool :=
  map is_coordinate_def (filter is_mark seg).

Definition no_mark (line : string) : Prop := is_mark line = false.

(** No type of the override table makes a line that reads as a mark. *)
Definition table_unmarked (table : UserData) : Prop :=
  Forall (fun kv => no_mark (webotsType (snd kv) ++ " {" ++ LF)) table.

(** [tallies m keys]: a completed run of [m] meets the meshes of [keys], in
    that order: it tags those that were not tagged and no other, and the
    marks among its fragments are those of [keys]. *)
Definition tallies {A : Type} (m : M A) (keys : list nat) : Prop :=
  forall st a st',
    m st = Some (a, st') ->
    mesh_tag st' = seen_after (mesh_tag st) keys
    /\ exists seg, fw_log st' = fw_log st ++ seg
                   /\ geometry_marks seg = first_met (mesh_tag st) keys.

(* ================================================================== *)
(** * Properties of the string primitives *)
(* ================================================================== *)

Ltac ascii_cases c :=
  destruct c as [[] [] [] [] [] [] [] []]; try reflexivity; try discriminate.

Lemma is_AZ_not_underscore (c : ascii) :
  is_AZ c = true -> Ascii.eqb c underscore = false.
Proof. ascii_cases c. Qed.

Lemma upper_char_letter (c : ascii) :
  is_AZ (upper_char c) = is_letter c.
Proof. ascii_cases c. Qed.

Lemma string_length_app (a b : string) :
  String.length (a ++ b) = String.length a + String.length b.
Proof. induction a as [|c a IH]; simpl; [reflexivity | now rewrite IH]. Qed.

Lemma get_app_here (p : string) (c : ascii) (r : string) :
  String.get (String.length p) (p ++ String c r) = Some c.
Proof. induction p as [|d p IH]; simpl; [reflexivity | exact IH]. Qed.

Lemma take_app_here (p r : string) : PyStr.take (String.length p) (p ++ r) = p.
Proof.
  induction p as [|d p IH]; simpl.
  - destruct r; reflexivity.
  - now rewrite IH.
Qed.

Lemma drop_app_next (p : string) (c : ascii) (r : string) :
  PyStr.drop (S (String.length p)) (p ++ String c r) = r.
Proof.
  induction p as [|d p IH]; simpl.
  - destruct r; reflexivity.
  - exact IH.
Qed.

Lemma string_app_assoc (a b c : string) : ((a ++ b) ++ c = a ++ (b ++ c))%string.
Proof. induction a as [|x a IH]; simpl; [reflexivity | now rewrite IH]. Qed.

(** ** [slugify], step by step *)

Lemma slug_step_here (p : string) (c : ascii) (r : string) :
  slug_step (p ++ String c r) (String.length p) = (p ++ String (sanitize c) r)%string.
Proof.
  unfold slug_step, sanitize. rewrite get_app_here.
  destruct (is_AZ c); [reflexivity|].
  now rewrite take_app_here, drop_app_next.
Qed.

Lemma slug_loop_from (r p : string) :
  fold_left slug_step (seq (String.length p) (String.length r)) (p ++ r)%string
  = (p ++ PyStr.map_chars sanitize r)%string.
Proof.
  revert p. induction r as [|c r IH]; intro p; simpl.
  - reflexivity.
  - rewrite slug_step_here.
    replace (p ++ String (sanitize c) r)%string
      with ((p ++ String (sanitize c) EmptyString) ++ r)%string
      by (now rewrite string_app_assoc).
    replace (S (String.length p))
      with (String.length (p ++ String (sanitize c) EmptyString))
      by (rewrite string_length_app; simpl; lia).
    rewrite IH. now rewrite string_app_assoc.
Qed.

(** The index loop of [slugify] is a character-wise map. *)
Lemma slug_loop_map (s : string) : slug_loop s = PyStr.map_chars sanitize s.
Proof. exact (slug_loop_from s EmptyString). Qed.

Lemma sanitize_slug_char (c : ascii) : slug_char (sanitize c) = true.
Proof.
  unfold sanitize, slug_char. destruct (is_AZ c) eqn:E.
  - now rewrite E.
  - reflexivity.
Qed.

Lemma map_sanitize_all (s : string) :
  PyStr.all_chars slug_char (PyStr.map_chars sanitize s) = true.
Proof.
  induction s as [|c s IH]; simpl; [reflexivity|].
  now rewrite sanitize_slug_char, IH.
Qed.

Lemma replace_dunder_ind (P : string -> Prop) :
  P EmptyString ->
  (forall c, P (String c EmptyString)) ->
  (forall c d r, P r -> P (String d r) -> P (String c (String d r))) ->
  forall s, P s.
Proof.
  intros H0 H1 H2.
  assert (H : forall s, P s /\ forall c, P (String c s)).
  { induction s as [|d r [IHr IHc]].
    - split; [exact H0 | exact H1].
    - split; [apply IHc | intro c; apply H2; [exact IHr | apply IHc]]. }
  intro s. apply H.
Qed.

Lemma replace_dunder_eq (c d : ascii) (r : string) :
  replace_dunder (String c (String d r)) =
  if Ascii.eqb c underscore && Ascii.eqb d underscore
  then String underscore (replace_dunder r)
  else String c (replace_dunder (String d r)).
Proof. reflexivity. Qed.

Lemma has_dunder_eq (c d : ascii) (r : string) :
  has_dunder (String c (String d r)) =
  (Ascii.eqb c underscore && Ascii.eqb d underscore) || has_dunder (String d r).
Proof. reflexivity. Qed.

Lemma replace_dunder_all (p : ascii -> bool) (s : string) :
  PyStr.all_chars p s = true -> PyStr.all_chars p (replace_dunder s) = true.
Proof.
  induction s as [| c | c d r IHr IHd] using replace_dunder_ind; intro H.
  - reflexivity.
  - exact H.
  - rewrite replace_dunder_eq.
    cbn [PyStr.all_chars] in H.
    apply andb_true_iff in H as [Hc H'].
    destruct (Ascii.eqb c underscore && Ascii.eqb d underscore) eqn:E.
    + apply andb_true_iff in E as [Ec _].
      apply Ascii.eqb_eq in Ec. subst c.
      cbn [PyStr.all_chars]. rewrite Hc. simpl.
      apply IHr. cbn [PyStr.all_chars] in H'.
      now apply andb_true_iff in H' as [_ Hr].
    + cbn [PyStr.all_chars]. rewrite Hc. simpl. apply IHd. exact H'.
Qed.

Lemma replace_dunder_length_le (s : string) :
  String.length (replace_dunder s) <= String.length s.
Proof.
  induction s as [| c | c d r IHr IHd] using replace_dunder_ind.
  - simpl; lia.
  - simpl; lia.
  - rewrite replace_dunder_eq.
    destruct (Ascii.eqb c underscore && Ascii.eqb d underscore);
      cbn [String.length] in *; lia.
Qed.

Lemma replace_dunder_length_lt (s : string) :
  has_dunder s = true -> String.length (replace_dunder s) < String.length s.
Proof.
  induction s as [| c | c d r IHr IHd] using replace_dunder_ind; intro H.
  - discriminate.
  - discriminate.
  - rewrite replace_dunder_eq. rewrite has_dunder_eq in H.
    destruct (Ascii.eqb c underscore && Ascii.eqb d underscore).
    + pose proof (replace_dunder_length_le r). cbn [String.length]. lia.
    + simpl in H. specialize (IHd H). cbn [String.length] in *. lia.
Qed.

Lemma collapse_all (p : ascii -> bool) (fuel : nat) (s : string) :
  PyStr.all_chars p s = true -> PyStr.all_chars p (collapse fuel s) = true.
Proof.
  revert s. induction fuel as [|f IH]; intros s H; simpl; [exact H|].
  destruct (has_dunder s); [|exact H].
  apply IH. now apply replace_dunder_all.
Qed.

(** The fuel [slugify] gives to the [while] loop is enough. *)
Lemma collapse_no_dunder (fuel : nat) (s : string) :
  String.length s <= fuel -> has_dunder (collapse fuel s) = false.
Proof.
  revert s. induction fuel as [|f IH]; intros s H; simpl.
  - destruct s; [reflexivity | simpl in H; lia].
  - destruct (has_dunder s) eqn:E; [|exact E].
    apply IH. pose proof (replace_dunder_length_lt s E). lia.
Qed.

Lemma init_all (p : ascii -> bool) (s : string) :
  PyStr.all_chars p s = true -> PyStr.all_chars p (PyStr.init s) = true.
Proof.
  induction s as [|c s IH]; intro H; [reflexivity|].
  simpl in H. apply andb_true_iff in H as [Hc Hs].
  destruct s as [|d s]; [reflexivity|].
  change (PyStr.init (String c (String d s)))
    with (String c (PyStr.init (String d s))).
  cbn [PyStr.all_chars]. rewrite Hc. simpl. now apply IH.
Qed.

Lemma init_no_dunder (s : string) :
  has_dunder s = false -> has_dunder (PyStr.init s) = false.
Proof.
  induction s as [| c | c d r IHr IHd] using replace_dunder_ind; intro H.
  - reflexivity.
  - reflexivity.
  - change (PyStr.init (String c (String d r)))
      with (String c (PyStr.init (String d r))).
    rewrite has_dunder_eq in H. apply orb_false_iff in H as [H1 H2].
    specialize (IHd H2).
    destruct r as [|e r]; [reflexivity|].
    change (PyStr.init (String d (String e r)))
      with (String d (PyStr.init (String e r))) in *.
    rewrite has_dunder_eq. rewrite H1. simpl. exact IHd.
Qed.

Lemma init_last_not_underscore (s : string) :
  has_dunder s = false -> PyStr.last s = Some underscore ->
  PyStr.last (PyStr.init s) <> Some underscore.
Proof.
  induction s as [| c | c d r IHr IHd] using replace_dunder_ind; intros H L.
  - discriminate.
  - simpl. discriminate.
  - change (PyStr.init (String c (String d r)))
      with (String c (PyStr.init (String d r))).
    change (PyStr.last (String c (String d r))) with (PyStr.last (String d r)) in L.
    rewrite has_dunder_eq in H. apply orb_false_iff in H as [H1 H2].
    destruct r as [|e r].
    + simpl in L. injection L as ->.
      simpl. intro K. injection K as ->.
      simpl in H1. discriminate.
    + specialize (IHd H2 L).
      change (PyStr.init (String d (String e r)))
        with (String d (PyStr.init (String e r))) in *.
      exact IHd.
Qed.

Lemma slugify_unfold (s : string) :
  slugify s =
  let t := collapse (String.length (slug_body s)) (slug_body s) in
  match PyStr.last t with
  | Some c => if Ascii.eqb c underscore then PyStr.init t else t
  | None => t
  end.
Proof. reflexivity. Qed.

Lemma slug_body_all (s : string) :
  PyStr.all_chars slug_char (slug_body s) = true.
Proof.
  unfold slug_body. rewrite slug_loop_map.
  pose proof (map_sanitize_all
                (upper match s with EmptyString => "none" | _ => s end)) as H.
  destruct (PyStr.map_chars sanitize _) as [|c r]; [reflexivity|].
  destruct (is_AZ c); [exact H|].
  change (slug_char underscore && PyStr.all_chars slug_char (String c r) = true).
  rewrite H. reflexivity.
Qed.

Lemma slugify_all_slug_char (s : string) :
  PyStr.all_chars slug_char (slugify s) = true.
Proof.
  rewrite slugify_unfold. cbv zeta.
  pose proof (collapse_all slug_char (String.length (slug_body s)) _
                (slug_body_all s)) as H.
  destruct (PyStr.last _) as [c|]; [|exact H].
  destruct (Ascii.eqb c underscore); [now apply init_all | exact H].
Qed.

Lemma slugify_no_dunder (s : string) : has_dunder (slugify s) = false.
Proof.
  rewrite slugify_unfold. cbv zeta.
  pose proof (collapse_no_dunder (String.length (slug_body s)) (slug_body s)
                (le_n _)) as H.
  destruct (PyStr.last _) as [c|]; [|exact H].
  destruct (Ascii.eqb c underscore); [now apply init_no_dunder | exact H].
Qed.

Lemma slugify_no_trailing_underscore (s : string) :
  PyStr.last (slugify s) <> Some underscore.
Proof.
  rewrite slugify_unfold. cbv zeta.
  pose proof (collapse_no_dunder (String.length (slug_body s)) (slug_body s)
                (le_n _)) as H.
  set (t := collapse _ _) in *.
  destruct (PyStr.last t) as [c|] eqn:L.
  - destruct (Ascii.eqb c underscore) eqn:E.
    + apply Ascii.eqb_eq in E. subst c. now apply init_last_not_underscore.
    + rewrite L. intro K. injection K as ->. now rewrite Ascii.eqb_refl in E.
  - rewrite L. discriminate.
Qed.

(** ** Letters survive *)

Lemma map_sanitize_any_AZ (s : string) :
  PyStr.any_char is_AZ (PyStr.map_chars sanitize s) = PyStr.any_char is_AZ s.
Proof.
  induction s as [|c s IH]; simpl; [reflexivity|].
  rewrite IH. unfold sanitize. destruct (is_AZ c) eqn:E; [now rewrite E|].
  reflexivity.
Qed.

Lemma upper_any_AZ (s : string) :
  PyStr.any_char is_AZ (upper s) = PyStr.any_char is_letter s.
Proof.
  induction s as [|c s IH]; simpl; [reflexivity|].
  now rewrite upper_char_letter, <- IH.
Qed.

Lemma replace_dunder_any_AZ (s : string) :
  PyStr.any_char is_AZ (replace_dunder s) = PyStr.any_char is_AZ s.
Proof.
  induction s as [| c | c d r IHr IHd] using replace_dunder_ind.
  - reflexivity.
  - reflexivity.
  - rewrite replace_dunder_eq.
    destruct (Ascii.eqb c underscore && Ascii.eqb d underscore) eqn:E.
    + apply andb_true_iff in E as [Ec Ed].
      apply Ascii.eqb_eq in Ec, Ed. subst c d.
      change (PyStr.any_char is_AZ (String underscore (replace_dunder r)))
        with (PyStr.any_char is_AZ (replace_dunder r)).
      rewrite IHr. reflexivity.
    + change (is_AZ c || PyStr.any_char is_AZ (replace_dunder (String d r))
              = is_AZ c || PyStr.any_char is_AZ (String d r)).
      now rewrite IHd.
Qed.

Lemma collapse_any_AZ (fuel : nat) (s : string) :
  PyStr.any_char is_AZ (collapse fuel s) = PyStr.any_char is_AZ s.
Proof.
  revert s. induction fuel as [|f IH]; intro s; simpl; [reflexivity|].
  destruct (has_dunder s); [|reflexivity].
  now rewrite IH, replace_dunder_any_AZ.
Qed.

Lemma init_any_AZ (s : string) :
  PyStr.last s = Some underscore ->
  PyStr.any_char is_AZ (PyStr.init s) = PyStr.any_char is_AZ s.
Proof.
  induction s as [|c s IH]; intro L; [reflexivity|].
  destruct s as [|d s].
  - simpl in L. injection L as ->. reflexivity.
  - change (PyStr.init (String c (String d s)))
      with (String c (PyStr.init (String d s))).
    change (PyStr.last (String c (String d s))) with (PyStr.last (String d s)) in L.
    change (is_AZ c || PyStr.any_char is_AZ (PyStr.init (String d s))
            = is_AZ c || PyStr.any_char is_AZ (String d s)).
    now rewrite (IH L).
Qed.

Lemma slug_body_any_AZ (s : string) :
  PyStr.any_char is_letter s = true ->
  PyStr.any_char is_AZ (slug_body s) = true.
Proof.
  intro H. unfold slug_body. rewrite slug_loop_map.
  assert (K : PyStr.any_char is_AZ
                (PyStr.map_chars sanitize
                   (upper match s with EmptyString => "none" | _ => s end)) = true).
  { rewrite map_sanitize_any_AZ, upper_any_AZ.
    destruct s; [discriminate | exact H]. }
  destruct (PyStr.map_chars sanitize _) as [|c r]; [exact K|].
  destruct (is_AZ c); [exact K|].
  exact K.
Qed.

Lemma slugify_any_AZ (s : string) :
  PyStr.any_char is_letter s = true ->
  PyStr.any_char is_AZ (slugify s) = true.
Proof.
  intro H. rewrite slugify_unfold. cbv zeta.
  pose proof (collapse_any_AZ (String.length (slug_body s)) (slug_body s)) as K.
  rewrite (slug_body_any_AZ s H) in K.
  set (t := collapse _ _) in *.
  destruct (PyStr.last t) as [c|] eqn:L; [|exact K].
  destruct (Ascii.eqb c underscore) eqn:E; [|exact K].
  apply Ascii.eqb_eq in E. subst c. now rewrite init_any_AZ.
Qed.

(** ** The first character *)

Lemma replace_dunder_first (c : ascii) (r : string) :
  exists r', replace_dunder (String c r) = String c r'.
Proof.
  destruct r as [|d r]; [now exists EmptyString|].
  rewrite replace_dunder_eq.
  destruct (Ascii.eqb c underscore && Ascii.eqb d underscore) eqn:E.
  - apply andb_true_iff in E as [Ec _]. apply Ascii.eqb_eq in Ec. subst c.
    eexists; reflexivity.
  - eexists; reflexivity.
Qed.

Lemma collapse_first (fuel : nat) (c : ascii) (r : string) :
  exists r', collapse fuel (String c r) = String c r'.
Proof.
  revert r. induction fuel as [|f IH]; intro r; cbn [collapse]; [now exists r|].
  destruct (has_dunder (String c r)); [|now exists r].
  destruct (replace_dunder_first c r) as [r' ->]. apply IH.
Qed.

Lemma legal_of_slug_chars (s : string) :
  PyStr.all_chars slug_char s = true -> starts_AZ s = true ->
  legal_identifier s = true.
Proof.
  destruct s as [|c r]; [discriminate|]. simpl. intros H ->. simpl.
  apply andb_true_iff in H as [_ H]. clear c.
  induction r as [|d r IH]; [reflexivity|]. simpl in *.
  apply andb_true_iff in H as [Hd Hr]. rewrite (IH Hr), andb_true_r.
  unfold id_char, slug_char in *.
  apply orb_true_iff in Hd as [-> | ->]; [reflexivity | now rewrite orb_true_r].
Qed.

Lemma slug_body_first (s : string) :
  s <> EmptyString ->
  match s with
  | String c _ =>
      exists r, slug_body s = String (if is_letter c then upper_char c else underscore) r
  | EmptyString => True
  end.
Proof.
  intros _. destruct s as [|c s]; [exact I|].
  unfold slug_body. rewrite slug_loop_map. simpl.
  unfold sanitize at 1 2. rewrite upper_char_letter.
  destruct (is_letter c) eqn:E.
  - rewrite upper_char_letter, E. eexists; reflexivity.
  - change (is_AZ underscore) with false. cbv iota. eexists; reflexivity.
Qed.

Lemma slugify_starts_AZ (s : string) :
  starts_AZ (slugify s) = true <-> s = EmptyString \/ starts_with_letter s = true.
Proof.
  destruct s as [|c s].
  - split; [now left | reflexivity].
  - destruct (slug_body_first (String c s)) as [r Hr]; [discriminate|].
    rewrite slugify_unfold. cbv zeta. rewrite Hr.
    destruct (collapse_first (String.length (String (if is_letter c then upper_char c else underscore) r))
                (if is_letter c then upper_char c else underscore) r) as [r' ->].
    set (c' := if is_letter c then upper_char c else underscore).
    assert (Hc' : is_AZ c' = is_letter c).
    { unfold c'. destruct (is_letter c) eqn:E.
      - now rewrite upper_char_letter.
      - reflexivity. }
    change (starts_with_letter (String c s)) with (is_letter c).
    assert (G : starts_AZ
                  match PyStr.last (String c' r') with
                  | Some c0 => if Ascii.eqb c0 underscore
                               then PyStr.init (String c' r') else String c' r'
                  | None => String c' r'
                  end = true <-> is_AZ c' = true).
    { destruct (PyStr.last (String c' r')) as [c0|] eqn:L; [|reflexivity].
      destruct (Ascii.eqb c0 underscore) eqn:E; [|reflexivity].
      destruct r' as [|d r'].
      - simpl in L. injection L as <-. simpl. split; [discriminate|].
        intro K. apply is_AZ_not_underscore in K. congruence.
      - reflexivity. }
    rewrite G, Hc'. split; [now right | now intros [K|K]; [discriminate|]].
Qed.

(** C2 (counterexample): a name that starts with a digit and contains a
    letter is turned into an identifier with a leading underscore, which the
    grammar [^[A-Z][A-Z0-9_]*$] rejects; a name without any letter is
    turned into the empty string. *)
Lemma slugify_not_always_legal :
  slugify "1a" = "_A"
  /\ legal_identifier (slugify "1a") = false
  /\ slugify "1" = EmptyString.
Proof. repeat split. Qed.

(** C2 (as amended): for every input string the result of [slugify]
    consists of the characters A-Z and underscore only, contains no double
    underscore and does not end with an underscore; it is non-empty whenever
    the input contains an ASCII letter; it matches [^[A-Z][A-Z0-9_]*$]
    whenever the input is empty or starts with an ASCII letter, and, for an
    input that is ASCII text, only then (outside ASCII, [str.upper] can turn
    a first character that is no ASCII letter into one); and the empty input
    gives the placeholder NONE. *)
Theorem slugify_identifier (s : string) :
  PyStr.all_chars slug_char (slugify s) = true
  /\ has_dunder (slugify s) = false
  /\ PyStr.last (slugify s) <> Some underscore
  /\ (PyStr.any_char is_letter s = true -> slugify s <> EmptyString)
  /\ (s = EmptyString \/ starts_with_letter s = true ->
      legal_identifier (slugify s) = true)
  /\ (ascii_text s ->
      legal_identifier (slugify s) = true ->
      s = EmptyString \/ starts_with_letter s = true)
  /\ slugify EmptyString = "NONE".
Proof.
  split; [apply slugify_all_slug_char|].
  split; [apply slugify_no_dunder|].
  split; [apply slugify_no_trailing_underscore|].
  split.
  { intros H E. apply slugify_any_AZ in H. rewrite E in H. discriminate. }
  split; [|split; [|reflexivity]].
  - rewrite <- slugify_starts_AZ.
    apply legal_of_slug_chars. apply slugify_all_slug_char.
  - intros _. rewrite <- slugify_starts_AZ.
    destruct (slugify s) as [|c r]; [discriminate|].
    simpl. intro H. now apply andb_true_iff in H as [H _].
Qed.

Lemma slugify_identifier_witness :
  slugify "left wheel 2" <> EmptyString
  /\ legal_identifier (slugify "left wheel 2") = true
  /\ ("left wheel 2" = EmptyString
      \/ starts_with_letter "left wheel 2" = true).
Proof.
  destruct (slugify_identifier "left wheel 2")
    as (_ & _ & _ & H1 & H2 & H3 & _).
  split; [|split].
  - apply H1. reflexivity.
  - apply H2. right. reflexivity.
  - apply H3; reflexivity.
Defined.

(* ================================================================== *)
(** * [save] and the override table *)
(* ================================================================== *)

(** C7 (counterexample): with an override file that is present and that
    [json.load] rejects, [save] does not return [{'FINISHED'}]: the
    exception leaves it. *)
Lemma save_unparsable_table_raises :
  save Scenes.one_cube (Scenes.broken_file "overrides.json") true false
       "overrides.json" "AUTO" = Raised.
Proof. reflexivity. Qed.

(** C7 (as amended): when the override table is absent (no path given, or
    no file at the path) [save] runs the export with the empty table and
    returns its normal result whenever that export completes; when the file
    is present and [json.load] rejects it, the exception leaves [save]. *)
Theorem save_override_table (h : Host) (files : string -> option FileContent)
    (sel mods : bool) (path mode : string) :
  (path = EmptyString \/ files path = None ->
   save h files sel mods path mode =
   match export h {| user_data := []; use_mesh_modifiers := mods;
                     use_selection := sel; path_mode := mode |} with
   | Some st => Finished (file st)
   | None => Raised
   end)
  /\ (path <> EmptyString -> files path = Some Malformed ->
      save h files sel mods path mode = Raised).
Proof.
  unfold save, load_user_data. split.
  - intros [-> | H]; [reflexivity|].
    destruct path; [reflexivity|]. now rewrite H.
  - intros Hp H. destruct path; [contradiction|]. now rewrite H.
Qed.

Lemma save_override_table_witness :
  (exists text, save Scenes.one_cube Scenes.no_files true false
                  "overrides.json" "AUTO" = Finished text)
  /\ save Scenes.one_cube (Scenes.broken_file "o.json") true false
          "o.json" "AUTO" = Raised.
Proof.
  destruct (save_override_table Scenes.one_cube Scenes.no_files true false
              "overrides.json" "AUTO") as [H _].
  destruct (save_override_table Scenes.one_cube (Scenes.broken_file "o.json")
              true false "o.json" "AUTO") as [_ K].
  split.
  - rewrite H by (right; reflexivity). vm_compute. eexists. reflexivity.
  - apply K; [discriminate | reflexivity].
Defined.

(* ================================================================== *)
(** * The monad *)
(* ================================================================== *)

Lemma bind_ret_r {A : Type} (m : M A) (st : State) : bind m ret st = m st.
Proof. unfold bind, ret. destruct (m st) as [[a st']|]; reflexivity. Qed.

Lemma bind_unit_ret (m : M unit) (st : State) : (m ;;; ret tt) st = m st.
Proof. unfold bind, ret. destruct (m st) as [[[] st']|]; reflexivity. Qed.

Lemma bind_ext {A B : Type} (m : M A) (f g : A -> M B) (st : State) :
  (forall a st', f a st' = g a st') -> bind m f st = bind m g st.
Proof. intro H. unfold bind. destruct (m st) as [[a st']|]; [apply H | reflexivity]. Qed.

Lemma bind_assoc {A B C : Type} (m : M A) (f : A -> M B) (g : B -> M C)
    (st : State) :
  bind (bind m f) g st = bind m (fun a => bind (f a) g) st.
Proof. unfold bind. destruct (m st) as [[a st']|]; reflexivity. Qed.

(* ================================================================== *)
(** * [nearly_equal] *)
(* ================================================================== *)

Lemma py_int_near_zero (a : Q) :
  near_zero a -> py_int (a * inject_Z 100000) = 0%Z.
Proof.
  destruct a as [n d]. unfold near_zero, py_int, Qabs, Qlt. simpl.
  intro H. apply Z.quot_small_iff; [discriminate|].
  rewrite Z.abs_mul. simpl Z.abs. rewrite Pos.mul_1_r. lia.
Qed.

Lemma py_int_from_one (s : Q) :
  from_one s -> py_int (s * inject_Z 100000) = 100000%Z.
Proof.
  destruct s as [n d]. unfold from_one, py_int, Qle, Qlt. simpl.
  intros [H1 H2]. rewrite Pos.mul_1_r.
  rewrite Z.quot_div_nonneg by lia.
  symmetry. apply Z.div_unique with (r := (n * 100000 - Z.pos d * 100000)%Z); lia.
Qed.

Lemma nearly_equal_zero (a : Q) : near_zero a -> nearly_equal a 0 = true.
Proof.
  intro H. unfold nearly_equal, nearly_equal_sig.
  change (inject_Z (10 ^ Z.of_nat 5)) with (inject_Z 100000).
  rewrite (py_int_near_zero a H). apply orb_true_r.
Qed.

Lemma nearly_equal_one (s : Q) : from_one s -> nearly_equal s 1 = true.
Proof.
  intro H. unfold nearly_equal, nearly_equal_sig.
  change (inject_Z (10 ^ Z.of_nat 5)) with (inject_Z 100000).
  rewrite (py_int_from_one s H). apply orb_true_r.
Qed.

Lemma is_identity_within (matrix : Matrix) :
  identity_within matrix -> is_identity matrix = true.
Proof.
  unfold identity_within, is_identity.
  destruct (m_loc matrix) as [[l0 l1] l2].
  destruct (m_rot matrix) as [[[r0 r1] r2] r3].
  destruct (m_sca matrix) as [[s0 s1] s2].
  intros (H0 & H1 & H2 & H3 & H4 & H5 & H6).
  now rewrite !nearly_equal_zero, !nearly_equal_one.
Qed.

(* ================================================================== *)
(** * Identity transforms *)
(* ================================================================== *)

Lemma export_children_for_each (h : Host) (opts : Options) (parent : option Object)
    (l : list Tree) (st : State) :
  (fix export_children (l : list Tree) : M unit :=
     match l with
     | [] => ret tt
     | obj_child :: rest =>
         export_object h opts parent obj_child ;;; export_children rest
     end) l st
  = for_each l (export_object h opts parent) st.
Proof.
  revert st. induction l as [|c l IH]; intro st; [reflexivity|].
  cbn [for_each]. apply bind_ext. intros _ st'. apply IH.
Qed.

(** [export_object], with its loops written with [for_each]. *)
Lemma export_object_eq (h : Host) (opts : Options) (parent : option Object)
    (obj_main : Object) (obj_children : list Tree) (st : State) :
  export_object h opts parent (Node obj_main obj_children) st =
  (obj_main_id <- unique_name_object (ob_key obj_main) (ob_name obj_main) ;;
   r <- write_transform_begin (user_data opts) obj_main
          (h_matrix h parent obj_main)
          (Some (obj_main_id ++ _TRANSFORM)%string) ;;
   for_each (match h_derived h obj_main with
             | Some derived => derived
             | None => []
             end)
            (export_derived h opts) ;;;
   for_each obj_children (export_object h opts (Some obj_main)) ;;;
   if fst r then ret tt else write_transform_end (snd r)) st.
Proof.
  cbn [export_object].
  apply bind_ext; intros id st1.
  apply bind_ext; intros r st2.
  apply bind_ext; intros _ st3.
  unfold bind at 1 3.
  rewrite export_children_for_each. reflexivity.
Qed.

Lemma write_transform_begin_skip (table : UserData) (obj : Object)
    (matrix : Matrix) (def_id : option string) (st : State) :
  lookup_override table def_id = None ->
  is_identity matrix = true ->
  write_transform_begin table obj matrix def_id st = Some ((true, false), st).
Proof.
  intros H1 H2. unfold write_transform_begin. now rewrite H1, H2.
Qed.

(** C4 (counterexample): a scale of 0.999995 lies within 1e-5 of one, yet
    the wrapper is written and the skipped flag is false; the binary64
    evaluation of the test agrees with the rational one. *)
Lemma scale_just_below_one_not_skipped :
  let matrix := {| m_loc := (0, 0, 0)%Q; m_rot := (0, 0, 1, 0)%Q;
                   m_sca := (999995 # 1000000, 1, 1)%Q |} in
  (Qabs ((999995 # 1000000) - 1) < 1 # 100000)%Q
  /\ option_map (fun r => (fst r, fw_log (snd r)))
       (write_transform_begin [] (Scenes.cube_object 1 "Cube" None) matrix
          (Some "CUBE_TRANSFORM") initial_state)
     = Some ((false, false),
             ["DEF CUBE_TRANSFORM "; ("Transform {" ++ LF)%string;
              ("translation 0.000000 0.000000 0.000000" ++ LF)%string;
              ("scale 0.999995 1.000000 1.000000" ++ LF)%string;
              ("rotation 0.000000 0.000000 1.000000 0.000000" ++ LF)%string;
              ("children [" ++ LF)%string])
  /\ Binary64.nearly_equal_b64 Binary64.just_below_one Binary64.one = Some false.
Proof. split; [reflexivity|]. split; vm_compute; reflexivity. Qed.

(** C4 (as amended): for a node without override entry whose translation
    components and rotation angle lie strictly within 1e-5 of zero and whose
    scale components lie in [1, 1 + 1e-5), [write_transform_begin] writes
    nothing and returns the skipped flag true, and [export_object] writes
    the node's geometry and then its children with no block around them and
    nothing to close. *)
Theorem identity_transform_elided (h : Host) (opts : Options)
    (parent : option Object) (obj : Object) (children : list Tree) (st : State) :
  let matrix := h_matrix h parent obj in
  let def_id :=
    (fst (unique_name (ob_key obj) (ob_name obj) (uuid_cache_object st))
     ++ _TRANSFORM)%string in
  dict_get def_id (user_data opts) = None ->
  identity_within matrix ->
  (forall st', write_transform_begin (user_data opts) obj matrix (Some def_id) st'
               = Some ((true, false), st'))
  /\ export_object h opts parent (Node obj children) st =
     (unique_name_object (ob_key obj) (ob_name obj) ;;;
      for_each (match h_derived h obj with
                | Some derived => derived
                | None => []
                end)
               (export_derived h opts) ;;;
      for_each children (export_object h opts (Some obj))) st.
Proof.
  intros matrix def_id Hov Hid.
  assert (Hskip : forall st',
             write_transform_begin (user_data opts) obj matrix (Some def_id) st'
             = Some ((true, false), st')).
  { intro st'. apply write_transform_begin_skip; [exact Hov|].
    now apply is_identity_within. }
  split; [exact Hskip|].
  rewrite export_object_eq.
  unfold bind at 1 5. unfold unique_name_object at 1 2.
  subst def_id.
  destruct (unique_name (ob_key obj) (ob_name obj) (uuid_cache_object st))
    as [id d] eqn:E.
  cbn [fst] in *.
  unfold bind at 1. fold matrix. rewrite Hskip. cbn [fst snd].
  apply bind_ext. intros _ st1. apply bind_unit_ret.
Qed.

Lemma identity_transform_elided_witness :
  let obj := Scenes.cube_object 1 "Cube" None in
  (forall st',
      write_transform_begin [] obj Scenes.identity_matrix
        (Some "CUBE_TRANSFORM") st' = Some ((true, false), st'))
  /\ export_object Scenes.one_cube (Scenes.options []) None (Node obj [])
       initial_state =
     (unique_name_object 1 "Cube" ;;;
      for_each [Scenes.derived_self Scenes.the_cube obj]
               (export_derived Scenes.one_cube (Scenes.options [])) ;;;
      for_each [] (export_object Scenes.one_cube (Scenes.options []) (Some obj)))
       initial_state.
Proof.
  intro obj.
  apply (identity_transform_elided Scenes.one_cube (Scenes.options []) None
           obj [] initial_state).
  - reflexivity.
  - unfold identity_within, near_zero, from_one. simpl.
    repeat split; discriminate.
Defined.

(* ================================================================== *)
(** * Identifier caches *)
(* ================================================================== *)

Lemma cache_get_app_miss (key : nat) (d : list (nat * string)) (id : string) :
  cache_get key d = None -> cache_get key (d ++ [(key, id)]) = Some id.
Proof.
  induction d as [|[k v] d IH]; simpl; intro H.
  - now rewrite Nat.eqb_refl.
  - destruct (Nat.eqb k key); [discriminate | now apply IH].
Qed.

Lemma unique_name_cached (key : nat) (name : string) (d : list (nat * string)) :
  cache_get key (snd (unique_name key name d)) = Some (fst (unique_name key name d)).
Proof.
  unfold unique_name. destruct (cache_get key d) as [v|] eqn:E; simpl.
  - exact E.
  - now apply cache_get_app_miss.
Qed.






(* ================================================================== *)
(** * The cube scenario *)
(* ================================================================== *)

Lemma bind_eval {A B : Type} (m : M A) (f : A -> M B) (st st1 : State) (a : A) :
  m st = Some (a, st1) -> bind m f st = f a st1.
Proof. intro H. unfold bind. now rewrite H. Qed.

Lemma log_add_nil (st : State) : log_add st [] = st.
Proof. destruct st. unfold log_add. simpl. now rewrite app_nil_r. Qed.

Lemma log_add_add (st : State) (l1 l2 : list string) :
  log_add (log_add st l1) l2 = log_add st (l1 ++ l2).
Proof. unfold log_add. simpl. now rewrite app_assoc. Qed.

Lemma fw_log_add (line : string) (st : State) :
  fw line st = Some (tt, log_add st [line]).
Proof. reflexivity. Qed.

(** [write_transform_begin] on a node with an override entry that is not a
    hinge joint. *)
Lemma write_transform_begin_override (table : UserData) (obj : Object)
    (matrix : Matrix) (k : string) (nd : NodeData) (x y z : Q) (st : State) :
  dict_get k table = Some nd ->
  String.eqb (webotsType nd) "HingeJoint" = false ->
  bound_box_mid (map vx (ob_bound_box obj)) = Some x ->
  bound_box_mid (map vy (ob_bound_box obj)) = Some y ->
  bound_box_mid (map vz (ob_bound_box obj)) = Some z ->
  write_transform_begin table obj matrix (Some k) st =
  Some ((false, false),
        log_add st
          ([ "DEF " ++ k ++ " "; webotsType nd ++ " {" ++ LF;
             "translation " ++ format_vec3 6 (m_loc matrix) ++ LF;
             "scale " ++ format_vec3 6 (m_sca matrix) ++ LF;
             "rotation " ++ format_vec4 6 (m_rot matrix) ++ LF ]%string
           ++ (if String.eqb (webotsType nd) "Robot" then []
               else [ "physics Physics {" ++ LF; "}" ++ LF ]%string)
           ++ [ "boundingObject Transform {" ++ LF;
                "translation " ++ format_vec3 6 (x, y, z) ++ LF;
                "children [" ++ LF; "Box {" ++ LF;
                "size " ++ format_vec3 6 (ob_dimensions obj) ++ LF;
                "}" ++ LF; "]" ++ LF; "}" ++ LF; "children [" ++ LF ]%string)).
Proof.
  intros Hk Hh Hx Hy Hz.
  unfold write_transform_begin, lookup_override. rewrite Hk.
  unfold write_transform_fields. rewrite Hh, Hx, Hy, Hz.
  destruct (String.eqb (webotsType nd) "Robot");
    unfold bind, when, lift, ret; cbn [negb];
    rewrite ?fw_log_add, ?log_add_add; reflexivity.
Qed.

(** C5 (counterexample): the cube exported under an override of type Solid
    that declares nothing else does contain a bounding-object block. *)
Lemma override_cube_has_bounding_object :
  exists st,
    export Scenes.one_cube
      (Scenes.options [("CUBE_TRANSFORM", Scenes.plain_override "Solid")])
    = Some st
    /\ In ("boundingObject Transform {" ++ LF)%string (fw_log st).
Proof.
  eexists. split; [vm_compute; reflexivity|].
  cbn [fw_log]. repeat (first [left; reflexivity | right]).
Qed.

Ltac run_closed :=
  erewrite bind_eval
    by (lazy -[format_vec3 format_vec4 format_fixed clamp_color emissive_color];
        reflexivity).

(** C5 (as amended): a single cube with one material, no texture and the
    identity transform, under an override entry of a type other than
    HingeJoint, is written as the header, one named block of that type with
    the three transform fields, an empty physics block unless the type is
    Robot, a bounding-object block (a box of the node's dimensions at the
    middle of its bounding box, written for every override), and a children
    list holding one shape whose baseColor is the material's diffuse colour
    with each channel clamped to [0, 1]. *)
Theorem override_cube_output (type : string) (diffuse : vec3) :
  type <> "HingeJoint" ->
  option_map fw_log
    (export
       (Scenes.scene [Scenes.cube_object 1 "Cube" None] Scenes.identity_matrix
          (Scenes.cube_mesh 100 "Cube" diffuse))
       (Scenes.options [("CUBE_TRANSFORM", Scenes.plain_override type)]))
  = Some
      (header_fragments
       ++ [ "DEF CUBE_TRANSFORM "; type ++ " {" ++ LF;
            "translation 0.000000 0.000000 0.000000" ++ LF;
            "scale 1.000000 1.000000 1.000000" ++ LF;
            "rotation 0.000000 0.000000 1.000000 0.000000" ++ LF ]%string
       ++ (if String.eqb type "Robot" then []
           else [ "physics Physics {" ++ LF; "}" ++ LF ]%string)
       ++ [ "boundingObject Transform {" ++ LF;
            "translation 0.000000 0.000000 0.000000" ++ LF;
            "children [" ++ LF; "Box {" ++ LF;
            "size 2.000000 2.000000 2.000000" ++ LF; "}" ++ LF; "]" ++ LF;
            "}" ++ LF; "children [" ++ LF ]%string
       ++ cube_shape_fragments diffuse "COORDS_ME_CUBE"
       ++ [ "]" ++ LF; "}" ++ LF ]%string).
Proof.
  intro H. apply String.eqb_neq in H.
  destruct diffuse as [[r g] b].
  unfold export, export_main.
  run_closed. run_closed. run_closed.
  cbn [for_each]. rewrite bind_unit_ret. rewrite export_object_eq.
  run_closed.
  erewrite bind_eval
    by (eapply write_transform_begin_override with (nd := Scenes.plain_override type);
        [reflexivity | exact H | reflexivity | reflexivity | reflexivity]).
  cbn [webotsType Scenes.plain_override].
  destruct (String.eqb type "Robot");
    lazy -[format_vec3 format_vec4 format_fixed clamp_color emissive_color];
    reflexivity.
Qed.

Lemma override_cube_output_witness :
  option_map fw_log
    (export
       (Scenes.scene [Scenes.cube_object 1 "Cube" None] Scenes.identity_matrix
          (Scenes.cube_mesh 100 "Cube" (8 # 10, 1 # 10, 3 # 2)%Q))
       (Scenes.options [("CUBE_TRANSFORM", Scenes.plain_override "Solid")]))
  = Some
      (header_fragments
       ++ [ "DEF CUBE_TRANSFORM "; "Solid {" ++ LF;
            "translation 0.000000 0.000000 0.000000" ++ LF;
            "scale 1.000000 1.000000 1.000000" ++ LF;
            "rotation 0.000000 0.000000 1.000000 0.000000" ++ LF;
            "physics Physics {" ++ LF; "}" ++ LF;
            "boundingObject Transform {" ++ LF;
            "translation 0.000000 0.000000 0.000000" ++ LF;
            "children [" ++ LF; "Box {" ++ LF;
            "size 2.000000 2.000000 2.000000" ++ LF; "}" ++ LF; "]" ++ LF;
            "}" ++ LF; "children [" ++ LF ]%string
       ++ cube_shape_fragments (8 # 10, 1 # 10, 3 # 2)%Q "COORDS_ME_CUBE"
       ++ [ "]" ++ LF; "}" ++ LF ]%string).
Proof.
  apply (override_cube_output "Solid" (8 # 10, 1 # 10, 3 # 2)%Q).
  discriminate.
Defined.

(* ================================================================== *)
(** * Definitions and references *)
(* ================================================================== *)

(** C1 (the code at the failing input): two sibling objects share one mesh.
    The second encounter writes [USE GROUP_ME_CUBE]; the only [DEF] of the
    whole export is the one of the coordinates, and the text of the file
    nowhere defines [GROUP_ME_CUBE]. *)
Lemma shared_mesh_use_without_def :
  exists st,
    export Scenes.two_cubes (Scenes.options []) = Some st
    /\ In ("USE GROUP_ME_CUBE" ++ LF)%string (fw_log st)
    /\ filter (String.prefix "DEF ") (fw_log st) = ["DEF COORDS_ME_CUBE "]
    /\ String.index 0 "DEF GROUP_ME_CUBE" (file st) = None
    /\ String.index 0 "USE GROUP_ME_CUBE" (file st) <> None.
Proof.
  eexists. split; [vm_compute; reflexivity|].
  split; [cbn [fw_log]; repeat (first [left; reflexivity | right])|].
  split; [reflexivity|].
  split; [vm_compute; reflexivity | vm_compute; discriminate].
Qed.

(* ================================================================== *)
(** * Face groups and their order *)
(* ================================================================== *)








Lemma insert_item_perm (x : GroupKey * list nat) (l : FaceGroups) :
  Permutation (x :: l) (insert_item x l).
Proof.
  induction l as [|y l IH]; simpl; [apply Permutation_refl|].
  destruct (sort_key_leb (sort_key x) (sort_key y)).
  - apply Permutation_refl.
  - eapply Permutation_trans; [apply perm_swap|]. now apply perm_skip.
Qed.

Lemma sort_items_perm (l : FaceGroups) : Permutation l (sort_items l).
Proof.
  induction l as [|x l IH]; simpl; [apply perm_nil|].
  eapply Permutation_trans; [|apply insert_item_perm]. now apply perm_skip.
Qed.




(** ** Keys *)

Lemma image_eqb_refl (x : option Image) : image_eqb x x = true.
Proof. destruct x; simpl; [apply Nat.eqb_refl | reflexivity]. Qed.

Lemma image_eqb_sym (x y : option Image) : image_eqb x y = image_eqb y x.
Proof. destruct x, y; simpl; try reflexivity. apply Nat.eqb_sym. Qed.

Lemma image_eqb_trans (x y z : option Image) :
  image_eqb x y = true -> image_eqb y z = true -> image_eqb x z = true.
Proof.
  destruct x, y, z; simpl; try congruence.
  rewrite !Nat.eqb_eq. congruence.
Qed.


Lemma key_eqb_sym (a b : GroupKey) : key_eqb a b = key_eqb b a.
Proof. unfold key_eqb. now rewrite Nat.eqb_sym, image_eqb_sym. Qed.

Lemma key_eqb_trans (a b c : GroupKey) :
  key_eqb a b = true -> key_eqb b c = true -> key_eqb a c = true.
Proof.
  unfold key_eqb. rewrite !andb_true_iff, !Nat.eqb_eq.
  intros [H1 H2] [H3 H4]. split; [congruence|].
  eapply image_eqb_trans; eassumption.
Qed.

Lemma key_eqb_false_l (a b c : GroupKey) :
  key_eqb a b = true -> key_eqb a c = false -> key_eqb c b = false.
Proof.
  intros H1 H2. destruct (key_eqb c b) eqn:E; [|reflexivity].
  rewrite key_eqb_sym in E.
  now rewrite (key_eqb_trans a b c H1 E) in H2.
Qed.

Lemma has_key_fst (k : GroupKey) (d d' : FaceGroups) :
  map fst d = map fst d' -> has_key k d = has_key k d'.
Proof.
  unfold has_key. revert d'. induction d as [|[a v] d IH]; intros [|[b w] d'] H;
    simpl in *; try discriminate; [reflexivity|].
  injection H as -> H. now rewrite (IH d' H).
Qed.

Lemma distinct_keys_fst (d : FaceGroups) :
  forall d', map fst d = map fst d' -> distinct_keys d -> distinct_keys d'.
Proof.
  induction d as [|[a v] d IH]; intros [|[b w] d'] H D; simpl in *;
    try discriminate; [constructor|].
  injection H as -> H. inversion D as [|? ? ? Hk Hd]; subst.
  constructor; [|now apply (IH d')].
  intros kv Hkv. apply (in_map fst) in Hkv. rewrite <- H in Hkv.
  apply in_map_iff in Hkv as [kv' [E Hkv']]. rewrite <- E. now apply Hk.
Qed.

(** ** [groups_set] and [groups_init] *)

Lemma groups_set_fst (k : GroupKey) (d : FaceGroups) :
  map fst (groups_set k d) =
  if has_key k d then map fst d else map fst d ++ [k].
Proof.
  unfold has_key. induction d as [|[a v] d IH]; simpl; [reflexivity|].
  destruct (key_eqb a k); simpl; [reflexivity|].
  rewrite IH. now destruct (existsb _ d).
Qed.

Lemma has_key_false (k : GroupKey) (d : FaceGroups) :
  has_key k d = false -> forall kv, In kv d -> key_eqb (fst kv) k = false.
Proof.
  unfold has_key. intros H kv Hkv.
  destruct (key_eqb (fst kv) k) eqn:E; [|reflexivity].
  assert (existsb (fun kv => key_eqb (fst kv) k) d = true)
    by (apply existsb_exists; eauto).
  congruence.
Qed.

Lemma groups_set_distinct (k : GroupKey) (d : FaceGroups) :
  distinct_keys d -> distinct_keys (groups_set k d).
Proof.
  induction d as [|[a v] d IH]; intro D; simpl.
  - constructor; [intros ? []|constructor].
  - inversion D as [|? ? ? Hk Hd]; subst.
    destruct (key_eqb a k) eqn:E.
    + now constructor.
    + constructor; [|now apply IH].
      intros kv Hkv. apply (in_map fst) in Hkv.
      rewrite groups_set_fst in Hkv.
      destruct (has_key k d).
      * apply in_map_iff in Hkv as [kv' [<- Hkv']]. now apply Hk.
      * apply in_app_or in Hkv as [Hkv | [<- | []]]; [|exact E].
        apply in_map_iff in Hkv as [kv' [<- Hkv']]. now apply Hk.
Qed.

Lemma groups_set_empty (k : GroupKey) (d : FaceGroups) :
  Forall (fun kv => snd kv = []) d ->
  Forall (fun kv => snd kv = []) (groups_set k d).
Proof.
  induction d as [|[a v] d IH]; intro F; simpl.
  - repeat constructor.
  - inversion F; subst. destruct (key_eqb a k); constructor; auto.
Qed.

Lemma has_key_groups_set (k k' : GroupKey) (d : FaceGroups) :
  has_key k' (groups_set k d) = has_key k' d || key_eqb k k'.
Proof.
  unfold has_key. induction d as [|[a v] d IH]; simpl.
  - apply orb_false_r.
  - destruct (key_eqb a k) eqn:E; simpl.
    + destruct (key_eqb a k') eqn:E'; simpl; [reflexivity|].
      rewrite key_eqb_sym in E.
      destruct (key_eqb k k') eqn:E''; [|now rewrite orb_false_r].
      rewrite key_eqb_sym in E.
      assert (key_eqb a k' = true) by (eapply key_eqb_trans; eassumption).
      congruence.
    + rewrite IH. now rewrite orb_assoc.
Qed.

Lemma groups_init_fold (n : nat) (u : list (option Image)) :
  groups_init n u = fold_left (fun d k => groups_set k d) (init_keys n u) [].
Proof.
  unfold groups_init, init_keys. generalize (@nil (GroupKey * list nat)).
  induction (seq 0 n) as [|mi l IH]; intro d; simpl; [reflexivity|].
  rewrite fold_left_app, <- IH. f_equal.
  clear. revert d. induction u as [|img u IHu]; intro d; simpl; [reflexivity|].
  apply IHu.
Qed.

Lemma fold_set_props (ks : list GroupKey) :
  forall d,
    distinct_keys d -> Forall (fun kv => snd kv = []) d ->
    let d' := fold_left (fun d k => groups_set k d) ks d in
    distinct_keys d'
    /\ Forall (fun kv => snd kv = []) d'
    /\ (forall k, has_key k d' = has_key k d || existsb (fun k0 => key_eqb k0 k) ks)
    /\ (forall k, In k (map fst d') -> In k (map fst d) \/ In k ks).
Proof.
  induction ks as [|k0 ks IH]; intros d D F; simpl.
  - repeat split; auto. intro k. now rewrite orb_false_r.
  - destruct (IH (groups_set k0 d) (groups_set_distinct k0 d D)
                (groups_set_empty k0 d F)) as (D' & F' & H' & K').
    repeat split; auto.
    + intro k. rewrite H', has_key_groups_set. now rewrite orb_assoc.
    + intros k Hk. apply K' in Hk as [Hk | Hk]; [|now right; right].
      rewrite groups_set_fst in Hk. destruct (has_key k0 d); [now left|].
      apply in_app_or in Hk as [Hk | [<- | []]]; [now left | right; now left].
Qed.

(** ** [groups_append] and [groups_fill] *)

Lemma groups_append_none (k : GroupKey) (i : nat) (d : FaceGroups) :
  groups_append k i d = None <-> has_key k d = false.
Proof.
  unfold has_key. induction d as [|[a v] d IH]; simpl; [tauto|].
  destruct (key_eqb a k); simpl; [split; discriminate|].
  destruct (groups_append k i d); [split; [discriminate|] | tauto].
  intro H. apply IH in H. discriminate.
Qed.

Lemma groups_append_untouched (k : GroupKey) (i : nat) (d : FaceGroups) :
  (forall kv, In kv d -> key_eqb (fst kv) k = false) ->
  Forall2 (fun kv kv' =>
             fst kv' = fst kv
             /\ snd kv' = snd kv ++ (if key_eqb (fst kv) k then [i] else []))
          d d.
Proof.
  induction d as [|kv d IH]; intro H; constructor.
  - split; [reflexivity|]. rewrite (H kv (or_introl eq_refl)).
    now rewrite app_nil_r.
  - apply IH. intros kv' Hkv'. apply H. now right.
Qed.

Lemma groups_append_spec (k : GroupKey) (i : nat) (d : FaceGroups) :
  forall d',
    distinct_keys d -> groups_append k i d = Some d' ->
    Forall2 (fun kv kv' =>
               fst kv' = fst kv
               /\ snd kv' = snd kv ++ (if key_eqb (fst kv) k then [i] else []))
            d d'.
Proof.
  induction d as [|[a v] d IH]; intros d' D H; simpl in H; [discriminate|].
  inversion D as [|? ? ? Hk Hd]; subst.
  destruct (key_eqb a k) eqn:E.
  - injection H as <-. constructor; [simpl; now rewrite E|].
    apply groups_append_untouched. intros kv Hkv.
    exact (key_eqb_false_l a k (fst kv) E (Hk kv Hkv)).
  - destruct (groups_append k i d) as [r'|] eqn:A; [|discriminate].
    injection H as <-. constructor; [simpl; rewrite E; now rewrite app_nil_r|].
    now apply IH.
Qed.

Lemma Forall2_fst {R : GroupKey * list nat -> GroupKey * list nat -> Prop}
    (d d' : FaceGroups) :
  Forall2 R d d' -> (forall a b, R a b -> fst b = fst a) ->
  map fst d' = map fst d.
Proof.
  intros F H. induction F as [|a b d d' Hab _ IH]; simpl; [reflexivity|].
  now rewrite (H a b Hab), IH.
Qed.

Lemma groups_fill_spec (faces : list (nat * GroupKey)) :
  forall d d',
    distinct_keys d -> groups_fill faces d = Some d' ->
    Forall2 (fun kv kv' =>
               fst kv' = fst kv
               /\ snd kv' = snd kv ++ faces_of_key faces (fst kv))
            d d'.
Proof.
  induction faces as [|[i k] faces IH]; intros d d' D H; simpl in H.
  - injection H as <-. clear D. induction d; constructor; auto.
    split; [reflexivity|]. unfold faces_of_key. simpl. now rewrite app_nil_r.
  - destruct (groups_append k i d) as [d1|] eqn:A; [|discriminate].
    pose proof (groups_append_spec k i d d1 D A) as F1.
    assert (D1 : distinct_keys d1).
    { eapply distinct_keys_fst; [|exact D]. symmetry.
      eapply Forall2_fst; [exact F1|]. now intros a b [? _]. }
    pose proof (IH d1 d' D1 H) as F2.
    clear -F1 F2. revert d' F2.
    induction F1 as [|a b d d1 [Hab1 Hab2] _ IHF]; intros d' F2;
      inversion F2 as [|? c ? d2 [Hbc1 Hbc2] F2']; subst; constructor.
    + split; [congruence|].
      rewrite Hbc2, Hab2, Hab1, <- app_assoc. f_equal.
      unfold faces_of_key. simpl. now destruct (key_eqb (fst a) k).
    + now apply IHF.
Qed.

Lemma groups_fill_some (faces : list (nat * GroupKey)) :
  forall d,
    distinct_keys d ->
    (groups_fill faces d <> None
     <-> forall e, In e faces -> has_key (snd e) d = true).
Proof.
  induction faces as [|[i k] faces IH]; intros d D; simpl.
  - split; [intros _ e [] | discriminate].
  - destruct (groups_append k i d) as [d1|] eqn:A.
    + pose proof (groups_append_spec k i d d1 D A) as F1.
      assert (E1 : map fst d1 = map fst d).
      { eapply Forall2_fst; [exact F1|]. now intros a b [? _]. }
      assert (D1 : distinct_keys d1)
        by (eapply distinct_keys_fst; [symmetry; exact E1 | exact D]).
      rewrite (IH d1 D1). split.
      * intros H e [<- | He].
        -- simpl. destruct (has_key k d) eqn:K; [reflexivity|].
           apply groups_append_none with (i := i) in K. congruence.
        -- rewrite <- (has_key_fst (snd e) d1 d E1). now apply H.
      * intros H e He. rewrite (has_key_fst (snd e) d1 d E1). apply H. now right.
    + split; [congruence|]. intro H.
      apply groups_append_none in A.
      specialize (H (i, k) (or_introl eq_refl)). simpl in H. congruence.
Qed.

Lemma Forall2_in_r {A B : Type} (R : A -> B -> Prop) (l : list A) (l' : list B) :
  Forall2 R l l' -> forall b, In b l' -> exists a, In a l /\ R a b.
Proof.
  induction 1 as [|a b' l l' Hab _ IH]; intros b [].
  - subst. exists a. split; [now left | assumption].
  - destruct (IH b H) as [a' [Ha' Hr]]. exists a'. split; [now right | assumption].
Qed.

(** The dictionary once the faces are in: every key of the initial loops
    once, with the indices of the faces of that key in ascending order. *)
Lemma groups_filled (n : nat) (u : list (option Image))
    (faces : list (nat * GroupKey)) (d : FaceGroups) :
  groups_fill faces (groups_init n u) = Some d ->
  distinct_keys d
  /\ (forall kv, In kv d -> snd kv = faces_of_key faces (fst kv))
  /\ (forall kv, In kv d -> In (fst kv) (init_keys n u))
  /\ (forall k, has_key k d = existsb (fun k0 => key_eqb k0 k) (init_keys n u)).
Proof.
  intro H. rewrite groups_init_fold in H.
  destruct (fold_set_props (init_keys n u) [] distinct_nil (Forall_nil _))
    as (D0 & F0 & H0 & K0).
  pose proof (groups_fill_spec faces _ d D0 H) as F.
  assert (E : map fst d = map fst (fold_left (fun d k => groups_set k d)
                                     (init_keys n u) [])).
  { eapply Forall2_fst; [exact F|]. now intros a b [? _]. }
  split; [eapply distinct_keys_fst; [symmetry; exact E | exact D0]|].
  split; [|split].
  - intros kv Hkv. destruct (Forall2_in_r _ _ _ F kv Hkv) as [kv0 [I0 [E1 E2]]].
    rewrite Forall_forall in F0. rewrite E2, (F0 kv0 I0), E1. reflexivity.
  - intros kv Hkv. apply (in_map fst) in Hkv. rewrite E in Hkv.
    destruct (K0 _ Hkv) as [[] | ?]. assumption.
  - intro k. rewrite (has_key_fst k d _ E), H0. reflexivity.
Qed.

Lemma in_init_keys (n : nat) (u : list (option Image)) (k : GroupKey) :
  In k (init_keys n u) <-> fst k < n /\ In (snd k) u.
Proof.
  unfold init_keys. rewrite in_flat_map. split.
  - intros [mi [Hmi Hk]]. apply in_seq in Hmi.
    apply in_map_iff in Hk as [img [<- Himg]]. simpl. split; [lia | assumption].
  - intros [H1 H2]. exists (fst k). split; [apply in_seq; lia|].
    apply in_map_iff. exists (snd k). split; [now destruct k | assumption].
Qed.






Lemma write_shapes_nonempty (pm : string) (world : option vec3) (mesh : Mesh)
    (id : string) (items : FaceGroups) :
  forall (w : bool) (st : State),
    write_shapes pm world mesh id items w st
    = write_shapes pm world mesh id (filter nonempty_group items) w st.
Proof.
  induction items as [|[[mi img] g] items IH]; intros w st; [reflexivity|].
  destruct g as [|i g].
  - cbn [filter nonempty_group snd write_shapes]. unfold bind at 1.
    cbn [write_shape ret]. apply IH.
  - cbn [filter nonempty_group snd write_shapes].
    apply bind_ext. intros w' st'. apply IH.
Qed.


(* ================================================================== *)
(** * The hierarchy *)
(* ================================================================== *)

(** ** Ancestor chains *)

Lemma height_eq (o : Object) :
  height o = match ob_parent o with
             | Some p => S (height p)
             | None => 0
             end.
Proof. destruct o as [k nm v s bb dm [p|]]; reflexivity. Qed.

Lemma object_parent_ind (P : Object -> Prop) :
  (forall o, (forall p, ob_parent o = Some p -> P p) -> P o) ->
  forall o, P o.
Proof.
  intros H o.
  assert (G : forall n o, height o < n -> P o).
  { induction n as [|n IH]; intros o' Hn; [lia|].
    apply H. intros p Hp. apply IH.
    rewrite height_eq, Hp in Hn. lia. }
  apply (G (S (height o))). lia.
Qed.

Lemma ancestors_eq (o : Object) :
  ancestors o = match ob_parent o with
                | Some p => p :: ancestors p
                | None => []
                end.
Proof. destruct o as [k nm v s bb dm [p|]]; reflexivity. Qed.

Lemma test_parent_from_eq (objs : list Object) (p : Object) :
  test_parent_from objs p =
  if in_objects objs p then Some p
  else match ob_parent p with
       | Some q => test_parent_from objs q
       | None => None
       end.
Proof. destruct p as [k nm v s bb dm [q|]]; reflexivity. Qed.

(** The walk of [test_parent] finds the nearest candidate ancestor. *)
Lemma test_parent_nearest (objs : list Object) (c : Object) :
  test_parent objs (ob_parent c) = nearest objs c.
Proof.
  unfold nearest. rewrite ancestors_eq. unfold test_parent.
  destruct (ob_parent c) as [p|]; [|reflexivity]. clear c.
  induction p as [p IH] using object_parent_ind.
  rewrite test_parent_from_eq. cbn [find].
  destruct (in_objects objs p); [reflexivity|].
  rewrite ancestors_eq. destruct (ob_parent p) as [q|]; [|reflexivity].
  now apply IH.
Qed.

Lemma ancestors_height (o a : Object) : In a (ancestors o) -> height a < height o.
Proof.
  induction o as [o IH] using object_parent_ind.
  rewrite (ancestors_eq o), (height_eq o).
  destruct (ob_parent o) as [p|]; [|intros []].
  intros [<- | H]; [lia|]. specialize (IH p eq_refl H). lia.
Qed.

Lemma ancestors_split (o a : Object) :
  In a (ancestors o) -> exists pre, ancestors o = pre ++ a :: ancestors a.
Proof.
  induction o as [o IH] using object_parent_ind.
  rewrite (ancestors_eq o). destruct (ob_parent o) as [p|]; [|intros []].
  intros [<- | H].
  - now exists [].
  - destruct (IH p eq_refl H) as [pre ->]. now exists (p :: pre).
Qed.

Lemma ancestors_NoDup (o : Object) : NoDup (o :: ancestors o).
Proof.
  induction o as [o IH] using object_parent_ind.
  constructor.
  - intro H. apply ancestors_height in H. lia.
  - rewrite (ancestors_eq o). destruct (ob_parent o) as [p|]; [|constructor].
    now apply IH.
Qed.

(** ** Candidate ancestors *)

Section Candidates.

Variable objs : list Object.
Hypothesis wf : scene_wf objs.

Lemma objs_NoDup : NoDup objs.
Proof. destruct wf as [H _]. now apply NoDup_map_inv in H. Qed.

Lemma key_inj (a b : Object) :
  In a objs -> In b objs -> ob_key a = ob_key b -> a = b.
Proof.
  destruct wf as [H _]. revert H. clear wf.
  induction objs as [|x l IH]; intros N [].
  - subst x. intros [<- | Hb] E; [reflexivity|].
    inversion N as [|? ? Hn _]; subst. exfalso. apply Hn.
    rewrite E. now apply in_map.
  - intros [<- | Hb] E.
    + inversion N as [|? ? Hn _]; subst. exfalso. apply Hn.
      rewrite <- E. now apply in_map.
    + inversion N; subst. now apply IH.
Qed.

Lemma in_objects_iff (a : Object) :
  in_objects objs a = true <-> exists x, In x objs /\ ob_key x = ob_key a.
Proof.
  unfold in_objects. rewrite existsb_exists.
  split; intros [x [H1 H2]]; exists x; (split; [assumption|]);
    [now apply Nat.eqb_eq | now apply Nat.eqb_eq].
Qed.

Lemma in_objects_self (a : Object) : In a objs -> in_objects objs a = true.
Proof. intro H. apply in_objects_iff. now exists a. Qed.

Lemma chain_In (c a : Object) :
  In c objs -> In a (chain objs c) -> In a objs.
Proof.
  intros Hc Ha. apply filter_In in Ha as [Ha Hi].
  apply in_objects_iff in Hi as [x [Hx E]].
  destruct wf as [_ W]. now rewrite (W c a x Hc Ha Hx (eq_sym E)).
Qed.

Lemma nearest_head (c : Object) : nearest objs c = hd_error (chain objs c).
Proof.
  unfold nearest, chain. induction (ancestors c) as [|a l IH]; [reflexivity|].
  simpl. now destruct (in_objects objs a).
Qed.

Lemma chain_split (c a : Object) :
  In a (chain objs c) -> exists pre, chain objs c = pre ++ a :: chain objs a.
Proof.
  intro H. apply filter_In in H as [Ha Hi].
  destruct (ancestors_split c a Ha) as [pre E].
  exists (filter (in_objects objs) pre).
  unfold chain. rewrite E, filter_app. simpl. now rewrite Hi.
Qed.

Lemma chain_NoDup (c : Object) : NoDup (c :: chain objs c).
Proof.
  pose proof (ancestors_NoDup c) as H. inversion H as [|? ? Hn Hd]; subst.
  constructor.
  - intro K. apply filter_In in K as [K _]. contradiction.
  - now apply NoDup_filter.
Qed.

Lemma chain_length (c : Object) :
  In c objs -> S (List.length (chain objs c)) <= List.length objs.
Proof.
  intro Hc. change (S (List.length (chain objs c)))
    with (List.length (c :: chain objs c)).
  apply NoDup_incl_length; [apply chain_NoDup|].
  intros x [<- | Hx]; [assumption | now apply chain_In with c].
Qed.

Lemma NoDup_head_split {A : Type} (a : A) (l pre rest : list A) :
  NoDup (a :: l) -> a :: l = pre ++ a :: rest -> pre = [] /\ l = rest.
Proof.
  intros N E. destruct pre as [|b pre]; simpl in E.
  - injection E as <-. now split.
  - injection E as <- E. exfalso. inversion N as [|? ? Hn _]; subst.
    apply Hn. apply in_or_app. right. now left.
Qed.

(** The chain of a child of [p] is [p] followed by the chain of [p]. *)
Lemma chain_child (c p : Object) :
  In c objs -> In p objs ->
  parent_eqb (nearest objs c) (Some p) = true ->
  chain objs c = p :: chain objs p.
Proof.
  intros Hc Hp H. rewrite nearest_head in H.
  destruct (chain objs c) as [|a rest] eqn:E; [discriminate|].
  simpl in H. apply Nat.eqb_eq in H.
  assert (Ha : In a (chain objs c)) by (rewrite E; now left).
  assert (a = p) by (apply key_inj; [now apply chain_In with c | assumption..]).
  subst a. destruct (chain_split c p Ha) as [pre Es]. rewrite E in Es.
  assert (N : NoDup (p :: rest)).
  { pose proof (chain_NoDup c) as N. rewrite E in N.
    now inversion N. }
  destruct (NoDup_head_split p rest pre _ N Es) as [_ ->]. reflexivity.
Qed.

Lemma chain_root (c : Object) :
  parent_eqb (nearest objs c) None = true -> chain objs c = [].
Proof.
  rewrite nearest_head. destruct (chain objs c); [reflexivity | discriminate].
Qed.

Lemma children_of_In (p : option Object) (c : Object) :
  In c (children_of objs p) <->
  In c objs /\ parent_eqb (nearest objs c) p = true.
Proof. unfold children_of. apply filter_In. Qed.

(** A child is one level below its parent. *)
Lemma child_level (p : option Object) (c : Object) :
  parent_ok objs p -> In c (children_of objs p) ->
  level objs (Some c) = S (level objs p).
Proof.
  intros Hp Hc. apply children_of_In in Hc as [Hc H].
  destruct p as [q|]; simpl in *.
  - now rewrite (chain_child c q Hc Hp H).
  - now rewrite (chain_root c H).
Qed.

Lemma no_child_at_bottom (p : option Object) :
  parent_ok objs p -> List.length objs <= level objs p ->
  children_of objs p = [].
Proof.
  intros Hp Hl. destruct (children_of objs p) as [|c l] eqn:E; [reflexivity|].
  assert (Hc : In c (children_of objs p)) by (rewrite E; now left).
  pose proof (child_level p c Hp Hc) as L.
  apply children_of_In in Hc as [Hc _].
  pose proof (chain_length c Hc). simpl in L. lia.
Qed.

End Candidates.

(** ** Lists *)

Lemma NoDup_flat_map {A B : Type} (f : A -> list B) (l : list A) :
  NoDup l ->
  (forall a, In a l -> NoDup (f a)) ->
  (forall a b x, In a l -> In b l -> In x (f a) -> In x (f b) -> a = b) ->
  NoDup (flat_map f l).
Proof.
  induction l as [|a l IH]; intros N Hf Hd; simpl; [constructor|].
  inversion N as [|? ? Hn N']; subst.
  apply NoDup_app.
  - apply Hf. now left.
  - apply IH; [assumption | |].
    + intros b Hb. apply Hf. now right.
    + intros b c x Hb Hc. apply Hd; now right.
  - intros x Hx Hx'. apply in_flat_map in Hx' as [b [Hb Hxb]].
    assert (a = b) by (apply (Hd a b x); [now left | now right | assumption..]).
    subst b. contradiction.
Qed.

Lemma app_suffix_length {A : Type} (l1 l2 s1 s2 : list A) :
  l1 ++ s1 = l2 ++ s2 -> List.length s1 = List.length s2 ->
  l1 = l2 /\ s1 = s2.
Proof.
  revert l2. induction l1 as [|a l1 IH]; intros [|b l2] E L; simpl in E.
  - now split.
  - exfalso. rewrite E in L. simpl in L. rewrite length_app in L. lia.
  - exfalso. rewrite <- E in L. simpl in L. rewrite length_app in L. lia.
  - injection E as <- E. destruct (IH l2 E L) as [-> ->]. now split.
Qed.

Lemma NoDup_split_unique {A : Type} (x : A) (a1 a2 b1 b2 : list A) :
  NoDup (a1 ++ x :: b1) -> a1 ++ x :: b1 = a2 ++ x :: b2 ->
  a1 = a2 /\ b1 = b2.
Proof.
  revert a2. induction a1 as [|y a1 IH]; intros [|z a2] N E; simpl in *.
  - injection E as <-. now split.
  - injection E as <- E. exfalso. inversion N as [|? ? Hn _]; subst.
    apply Hn. apply in_or_app. right. now left.
  - injection E as -> E. exfalso. inversion N as [|? ? Hn _]; subst.
    apply Hn. apply in_or_app. right. now left.
  - injection E as <- E. inversion N; subst.
    destruct (IH a2) as [-> ->]; auto.
Qed.

(** ** The forest of the specification *)

Section Forest.

Variable objs : list Object.
Hypothesis wf : scene_wf objs.

Lemma all_nodes_forest (f : nat) (p : option Object) :
  all_nodes (forest_of (S f) objs p) =
  flat_map (fun c => Node c (forest_of f objs (Some c))
                     :: all_nodes (forest_of f objs (Some c)))
           (children_of objs p).
Proof.
  cbn [forest_of]. unfold all_nodes.
  induction (children_of objs p) as [|c l IH]; [reflexivity|].
  cbn [map flat_map nodes]. now rewrite IH.
Qed.

Lemma roots_forest (f : nat) (p : option Object) :
  map root (all_nodes (forest_of (S f) objs p)) =
  flat_map (fun c => c :: map root (all_nodes (forest_of f objs (Some c))))
           (children_of objs p).
Proof.
  rewrite all_nodes_forest.
  induction (children_of objs p) as [|c l IH]; [reflexivity|].
  cbn [flat_map]. rewrite map_app, IH. reflexivity.
Qed.

Lemma child_chain (p : option Object) (c : Object) :
  parent_ok objs p -> In c (children_of objs p) ->
  chain objs c = chain_from objs p.
Proof.
  intros Hp Hc. apply children_of_In in Hc as [Hc H].
  destruct p as [q|]; simpl in *.
  - now apply chain_child.
  - now apply chain_root.
Qed.

(** Every node of the forest below [p] is a candidate that has [p] among
    its candidate ancestors, and carries the forest below itself. *)
Lemma forest_node (f : nat) :
  forall p t,
    parent_ok objs p -> In t (all_nodes (forest_of f objs p)) ->
    In (root t) objs
    /\ (exists pre, pre <> [] /\ root t :: chain objs (root t) = pre ++ chain_from objs p)
    /\ exists f', children t = forest_of f' objs (Some (root t))
                  /\ f' + level objs (Some (root t)) = f + level objs p.
Proof.
  induction f as [|f IH]; intros p t Hp Ht; [destruct Ht|].
  rewrite all_nodes_forest in Ht. apply in_flat_map in Ht as [c [Hc Ht]].
  assert (Hco : In c objs) by (now apply children_of_In in Hc).
  destruct Ht as [<- | Ht].
  - cbn [root children]. split; [assumption|]. split.
    + exists [c]. split; [discriminate|]. simpl. f_equal.
      now apply child_chain.
    + exists f. split; [reflexivity|].
      rewrite (child_level objs wf p c Hp Hc). lia.
  - destruct (IH (Some c) t Hco Ht) as (Hr & [pre [Hn E]] & [f' [Ec El]]).
    split; [assumption|]. split.
    + exists (pre ++ [c]). split; [now destruct pre|].
      rewrite E. cbn [chain_from]. rewrite (child_chain p c Hp Hc).
      now rewrite <- app_assoc.
    + exists f'. split; [assumption|].
      rewrite El, (child_level objs wf p c Hp Hc). lia.
Qed.

Lemma forest_children (f : nat) (p : option Object) (t : Tree) :
  parent_ok objs p -> List.length objs <= f + level objs p ->
  In t (all_nodes (forest_of f objs p)) ->
  map root (children t) = children_of objs (Some (root t)).
Proof.
  intros Hp Hl Ht.
  destruct (forest_node f p t Hp Ht) as (Hr & _ & [f' [-> El]]).
  destruct f' as [|f'].
  - cbn [forest_of map]. symmetry. apply no_child_at_bottom; [assumption..|lia].
  - cbn [forest_of]. rewrite map_map. cbn [root]. apply map_id.
Qed.

Lemma forest_NoDup (f : nat) :
  forall p, parent_ok objs p ->
            NoDup (map root (all_nodes (forest_of f objs p))).
Proof.
  induction f as [|f IH]; intros p Hp; [constructor|].
  rewrite roots_forest. apply NoDup_flat_map.
  - apply NoDup_filter. now apply objs_NoDup.
  - intros c Hc. assert (Hco : In c objs) by (now apply children_of_In in Hc).
    constructor; [|now apply IH].
    intro K. apply in_map_iff in K as [t [Er Ht]].
    destruct (forest_node f (Some c) t Hco Ht) as (_ & [pre [Hn E]] & _).
    rewrite Er in E. cbn [chain_from] in E.
    pose proof (chain_NoDup objs c) as N.
    destruct pre as [|x pre]; [contradiction|].
    simpl in E. injection E as <- E. inversion N as [|? ? Hnin _]; subst.
    apply Hnin. rewrite E. apply in_or_app. right. now left.
  - intros c1 c2 x H1 H2 Hx1 Hx2.
    assert (G : forall c, In c (children_of objs p) ->
                          In x (c :: map root (all_nodes (forest_of f objs (Some c)))) ->
                          exists pre, x :: chain objs x = pre ++ c :: chain_from objs p).
    { intros c Hc [<- | Hx].
      - exists []. simpl. f_equal. now apply child_chain.
      - apply in_map_iff in Hx as [t [Er Ht]].
        assert (Hco : In c objs) by (now apply children_of_In in Hc).
        destruct (forest_node f (Some c) t Hco Ht) as (_ & [pre [_ E]] & _).
        rewrite Er in E. exists pre. rewrite E. cbn [chain_from].
        now rewrite (child_chain p c Hp Hc). }
    destruct (G c1 H1 Hx1) as [pre1 E1]. destruct (G c2 H2 Hx2) as [pre2 E2].
    rewrite E1 in E2.
    apply app_suffix_length in E2 as [_ E2]; [|reflexivity].
    now injection E2.
Qed.

Lemma forest_complete (pre : list Object) :
  forall c p f,
    parent_ok objs p -> In c objs ->
    c :: chain objs c = pre ++ chain_from objs p ->
    pre <> [] -> List.length pre <= f ->
    In c (map root (all_nodes (forest_of f objs p))).
Proof.
  induction pre as [|c' pre0 IH] using rev_ind; intros c p f Hp Hc E Hn Hl;
    [contradiction|].
  rewrite length_app in Hl. simpl in Hl.
  destruct f as [|f]; [lia|].
  rewrite roots_forest. apply in_flat_map.
  assert (child : forall x, In x objs -> chain objs x = chain_from objs p ->
                            In x (children_of objs p)).
  { intros x Hx Ex. apply children_of_In. split; [assumption|].
    rewrite (nearest_head objs), Ex.
    destruct p as [q|]; simpl; [apply Nat.eqb_refl | reflexivity]. }
  destruct pre0 as [|c0 pre0].
  - simpl in E. injection E as <- E. exists c.
    split; [now apply child | now left].
  - simpl in E. injection E as <- E.
    rewrite <- app_assoc in E. simpl in E.
    assert (Hc' : In c' (chain objs c))
      by (rewrite E; apply in_or_app; right; now left).
    assert (Hco' : In c' objs) by (now apply (chain_In objs wf c)).
    destruct (chain_split objs c c' Hc') as [pre' E'].
    assert (N : NoDup (pre0 ++ c' :: chain_from objs p)).
    { rewrite <- E. pose proof (chain_NoDup objs c) as N. now inversion N. }
    rewrite E in E'.
    destruct (NoDup_split_unique c' _ _ _ _ N E') as [<- Ec'].
    exists c'. split; [now apply child|]. right.
    apply (IH c (Some c') f); [assumption | assumption | | discriminate |].
    + cbn [chain_from]. rewrite <- Ec'. simpl. now rewrite E.
    + simpl in Hl |- *. lia.
Qed.

Lemma forest_all (c : Object) :
  In c objs ->
  In c (map root (all_nodes (forest_of (List.length objs) objs None))).
Proof.
  intro Hc. apply (forest_complete (c :: chain objs c)).
  - exact I.
  - assumption.
  - simpl. now rewrite app_nil_r.
  - discriminate.
  - now apply chain_length.
Qed.

Lemma forest_perm :
  Permutation (map root (all_nodes (forest_of (List.length objs) objs None)))
              objs.
Proof.
  apply NoDup_Permutation.
  - now apply forest_NoDup.
  - now apply objs_NoDup.
  - intro x. split.
    + intro H. apply in_map_iff in H as [t [<- Ht]].
      now apply (forest_node (List.length objs) None t I Ht).
    + apply forest_all.
Qed.

End Forest.

(** ** The dictionary and the store of [build_hierarchy] *)

Lemma parent_eqb_refl (k : option Object) : parent_eqb k k = true.
Proof. destruct k; simpl; [apply Nat.eqb_refl | reflexivity]. Qed.

Lemma parent_eqb_sym (a b : option Object) : parent_eqb a b = parent_eqb b a.
Proof. destruct a, b; simpl; try reflexivity. apply Nat.eqb_sym. Qed.

Lemma parent_eqb_trans (a b c : option Object) :
  parent_eqb a b = true -> parent_eqb b c = true -> parent_eqb a c = true.
Proof.
  destruct a, b, c; simpl; try congruence. rewrite !Nat.eqb_eq. congruence.
Qed.

Lemma parent_eqb_congr (a b c : option Object) :
  parent_eqb a b = true -> parent_eqb a c = parent_eqb b c.
Proof.
  intro H. destruct (parent_eqb b c) eqn:E.
  - eapply parent_eqb_trans; eassumption.
  - destruct (parent_eqb a c) eqn:E'; [|reflexivity].
    rewrite parent_eqb_sym in H.
    now rewrite (parent_eqb_trans b a c H E') in E.
Qed.

Lemma par_get_setdefault (k k' : option Object) (e : Entry) (d : ParLookup) :
  par_get k (par_setdefault_append k' e d) =
  par_get k d ++ (if parent_eqb k' k then [e] else []).
Proof.
  induction d as [|[k0 v] d IH]; simpl.
  - now destruct (parent_eqb k' k).
  - destruct (parent_eqb k0 k') eqn:E0; simpl.
    + rewrite <- (parent_eqb_congr k0 k' k E0).
      destruct (parent_eqb k0 k); [reflexivity | now rewrite app_nil_r].
    + destruct (parent_eqb k0 k) eqn:E1; [|apply IH].
      rewrite (parent_eqb_congr k0 k k' E1) in E0.
      rewrite parent_eqb_sym in E0. rewrite E0. now rewrite app_nil_r.
Qed.

Lemma par_get_fill (objects_set : list Object) (k : option Object)
    (objects : list Object) :
  forall next d,
    par_get k (par_lookup_fill objects_set objects next d) =
    par_get k d
    ++ filter (fun e => parent_eqb
                          (test_parent objects_set (ob_parent (fst e))) k)
              (indexed next objects).
Proof.
  induction objects as [|obj r IH]; intros next d; simpl.
  - now rewrite app_nil_r.
  - rewrite IH, par_get_setdefault, <- app_assoc. f_equal.
    unfold indexed. simpl.
    now destruct (parent_eqb _ k).
Qed.

Lemma in_entries_setdefault (k : option Object) (e0 e : Entry) (d : ParLookup) :
  In e (flat_map snd (par_setdefault_append k e0 d))
  <-> e = e0 \/ In e (flat_map snd d).
Proof.
  induction d as [|[k0 v] d IH]; simpl.
  - intuition.
  - destruct (parent_eqb k0 k); simpl.
    + rewrite !in_app_iff. simpl. intuition.
    + rewrite !in_app_iff, IH. intuition.
Qed.

Lemma in_entries_fill (objects_set : list Object) (e : Entry)
    (objects : list Object) :
  forall next d,
    In e (flat_map snd (par_lookup_fill objects_set objects next d))
    <-> In e (flat_map snd d) \/ In e (indexed next objects).
Proof.
  induction objects as [|obj r IH]; intros next d; simpl.
  - unfold indexed. simpl. intuition.
  - rewrite IH, in_entries_setdefault. unfold indexed. simpl. intuition.
Qed.

Lemma indexed_functional (objects : list Object) :
  forall next e1 e2,
    In e1 (indexed next objects) -> In e2 (indexed next objects) ->
    snd e1 = snd e2 -> e1 = e2.
Proof.
  unfold indexed.
  induction objects as [|obj r IH]; intros next e1 e2 H1 H2 E; [destruct H1|].
  simpl in H1, H2.
  assert (B : forall e, In e (combine r (seq (S next) (List.length r))) ->
                        S next <= snd e).
  { intros [c a] He. apply in_combine_r in He. apply in_seq in He. simpl. lia. }
  destruct H1 as [<- | H1], H2 as [<- | H2]; [reflexivity | | |].
  - apply B in H2. simpl in E. lia.
  - apply B in H1. simpl in E. lia.
  - now apply (IH (S next)).
Qed.

Lemma link_all_fold (d : ParLookup) :
  link_all d =
  fold_left (fun s e => store_set (snd e) (par_get (Some (fst e)) d) s)
            (flat_map snd d) (fun _ => []).
Proof.
  unfold link_all, link_children.
  generalize (fun _ : nat => @nil Entry). generalize d at 1 3.
  induction d as [|[k v] r IH]; intros d0 s; simpl; [reflexivity|].
  now rewrite fold_left_app, IH.
Qed.

Lemma store_fold (G : Object -> list Entry) (es : list Entry) :
  forall s,
    (forall e1 e2, In e1 es -> In e2 es -> snd e1 = snd e2 -> e1 = e2) ->
    let s' := fold_left (fun s e => store_set (snd e) (G (fst e)) s) es s in
    (forall e, In e es -> s' (snd e) = G (fst e))
    /\ (forall a, ~ In a (map snd es) -> s' a = s a).
Proof.
  induction es as [|e0 es IH]; intros s F; simpl.
  - split; [intros e [] | reflexivity].
  - destruct (IH (store_set (snd e0) (G (fst e0)) s)) as [I1 I2].
    { intros e1 e2 H1 H2. apply F; now right. }
    split.
    + intros e [<- | He]; [|now apply I1].
      destruct (in_dec Nat.eq_dec (snd e0) (map snd es)) as [Hin | Hnin].
      * apply in_map_iff in Hin as [e' [E He']].
        assert (e' = e0) by (apply F; [now right | now left | assumption]).
        subst e'. now apply I1.
      * rewrite (I2 _ Hnin). unfold store_set. now rewrite Nat.eqb_refl.
    + intros a Ha. rewrite I2 by (intro K; apply Ha; now right).
      unfold store_set. destruct (Nat.eqb a (snd e0)) eqn:E; [|reflexivity].
      apply Nat.eqb_eq in E. exfalso. apply Ha. now left.
Qed.

Lemma map_all_some {A B : Type} (g : A -> option B) (g' : A -> B) (l : list A) :
  (forall x, In x l -> g x = Some (g' x)) -> map_all g l = Some (map g' l).
Proof.
  induction l as [|x l IH]; intro H; simpl; [reflexivity|].
  rewrite (H x (or_introl eq_refl)), IH; [reflexivity|].
  intros y Hy. apply H. now right.
Qed.

Lemma map_fst_filter_indexed (P : Object -> bool) (objects : list Object) :
  forall next,
    map fst (filter (fun e => P (fst e)) (indexed next objects))
    = filter P objects.
Proof.
  unfold indexed. induction objects as [|obj r IH]; intro next; simpl;
    [reflexivity|].
  destruct (P obj); simpl; now rewrite IH.
Qed.

Section Build.

Variable objs : list Object.
Hypothesis wf : scene_wf objs.

Let par_lookup := par_lookup_fill objs objs 0 [].
Let store := link_all par_lookup.

Lemma par_get_entries (k : option Object) :
  par_get k par_lookup = entries_of objs k.
Proof. unfold par_lookup. now rewrite par_get_fill. Qed.

Lemma entries_children (k : option Object) :
  map fst (entries_of objs k) = children_of objs k.
Proof.
  unfold entries_of, children_of.
  rewrite (map_fst_filter_indexed
             (fun c => parent_eqb (test_parent objs (ob_parent c)) k)).
  apply filter_ext. intro c. now rewrite test_parent_nearest.
Qed.

Lemma store_entry (e : Entry) :
  In e (indexed 0 objs) -> store (snd e) = entries_of objs (Some (fst e)).
Proof.
  intro He. unfold store. rewrite link_all_fold.
  assert (S : forall x, In x (flat_map snd par_lookup) <-> In x (indexed 0 objs)).
  { intro x. unfold par_lookup. rewrite in_entries_fill. simpl. intuition. }
  destruct (store_fold (fun c => par_get (Some c) par_lookup)
              (flat_map snd par_lookup) (fun _ => [])) as [H _].
  { intros e1 e2 H1 H2. apply (indexed_functional objs 0); now apply S. }
  rewrite H by (now apply S). apply par_get_entries.
Qed.

(** Reading the store gives the forest of the specification, as soon as
    the fuel reaches the deepest level. *)
Lemma read_entries_forest (f : nat) :
  forall k,
    parent_ok objs k -> List.length objs <= f + level objs k ->
    read_entries f store (entries_of objs k) = Some (forest_of f objs k).
Proof.
  induction f as [|f IH]; intros k Hk Hl.
  - pose proof (entries_children k) as E.
    rewrite (no_child_at_bottom objs wf k Hk Hl) in E.
    destruct (entries_of objs k); [reflexivity | discriminate].
  - cbn [read_entries forest_of]. rewrite <- entries_children, map_map.
    apply map_all_some. intros e He.
    assert (Hi : In e (indexed 0 objs)) by (now apply filter_In in He).
    assert (Hc : In (fst e) (children_of objs k)).
    { rewrite <- entries_children. now apply in_map. }
    rewrite (store_entry e Hi), IH; [reflexivity | |].
    + now apply children_of_In in Hc.
    + rewrite (child_level objs wf k (fst e) Hk Hc). lia.
Qed.

Lemma build_hierarchy_forest_of :
  build_hierarchy objs = Some (forest_of (List.length objs) objs None).
Proof.
  unfold build_hierarchy. fold par_lookup. fold store.
  rewrite par_get_entries. apply read_entries_forest; [exact I | lia].
Qed.

End Build.

Lemma roots_filter (objs : list Object) :
  children_of objs None =
  filter (fun c => negb (existsb (in_objects objs) (ancestors c))) objs.
Proof.
  unfold children_of. apply filter_ext. intro c. unfold nearest.
  induction (ancestors c) as [|a l IH]; simpl; [reflexivity|].
  destruct (in_objects objs a); [reflexivity | exact IH].
Qed.

(** C9: for a list of distinct candidates (keys are identities; the parent
    chain of an object is part of its value, hence free of cycles)
    [build_hierarchy] returns a forest in which every candidate occurs
    exactly once, whose roots are the candidates without ancestor among the
    candidates, and in which the children of a node are the candidates
    whose nearest ancestor among the candidates is that node; ancestors
    that are not candidates are walked over. *)
Theorem build_hierarchy_forest (objs : list Object) :
  scene_wf objs ->
  exists forest,
    build_hierarchy objs = Some forest
    /\ Permutation (map root (all_nodes forest)) objs
    /\ map root forest =
       filter (fun c => negb (existsb (in_objects objs) (ancestors c))) objs
    /\ forall t, In t (all_nodes forest) ->
         map root (children t) =
         filter (fun c => match nearest objs c with
                          | Some a => Nat.eqb (ob_key a) (ob_key (root t))
                          | None => false
                          end) objs.
Proof.
  intro wf. exists (forest_of (List.length objs) objs None).
  split; [now apply build_hierarchy_forest_of|].
  split; [now apply forest_perm|].
  split.
  - rewrite <- roots_filter. destruct objs as [|o l]; [reflexivity|].
    cbn [List.length forest_of]. rewrite map_map. cbn [root]. apply map_id.
  - intros t Ht.
    rewrite (forest_children objs wf (List.length objs) None t I); [|lia|exact Ht].
    reflexivity.
Qed.

Lemma family_wf : scene_wf Scenes.family.
Proof.
  split.
  - repeat constructor; simpl; intuition discriminate.
  - intros c a p Hc Ha Hp E. simpl in Hc, Hp.
    destruct Hc as [<- | [<- | []]]; simpl in Ha;
      repeat (destruct Ha as [<- | Ha]; [|]); try contradiction;
      destruct Hp as [<- | [<- | []]]; try reflexivity; discriminate E.
Defined.

Lemma build_hierarchy_forest_witness :
  exists forest,
    build_hierarchy Scenes.family = Some forest
    /\ Permutation (map root (all_nodes forest)) Scenes.family
    /\ map root forest = [Scenes.grandparent].
Proof.
  destruct (build_hierarchy_forest Scenes.family family_wf)
    as (forest & H1 & H2 & H3 & _).
  exists forest. split; [exact H1|]. split; [exact H2|].
  rewrite H3. reflexivity.
Defined.

Example build_hierarchy_family :
  build_hierarchy Scenes.family
  = Some [Node Scenes.grandparent [Node Scenes.grandchild []]].
Proof. reflexivity. Qed.

(* ================================================================== *)
(** * Stripping and brackets *)
(* ================================================================== *)

Lemma lstrip_all (p : ascii -> bool) (s : string) :
  PyStr.all_chars p s = true -> PyStr.all_chars p (PyStr.lstrip s) = true.
Proof.
  induction s as [|c s IH]; intro H; [reflexivity|].
  cbn [PyStr.lstrip]. destruct (PyStr.isspace c); [|exact H].
  simpl in H. apply andb_true_iff in H as [_ H]. now apply IH.
Qed.

Lemma rstrip_all (p : ascii -> bool) (s : string) :
  PyStr.all_chars p s = true -> PyStr.all_chars p (PyStr.rstrip s) = true.
Proof.
  induction s as [|c s IH]; intro H; [reflexivity|].
  simpl in H. apply andb_true_iff in H as [Hc Hs]. specialize (IH Hs).
  cbn [PyStr.rstrip]. destruct (PyStr.rstrip s) as [|d r].
  - destruct (PyStr.isspace c); [reflexivity|]. simpl. now rewrite Hc.
  - change (p c && PyStr.all_chars p (String d r) = true). now rewrite Hc.
Qed.

Lemma strip_all (p : ascii -> bool) (s : string) :
  PyStr.all_chars p s = true -> PyStr.all_chars p (PyStr.strip s) = true.
Proof. intro H. unfold PyStr.strip. now apply rstrip_all, lstrip_all. Qed.

Lemma last_all (p : ascii -> bool) (s : string) (c : ascii) :
  PyStr.all_chars p s = true -> PyStr.last s = Some c -> p c = true.
Proof.
  induction s as [|a s IH]; intros H L; [discriminate|].
  simpl in H. apply andb_true_iff in H as [Ha Hs].
  destruct s as [|b s]; [simpl in L; now injection L as <-|].
  now apply IH.
Qed.

Lemma not_bracket_open (c : ascii) :
  not_bracket c = true -> Ascii.eqb c "{" || Ascii.eqb c "[" = false.
Proof.
  unfold not_bracket. destruct (Ascii.eqb c "{"), (Ascii.eqb c "[");
    simpl; congruence.
Qed.

Lemma not_bracket_close (c : ascii) :
  not_bracket c = true -> Ascii.eqb c "}" || Ascii.eqb c "]" = false.
Proof.
  unfold not_bracket.
  destruct (Ascii.eqb c "{"), (Ascii.eqb c "["), (Ascii.eqb c "}"),
    (Ascii.eqb c "]"); simpl; congruence.
Qed.

(** A line without bracket characters leaves the depth alone. *)
Lemma bracket_free_neutral (line : string) :
  bracket_free line -> line_closes line = false /\ line_opens line = false.
Proof.
  intro H. apply strip_all in H. unfold line_closes, line_opens, closes, opens.
  unfold PyStr.startswith, PyStr.endswith. split.
  - destruct (PyStr.strip line) as [|c r]; [reflexivity|].
    simpl in H. apply andb_true_iff in H as [Hc _].
    now apply not_bracket_close.
  - destruct (PyStr.last (PyStr.strip line)) as [c|] eqn:L; [|reflexivity].
    apply not_bracket_open. eapply last_all; eassumption.
Qed.

Lemma all_chars_app (p : ascii -> bool) (a b : string) :
  PyStr.all_chars p (a ++ b) = PyStr.all_chars p a && PyStr.all_chars p b.
Proof.
  induction a as [|c a IH]; simpl; [reflexivity|].
  now rewrite IH, andb_assoc.
Qed.

Lemma bracket_free_app (a b : string) :
  bracket_free a -> bracket_free b -> bracket_free (a ++ b).
Proof. unfold bracket_free. intros Ha Hb. now rewrite all_chars_app, Ha, Hb. Qed.

Lemma all_chars_impl (p q : ascii -> bool) (s : string) :
  (forall c, p c = true -> q c = true) ->
  PyStr.all_chars p s = true -> PyStr.all_chars q s = true.
Proof.
  intro H. induction s as [|c s IH]; simpl; [reflexivity|].
  intro K. apply andb_true_iff in K as [Kc Ks]. now rewrite (H c Kc), IH.
Qed.

Lemma id_char_not_bracket (c : ascii) : id_char c = true -> not_bracket c = true.
Proof. ascii_cases c. Qed.

Lemma plain_bracket_free (s : string) : plain s -> bracket_free s.
Proof. apply all_chars_impl, id_char_not_bracket. Qed.

Lemma plain_app (a b : string) : plain a -> plain b -> plain (a ++ b).
Proof. unfold plain. intros Ha Hb. now rewrite all_chars_app, Ha, Hb. Qed.

(** ** Lines with a known first or last character *)

Lemma startswith_rstrip (s : string) (c : ascii) :
  match s with
  | String a _ => PyStr.isspace a = false
  | EmptyString => True
  end ->
  PyStr.startswith (PyStr.rstrip s) c = PyStr.startswith s c.
Proof.
  destruct s as [|a r]; [reflexivity|]. intro H. cbn [PyStr.rstrip].
  destruct (PyStr.rstrip r); [now rewrite H | reflexivity].
Qed.

Lemma lstrip_head (s : string) :
  match PyStr.lstrip s with
  | String a _ => PyStr.isspace a = false
  | EmptyString => True
  end.
Proof.
  induction s as [|c s IH]; [exact I|]. cbn [PyStr.lstrip].
  destruct (PyStr.isspace c) eqn:E; [exact IH | exact E].
Qed.

Lemma closes_strip (s : string) : line_closes s = closes (PyStr.lstrip s).
Proof.
  unfold line_closes, closes, PyStr.strip.
  now rewrite !startswith_rstrip by apply lstrip_head.
Qed.

Lemma last_cons (c : ascii) (s : string) :
  PyStr.last (String c s) = match s with
                            | EmptyString => Some c
                            | _ => PyStr.last s
                            end.
Proof. destruct s; reflexivity. Qed.

Lemma last_rstrip_lstrip (s : string) :
  PyStr.last (PyStr.rstrip (PyStr.lstrip s)) = PyStr.last (PyStr.rstrip s).
Proof.
  induction s as [|c s IH]; [reflexivity|]. cbn [PyStr.lstrip].
  destruct (PyStr.isspace c) eqn:E; [|reflexivity].
  rewrite IH. cbn [PyStr.rstrip]. rewrite E.
  destruct (PyStr.rstrip s) as [|d r]; [reflexivity|].
  now rewrite last_cons.
Qed.

Lemma opens_strip (s : string) : line_opens s = opens (PyStr.rstrip s).
Proof.
  unfold line_opens, opens, PyStr.endswith, PyStr.strip.
  now rewrite last_rstrip_lstrip.
Qed.

Lemma rstrip_app (a b : string) :
  PyStr.rstrip (a ++ b) =
  match PyStr.rstrip b with
  | EmptyString => PyStr.rstrip a
  | _ => (a ++ PyStr.rstrip b)%string
  end.
Proof.
  induction a as [|c a IH]; simpl.
  - now destruct (PyStr.rstrip b).
  - rewrite IH. destruct (PyStr.rstrip b) as [|d r]; [reflexivity|].
    destruct a; reflexivity.
Qed.

Lemma last_app (a b : string) :
  PyStr.last (a ++ b) = match b with
                        | EmptyString => PyStr.last a
                        | _ => PyStr.last b
                        end.
Proof.
  induction a as [|c a IH].
  - simpl. now destruct b.
  - destruct a as [|d a].
    + simpl. now destruct b.
    + change (PyStr.last (String d a ++ b)
              = match b with
                | EmptyString => PyStr.last (String d a)
                | _ => PyStr.last b
                end).
      exact IH.
Qed.

(** ** Formatted numbers and identifiers *)

Lemma digit_char_isdigit (n : N) : PyStr.isdigit (PyStr.digit_char n) = true.
Proof.
  unfold PyStr.digit_char.
  assert (H : (n mod 10 < 10)%N) by (apply N.mod_upper_bound; discriminate).
  generalize dependent (n mod 10)%N. intros r H.
  assert (K : (r = 0 \/ r = 1 \/ r = 2 \/ r = 3 \/ r = 4 \/ r = 5 \/ r = 6
               \/ r = 7 \/ r = 8 \/ r = 9)%N) by lia.
  repeat (destruct K as [-> | K]; [reflexivity|]). now rewrite K.
Qed.

Section Digits.

Variable p : ascii -> bool.
Hypothesis p_digit : forall c, PyStr.isdigit c = true -> p c = true.

Lemma digits_acc_all (fuel : nat) :
  forall n acc,
    PyStr.all_chars p acc = true ->
    PyStr.all_chars p (PyStr.digits_acc fuel n acc) = true.
Proof.
  induction fuel as [|f IH]; intros n acc H; simpl; [exact H|].
  assert (K : PyStr.all_chars p (String (PyStr.digit_char n) acc) = true).
  { simpl. now rewrite (p_digit _ (digit_char_isdigit n)), H. }
  destruct (n <? 10)%N; [exact K | now apply IH].
Qed.

Lemma of_N_all (n : N) : PyStr.all_chars p (PyStr.of_N n) = true.
Proof. unfold PyStr.of_N. now apply digits_acc_all. Qed.

Lemma of_nat_all (n : nat) : PyStr.all_chars p (PyStr.of_nat n) = true.
Proof. apply of_N_all. Qed.

Lemma repeat_zero_all (n : nat) :
  PyStr.all_chars p (PyStr.repeat_str "0" n) = true.
Proof.
  induction n as [|n IH]; simpl; [reflexivity|].
  now rewrite (p_digit "0"%char eq_refl), IH.
Qed.

Lemma zfill_all (w : nat) (s : string) :
  PyStr.all_chars p s = true -> PyStr.all_chars p (PyStr.zfill w s) = true.
Proof.
  intro H. unfold PyStr.zfill. now rewrite all_chars_app, repeat_zero_all, H.
Qed.

End Digits.

Lemma isdigit_not_bracket (c : ascii) :
  PyStr.isdigit c = true -> not_bracket c = true.
Proof. ascii_cases c. Qed.

Lemma isdigit_id_char (c : ascii) : PyStr.isdigit c = true -> id_char c = true.
Proof. ascii_cases c. Qed.

Lemma format_fixed_free (prec : nat) (x : Q) : bracket_free (format_fixed prec x).
Proof.
  unfold format_fixed, bracket_free.
  rewrite !all_chars_app.
  rewrite (of_N_all _ isdigit_not_bracket).
  rewrite (zfill_all _ isdigit_not_bracket) by apply (of_N_all _ isdigit_not_bracket).
  now destruct (Qnum x <? 0)%Z.
Qed.

Lemma format_vec3_free (prec : nat) (v : vec3) : bracket_free (format_vec3 prec v).
Proof.
  destruct v as [[x y] z]. unfold format_vec3.
  repeat (apply bracket_free_app; [apply format_fixed_free || reflexivity|]).
  apply format_fixed_free.
Qed.

Lemma format_vec4_free (prec : nat) (v : vec4) : bracket_free (format_vec4 prec v).
Proof.
  destruct v as [[[x y] z] w]. unfold format_vec4.
  repeat (apply bracket_free_app; [apply format_fixed_free || reflexivity|]).
  apply format_fixed_free.
Qed.

Lemma format_uv_free (uv : Q * Q) : bracket_free (format_uv uv).
Proof.
  unfold format_uv.
  repeat (apply bracket_free_app; [apply format_fixed_free || reflexivity|]).
  reflexivity.
Qed.

Lemma of_nat_free (n : nat) : bracket_free (PyStr.of_nat n).
Proof. apply (of_nat_all _ isdigit_not_bracket). Qed.

Lemma slug_char_id_char (c : ascii) : slug_char c = true -> id_char c = true.
Proof. ascii_cases c. Qed.

Lemma slugify_plain (s : string) : plain (slugify s).
Proof.
  unfold plain. eapply all_chars_impl; [apply slug_char_id_char|].
  apply slugify_all_slug_char.
Qed.

Lemma unique_name_loop_plain (fuel : nat) (orig : string) :
  plain orig ->
  forall name count d,
    plain name -> plain (unique_name_loop fuel orig name count d).
Proof.
  intro Ho. induction fuel as [|f IH]; intros name count d Hn; simpl;
    [exact Hn|].
  destruct (in_values name d); [|exact Hn].
  apply IH. apply (plain_app orig); [exact Ho|].
  apply (plain_app "_"); [reflexivity|].
  apply (zfill_all _ isdigit_id_char), (of_nat_all _ isdigit_id_char).
Qed.

Lemma cache_get_plain (key : nat) (d : list (nat * string)) (v : string) :
  Forall (fun kv => plain (snd kv)) d -> cache_get key d = Some v -> plain v.
Proof.
  induction d as [|[k w] d IH]; intros F H; simpl in H; [discriminate|].
  inversion F; subst. destruct (Nat.eqb k key); [now injection H as <- | auto].
Qed.

Lemma unique_name_plain (key : nat) (name : string) (d : list (nat * string)) :
  Forall (fun kv => plain (snd kv)) d ->
  plain (fst (unique_name key name d))
  /\ Forall (fun kv => plain (snd kv)) (snd (unique_name key name d)).
Proof.
  intro F. unfold unique_name.
  destruct (cache_get key d) as [v|] eqn:E; simpl.
  - split; [now apply (cache_get_plain key d) | exact F].
  - assert (P : plain (unique_name_loop (S (List.length d)) (slugify name)
                         (slugify name) 1 d))
      by (apply unique_name_loop_plain; apply slugify_plain).
    split; [exact P|]. apply Forall_app. split; [exact F|]. now constructor.
Qed.

Lemma cache_get_app (key : nat) (d : list (nat * string)) (k : nat) (v w : string) :
  cache_get k d = Some v -> cache_get k (d ++ [(key, w)]) = Some v.
Proof.
  induction d as [|[k0 v0] d IH]; simpl; [discriminate|].
  destruct (Nat.eqb k0 k); [auto | apply IH].
Qed.

Lemma unique_name_keeps (key : nat) (name : string) (d : list (nat * string))
    (k : nat) (v : string) :
  cache_get k d = Some v -> cache_get k (snd (unique_name key name d)) = Some v.
Proof.
  intro H. unfold unique_name. destruct (cache_get key d); simpl;
    [exact H | now apply cache_get_app].
Qed.

(* ================================================================== *)
(** * Depth of runs of fragments *)
(* ================================================================== *)

Lemma net_app (a b : list string) : net (a ++ b) = (net a + net b)%Z.
Proof. induction a as [|x a IH]; simpl; [reflexivity | rewrite IH; lia]. Qed.

Lemma low_nonpos (l : list string) : (low l <= 0)%Z.
Proof.
  destruct l as [|x l]; simpl; [lia|]. unfold b2z. destruct (line_closes x); lia.
Qed.

Lemma low_app (a b : list string) :
  low (a ++ b) = Z.min (low a) (net a + low b).
Proof.
  induction a as [|x a IH]; simpl.
  - pose proof (low_nonpos b). lia.
  - rewrite IH. lia.
Qed.

Lemma bal_nil : bal 0 0 [].
Proof. now split. Qed.

Lemma bal_app (k1 l1 k2 l2 : Z) (a b : list string) :
  bal k1 l1 a -> bal k2 l2 b ->
  bal (k1 + k2) (Z.min l1 (k1 + l2)) (a ++ b).
Proof.
  intros [H1 H2] [H3 H4]. split.
  - now rewrite net_app, H1, H3.
  - now rewrite low_app, H1, H2, H4.
Qed.

Lemma bal_line (line : string) :
  bal (b2z (line_opens line) - b2z (line_closes line))
      (- b2z (line_closes line)) [line].
Proof.
  split; simpl; unfold b2z; destruct (line_opens line), (line_closes line); lia.
Qed.

(* ================================================================== *)
(** * Runs of the writers *)
(* ================================================================== *)

Lemma extends_refl (st : State) : extends st st [].
Proof. unfold extends. rewrite app_nil_r. repeat split; auto. Qed.

Lemma extends_trans (st1 st2 st3 : State) (s1 s2 : list string) :
  extends st1 st2 s1 -> extends st2 st3 s2 -> extends st1 st3 (s1 ++ s2).
Proof.
  intros (L1 & M1 & I1 & O1 & E1 & G1) (L2 & M2 & I2 & O2 & E2 & G2).
  unfold extends. rewrite L2, L1, app_assoc. repeat split; auto.
Qed.

Lemma writes_conseq {A : Type} (m : M A) (Q Q' : A -> list string -> Prop) :
  writes m Q -> (forall a seg, Q a seg -> Q' a seg) -> writes m Q'.
Proof.
  intros H I st a st' Hok Hr. destruct (H st a st' Hok Hr) as (Hok' & seg & E & q).
  split; [assumption|]. exists seg. auto.
Qed.

Lemma writes_ret {A : Type} (a : A) (Q : A -> list string -> Prop) :
  Q a [] -> writes (ret a) Q.
Proof.
  intros q st b st' Hok Hr. injection Hr as <- <-.
  split; [assumption|]. exists []. split; [apply extends_refl | assumption].
Qed.

Lemma writes_raise {A : Type} (Q : A -> list string -> Prop) : writes raise Q.
Proof. intros st a st' _ Hr. discriminate. Qed.

Lemma writes_lift {A : Type} (o : option A) (Q : A -> list string -> Prop) :
  (forall a, o = Some a -> Q a []) -> writes (lift o) Q.
Proof.
  intro H. destruct o as [a|]; [apply writes_ret; auto | apply writes_raise].
Qed.

Lemma writes_bind {A B : Type} (m : M A) (f : A -> M B)
    (Q1 : A -> list string -> Prop) (Q2 : A -> B -> list string -> Prop)
    (Q : B -> list string -> Prop) :
  writes m Q1 ->
  (forall a, writes (f a) (Q2 a)) ->
  (forall a b s1 s2, Q1 a s1 -> Q2 a b s2 -> Q b (s1 ++ s2)) ->
  writes (bind m f) Q.
Proof.
  intros H1 H2 H st b st' Hok Hr. unfold bind in Hr.
  destruct (m st) as [[a st1]|] eqn:E; [|discriminate].
  destruct (H1 st a st1 Hok E) as (Hok1 & s1 & E1 & q1).
  destruct (H2 a st1 b st' Hok1 Hr) as (Hok2 & s2 & E2 & q2).
  split; [assumption|]. exists (s1 ++ s2).
  split; [eapply extends_trans; eassumption | eauto].
Qed.

(** Sequencing of runs with known depths. *)
Lemma writes_seq {A B : Type} (m : M A) (f : A -> M B) (k1 l1 k2 l2 : Z) :
  writes m (balQ k1 l1) ->
  (forall a, writes (f a) (balQ k2 l2)) ->
  writes (bind m f) (balQ (k1 + k2) (Z.min l1 (k1 + l2))).
Proof.
  intros H1 H2. eapply writes_bind; [exact H1 | exact H2 |].
  intros a b s1 s2. apply bal_app.
Qed.

(** Sequencing after a computation that writes nothing. *)
Lemma writes_after {A B : Type} (m : M A) (f : A -> M B) (P : A -> Prop)
    (Q : B -> list string -> Prop) :
  writes m (pureQ P) ->
  (forall a, P a -> writes (f a) Q) ->
  writes (bind m f) Q.
Proof.
  intros H1 H2 st b st' Hok Hr. unfold bind in Hr.
  destruct (m st) as [[a st1]|] eqn:E; [|discriminate].
  destruct (H1 st a st1 Hok E) as (Hok1 & s1 & E1 & [p ->]).
  destruct (H2 a p st1 b st' Hok1 Hr) as (Hok2 & s2 & E2 & q2).
  split; [assumption|]. exists s2.
  split; [apply (extends_trans _ _ _ [] s2 E1 E2) | assumption].
Qed.

Lemma writes_bal_eq {A : Type} (m : M A) (k l k' l' : Z) :
  writes m (balQ k l) -> k = k' -> l = l' -> writes m (balQ k' l').
Proof. now intros H <- <-. Qed.

Lemma writes_fw (line : string) :
  writes (fw line)
         (balQ (b2z (line_opens line) - b2z (line_closes line))
               (- b2z (line_closes line))).
Proof.
  intros st a st' Hok Hr. injection Hr as <- <-.
  split; [exact Hok|]. exists [line].
  split; [unfold extends; simpl; repeat split; auto | apply bal_line].
Qed.

Lemma writes_fw_free (line : string) :
  bracket_free line -> writes (fw line) (balQ 0 0).
Proof.
  intro H. destruct (bracket_free_neutral line H) as [Hc Ho].
  eapply writes_bal_eq; [apply writes_fw | |]; rewrite ?Hc, ?Ho; reflexivity.
Qed.

Lemma writes_for_each {A : Type} (l : list A) (body : A -> M unit) :
  (forall x, In x l -> writes (body x) (balQ 0 0)) ->
  writes (for_each l body) (balQ 0 0).
Proof.
  induction l as [|x l IH]; intro H; cbn [for_each].
  - apply writes_ret. apply bal_nil.
  - eapply writes_bal_eq;
      [apply writes_seq; [apply H; now left | intros _; apply IH] | |];
      [intros y Hy; apply H; now right | reflexivity | reflexivity].
Qed.

Lemma writes_when (b : bool) (m : M unit) :
  writes m (balQ 0 0) -> writes (when b m) (balQ 0 0).
Proof. intro H. destruct b; [exact H | apply writes_ret, bal_nil]. Qed.

Lemma writes_seq_R {A B : Type} (m : M A) (f : A -> M B) (P : B -> Prop)
    (k1 l1 k2 l2 : Z) :
  writes m (balQ k1 l1) ->
  (forall a, writes (f a) (balR P k2 l2)) ->
  writes (bind m f) (balR P (k1 + k2) (Z.min l1 (k1 + l2))).
Proof.
  intros H1 H2. eapply writes_bind; [exact H1 | exact H2 |].
  intros a b s1 s2 q1 [p q2]. split; [assumption | now apply bal_app].
Qed.

Lemma writes_ret_R {A : Type} (a : A) (P : A -> Prop) :
  P a -> writes (ret a) (balR P 0 0).
Proof. intro p. apply writes_ret. split; [assumption | apply bal_nil]. Qed.

Lemma writes_R_eq {A : Type} (m : M A) (P : A -> Prop) (k l k' l' : Z) :
  writes m (balR P k l) -> k = k' -> l = l' -> writes m (balR P k' l').
Proof. now intros H <- <-. Qed.

Lemma writes_lift_pure {A : Type} (o : option A) :
  writes (lift o) (pureQ (fun a => o = Some a)).
Proof. apply writes_lift. intros a ->. now split. Qed.

Lemma writes_pure_bal {A : Type} (m : M A) (P : A -> Prop) :
  writes m (pureQ P) -> writes m (balQ 0 0).
Proof. intro H. eapply writes_conseq; [exact H|]. intros a seg [_ ->]. apply bal_nil. Qed.

(** ** The primitives on the caches and the tags *)

Lemma writes_unique_name_object (key : nat) (name : string) :
  writes (unique_name_object key name) (pureQ plain).
Proof.
  intros st a st' (Ho & Hm & Hi) Hr. unfold unique_name_object in Hr.
  pose proof (unique_name_plain key name _ Ho) as [P F].
  pose proof (unique_name_keeps key name (uuid_cache_object st)) as K.
  destruct (unique_name key name (uuid_cache_object st)) as [id d].
  injection Hr as <- <-. simpl in *.
  split; [repeat split; assumption|]. exists [].
  split; [|now split].
  unfold extends. simpl. rewrite app_nil_r. repeat split; auto.
Qed.

Lemma writes_unique_name_mesh (key : nat) (name : string) :
  writes (unique_name_mesh key name) (pureQ plain).
Proof.
  intros st a st' (Ho & Hm & Hi) Hr. unfold unique_name_mesh in Hr.
  pose proof (unique_name_plain key name _ Hm) as [P F].
  pose proof (unique_name_keeps key name (uuid_cache_mesh st)) as K.
  destruct (unique_name key name (uuid_cache_mesh st)) as [id d].
  injection Hr as <- <-. simpl in *.
  split; [repeat split; assumption|]. exists [].
  split; [|now split].
  unfold extends. simpl. rewrite app_nil_r. repeat split; auto.
Qed.

Lemma writes_unique_name_image (key : nat) (name : string) :
  writes (unique_name_image key name) (pureQ plain).
Proof.
  intros st a st' (Ho & Hm & Hi) Hr. unfold unique_name_image in Hr.
  pose proof (unique_name_plain key name _ Hi) as [P F].
  pose proof (unique_name_keeps key name (uuid_cache_image st)) as K.
  destruct (unique_name key name (uuid_cache_image st)) as [id d].
  injection Hr as <- <-. simpl in *.
  split; [repeat split; assumption|]. exists [].
  split; [|now split].
  unfold extends. simpl. rewrite app_nil_r. repeat split; auto.
Qed.

Lemma writes_get_mesh_tag (k : nat) :
  writes (get_mesh_tag k) (pureQ (fun _ => True)).
Proof.
  intros st a st' Hok Hr. injection Hr as <- <-.
  split; [assumption|]. exists []. split; [apply extends_refl | now split].
Qed.

Lemma writes_get_image_tag (k : nat) :
  writes (get_image_tag k) (pureQ (fun _ => True)).
Proof.
  intros st a st' Hok Hr. injection Hr as <- <-.
  split; [assumption|]. exists []. split; [apply extends_refl | now split].
Qed.

Lemma mem_key_cons (k k' : nat) (l : list nat) :
  mem_key k l = true -> mem_key k (k' :: l) = true.
Proof. unfold mem_key. simpl. intros ->. apply orb_true_r. Qed.

Lemma writes_set_mesh_tag (k : nat) :
  writes (set_mesh_tag k) (pureQ (fun _ => True)).
Proof.
  intros st a st' Hok Hr. injection Hr as <- <-.
  split; [exact Hok|]. exists []. split; [|now split].
  unfold extends. simpl. rewrite app_nil_r. repeat split; auto.
  intros k'. apply mem_key_cons.
Qed.

Lemma writes_set_image_tag (k : nat) :
  writes (set_image_tag k) (pureQ (fun _ => True)).
Proof.
  intros st a st' Hok Hr. injection Hr as <- <-.
  split; [exact Hok|]. exists []. split; [|now split].
  unfold extends. simpl. rewrite app_nil_r. repeat split; auto.
  intros k'. apply mem_key_cons.
Qed.

(** ** Lines *)

Ltac free :=
  repeat first
    [ apply format_vec3_free | apply format_vec4_free | apply format_fixed_free
    | apply format_uv_free | apply of_nat_free
    | apply plain_bracket_free; assumption
    | reflexivity
    | apply bracket_free_app ].

Ltac w_fw :=
  first
    [ apply writes_fw_free; solve [free]
    | eapply writes_bal_eq;
      [apply writes_fw | lazy; reflexivity | lazy; reflexivity] ].

Ltac w_seq := eapply writes_seq; [w_fw | intros _].

Lemma lstrip_app (a b : string) :
  PyStr.lstrip (a ++ b) =
  match PyStr.lstrip a with
  | EmptyString => PyStr.lstrip b
  | t => (t ++ b)%string
  end.
Proof.
  induction a as [|c a IH]; simpl.
  - now destruct (PyStr.lstrip b).
  - destruct (PyStr.isspace c); [exact IH | reflexivity].
Qed.

Lemma opens_suffix (a b : string) :
  PyStr.rstrip b <> EmptyString -> line_opens (a ++ b) = opens (PyStr.rstrip b).
Proof.
  intro H. rewrite opens_strip, rstrip_app.
  destruct (PyStr.rstrip b) as [|c t] eqn:E; [contradiction|].
  unfold opens, PyStr.endswith. now rewrite last_app.
Qed.

Lemma closes_prefix (c : ascii) (r : string) :
  PyStr.isspace c = false ->
  line_closes (String c r) = (Ascii.eqb c "}" || Ascii.eqb c "]").
Proof. intro H. rewrite closes_strip. cbn [PyStr.lstrip]. now rewrite H. Qed.

(** The line that opens the node of an override entry. *)
Lemma type_line (wt : string) :
  closes (PyStr.lstrip wt) = false ->
  line_closes (wt ++ " {" ++ LF) = false /\ line_opens (wt ++ " {" ++ LF) = true.
Proof.
  intro H. split.
  - rewrite closes_strip, lstrip_app.
    destruct (PyStr.lstrip wt) as [|c t]; [reflexivity | exact H].
  - rewrite opens_suffix; [reflexivity | discriminate].
Qed.

Lemma axis_line (axis : string) :
  opens (PyStr.rstrip axis) = false ->
  line_closes ("axis " ++ axis ++ LF) = false
  /\ line_opens ("axis " ++ axis ++ LF) = false.
Proof.
  intro H. split; [cbn [append]; now rewrite closes_prefix|].
  rewrite opens_strip, rstrip_app, rstrip_app.
  change (PyStr.rstrip LF) with EmptyString. cbv iota.
  destruct (PyStr.rstrip axis) as [|c t] eqn:E; [reflexivity|].
  unfold opens, PyStr.endswith in *. now rewrite last_app.
Qed.

Lemma name_line (name : string) :
  line_closes ("name " ++ DQ ++ name ++ DQ ++ LF) = false
  /\ line_opens ("name " ++ DQ ++ name ++ DQ ++ LF) = false.
Proof.
  split; [cbn [append]; now rewrite closes_prefix|].
  replace ("name " ++ DQ ++ name ++ DQ ++ LF)%string
    with (("name " ++ DQ ++ name) ++ DQ ++ LF)%string
    by (now rewrite !string_app_assoc).
  rewrite opens_suffix; [reflexivity | discriminate].
Qed.

Lemma url_line (urls : string) :
  line_closes ("url [ " ++ DQ ++ urls ++ DQ ++ " ]" ++ LF) = false
  /\ line_opens ("url [ " ++ DQ ++ urls ++ DQ ++ " ]" ++ LF) = false.
Proof.
  split; [cbn [append]; now rewrite closes_prefix|].
  replace ("url [ " ++ DQ ++ urls ++ DQ ++ " ]" ++ LF)%string
    with (("url [ " ++ DQ ++ urls ++ DQ) ++ " ]" ++ LF)%string
    by (now rewrite !string_app_assoc).
  rewrite opens_suffix; [reflexivity | discriminate].
Qed.

Lemma writes_fw_neutral (line : string) :
  line_closes line = false /\ line_opens line = false ->
  writes (fw line) (balQ 0 0).
Proof.
  intros [Hc Ho].
  eapply writes_bal_eq; [apply writes_fw | |]; rewrite ?Hc, ?Ho; reflexivity.
Qed.

(** ** The transform wrapper *)

Ltac w_lit :=
  eapply writes_bal_eq; [apply writes_fw | lazy; reflexivity | lazy; reflexivity].

Lemma writes_name (name : string) :
  writes (fw ("name " ++ DQ ++ name ++ DQ ++ LF)) (balQ 0 0).
Proof. apply writes_fw_neutral, name_line. Qed.

Lemma writes_hinge_block (matrix : Matrix) (node_data : option NodeData) :
  (forall nd, node_data = Some nd -> override_ok nd) ->
  writes
    (nd <- lift node_data ;;
     fw ("jointParameters HingeJointParameters {" ++ LF) ;;;
     fw ("anchor " ++ format_vec3 6 (m_loc matrix) ++ LF) ;;;
     axis <- lift (hingeJointParameters_axis nd) ;;
     fw ("axis " ++ axis ++ LF) ;;;
     fw ("}" ++ LF) ;;;
     fw ("device [" ++ LF) ;;;
     match motorName nd with
     | Some name =>
         fw ("RotationalMotor {" ++ LF) ;;;
         fw ("name " ++ DQ ++ name ++ DQ ++ LF) ;;;
         fw ("maxTorque 100000" ++ LF) ;;;
         fw ("}" ++ LF)
     | None => ret tt
     end ;;;
     match positionSensorName nd with
     | Some name =>
         fw ("PositionSensor {" ++ LF) ;;;
         fw ("name " ++ DQ ++ name ++ DQ ++ LF) ;;;
         fw ("}" ++ LF)
     | None => ret tt
     end ;;;
     fw ("]" ++ LF) ;;;
     fw ("endPoint Solid {" ++ LF) ;;;
     match motorName nd with
     | Some name => fw ("name " ++ DQ ++ name ++ DQ ++ LF)
     | None => ret tt
     end)
    (balQ 1 0).
Proof.
  intro Hok.
  eapply writes_after; [apply writes_lift_pure|]. intros nd Hnd.
  destruct (Hok nd Hnd) as (_ & Hax & _).
  eapply writes_bal_eq.
  - eapply writes_seq; [w_lit | intros _].
    eapply writes_seq; [w_fw | intros _].
    eapply writes_after; [apply writes_lift_pure|]. intros axis Haxis.
    rewrite Haxis in Hax.
    eapply writes_seq; [apply writes_fw_neutral, axis_line, Hax | intros _].
    eapply writes_seq; [w_lit | intros _].
    eapply writes_seq; [w_lit | intros _].
    eapply writes_seq.
    { instantiate (1 := 0%Z). instantiate (1 := 0%Z).
      destruct (motorName nd) as [name|]; [|apply writes_ret, bal_nil].
      eapply writes_bal_eq.
      - eapply writes_seq; [w_lit | intros _].
        eapply writes_seq; [apply writes_name | intros _].
        eapply writes_seq; [w_lit | intros _]. w_lit.
      - reflexivity.
      - reflexivity. }
    intros _.
    eapply writes_seq.
    { instantiate (1 := 0%Z). instantiate (1 := 0%Z).
      destruct (positionSensorName nd) as [name|]; [|apply writes_ret, bal_nil].
      eapply writes_bal_eq.
      - eapply writes_seq; [w_lit | intros _].
        eapply writes_seq; [apply writes_name | intros _]. w_lit.
      - reflexivity.
      - reflexivity. }
    intros _.
    eapply writes_seq; [w_lit | intros _].
    eapply writes_seq; [w_lit | intros _].
    instantiate (1 := 0%Z). instantiate (1 := 0%Z).
    destruct (motorName nd) as [name|];
      [apply writes_name | apply writes_ret, bal_nil].
  - reflexivity.
  - reflexivity.
Qed.

Lemma writes_transform_fields (obj : Object) (matrix : Matrix)
    (node_data : option NodeData) (hingeJoint physics bounding : bool) :
  (forall nd, node_data = Some nd -> override_ok nd) ->
  writes (write_transform_fields obj matrix node_data hingeJoint physics bounding)
         (balR (fun r => r = (false, hingeJoint)) (1 + b2z hingeJoint) 0).
Proof.
  intro Hok. unfold write_transform_fields. cbv zeta.
  eapply writes_R_eq.
  - eapply writes_seq_R.
    { instantiate (1 := 0%Z). instantiate (1 := b2z hingeJoint).
      destruct hingeJoint; [now apply writes_hinge_block | apply writes_ret, bal_nil]. }
    intros _.
    eapply writes_seq_R; [w_fw | intros _].
    eapply writes_seq_R; [w_fw | intros _].
    eapply writes_seq_R; [w_fw | intros _].
    eapply writes_seq_R.
    { apply writes_when. eapply writes_bal_eq.
      - eapply writes_seq; [w_lit | intros _]. w_lit.
      - reflexivity.
      - reflexivity. }
    intros _.
    eapply writes_seq_R.
    { apply writes_when. eapply writes_bal_eq.
      - eapply writes_seq; [w_lit | intros _].
        eapply writes_after; [apply writes_lift_pure | intros x _].
        eapply writes_after; [apply writes_lift_pure | intros y _].
        eapply writes_after; [apply writes_lift_pure | intros z _].
        eapply writes_seq; [w_fw | intros _].
        eapply writes_seq; [w_lit | intros _].
        eapply writes_seq; [w_lit | intros _].
        eapply writes_seq; [w_fw | intros _].
        eapply writes_seq; [w_lit | intros _].
        eapply writes_seq; [w_lit | intros _]. w_lit.
      - reflexivity.
      - reflexivity. }
    intros _.
    eapply writes_seq_R; [w_lit | intros _].
    apply writes_ret_R. reflexivity.
  - destruct hingeJoint; reflexivity.
  - destruct hingeJoint; reflexivity.
Qed.

Lemma dict_get_ok (table : UserData) (k : string) (nd : NodeData) :
  table_ok table -> dict_get k table = Some nd -> override_ok nd.
Proof.
  induction table as [|[k' v] t IH]; intros F H; simpl in H; [discriminate|].
  inversion F as [|? ? Hv Ht]; subst.
  destruct (String.eqb k' k); [injection H as <-; exact Hv | now apply IH].
Qed.

(** [write_transform_begin] leaves the depth of its wrapper open. *)
Lemma writes_transform_begin (table : UserData) (obj : Object)
    (matrix : Matrix) (def_id : string) :
  table_ok table -> plain def_id ->
  writes (write_transform_begin table obj matrix (Some def_id))
         (fun r seg => bal (wrapper_depth r) 0 seg).
Proof.
  intros Ht Hp. unfold write_transform_begin. cbn [lookup_override].
  destruct (dict_get def_id table) as [nd|] eqn:E.
  - pose proof (dict_get_ok table def_id nd Ht E) as Hnd.
    destruct (type_line (webotsType nd) (proj1 Hnd)) as [Hc Ho].
    eapply writes_conseq.
    + eapply writes_seq_R; [w_fw | intros _].
      eapply writes_seq_R.
      { eapply writes_bal_eq; [apply writes_fw | |]; rewrite ?Hc, ?Ho; reflexivity. }
      intros _. apply writes_transform_fields. intros nd' H. now injection H as <-.
    + intros r seg [-> B]. unfold wrapper_depth. cbn [fst snd].
      destruct (String.eqb (webotsType nd) "HingeJoint"); exact B.
  - destruct (is_identity matrix).
    + apply writes_ret. apply bal_nil.
    + eapply writes_conseq.
      * eapply writes_seq_R; [w_fw | intros _].
        eapply writes_seq_R; [w_lit | intros _].
        apply writes_transform_fields. discriminate.
      * intros r seg [-> B]. exact B.
Qed.

Lemma writes_transform_end (supplementaryCurvyBracket : bool) :
  writes (write_transform_end supplementaryCurvyBracket)
         (balQ (- wrapper_depth (false, supplementaryCurvyBracket))
               (- wrapper_depth (false, supplementaryCurvyBracket))).
Proof.
  unfold write_transform_end, wrapper_depth. cbn [fst snd].
  destruct supplementaryCurvyBracket; cbn [when].
  - eapply writes_bal_eq.
    + eapply writes_seq; [w_lit | intros _].
      eapply writes_seq; [w_lit | intros _]. w_lit.
    + reflexivity.
    + reflexivity.
  - eapply writes_bal_eq.
    + eapply writes_seq; [w_lit | intros _].
      eapply writes_seq; [w_lit | intros _]. apply writes_ret, bal_nil.
    + reflexivity.
    + reflexivity.
Qed.

(** A wrapper, what it holds, and its end. *)
Lemma writes_wrapped (table : UserData) (obj : Object) (matrix : Matrix)
    (def_id : string) (inner : M unit) :
  table_ok table -> plain def_id ->
  writes inner (balQ 0 0) ->
  writes (r <- write_transform_begin table obj matrix (Some def_id) ;;
          inner ;;;
          if fst r then ret tt else write_transform_end (snd r))
         (balQ 0 0).
Proof.
  intros Ht Hp Hi.
  eapply writes_bind; [now apply writes_transform_begin | |].
  - intro r. instantiate (1 := fun r _ seg => bal (- wrapper_depth r) (- wrapper_depth r) seg).
    cbv beta. eapply writes_bal_eq.
    + eapply writes_seq; [exact Hi | intros _].
      instantiate (1 := (- wrapper_depth r)%Z). instantiate (1 := (- wrapper_depth r)%Z).
      destruct r as [[] suppl]; cbn [fst snd].
      * apply writes_ret. apply bal_nil.
      * apply writes_transform_end.
    + lia.
    + assert (0 <= wrapper_depth r)%Z
        by (unfold wrapper_depth; destruct (fst r), (snd r); lia).
      lia.
  - intros r b s1 s2 B1 B2. cbv beta in B2.
    assert (0 <= wrapper_depth r)%Z
      by (unfold wrapper_depth; destruct (fst r), (snd r); lia).
    unfold balQ.
    pose proof (bal_app _ _ _ _ _ _ B1 B2) as B.
    destruct B as [Bn Bl]. split; [rewrite Bn; lia | rewrite Bl; lia].
Qed.

(** ** Shapes *)

Lemma writes_image_texture (pm : string) (image : Image) :
  writes (write_image_texture pm image) (balQ 0 0).
Proof.
  unfold write_image_texture.
  eapply writes_after; [apply writes_unique_name_image | intros image_id Hid].
  eapply writes_after; [apply writes_get_image_tag | intros tag _].
  destruct tag.
  - w_fw.
  - eapply writes_after; [apply writes_set_image_tag | intros _ _].
    eapply writes_bal_eq.
    + eapply writes_seq; [w_fw | intros _].
      eapply writes_seq; [w_fw | intros _].
      eapply writes_seq; [w_lit | intros _].
      eapply writes_seq; [apply writes_fw_neutral, url_line | intros _].
      w_lit.
    + reflexivity.
    + reflexivity.
Qed.

Lemma writes_tex_coord_index (mesh_faces_vertices : list (list nat))
    (face_group : list nat) :
  forall j, writes (tex_coord_index mesh_faces_vertices face_group j) (balQ 0 0).
Proof.
  induction face_group as [|i r IH]; intro j; cbn [tex_coord_index].
  - apply writes_ret, bal_nil.
  - eapply writes_after; [apply writes_lift_pure | intros fv _].
    destruct (List.length fv =? 4).
    + eapply writes_bal_eq; [eapply writes_seq; [w_fw | intros _; apply IH] | |];
        reflexivity.
    + eapply writes_bal_eq; [eapply writes_seq; [w_fw | intros _; apply IH] | |];
        reflexivity.
Qed.

Lemma coord_index_line_free (fv : list nat) (line : string) :
  coord_index_line fv = Some line -> bracket_free line.
Proof.
  unfold coord_index_line.
  destruct fv as [|a [|b [|c [|d [|e r]]]]]; try discriminate;
    intro H; injection H as <-; free.
Qed.

Lemma writes_shape (pm : string) (world : option vec3) (mesh : Mesh)
    (coords_id : string) (item : GroupKey * list nat) (w : bool) :
  plain coords_id ->
  writes (write_shape pm world mesh coords_id item w) (balQ 0 0).
Proof.
  intro Hid. unfold write_shape. cbv zeta.
  destruct item as [[material_index image] face_group].
  destruct face_group as [|i0 face_group]; [apply writes_ret, bal_nil|].
  eapply writes_after; [apply writes_lift_pure | intros material _].
  eapply writes_bal_eq.
  - eapply writes_seq; [w_lit | intros _].
    eapply writes_seq; [w_lit | intros _].
    eapply writes_seq.
    { instantiate (1 := 0%Z). instantiate (1 := 0%Z).
      destruct image; [apply writes_image_texture | apply writes_ret, bal_nil]. }
    intros _.
    eapply writes_seq.
    { instantiate (1 := 0%Z). instantiate (1 := 0%Z).
      destruct material as [mat|]; [|apply writes_ret, bal_nil].
      eapply writes_bal_eq.
      - eapply writes_seq; [w_fw | intros _].
        eapply writes_seq; [w_fw | intros _].
        eapply writes_seq; [w_lit | intros _]. w_lit.
      - reflexivity.
      - reflexivity. }
    intros _.
    eapply writes_seq; [w_lit | intros _].
    eapply writes_seq; [w_lit | intros _].
    eapply writes_seq; [apply writes_when; w_fw | intros _].
    eapply writes_seq.
    { instantiate (1 := 0%Z). instantiate (1 := 0%Z).
      destruct (me_uv_active mesh); [|apply writes_ret, bal_nil].
      eapply writes_bal_eq.
      - eapply writes_seq; [w_lit | intros _].
        eapply writes_seq; [apply writes_tex_coord_index | intros _].
        eapply writes_seq; [w_lit | intros _]. w_lit.
      - reflexivity.
      - reflexivity. }
    intros _.
    eapply writes_seq; [w_lit | intros _].
    eapply writes_seq.
    { apply writes_for_each. intros i _.
      eapply writes_after; [apply writes_lift_pure | intros fv _].
      eapply writes_after; [apply writes_lift_pure | intros ln Hl].
      cbv beta in Hl. apply writes_fw_free.
      exact (coord_index_line_free fv ln Hl). }
    intros _.
    eapply writes_seq; [w_lit | intros _].
    eapply writes_seq; [w_lit | intros _].
    eapply writes_seq.
    { instantiate (1 := 0%Z). instantiate (1 := 0%Z).
      destruct w.
      - w_fw.
      - eapply writes_bal_eq.
        + eapply writes_seq; [w_fw | intros _].
          eapply writes_seq; [w_fw | intros _].
          eapply writes_seq; [w_lit | intros _].
          eapply writes_seq; [w_lit | intros _].
          eapply writes_seq;
            [apply writes_for_each; intros v _; w_fw | intros _].
          eapply writes_seq; [w_lit | intros _].
          eapply writes_seq; [w_lit | intros _]. w_lit.
        + reflexivity.
        + reflexivity. }
    intros _.
    eapply writes_seq.
    { instantiate (1 := 0%Z). instantiate (1 := 0%Z).
      destruct (me_uv_active mesh) as [mesh_faces_uv|]; [|apply writes_ret, bal_nil].
      eapply writes_bal_eq.
      - eapply writes_seq; [w_lit | intros _].
        eapply writes_seq; [w_lit | intros _].
        eapply writes_seq.
        { apply writes_for_each. intros i _.
          eapply writes_after; [apply writes_lift_pure | intros fuv _].
          apply writes_for_each. intros uv _. w_fw. }
        intros _.
        eapply writes_seq; [w_lit | intros _].
        eapply writes_seq; [w_lit | intros _]. w_lit.
      - reflexivity.
      - reflexivity. }
    intros _.
    eapply writes_seq; [w_lit | intros _].
    eapply writes_seq; [w_lit | intros _].
    apply writes_ret, bal_nil.
  - reflexivity.
  - reflexivity.
Qed.

Lemma writes_shapes (pm : string) (world : option vec3) (mesh : Mesh)
    (coords_id : string) (items : FaceGroups) :
  plain coords_id ->
  forall w, writes (write_shapes pm world mesh coords_id items w) (balQ 0 0).
Proof.
  intro Hid. induction items as [|item r IH]; intro w; cbn [write_shapes].
  - apply writes_ret, bal_nil.
  - eapply writes_bal_eq;
      [eapply writes_seq; [now apply writes_shape | intro w'; apply IH] | |];
      reflexivity.
Qed.

Lemma writes_geometry (h : Host) (opts : Options) (mesh : Mesh)
    (mesh_id : string) (world : option vec3) :
  plain mesh_id ->
  writes (write_geometry h opts mesh mesh_id world) (balQ 0 0).
Proof.
  intro Hid. unfold write_geometry. cbv zeta.
  eapply writes_after; [apply writes_get_mesh_tag | intros tag _].
  destruct tag.
  - apply writes_fw_free.
    apply bracket_free_app; [reflexivity|].
    apply bracket_free_app; [|reflexivity].
    apply plain_bracket_free, plain_app; [reflexivity | assumption].
  - eapply writes_after; [apply writes_set_mesh_tag | intros _ _].
    eapply writes_after; [apply writes_lift_pure | intros items _].
    apply writes_shapes. apply plain_app; [reflexivity | assumption].
Qed.

Lemma writes_indexed_face_set (h : Host) (opts : Options) (obj : Object)
    (mesh : Mesh) (matrix : Matrix) (world : option vec3) :
  table_ok (user_data opts) ->
  writes (write_indexed_face_set h opts obj mesh matrix world) (balQ 0 0).
Proof.
  intro Ht. unfold write_indexed_face_set.
  eapply writes_after; [apply writes_unique_name_object | intros obj_id Ho].
  eapply writes_after; [apply writes_unique_name_mesh | intros mesh_id Hm].
  destruct (tessfaces_of mesh); [apply writes_ret, bal_nil|].
  apply writes_wrapped; [assumption | | now apply writes_geometry].
  apply plain_app; [assumption|]. apply plain_app; reflexivity.
Qed.

Lemma writes_export_derived (h : Host) (opts : Options) (d : Derived) :
  table_ok (user_data opts) ->
  writes (export_derived h opts d) (balQ 0 0).
Proof.
  intro Ht. unfold export_derived. cbv zeta.
  match goal with |- writes (if ?b then _ else _) _ => destruct b end;
    [|apply writes_ret, bal_nil].
  match goal with |- writes (match ?o with _ => _ end) _ => destruct o as [me|] end;
    [now apply writes_indexed_face_set | apply writes_ret, bal_nil].
Qed.

(** ** The scene walker *)

Lemma tree_forall_ind (P : Tree -> Prop) :
  (forall o l, Forall P l -> P (Node o l)) -> forall t, P t.
Proof.
  intro H. fix IH 1. intros [o l]. apply H.
  induction l as [|x r IHr]; constructor; [apply IH | exact IHr].
Qed.

Lemma writes_ext {A : Type} (m m' : M A) (Q : A -> list string -> Prop) :
  (forall st, m st = m' st) -> writes m' Q -> writes m Q.
Proof. intros E H st a st' Hok Hr. rewrite E in Hr. now apply H. Qed.

Lemma writes_wrapped2 (table : UserData) (obj : Object) (matrix : Matrix)
    (def_id : string) (i1 i2 : M unit) :
  table_ok table -> plain def_id ->
  writes i1 (balQ 0 0) -> writes i2 (balQ 0 0) ->
  writes (r <- write_transform_begin table obj matrix (Some def_id) ;;
          i1 ;;; i2 ;;;
          if fst r then ret tt else write_transform_end (snd r))
         (balQ 0 0).
Proof.
  intros Ht Hp H1 H2.
  apply writes_ext with
    (m' := r <- write_transform_begin table obj matrix (Some def_id) ;;
           (i1 ;;; i2) ;;;
           if fst r then ret tt else write_transform_end (snd r)).
  - intro st. apply bind_ext. intros r st'. symmetry. apply bind_assoc.
  - apply writes_wrapped; [assumption..|].
    eapply writes_bal_eq; [eapply writes_seq; [exact H1 | intros _; exact H2] | |];
      reflexivity.
Qed.

Lemma writes_export_object (h : Host) (opts : Options) (t : Tree) :
  table_ok (user_data opts) ->
  forall parent, writes (export_object h opts parent t) (balQ 0 0).
Proof.
  intro Ht. induction t as [obj children IH] using tree_forall_ind.
  intro parent.
  eapply writes_ext; [intro st; apply export_object_eq|].
  eapply writes_after; [apply writes_unique_name_object | intros id Hid].
  apply writes_wrapped2.
  - assumption.
  - apply plain_app; [assumption | reflexivity].
  - apply writes_for_each. intros d _. now apply writes_export_derived.
  - apply writes_for_each. intros c Hc.
    rewrite Forall_forall in IH. now apply IH.
Qed.

Lemma writes_header : writes write_header (balQ 0 0).
Proof.
  unfold write_header. eapply writes_bal_eq.
  - do 11 (eapply writes_seq; [w_lit | intros _]). w_lit.
  - reflexivity.
  - reflexivity.
Qed.

Lemma ids_ok_initial : ids_ok initial_state.
Proof. repeat split; constructor. Qed.

(** The fragments of a completed export are balanced when the strings of
    the override entries are. *)
Lemma export_main_balanced (h : Host) (opts : Options) :
  table_ok (user_data opts) ->
  writes (write_header ;;;
          objects_hierarchy <- lift (build_hierarchy (selected_objects h opts)) ;;
          for_each objects_hierarchy (export_object h opts None))
         (balQ 0 0).
Proof.
  intro Ht. eapply writes_bal_eq.
  - eapply writes_seq; [apply writes_header | intros _].
    eapply writes_after; [apply writes_lift_pure | intros forest _].
    apply writes_for_each. intros t _. now apply writes_export_object.
  - reflexivity.
  - reflexivity.
Qed.

Lemma export_main_initial (h : Host) (opts : Options) :
  export_main h opts initial_state =
  (write_header ;;;
   objects_hierarchy <- lift (build_hierarchy (selected_objects h opts)) ;;
   for_each objects_hierarchy (export_object h opts None)) initial_state.
Proof. reflexivity. Qed.

Lemma export_some (h : Host) (opts : Options) (st : State) :
  export h opts = Some st -> export_main h opts initial_state = Some (tt, st).
Proof.
  unfold export.
  destruct (export_main h opts initial_state) as [[[] s]|];
    [intro H; injection H as ->; reflexivity | discriminate].
Qed.

Lemma export_balanced (h : Host) (opts : Options) (st : State) :
  table_ok (user_data opts) -> export h opts = Some st ->
  bal 0 0 (fw_log st).
Proof.
  intros Ht H. apply export_some in H. rewrite export_main_initial in H.
  destruct (export_main_balanced h opts Ht initial_state tt st ids_ok_initial H)
    as (_ & seg & [L _] & B).
  rewrite L. exact B.
Qed.

(* ================================================================== *)
(** * The emitter *)
(* ================================================================== *)

Lemma fw_step_eq (e : Emitter) (line : string) :
  fw_step e line =
  {| indentation :=
       indentation e - b2z (line_closes line) + b2z (line_opens line);
     isLastCharacterACariageReturn := PyStr.endswith line (ascii_of_nat 10);
     written :=
       (if isLastCharacterACariageReturn e
        then written e
             ++ PyStr.repeat_str "  "
                  (Z.to_nat (indentation e - b2z (line_closes line)))
        else written e) ++ line |}.
Proof.
  unfold fw_step, line_closes, line_opens, b2z.
  destruct (closes (PyStr.strip line)), (opens (PyStr.strip line));
    f_equal; try lia; now rewrite ?Z.sub_0_r.
Qed.

Lemma indent_length (n : nat) :
  String.length (PyStr.repeat_str "  " n) = 2 * n.
Proof. induction n as [|n IH]; simpl; [reflexivity | rewrite IH; lia]. Qed.

Lemma emit_app (a b : list string) :
  emit (a ++ b) = fold_left fw_step b (emit a).
Proof. unfold emit. apply fold_left_app. Qed.

Lemma fold_indentation (lines : list string) :
  forall e, indentation (fold_left fw_step lines e) = (indentation e + net lines)%Z.
Proof.
  induction lines as [|l r IH]; intro e; simpl; [lia|].
  rewrite IH, fw_step_eq. simpl. lia.
Qed.

Lemma emit_indentation (lines : list string) :
  indentation (emit lines) = net lines.
Proof. unfold emit. now rewrite fold_indentation. Qed.

Lemma net_count (lines : list string) :
  net lines = (Z.of_nat (List.length (filter line_opens lines))
               - Z.of_nat (List.length (filter line_closes lines)))%Z.
Proof.
  induction lines as [|l r IH]; simpl; [reflexivity|].
  rewrite IH. unfold b2z.
  destruct (line_opens l), (line_closes l); simpl List.length; lia.
Qed.

Lemma low_prefix (p : list string) (l : string) (q : list string) :
  (low (p ++ l :: q) <= net p - b2z (line_closes l))%Z.
Proof. rewrite low_app. simpl. lia. Qed.

Lemma low_prefix_net (p q : list string) : (low (p ++ q) <= net p)%Z.
Proof. rewrite low_app. pose proof (low_nonpos q). lia. Qed.

(** C6 (as amended): the text emitter [fw] writes 2*depth spaces of
    indentation before every fragment that begins a new physical line (the
    fragment before it ended with a line feed), decrements the depth before
    a fragment whose stripped content starts with a closing bracket and
    increments it after a fragment whose stripped content ends with an
    opening bracket (for a fragment of ASCII text, on which stripping is
    that of [str.strip]); and over any complete export run whose override
    entries have, as ASCII text, a type that does not start with a closing
    bracket and an axis that does not end with an opening bracket (white
    space aside; an empty table in particular), the depth never becomes
    negative, is zero at the end, and as many fragments open as close. *)
Theorem emitter_depth_balanced :
  (forall (e : Emitter) (line : string),
      ascii_text line ->
      let depth := (indentation e - b2z (line_closes line))%Z in
      let indent := PyStr.repeat_str "  " (Z.to_nat depth) in
      fw_step e line =
      {| indentation := depth + b2z (line_opens line);
         isLastCharacterACariageReturn := PyStr.endswith line (ascii_of_nat 10);
         written :=
           (if isLastCharacterACariageReturn e
            then written e ++ indent else written e) ++ line |}
      /\ String.length indent = 2 * Z.to_nat depth)
  /\ (forall (st : State) (line : string),
        exists st', fw line st = Some (tt, st')
                    /\ emit (fw_log st') = fw_step (emit (fw_log st)) line)
  /\ (forall (h : Host) (opts : Options) (st : State),
        table_ok (user_data opts) ->
        export h opts = Some st ->
        (forall p line q, fw_log st = p ++ line :: q ->
           (0 <= indentation (emit p) - b2z (line_closes line))%Z
           /\ (0 <= indentation (emit (p ++ [line])))%Z)
        /\ fw_indentation st = 0%Z
        /\ List.length (filter line_opens (fw_log st))
           = List.length (filter line_closes (fw_log st))).
Proof.
  split; [|split].
  - intros e line _ depth indent. split.
    + apply fw_step_eq.
    + apply indent_length.
  - intros st line. eexists. split; [reflexivity|].
    cbn [fw_log]. rewrite emit_app. reflexivity.
  - intros h opts st Ht H.
    destruct (export_balanced h opts st Ht H) as [Hn Hl].
    split; [|split].
    + intros p line q E. rewrite !emit_indentation. split.
      * pose proof (low_prefix p line q) as L. rewrite <- E, Hl in L. exact L.
      * pose proof (low_prefix_net (p ++ [line]) q) as L.
        rewrite <- app_assoc in L. cbn [app] in L.
        rewrite <- E, Hl in L. exact L.
    + unfold fw_indentation. rewrite emit_indentation. exact Hn.
    + pose proof (net_count (fw_log st)) as C. rewrite Hn in C. lia.
Qed.

Lemma emitter_depth_balanced_witness :
  table_ok (user_data (Scenes.options
                         [("CUBE_TRANSFORM", Scenes.plain_override "Solid")]))
  /\ (exists st,
        export Scenes.one_cube
               (Scenes.options [("CUBE_TRANSFORM", Scenes.plain_override "Solid")])
        = Some st
        /\ fw_indentation st = 0%Z
        /\ List.length (filter line_opens (fw_log st))
           = List.length (filter line_closes (fw_log st)))
  /\ fw_step {| indentation := 2; isLastCharacterACariageReturn := true;
                written := ("children [" ++ LF)%string |}
            ("]" ++ LF)%string
     = {| indentation := 1; isLastCharacterACariageReturn := true;
          written := ("children [" ++ LF ++ "  ]" ++ LF)%string |}.
Proof.
  assert (Ht : table_ok (user_data (Scenes.options
                 [("CUBE_TRANSFORM", Scenes.plain_override "Solid")]))).
  { repeat constructor. }
  destruct emitter_depth_balanced as (S & _ & H).
  split; [exact Ht|]. split.
  - destruct (export Scenes.one_cube
                (Scenes.options [("CUBE_TRANSFORM", Scenes.plain_override "Solid")]))
      as [st|] eqn:E; [|vm_compute in E; discriminate].
    exists st. split; [reflexivity|].
    destruct (H _ _ st Ht E) as (_ & H0 & Hc). split; assumption.
  - destruct (S {| indentation := 2; isLastCharacterACariageReturn := true;
                   written := ("children [" ++ LF)%string |}
            ("]" ++ LF)%string eq_refl)
      as [-> _].
    reflexivity.
Defined.

(** C6, the claim as stated fails: an override entry whose axis ends with an
    opening bracket leaves the depth at one at the end of the export, and one
    whose type starts with a closing bracket leaves it below zero. *)
Lemma bracketed_override_unbalances_depth :
  option_map fw_indentation
    (export Scenes.one_cube (Scenes.options Scenes.hinge_open_axis))
  = Some 1%Z
  /\ option_map fw_indentation
       (export Scenes.one_cube (Scenes.options Scenes.closing_type))
     = Some (-1)%Z.
Proof. split; vm_compute; reflexivity. Qed.

(* ================================================================== *)
(** * Runs and the definitions of coordinate blocks *)
(* ================================================================== *)

Lemma emits_conseq {A : Type} (m : M A) (Q Q' : A -> list string -> Prop) :
  emits m Q -> (forall a seg, Q a seg -> Q' a seg) -> emits m Q'.
Proof.
  intros H I st a st' Hr. destruct (H st a st' Hr) as (seg & E & q).
  exists seg. auto.
Qed.

Lemma emits_ret {A : Type} (a : A) (Q : A -> list string -> Prop) :
  Q a [] -> emits (ret a) Q.
Proof.
  intros q st b st' Hr. injection Hr as <- <-.
  exists []. split; [apply extends_refl | assumption].
Qed.

Lemma emits_raise {A : Type} (Q : A -> list string -> Prop) : emits raise Q.
Proof. intros st a st' Hr. discriminate. Qed.

Lemma emits_lift {A : Type} (o : option A) (Q : A -> list string -> Prop) :
  (forall a, o = Some a -> Q a []) -> emits (lift o) Q.
Proof.
  intro H. destruct o as [a|]; [apply emits_ret; auto | apply emits_raise].
Qed.

Lemma emits_bind {A B : Type} (m : M A) (f : A -> M B)
    (Q1 : A -> list string -> Prop) (Q2 : A -> B -> list string -> Prop)
    (Q : B -> list string -> Prop) :
  emits m Q1 ->
  (forall a, emits (f a) (Q2 a)) ->
  (forall a b s1 s2, Q1 a s1 -> Q2 a b s2 -> Q b (s1 ++ s2)) ->
  emits (bind m f) Q.
Proof.
  intros H1 H2 H st b st' Hr. unfold bind in Hr.
  destruct (m st) as [[a st1]|] eqn:E; [|discriminate].
  destruct (H1 st a st1 E) as (s1 & E1 & q1).
  destruct (H2 a st1 b st' Hr) as (s2 & E2 & q2).
  exists (s1 ++ s2). split; [eapply extends_trans; eassumption | eauto].
Qed.

Lemma emits_fw (line : string) (Q : unit -> list string -> Prop) :
  Q tt [line] -> emits (fw line) Q.
Proof.
  intros q st a st' Hr. injection Hr as <- <-. exists [line].
  split; [unfold extends; simpl; repeat split; auto | assumption].
Qed.

(** ** Runs that only keep what was there *)

Lemma emits_any_bind {A B : Type} (m : M A) (f : A -> M B) :
  emits m anyQ -> (forall a, emits (f a) anyQ) -> emits (bind m f) anyQ.
Proof. intros H1 H2. eapply emits_bind; [exact H1 | exact H2 | easy]. Qed.

Lemma emits_any_for_each {A : Type} (l : list A) (body : A -> M unit) :
  (forall x, In x l -> emits (body x) anyQ) -> emits (for_each l body) anyQ.
Proof.
  induction l as [|x l IH]; intro H; cbn [for_each].
  - now apply emits_ret.
  - apply emits_any_bind; [apply H; now left | intros _; apply IH].
    intros y Hy. apply H. now right.
Qed.

Lemma emits_unique_name_object (key : nat) (name : string) :
  emits (unique_name_object key name) (pureQ (fun _ => True)).
Proof.
  intros st a st' Hr. unfold unique_name_object in Hr.
  pose proof (unique_name_keeps key name (uuid_cache_object st)) as K.
  destruct (unique_name key name (uuid_cache_object st)) as [id d].
  injection Hr as <- <-. simpl in *. exists []. split; [|now split].
  unfold extends. simpl. rewrite app_nil_r. repeat split; auto.
Qed.

Lemma emits_unique_name_mesh (key : nat) (name : string) :
  emits (unique_name_mesh key name) (pureQ (fun _ => True)).
Proof.
  intros st a st' Hr. unfold unique_name_mesh in Hr.
  pose proof (unique_name_keeps key name (uuid_cache_mesh st)) as K.
  destruct (unique_name key name (uuid_cache_mesh st)) as [id d].
  injection Hr as <- <-. simpl in *. exists []. split; [|now split].
  unfold extends. simpl. rewrite app_nil_r. repeat split; auto.
Qed.

Lemma emits_unique_name_image (key : nat) (name : string) :
  emits (unique_name_image key name) (pureQ (fun _ => True)).
Proof.
  intros st a st' Hr. unfold unique_name_image in Hr.
  pose proof (unique_name_keeps key name (uuid_cache_image st)) as K.
  destruct (unique_name key name (uuid_cache_image st)) as [id d].
  injection Hr as <- <-. simpl in *. exists []. split; [|now split].
  unfold extends. simpl. rewrite app_nil_r. repeat split; auto.
Qed.

Lemma emits_get_mesh_tag (k : nat) :
  emits (get_mesh_tag k) (pureQ (fun _ => True)).
Proof.
  intros st a st' Hr. injection Hr as <- <-.
  exists []. split; [apply extends_refl | now split].
Qed.

Lemma emits_get_image_tag (k : nat) :
  emits (get_image_tag k) (pureQ (fun _ => True)).
Proof.
  intros st a st' Hr. injection Hr as <- <-.
  exists []. split; [apply extends_refl | now split].
Qed.

Lemma emits_set_mesh_tag (k : nat) :
  emits (set_mesh_tag k) (pureQ (fun _ => True)).
Proof.
  intros st a st' Hr. injection Hr as <- <-. exists []. split; [|now split].
  unfold extends. simpl. rewrite app_nil_r. repeat split; auto.
  intros k'. apply mem_key_cons.
Qed.

Lemma emits_set_image_tag (k : nat) :
  emits (set_image_tag k) (pureQ (fun _ => True)).
Proof.
  intros st a st' Hr. injection Hr as <- <-. exists []. split; [|now split].
  unfold extends. simpl. rewrite app_nil_r. repeat split; auto.
  intros k'. apply mem_key_cons.
Qed.

Lemma emits_pure_any {A : Type} (m : M A) (P : A -> Prop) :
  emits m (pureQ P) -> emits m anyQ.
Proof. intro H. eapply emits_conseq; [exact H | easy]. Qed.

Create HintDb keeps discriminated.

(** Any code made of the primitives, sequencing, loops and tests. *)
Ltac keeps :=
  repeat
    match goal with
    | |- emits (ret _) _ => apply emits_ret; exact I
    | |- emits (fw _) _ => apply emits_fw; exact I
    | |- emits raise _ => apply emits_raise
    | |- emits (lift _) _ => apply emits_lift; intros; exact I
    | |- emits (unique_name_object _ _) _ =>
      apply (emits_pure_any _ _ (emits_unique_name_object _ _))
    | |- emits (unique_name_mesh _ _) _ =>
      apply (emits_pure_any _ _ (emits_unique_name_mesh _ _))
    | |- emits (unique_name_image _ _) _ =>
      apply (emits_pure_any _ _ (emits_unique_name_image _ _))
    | |- emits (get_mesh_tag _) _ =>
      apply (emits_pure_any _ _ (emits_get_mesh_tag _))
    | |- emits (get_image_tag _) _ =>
      apply (emits_pure_any _ _ (emits_get_image_tag _))
    | |- emits (set_mesh_tag _) _ =>
      apply (emits_pure_any _ _ (emits_set_mesh_tag _))
    | |- emits (set_image_tag _) _ =>
      apply (emits_pure_any _ _ (emits_set_image_tag _))
    | |- emits (bind _ _) _ => apply emits_any_bind; [|intros ?]
    | |- emits (for_each _ _) _ => apply emits_any_for_each; intros ? ?
    | |- emits (when _ _) _ => unfold when
    | |- emits (match ?x with _ => _ end) _ => destruct x
    | |- emits _ _ => solve [auto 1 with keeps nocore]
    end.

Lemma keeps_transform_fields (obj : Object) (matrix : Matrix)
    (node_data : option NodeData) (hj ph bo : bool) :
  emits (write_transform_fields obj matrix node_data hj ph bo) anyQ.
Proof. unfold write_transform_fields. cbv zeta. keeps. Qed.

#[local] Hint Resolve keeps_transform_fields : keeps.

Lemma keeps_transform_begin (table : UserData) (obj : Object) (matrix : Matrix)
    (def_id : option string) :
  emits (write_transform_begin table obj matrix def_id) anyQ.
Proof. unfold write_transform_begin. keeps. Qed.

Lemma keeps_transform_end (b : bool) : emits (write_transform_end b) anyQ.
Proof. unfold write_transform_end. keeps. Qed.

Lemma keeps_image_texture (pm : string) (image : Image) :
  emits (write_image_texture pm image) anyQ.
Proof. unfold write_image_texture. keeps. Qed.

Lemma keeps_tex_coord_index (mesh_faces_vertices : list (list nat))
    (face_group : list nat) :
  forall j, emits (tex_coord_index mesh_faces_vertices face_group j) anyQ.
Proof.
  induction face_group as [|i r IH]; intro j; cbn [tex_coord_index]; keeps.
Qed.

#[local] Hint Resolve keeps_transform_begin keeps_transform_end
  keeps_image_texture keeps_tex_coord_index : keeps.

Lemma keeps_shape (pm : string) (world : option vec3) (mesh : Mesh)
    (coords_id : string) (item : GroupKey * list nat) (w : bool) :
  emits (write_shape pm world mesh coords_id item w) anyQ.
Proof. unfold write_shape. cbv zeta. keeps. Qed.

#[local] Hint Resolve keeps_shape : keeps.

Lemma keeps_shapes (pm : string) (world : option vec3) (mesh : Mesh)
    (coords_id : string) (items : FaceGroups) :
  forall w, emits (write_shapes pm world mesh coords_id items w) anyQ.
Proof.
  induction items as [|item r IH]; intro w; cbn [write_shapes]; keeps.
Qed.

#[local] Hint Resolve keeps_shapes : keeps.

Lemma keeps_geometry (h : Host) (opts : Options) (mesh : Mesh)
    (mesh_id : string) (world : option vec3) :
  emits (write_geometry h opts mesh mesh_id world) anyQ.
Proof. unfold write_geometry. cbv zeta. keeps. Qed.

#[local] Hint Resolve keeps_geometry : keeps.

Lemma keeps_indexed_face_set (h : Host) (opts : Options) (obj : Object)
    (mesh : Mesh) (matrix : Matrix) (world : option vec3) :
  emits (write_indexed_face_set h opts obj mesh matrix world) anyQ.
Proof. unfold write_indexed_face_set. keeps. Qed.

#[local] Hint Resolve keeps_indexed_face_set : keeps.

Lemma keeps_export_derived (h : Host) (opts : Options) (d : Derived) :
  emits (export_derived h opts d) anyQ.
Proof. unfold export_derived. cbv zeta. keeps. Qed.

#[local] Hint Resolve keeps_export_derived : keeps.

Lemma keeps_export_object (h : Host) (opts : Options) (t : Tree) :
  forall parent, emits (export_object h opts parent t) anyQ.
Proof.
  induction t as [obj children IH] using tree_forall_ind. intro parent.
  rewrite Forall_forall in IH.
  intros st a st' Hr. rewrite export_object_eq in Hr.
  match type of Hr with
  | ?m _ = _ => assert (K : emits m anyQ) by (keeps; now apply IH)
  end.
  exact (K st a st' Hr).
Qed.

(** ** Counting the definitions of coordinate blocks *)

Lemma coord_defs_app (a b : list string) :
  coord_defs (a ++ b) = coord_defs a + coord_defs b.
Proof. unfold coord_defs. now rewrite filter_app, length_app. Qed.

Lemma bracket_free_not_def (line : string) :
  bracket_free line -> is_coordinate_def line = false.
Proof.
  intro H. unfold is_coordinate_def.
  destruct (String.eqb line ("Coordinate {" ++ LF)) eqn:E; [|reflexivity].
  apply String.eqb_eq in E. subst line. discriminate H.
Qed.

Lemma emits_cd_eq {A : Type} (m : M A) (n n' : nat) :
  emits m (cdQ n) -> n = n' -> emits m (cdQ n').
Proof. now intros H <-. Qed.

Lemma emits_cd_seq {A B : Type} (m : M A) (f : A -> M B) (n1 n2 : nat) :
  emits m (cdQ n1) -> (forall a, emits (f a) (cdQ n2)) ->
  emits (bind m f) (cdQ (n1 + n2)).
Proof.
  intros H1 H2. eapply emits_bind; [exact H1 | exact H2 |].
  intros a b s1 s2 q1 q2. unfold cdQ in *. rewrite coord_defs_app. lia.
Qed.

Lemma emits_cd_seq_R {A B : Type} (m : M A) (f : A -> M B) (P : B -> Prop)
    (n1 n2 : nat) :
  emits m (cdQ n1) -> (forall a, emits (f a) (cdR P n2)) ->
  emits (bind m f) (cdR P (n1 + n2)).
Proof.
  intros H1 H2. eapply emits_bind; [exact H1 | exact H2 |].
  intros a b s1 s2 q1 [p q2]. split; [assumption|].
  unfold cdQ in *. rewrite coord_defs_app. lia.
Qed.

Lemma emits_cd0_bind {A B : Type} (m : M A) (f : A -> M B) :
  emits m (cdQ 0) -> (forall a, emits (f a) (cdQ 0)) -> emits (bind m f) (cdQ 0).
Proof. intros H1 H2. exact (emits_cd_seq m f 0 0 H1 H2). Qed.

Lemma emits_cd0_for_each {A : Type} (l : list A) (body : A -> M unit) :
  (forall x, In x l -> emits (body x) (cdQ 0)) -> emits (for_each l body) (cdQ 0).
Proof.
  induction l as [|x l IH]; intro H; cbn [for_each].
  - now apply emits_ret.
  - apply emits_cd0_bind; [apply H; now left | intros _; apply IH].
    intros y Hy. apply H. now right.
Qed.

Lemma emits_cd0_fw (line : string) :
  is_coordinate_def line = false -> emits (fw line) (cdQ 0).
Proof.
  intro H. apply emits_fw. unfold cdQ, coord_defs. cbn [filter]. now rewrite H.
Qed.

Lemma emits_cd0_pure {A : Type} (m : M A) (P : A -> Prop) :
  emits m (pureQ P) -> emits m (cdQ 0).
Proof. intro H. eapply emits_conseq; [exact H|]. now intros a seg [_ ->]. Qed.

Lemma emits_cd0_coord_index_line (fv : list nat) :
  emits (line <- lift (coord_index_line fv) ;; fw line) (cdQ 0).
Proof.
  destruct (coord_index_line fv) as [line|] eqn:E; cbn [lift].
  - intros st a st' Hr. unfold bind, ret in Hr.
    apply (emits_cd0_fw line); [|exact Hr].
    apply bracket_free_not_def. exact (coord_index_line_free fv line E).
  - intros st a st' Hr. discriminate.
Qed.

Create HintDb counts discriminated.

#[local] Hint Resolve emits_cd0_coord_index_line : counts.

(** Code that defines no coordinate block. *)
Ltac count0 :=
  repeat
    match goal with
    | |- emits _ _ => solve [auto 1 with counts nocore]
    | |- emits (ret _) _ => apply emits_ret; reflexivity
    | |- emits (fw _) _ =>
      apply emits_cd0_fw;
      first [apply bracket_free_not_def; solve [free] | reflexivity]
    | |- emits raise _ => apply emits_raise
    | |- emits (lift _) _ => apply emits_lift; intros; reflexivity
    | |- emits (unique_name_image _ _) _ =>
      apply (emits_cd0_pure _ _ (emits_unique_name_image _ _))
    | |- emits (get_image_tag _) _ =>
      apply (emits_cd0_pure _ _ (emits_get_image_tag _))
    | |- emits (set_image_tag _) _ =>
      apply (emits_cd0_pure _ _ (emits_set_image_tag _))
    | |- emits (bind _ _) _ => apply emits_cd0_bind; [|intros ?]
    | |- emits (for_each _ _) _ => apply emits_cd0_for_each; intros ? ?
    | |- emits (when _ _) _ => unfold when
    | |- emits (match ?x with _ => _ end) _ => destruct x
    end.

Lemma counts_image_texture (pm : string) (image : Image) :
  emits (write_image_texture pm image) (cdQ 0).
Proof. unfold write_image_texture. count0. Qed.

Lemma counts_tex_coord_index (mesh_faces_vertices : list (list nat))
    (face_group : list nat) :
  forall j, emits (tex_coord_index mesh_faces_vertices face_group j) (cdQ 0).
Proof.
  induction face_group as [|i r IH]; intro j; cbn [tex_coord_index]; count0.
Qed.

#[local] Hint Resolve counts_image_texture counts_tex_coord_index : counts.

(** Lines 301-315: the reference to the coordinate block of the mesh, or its
    definition on the first shape. *)
Lemma counts_coord_block (mesh : Mesh) (mesh_id_coords : string) (w : bool) :
  emits (if w then fw ("coord USE " ++ mesh_id_coords ++ LF)
         else
           fw "coord " ;;;
           fw ("DEF " ++ mesh_id_coords ++ " ") ;;;
           fw ("Coordinate {" ++ LF) ;;;
           fw ("point [" ++ LF) ;;;
           for_each (me_vertices mesh) (fun v => fw (format_vec3 6 v ++ " ")) ;;;
           fw LF ;;;
           fw ("]" ++ LF) ;;;
           fw ("}" ++ LF))
        (cdQ (if w then 0 else 1)).
Proof.
  destruct w; [count0|].
  eapply emits_cd_eq.
  - eapply emits_cd_seq; [solve [count0] | intros _].
    eapply emits_cd_seq; [solve [count0] | intros _].
    eapply emits_cd_seq; [apply emits_fw; reflexivity | intros _].
    count0.
  - reflexivity.
Qed.

Lemma emits_ret_R {A : Type} (a : A) (P : A -> Prop) :
  P a -> emits (ret a) (cdR P 0).
Proof. intro p. apply emits_ret. now split. Qed.

Lemma counts_shape (pm : string) (world : option vec3) (mesh : Mesh)
    (coords_id : string) (item : GroupKey * list nat) (w : bool) :
  emits (write_shape pm world mesh coords_id item w)
        (cdR (fun w' => w' = w || nonempty_group item)
             (if nonempty_group item then if w then 0 else 1 else 0)).
Proof.
  unfold write_shape. cbv zeta.
  destruct item as [[material_index image] face_group].
  destruct face_group as [|i0 face_group]; cbn [nonempty_group snd].
  - apply emits_ret. split; [symmetry; apply orb_false_r | reflexivity].
  - rewrite orb_true_r.
    eapply emits_conseq with (Q := cdR (fun w' => w' = true) _).
    + repeat (eapply emits_cd_seq_R;
              [first [solve [count0] | apply counts_coord_block] | intros ?]).
      apply emits_ret_R. reflexivity.
    + intros w' seg [-> H]. split; [reflexivity|].
      rewrite H. now destruct w.
Qed.

Lemma counts_shapes (pm : string) (world : option vec3) (mesh : Mesh)
    (coords_id : string) (items : FaceGroups) :
  forall w,
    emits (write_shapes pm world mesh coords_id items w)
          (cdQ (if w then 0 else if existsb nonempty_group items then 1 else 0)).
Proof.
  induction items as [|item r IH]; intro w; cbn [write_shapes existsb].
  - apply emits_ret. now destruct w.
  - eapply emits_bind; [apply counts_shape | intro w'; apply IH |].
    intros w' [] s1 s2 [-> H1] H2. unfold cdQ in *.
    rewrite coord_defs_app, H1, H2.
    destruct w, (nonempty_group item), (existsb nonempty_group r); reflexivity.
Qed.

(** ** A mesh with faces has a group with a face *)

Lemma map_all_length {A B : Type} (f : A -> option B) (l : list A) :
  forall l', map_all f l = Some l' -> List.length l' = List.length l.
Proof.
  induction l as [|x l IH]; intros l' H; simpl in H.
  - now injection H as <-.
  - destruct (f x); [|discriminate].
    destruct (map_all f l) as [ys|]; [|discriminate].
    injection H as <-. simpl. now rewrite (IH ys).
Qed.

Lemma enumerate_length {A : Type} (l : list A) :
  List.length (enumerate l) = List.length l.
Proof. unfold enumerate. rewrite length_combine, length_seq. lia. Qed.

Lemma faces_images_length (o : list (option Image) -> list (option Image))
    (mesh : Mesh) (imgs u : list (option Image)) :
  uv_per_face mesh -> faces_images o mesh = Some (imgs, u) ->
  List.length imgs = List.length (tessfaces_of mesh).
Proof.
  unfold uv_per_face, faces_images. cbv zeta. intros U H.
  destruct (me_uv_active mesh) as [data|].
  - destruct (existsb _ _).
    + destruct (map_all _ (enumerate data)) as [l|] eqn:E; [|discriminate].
      injection H as <- _. apply map_all_length in E.
      now rewrite E, enumerate_length.
    + destruct (existsb is_some _).
      * destruct (map_all _ _) as [l|] eqn:E; [|discriminate].
        injection H as <- _. apply map_all_length in E.
        now rewrite E, length_map.
      * injection H as <- _. apply length_map.
  - destruct (existsb is_some _).
    + destruct (map_all _ _) as [l|] eqn:E; [|discriminate].
      injection H as <- _. apply map_all_length in E.
      now rewrite E, length_map.
    + injection H as <- _. apply length_map.
Qed.

Lemma groups_append_nonempty (k : GroupKey) (i : nat) (d : FaceGroups) :
  forall d', groups_append k i d = Some d' -> existsb nonempty_group d' = true.
Proof.
  induction d as [|[a v] d IH]; intros d' H; simpl in H; [discriminate|].
  destruct (key_eqb a k).
  - injection H as <-. cbn [existsb nonempty_group snd]. now destruct v.
  - destruct (groups_append k i d) as [r'|]; [|discriminate].
    injection H as <-. cbn [existsb]. rewrite (IH r' eq_refl).
    apply orb_true_r.
Qed.

Lemma groups_fill_nonempty (faces : list (nat * GroupKey)) :
  forall d d',
    groups_fill faces d = Some d' ->
    faces <> [] \/ existsb nonempty_group d = true ->
    existsb nonempty_group d' = true.
Proof.
  induction faces as [|[i k] faces IH]; intros d d' H C; simpl in H.
  - injection H as <-. now destruct C.
  - destruct (groups_append k i d) as [d1|] eqn:A; [|discriminate].
    apply (IH d1 d' H). right. exact (groups_append_nonempty k i d d1 A).
Qed.

Lemma face_groups_items_nonempty
    (o : list (option Image) -> list (option Image)) (mesh : Mesh)
    (items : FaceGroups) :
  tessfaces_of mesh <> [] -> uv_per_face mesh ->
  face_groups_items o mesh = Some items ->
  existsb nonempty_group items = true.
Proof.
  intros F U H. unfold face_groups_items in H.
  destruct (faces_images o mesh) as [[imgs u]|] eqn:Hf; [|discriminate].
  pose proof (faces_images_length o mesh imgs u U Hf) as L.
  destruct (groups_fill _ _) as [d|] eqn:E; [|discriminate].
  injection H as <-.
  assert (N : existsb nonempty_group d = true).
  { apply (groups_fill_nonempty _ _ _ E). left. intro Z.
    destruct (tessfaces_of mesh) as [|f fs]; [now apply F|].
    destruct imgs as [|im ims]; [discriminate L|].
    unfold enumerate in Z. simpl in Z. discriminate Z. }
  apply existsb_exists in N as [x [Hx Nx]].
  apply existsb_exists. exists x. split; [|exact Nx].
  exact (Permutation_in _ (sort_items_perm d) Hx).
Qed.

(** ** The geometry of a mesh, met for the first time and again *)

Lemma write_geometry_untagged (h : Host) (opts : Options) (mesh : Mesh)
    (mesh_id : string) (world : option vec3) (st st' : State) :
  tessfaces_of mesh <> [] -> uv_per_face mesh ->
  mem_key (me_key mesh) (mesh_tag st) = false ->
  write_geometry h opts mesh mesh_id world st = Some (tt, st') ->
  mem_key (me_key mesh) (mesh_tag st') = true
  /\ exists seg, fw_log st' = fw_log st ++ seg /\ coord_defs seg = 1.
Proof.
  intros F U T H. unfold write_geometry in H. cbv zeta in H.
  unfold bind at 1, get_mesh_tag in H. rewrite T in H.
  unfold bind at 1, set_mesh_tag in H.
  unfold bind at 1 in H.
  destruct (face_groups_items (h_set_order h) mesh) as [items|] eqn:E;
    [|discriminate].
  cbn [lift ret] in H.
  destruct (counts_shapes _ _ _ _ _ _ _ _ _ H) as (seg & X & C).
  destruct X as (L & Tg & _). cbn [fw_log mesh_tag] in L, Tg. split.
  - apply Tg. unfold mem_key. cbn [existsb]. now rewrite Nat.eqb_refl.
  - exists seg. split; [exact L|]. unfold cdQ in C. rewrite C.
    now rewrite (face_groups_items_nonempty _ _ _ F U E).
Qed.

Lemma write_geometry_tagged (h : Host) (opts : Options) (mesh : Mesh)
    (mesh_id : string) (world : option vec3) (st : State) :
  mem_key (me_key mesh) (mesh_tag st) = true ->
  exists st',
    write_geometry h opts mesh mesh_id world st = Some (tt, st')
    /\ fw_log st' = fw_log st ++ ["USE " ++ GROUP_ ++ mesh_id ++ LF]%string
    /\ mesh_tag st' = mesh_tag st
    /\ uuid_cache_mesh st' = uuid_cache_mesh st.
Proof.
  intro T. unfold write_geometry. cbv zeta.
  unfold bind, get_mesh_tag. rewrite T. unfold fw.
  eexists. split; [reflexivity|]. repeat split.
Qed.

Lemma unique_name_mesh_cached (key : nat) (name id : string) (st : State) :
  cache_get key (uuid_cache_mesh st) = Some id ->
  exists st',
    unique_name_mesh key name st = Some (id, st')
    /\ fw_log st' = fw_log st
    /\ mesh_tag st' = mesh_tag st
    /\ uuid_cache_mesh st' = uuid_cache_mesh st.
Proof.
  intro H. unfold unique_name_mesh, unique_name. rewrite H.
  eexists. split; [reflexivity|]. repeat split.
Qed.

(** ** Runs that leave the tags and the identifiers alone *)

Lemma same_ids_refl (st : State) : same_ids st st.
Proof. repeat split. Qed.

Lemma same_ids_trans (st1 st2 st3 : State) :
  same_ids st1 st2 -> same_ids st2 st3 -> same_ids st1 st3.
Proof.
  intros (A1 & B1 & C1 & D1 & E1) (A2 & B2 & C2 & D2 & E2).
  repeat split; congruence.
Qed.

Lemma logs_ret {A : Type} (a : A) : logs (ret a).
Proof. intros st b st' H. injection H as <- <-. apply same_ids_refl. Qed.

Lemma logs_raise {A : Type} : logs (@raise A).
Proof. intros st a st' H. discriminate. Qed.

Lemma logs_lift {A : Type} (o : option A) : logs (lift o).
Proof. destruct o; [apply logs_ret | apply logs_raise]. Qed.

Lemma logs_fw (line : string) : logs (fw line).
Proof. intros st a st' H. injection H as <- <-. repeat split. Qed.

Lemma logs_bind {A B : Type} (m : M A) (f : A -> M B) :
  logs m -> (forall a, logs (f a)) -> logs (bind m f).
Proof.
  intros H1 H2 st b st' H. unfold bind in H.
  destruct (m st) as [[a st1]|] eqn:E; [|discriminate].
  exact (same_ids_trans _ _ _ (H1 _ _ _ E) (H2 _ _ _ _ H)).
Qed.

Create HintDb logs discriminated.

Ltac logging :=
  repeat
    match goal with
    | |- logs (ret _) => apply logs_ret
    | |- logs (fw _) => apply logs_fw
    | |- logs raise => apply logs_raise
    | |- logs (lift _) => apply logs_lift
    | |- logs (bind _ _) => apply logs_bind; [|intros ?]
    | |- logs (when _ _) => unfold when
    | |- logs (match ?x with _ => _ end) => destruct x
    | |- logs _ => solve [auto 1 with logs nocore]
    end.

Lemma logs_transform_fields (obj : Object) (matrix : Matrix)
    (node_data : option NodeData) (hj ph bo : bool) :
  logs (write_transform_fields obj matrix node_data hj ph bo).
Proof. unfold write_transform_fields. cbv zeta. logging. Qed.

#[local] Hint Resolve logs_transform_fields : logs.

Lemma logs_transform_begin (table : UserData) (obj : Object) (matrix : Matrix)
    (def_id : option string) :
  logs (write_transform_begin table obj matrix def_id).
Proof. unfold write_transform_begin. logging. Qed.

(** ** From a node to the geometry of its mesh *)

Lemma export_derived_data (h : Host) (opts : Options) (d : Derived)
    (mesh : Mesh) (st : State) :
  d_type d = "MESH" ->
  use_mesh_modifiers opts && d_is_modified d = false ->
  d_data d = Some mesh ->
  export_derived h opts d st
  = write_indexed_face_set h opts (d_obj d) mesh (d_matrix d) (h_world h) st.
Proof.
  intros Ht Hm Hd. unfold export_derived. cbv zeta.
  rewrite Ht, Hm, Hd. reflexivity.
Qed.

Lemma write_indexed_face_set_geometry (h : Host) (opts : Options)
    (obj : Object) (mesh : Mesh) (matrix : Matrix) (world : option vec3)
    (st st' : State) :
  tessfaces_of mesh <> [] ->
  write_indexed_face_set h opts obj mesh matrix world st = Some (tt, st') ->
  exists mesh_id st1 st2 pre post,
    mesh_tag st1 = mesh_tag st
    /\ cache_get (me_key mesh) (uuid_cache_mesh st1) = Some mesh_id
    /\ fw_log st1 = fw_log st ++ pre
    /\ write_geometry h opts mesh mesh_id world st1 = Some (tt, st2)
    /\ fw_log st' = fw_log st2 ++ post
    /\ mesh_tag st' = mesh_tag st2.
Proof.
  intros F H. unfold write_indexed_face_set in H.
  unfold bind at 1 in H. unfold unique_name_object at 1 in H.
  destruct (unique_name (ob_key obj) (OB_ ++ ob_name obj) (uuid_cache_object st))
    as [obj_id d1].
  unfold bind at 1 in H. unfold unique_name_mesh at 1 in H. cbn [uuid_cache_mesh] in H.
  pose proof (unique_name_cached (me_key mesh) (ME_ ++ me_name mesh)
                (uuid_cache_mesh st)) as K.
  destruct (unique_name (me_key mesh) (ME_ ++ me_name mesh) (uuid_cache_mesh st))
    as [mesh_id d2].
  cbn [fst snd] in K.
  destruct (tessfaces_of mesh) as [|f0 fs]; [now elim F|].
  unfold bind at 1 in H.
  match type of H with
  | match ?m ?s with _ => _ end = _ =>
    destruct (m s) as [[r st1]|] eqn:B; [|discriminate]
  end.
  unfold bind at 1 in H.
  destruct (write_geometry h opts mesh mesh_id world st1) as [[[] st2]|] eqn:G;
    [|discriminate].
  destruct (logs_transform_begin _ _ _ _ _ _ _ B) as (T1 & _ & _ & C1 & _).
  destruct (keeps_transform_begin _ _ _ _ _ _ _ B) as (pre & (L1 & _) & _).
  cbn [mesh_tag uuid_cache_mesh fw_log] in T1, C1, L1.
  assert (E : exists post, fw_log st' = fw_log st2 ++ post
                           /\ mesh_tag st' = mesh_tag st2).
  { destruct (fst r).
    - injection H as <-. exists []. now rewrite app_nil_r.
    - assert (X : logs (write_transform_end (snd r)))
        by (unfold write_transform_end; logging).
      destruct (X _ _ _ H) as (T2 & _).
      destruct (keeps_transform_end _ _ _ _ H) as (post & (L2 & _) & _).
      exists post. now split. }
  destruct E as (post & L2 & T2).
  exists mesh_id, st1, st2, pre, post.
  repeat split; try assumption. now rewrite C1.
Qed.


(** C3, the claim as stated fails: two sibling objects share one mesh and
    carry a modifier.  With the modifiers applied each object is written
    from the mesh [to_mesh] returns for it, so the export holds two
    definitions of a coordinate block and no reuse reference; without, it
    holds one of each. *)
Lemma modified_shared_mesh_written_twice :
  option_map (fun st => (coord_defs (fw_log st), use_refs (fw_log st)))
    (export Scenes.modified_cubes (Scenes.with_modifiers []))
  = Some (2, 0)
  /\ option_map (fun st => (coord_defs (fw_log st), use_refs (fw_log st)))
       (export Scenes.modified_cubes (Scenes.options []))
     = Some (1, 1).
Proof. split; vm_compute; reflexivity. Qed.

(* ================================================================== *)
(** * Fragments of a run, one by one *)
(* ================================================================== *)

Lemma isdigit_numeric (c : ascii) : PyStr.isdigit c = true -> numeric c = true.
Proof. unfold numeric. now intros ->. Qed.

Lemma format_fixed_numeric (prec : nat) (x : Q) :
  PyStr.all_chars numeric (format_fixed prec x) = true.
Proof.
  unfold format_fixed. rewrite !all_chars_app.
  rewrite (of_N_all _ isdigit_numeric).
  rewrite (zfill_all _ isdigit_numeric) by apply (of_N_all _ isdigit_numeric).
  now destruct (Qnum x <? 0)%Z.
Qed.

Ltac numerics :=
  repeat first
    [ apply format_fixed_numeric
    | apply (of_nat_all _ isdigit_numeric)
    | reflexivity
    | match goal with
      | |- PyStr.all_chars _ (String _ _) = true =>
        cbn [PyStr.all_chars]; apply andb_true_iff; split; [reflexivity|]
      end
    | rewrite all_chars_app; apply andb_true_iff; split ].

Lemma numeric_vec3 (prec : nat) (v : vec3) :
  PyStr.all_chars numeric (format_vec3 prec v ++ " ") = true.
Proof. destruct v as [[x y] z]. unfold format_vec3. numerics. Qed.

Lemma numeric_uv (uv : Q * Q) : PyStr.all_chars numeric (format_uv uv) = true.
Proof. unfold format_uv. numerics. Qed.

Lemma numeric_coord_index_line (fv : list nat) (line : string) :
  coord_index_line fv = Some line -> PyStr.all_chars numeric line = true.
Proof.
  unfold coord_index_line.
  destruct fv as [|a [|b [|c [|d [|e r]]]]]; try discriminate;
    intro H; injection H as <-; numerics.
Qed.


(** A line of numbers starts with none of the letters of a keyword. *)
Lemma numeric_head (line : string) (c : ascii) (r : string) :
  PyStr.all_chars numeric line = true -> numeric c = false ->
  String.prefix (String c r) line = false
  /\ String.eqb line (String c r) = false.
Proof.
  intros H N. destruct line as [|d l]; [split; reflexivity|].
  cbn [PyStr.all_chars] in H. apply andb_true_iff in H as [H _].
  cbn [String.prefix String.eqb]. split.
  - destruct (ascii_dec c d) as [<- | _]; [congruence | reflexivity].
  - destruct (Ascii.eqb d c) eqn:E; [|reflexivity].
    apply Ascii.eqb_eq in E. subst d. congruence.
Qed.


(** ** Runs, by their fragments alone *)






Lemma runs_bind {A B : Type} (m : M A) (f : A -> M B)
    (Q1 : A -> list string -> Prop) (Q2 : A -> B -> list string -> Prop)
    (Q : B -> list string -> Prop) :
  runs m Q1 ->
  (forall a, runs (f a) (Q2 a)) ->
  (forall a b s1 s2, Q1 a s1 -> Q2 a b s2 -> Q b (s1 ++ s2)) ->
  runs (bind m f) Q.
Proof.
  intros H1 H2 H st b st' Hr. unfold bind in Hr.
  destruct (m st) as [[a st1]|] eqn:E; [|discriminate].
  destruct (H1 st a st1 E) as (s1 & E1 & q1).
  destruct (H2 a st1 b st' Hr) as (s2 & E2 & q2).
  exists (s1 ++ s2). split; [|eauto].
  now rewrite E2, E1, app_assoc.
Qed.


(** After the fragments [pre], written first. *)
Lemma runs_after {A B : Type} (m : M A) (f : A -> M B) (pre : list string)
    (Q : B -> list string -> Prop) :
  runs m (fun _ seg => seg = pre) ->
  (forall a, runs (f a) Q) ->
  runs (bind m f) (fun b seg => exists rest, seg = pre ++ rest /\ Q b rest).
Proof.
  intros H1 H2.
  eapply runs_bind with (Q2 := fun _ => Q); [exact H1 | exact H2 |].
  intros a b s1 s2 -> q. now exists s2.
Qed.



(** ** Runs that tag no mesh *)


Lemma steady_impl {A : Type} (m : M A) (P P' : string -> Prop) :
  steady m P -> (forall l, P l -> P' l) -> steady m P'.
Proof.
  intros H I st a st' Hr. destruct (H st a st' Hr) as (T & seg & E & F).
  split; [exact T|]. exists seg. split; [exact E|].
  eapply Forall_impl; [exact I | exact F].
Qed.

Lemma steady_ret {A : Type} (a : A) (P : string -> Prop) : steady (ret a) P.
Proof.
  intros st b st' Hr. injection Hr as <- <-. split; [reflexivity|].
  exists []. now rewrite app_nil_r.
Qed.

Lemma steady_raise {A : Type} (P : string -> Prop) : steady (@raise A) P.
Proof. intros st a st' Hr. discriminate. Qed.

Lemma steady_lift {A : Type} (o : option A) (P : string -> Prop) :
  steady (lift o) P.
Proof. destruct o; [apply steady_ret | apply steady_raise]. Qed.

Lemma steady_fw (line : string) (P : string -> Prop) :
  P line -> steady (fw line) P.
Proof.
  intros H st [] st' Hr. injection Hr as <-. split; [reflexivity|].
  exists [line]. split; [reflexivity | now constructor].
Qed.

Lemma steady_bind {A B : Type} (m : M A) (f : A -> M B) (P : string -> Prop) :
  steady m P -> (forall a, steady (f a) P) -> steady (bind m f) P.
Proof.
  intros H1 H2 st b st' Hr. unfold bind in Hr.
  destruct (m st) as [[a st1]|] eqn:E; [|discriminate].
  destruct (H1 st a st1 E) as (T1 & s1 & E1 & F1).
  destruct (H2 a st1 b st' Hr) as (T2 & s2 & E2 & F2).
  split; [congruence|]. exists (s1 ++ s2).
  split; [now rewrite E2, E1, app_assoc | apply Forall_app; now split].
Qed.

Lemma steady_for_each {A : Type} (l : list A) (body : A -> M unit)
    (P : string -> Prop) :
  (forall x, In x l -> steady (body x) P) -> steady (for_each l body) P.
Proof.
  induction l as [|x l IH]; intro H; cbn [for_each].
  - apply steady_ret.
  - apply steady_bind; [apply H; now left | intros _; apply IH].
    intros y Hy. apply H. now right.
Qed.

Lemma steady_state {A : Type} (m : M A) (P : string -> Prop) :
  (forall st a st', m st = Some (a, st') ->
                    mesh_tag st' = mesh_tag st /\ fw_log st' = fw_log st) ->
  steady m P.
Proof.
  intros H st a st' Hr. destruct (H st a st' Hr) as [T L].
  split; [exact T|]. exists []. now rewrite app_nil_r.
Qed.

Lemma steady_unique_name_object (key : nat) (name : string) (P : string -> Prop) :
  steady (unique_name_object key name) P.
Proof.
  apply steady_state. intros st a st' Hr. unfold unique_name_object in Hr.
  destruct (unique_name key name (uuid_cache_object st)) as [id d].
  injection Hr as <- <-. now split.
Qed.

Lemma steady_unique_name_mesh (key : nat) (name : string) (P : string -> Prop) :
  steady (unique_name_mesh key name) P.
Proof.
  apply steady_state. intros st a st' Hr. unfold unique_name_mesh in Hr.
  destruct (unique_name key name (uuid_cache_mesh st)) as [id d].
  injection Hr as <- <-. now split.
Qed.

Lemma steady_unique_name_image (key : nat) (name : string) (P : string -> Prop) :
  steady (unique_name_image key name) P.
Proof.
  apply steady_state. intros st a st' Hr. unfold unique_name_image in Hr.
  destruct (unique_name key name (uuid_cache_image st)) as [id d].
  injection Hr as <- <-. now split.
Qed.

Lemma steady_get_mesh_tag (k : nat) (P : string -> Prop) :
  steady (get_mesh_tag k) P.
Proof.
  apply steady_state. intros st a st' Hr. injection Hr as <- <-. now split.
Qed.

Lemma steady_get_image_tag (k : nat) (P : string -> Prop) :
  steady (get_image_tag k) P.
Proof.
  apply steady_state. intros st a st' Hr. injection Hr as <- <-. now split.
Qed.

Lemma steady_set_image_tag (k : nat) (P : string -> Prop) :
  steady (set_image_tag k) P.
Proof.
  apply steady_state. intros st a st' Hr. unfold set_image_tag in Hr.
  injection Hr as <- <-. now split.
Qed.

Lemma steady_coord_index_line (fv : list nat) (P : string -> Prop) :
  (forall line, PyStr.all_chars numeric line = true -> P line) ->
  steady (line <- lift (coord_index_line fv) ;; fw line) P.
Proof.
  intro H. destruct (coord_index_line fv) as [line|] eqn:E; cbn [lift].
  - intros st a st' Hr. unfold bind, ret in Hr.
    refine (steady_fw line P _ st a st' Hr).
    apply H. exact (numeric_coord_index_line fv line E).
  - intros st a st' Hr. discriminate.
Qed.

Lemma steady_tex_coord_index (mesh_faces_vertices : list (list nat))
    (face_group : list nat) (P : string -> Prop) :
  (forall line, PyStr.all_chars numeric line = true -> P line) ->
  forall j, steady (tex_coord_index mesh_faces_vertices face_group j) P.
Proof.
  intro H. induction face_group as [|i r IH]; intro j; cbn [tex_coord_index].
  - apply steady_ret.
  - apply steady_bind; [apply steady_lift | intros fv].
    destruct (List.length fv =? 4);
      (apply steady_bind; [apply steady_fw; apply H; numerics | intros _; apply IH]).
Qed.

(** The writers, for a property [P] of fragments that [frag] proves of
    each fragment written. *)
Ltac steadies frag :=
  repeat
    match goal with
    | |- steady (ret _) _ => apply steady_ret
    | |- steady (fw _) _ => apply steady_fw; frag
    | |- steady raise _ => apply steady_raise
    | |- steady (lift _) _ => apply steady_lift
    | |- steady (unique_name_object _ _) _ => apply steady_unique_name_object
    | |- steady (unique_name_mesh _ _) _ => apply steady_unique_name_mesh
    | |- steady (unique_name_image _ _) _ => apply steady_unique_name_image
    | |- steady (get_image_tag _) _ => apply steady_get_image_tag
    | |- steady (set_image_tag _) _ => apply steady_set_image_tag
    | |- steady (get_mesh_tag _) _ => apply steady_get_mesh_tag
    | |- steady (bind (lift (coord_index_line _)) _) _ =>
      apply steady_coord_index_line; intros ? ?; frag
    | |- steady (tex_coord_index _ _ _) _ =>
      apply steady_tex_coord_index; intros ? ?; frag
    | |- steady (bind _ _) _ => apply steady_bind; [|intros ?]
    | |- steady (for_each _ _) _ => apply steady_for_each; intros ? ?
    | |- steady (when _ _) _ => unfold when
    | |- steady (write_image_texture _ _) _ => unfold write_image_texture
    | |- steady (write_transform_end _) _ => unfold write_transform_end
    | |- steady (match ?x with _ => _ end) _ => destruct x
    end.

(** A fragment that starts with a keyword, or a line of numbers, against a
    property that a keyword decides: [lem] is the case of the numbers. *)
Ltac frag_by lem :=
  cbv beta;
  first [ reflexivity
        | apply lem;
          first [ assumption | apply numeric_vec3 | apply numeric_uv
                | solve [numerics] ] ].


(* ================================================================== *)
(** * Shapes in the order of the groups *)
(* ================================================================== *)



















(* ================================================================== *)
(** * Meshes met once and met again *)
(* ================================================================== *)

(** ** The marks of a run of encounters *)

Lemma seen_after_app (keys1 keys2 : list nat) :
  forall seen,
    seen_after seen (keys1 ++ keys2) = seen_after (seen_after seen keys1) keys2.
Proof.
  induction keys1 as [|k r IH]; intro seen; cbn [app seen_after];
    [reflexivity | apply IH].
Qed.

Lemma first_met_app (keys1 keys2 : list nat) :
  forall seen,
    first_met seen (keys1 ++ keys2)
    = first_met seen keys1 ++ first_met (seen_after seen keys1) keys2.
Proof.
  induction keys1 as [|k r IH]; intro seen; cbn [app seen_after first_met];
    [reflexivity|].
  destruct (mem_key k seen); cbn [app]; now rewrite IH.
Qed.

Lemma first_met_length (keys : list nat) :
  forall seen, List.length (first_met seen keys) = List.length keys.
Proof.
  induction keys as [|k r IH]; intro seen; cbn [first_met]; [reflexivity|].
  destruct (mem_key k seen); cbn [List.length]; now rewrite IH.
Qed.

Lemma filter_not_key (k : nat) (l : list nat) :
  ~ In k l -> filter (fun x => negb (Nat.eqb x k)) l = l.
Proof.
  induction l as [|x l IH]; intro N; cbn [filter]; [reflexivity|].
  destruct (Nat.eqb x k) eqn:E.
  - apply Nat.eqb_eq in E. subst x. elim N. now left.
  - cbn [negb]. rewrite IH; [reflexivity|]. intro H. apply N. now right.
Qed.

Lemma nodup_without (k : nat) (l : list nat) :
  In k l ->
  List.length (nodup Nat.eq_dec l)
  = S (List.length (nodup Nat.eq_dec (filter (fun x => negb (Nat.eqb x k)) l))).
Proof.
  induction l as [|x l IH]; intro H; [contradiction|].
  cbn [filter nodup]. destruct (Nat.eqb x k) eqn:E; cbn [negb].
  - apply Nat.eqb_eq in E. subst x.
    destruct (in_dec Nat.eq_dec k l) as [I | N].
    + now apply IH.
    + rewrite (filter_not_key k l N). reflexivity.
  - apply Nat.eqb_neq in E. destruct H as [-> | H]; [now elim E|].
    cbn [nodup].
    destruct (in_dec Nat.eq_dec x l) as [I | N];
      destruct (in_dec Nat.eq_dec x (filter (fun y => negb (Nat.eqb y k)) l))
        as [I' | N'].
    + now apply IH.
    + elim N'. apply filter_In. split; [exact I|].
      apply negb_true_iff. now apply Nat.eqb_neq.
    + elim N. apply filter_In in I'. tauto.
    + cbn [List.length]. now rewrite IH.
Qed.

Lemma nodup_cons_length (k : nat) (l : list nat) :
  List.length (nodup Nat.eq_dec (k :: l))
  = S (List.length (nodup Nat.eq_dec (filter (fun x => negb (Nat.eqb x k)) l))).
Proof.
  cbn [nodup]. destruct (in_dec Nat.eq_dec k l) as [I | N].
  - now apply nodup_without.
  - rewrite (filter_not_key k l N). reflexivity.
Qed.

Lemma filter_unseen_cons (k : nat) (seen keys : list nat) :
  filter (fun x => negb (mem_key x (k :: seen))) keys
  = filter (fun x => negb (Nat.eqb x k))
      (filter (fun x => negb (mem_key x seen)) keys).
Proof.
  induction keys as [|x r IH]; cbn [filter]; [reflexivity|].
  unfold mem_key at 1. cbn [existsb]. fold (mem_key x seen).
  destruct (Nat.eqb x k) eqn:E; destruct (mem_key x seen) eqn:M;
    cbn [orb negb filter]; rewrite ?E; cbn [negb]; now rewrite IH.
Qed.

(** As many first encounters as there are meshes that had not been seen. *)
Lemma first_met_new (keys : list nat) :
  forall seen,
    List.length (filter (fun b => b) (first_met seen keys))
    = List.length
        (nodup Nat.eq_dec (filter (fun x => negb (mem_key x seen)) keys)).
Proof.
  induction keys as [|k r IH]; intro seen; cbn [first_met filter];
    [reflexivity|].
  destruct (mem_key k seen) eqn:M; cbn [negb filter].
  - apply IH.
  - cbn [List.length]. rewrite IH, nodup_cons_length.
    now rewrite filter_unseen_cons.
Qed.

Lemma filter_all_keys (keys : list nat) :
  filter (fun x => negb (mem_key x [])) keys = keys.
Proof.
  induction keys as [|k r IH]; [reflexivity|].
  cbn [filter]. change (mem_key k []) with false. cbn [negb]. now rewrite IH.
Qed.

Lemma geometry_marks_app (a b : list string) :
  geometry_marks (a ++ b) = geometry_marks a ++ geometry_marks b.
Proof. unfold geometry_marks. now rewrite filter_app, map_app. Qed.

Lemma geometry_marks_none (seg : list string) :
  Forall no_mark seg -> geometry_marks seg = [].
Proof.
  unfold geometry_marks.
  induction 1 as [|l seg H _ IH]; cbn [filter]; [reflexivity|].
  unfold no_mark in H. now rewrite H.
Qed.

Lemma coordinate_def_no_use (line : string) :
  is_coordinate_def line = true -> String.prefix "USE " line = false.
Proof.
  unfold is_coordinate_def. intro H. apply String.eqb_eq in H. now subst line.
Qed.

Lemma marks_defs (seg : list string) :
  coord_defs seg = List.length (filter (fun b => b) (geometry_marks seg)).
Proof.
  unfold coord_defs, geometry_marks, is_mark.
  induction seg as [|l seg IH]; cbn [filter]; [reflexivity|].
  destruct (is_coordinate_def l) eqn:D; cbn [orb map filter List.length].
  - rewrite D. cbn [filter List.length]. now rewrite IH.
  - destruct (String.prefix "USE " l); cbn [map filter]; rewrite ?D; exact IH.
Qed.

Lemma marks_uses (seg : list string) :
  use_refs seg = List.length (filter negb (geometry_marks seg)).
Proof.
  unfold use_refs, geometry_marks, is_mark.
  induction seg as [|l seg IH]; cbn [filter]; [reflexivity|].
  destruct (is_coordinate_def l) eqn:D; cbn [orb map filter].
  - rewrite (coordinate_def_no_use l D), D. cbn [negb]. exact IH.
  - destruct (String.prefix "USE " l); cbn [map filter List.length];
      rewrite ?D; cbn [negb List.length]; now rewrite IH.
Qed.

Lemma filter_split_length (l : list bool) :
  List.length (filter (fun b => b) l) + List.length (filter negb l)
  = List.length l.
Proof.
  induction l as [|[|] l IH]; cbn [filter negb List.length]; lia.
Qed.

Lemma no_use_refs (seg : list string) :
  Forall (fun l => String.prefix "USE " l = false) seg -> use_refs seg = 0.
Proof.
  unfold use_refs. induction 1 as [|l seg H _ IH]; cbn [filter];
    [reflexivity | now rewrite H].
Qed.

Lemma geometry_marks_one_def (seg : list string) :
  Forall (fun l => String.prefix "USE " l = false) seg ->
  coord_defs seg = 1 -> geometry_marks seg = [true].
Proof.
  intros F C. pose proof (no_use_refs seg F) as U.
  rewrite marks_defs in C. rewrite marks_uses in U.
  pose proof (filter_split_length (geometry_marks seg)) as L.
  rewrite C, U in L.
  destruct (geometry_marks seg) as [|b [|c r]]; try discriminate L.
  destruct b; [reflexivity | discriminate C].
Qed.

(** ** Runs that meet meshes *)

Lemma tallies_steady {A : Type} (m : M A) : steady m no_mark -> tallies m [].
Proof.
  intros H st a st' Hr. destruct (H st a st' Hr) as (T & seg & L & F).
  split; [exact T|]. exists seg. split; [exact L|].
  now apply geometry_marks_none.
Qed.

Lemma tallies_ret {A : Type} (a : A) : tallies (ret a) [].
Proof. apply tallies_steady, steady_ret. Qed.

Lemma tallies_raise {A : Type} (keys : list nat) : tallies (@raise A) keys.
Proof. intros st a st' Hr. discriminate. Qed.

Lemma tallies_bind {A B : Type} (m : M A) (f : A -> M B)
    (keys1 keys2 : list nat) :
  tallies m keys1 -> (forall a, tallies (f a) keys2) ->
  tallies (bind m f) (keys1 ++ keys2).
Proof.
  intros H1 H2 st b st' Hr. unfold bind in Hr.
  destruct (m st) as [[a st1]|] eqn:E; [|discriminate].
  destruct (H1 st a st1 E) as (T1 & s1 & L1 & M1).
  destruct (H2 a st1 b st' Hr) as (T2 & s2 & L2 & M2).
  split.
  - now rewrite T2, T1, seen_after_app.
  - exists (s1 ++ s2). split; [now rewrite L2, L1, app_assoc|].
    now rewrite geometry_marks_app, M1, M2, T1, first_met_app.
Qed.

Lemma tallies_bind_r {A B : Type} (m : M A) (f : A -> M B) (keys : list nat) :
  steady m no_mark -> (forall a, tallies (f a) keys) ->
  tallies (bind m f) keys.
Proof.
  intros H1 H2. change keys with ([] ++ keys).
  apply tallies_bind; [now apply tallies_steady | exact H2].
Qed.

Lemma tallies_bind_l {A B : Type} (m : M A) (f : A -> M B) (keys : list nat) :
  tallies m keys -> (forall a, steady (f a) no_mark) ->
  tallies (bind m f) keys.
Proof.
  intros H1 H2. rewrite <- (app_nil_r keys).
  apply tallies_bind; [exact H1 | intro a; now apply tallies_steady].
Qed.

Lemma tallies_bind_ret {A B : Type} (a : A) (f : A -> M B) (keys : list nat) :
  tallies (f a) keys -> tallies (bind (ret a) f) keys.
Proof. intros H st b st' Hr. exact (H st b st' Hr). Qed.

Lemma tallies_for_each {A : Type} (l : list A) (body : A -> M unit)
    (K : A -> list nat) :
  (forall x, In x l -> tallies (body x) (K x)) ->
  tallies (for_each l body) (flat_map K l).
Proof.
  induction l as [|x l IH]; intro H; cbn [for_each flat_map].
  - apply tallies_ret.
  - apply tallies_bind; [apply H; now left | intros _; apply IH].
    intros y Hy. apply H. now right.
Qed.

Lemma map_flat_map {A B C : Type} (g : B -> C) (f : A -> list B) (l : list A) :
  map g (flat_map f l) = flat_map (fun x => map g (f x)) l.
Proof.
  induction l as [|x l IH]; cbn [flat_map map]; [reflexivity|].
  now rewrite map_app, IH.
Qed.

(** ** The writers *)

Lemma numeric_no_mark (line : string) :
  PyStr.all_chars numeric line = true -> is_mark line = false.
Proof.
  intro H. unfold is_mark, is_coordinate_def. apply orb_false_iff. split.
  - exact (proj2 (numeric_head line "C" _ H eq_refl)).
  - exact (proj1 (numeric_head line "U" _ H eq_refl)).
Qed.

Lemma numeric_no_use (line : string) :
  PyStr.all_chars numeric line = true -> String.prefix "USE " line = false.
Proof. intro H. exact (proj1 (numeric_head line "U" _ H eq_refl)). Qed.

Ltac unmarked := unfold no_mark; frag_by numeric_no_mark.

Lemma steady_transform_fields (obj : Object) (matrix : Matrix)
    (node_data : option NodeData) (hj ph bo : bool) :
  steady (write_transform_fields obj matrix node_data hj ph bo) no_mark.
Proof. unfold write_transform_fields. cbv zeta. steadies unmarked. Qed.

Lemma steady_transform_end (b : bool) : steady (write_transform_end b) no_mark.
Proof. steadies unmarked. Qed.

Lemma dict_get_Forall {V : Type} (P : string * V -> Prop) (k : string) (v : V)
    (d : list (string * V)) :
  Forall P d -> dict_get k d = Some v -> exists k', P (k', v).
Proof.
  induction 1 as [|[k' v'] d H _ IH]; cbn [dict_get]; [discriminate|].
  destruct (String.eqb k' k); [|exact IH].
  intro E. injection E as <-. now exists k'.
Qed.

Lemma steady_transform_begin (table : UserData) (obj : Object)
    (matrix : Matrix) (def_id : option string) :
  table_unmarked table ->
  steady (write_transform_begin table obj matrix def_id) no_mark.
Proof.
  intro Ht. unfold write_transform_begin.
  destruct (lookup_override table def_id) as [nd|] eqn:E.
  - assert (N : no_mark (webotsType nd ++ " {" ++ LF)).
    { destruct def_id as [k|]; [|discriminate]. cbn [lookup_override] in E.
      destruct (dict_get_Forall _ _ _ _ Ht E) as [k' H]. exact H. }
    apply steady_bind; [steadies unmarked | intros _].
    apply steady_bind; [now apply steady_fw | intros _].
    apply steady_transform_fields.
  - destruct (is_identity matrix); [apply steady_ret|].
    apply steady_bind; [steadies unmarked | intros _].
    apply steady_bind; [steadies unmarked | intros _].
    apply steady_transform_fields.
Qed.

Lemma steady_header : steady write_header no_mark.
Proof. unfold write_header. steadies unmarked. Qed.

Lemma steady_shape_no_use (pm : string) (world : option vec3) (mesh : Mesh)
    (id : string) (item : GroupKey * list nat) (w : bool) :
  steady (write_shape pm world mesh id item w)
         (fun l => String.prefix "USE " l = false).
Proof.
  unfold write_shape. cbv zeta. destruct item as [[material_index image] g].
  steadies ltac:(frag_by numeric_no_use).
Qed.

Lemma steady_shapes_no_use (pm : string) (world : option vec3) (mesh : Mesh)
    (id : string) (items : FaceGroups) :
  forall w,
    steady (write_shapes pm world mesh id items w)
           (fun l => String.prefix "USE " l = false).
Proof.
  induction items as [|item r IH]; intro w; cbn [write_shapes].
  - apply steady_ret.
  - apply steady_bind; [apply steady_shape_no_use | intros w'; apply IH].
Qed.

(** The geometry of a mesh: one definition at the first encounter, one
    reference at every other. *)
Lemma tallies_geometry (h : Host) (opts : Options) (mesh : Mesh)
    (mesh_id : string) (world : option vec3) :
  tessfaces_of mesh <> [] -> uv_per_face mesh ->
  tallies (write_geometry h opts mesh mesh_id world) [me_key mesh].
Proof.
  intros F U st a st' Hr. cbn [seen_after first_met].
  destruct (mem_key (me_key mesh) (mesh_tag st)) eqn:T.
  - destruct (write_geometry_tagged h opts mesh mesh_id world st T)
      as (st1 & R & L & Tg & _).
    rewrite R in Hr. injection Hr as <- <-.
    split; [exact Tg|]. eexists. split; [exact L | reflexivity].
  - destruct a.
    destruct (write_geometry_untagged h opts mesh mesh_id world st st' F U T Hr)
      as (_ & seg & L & C).
    unfold write_geometry in Hr. cbv zeta in Hr.
    unfold bind at 1, get_mesh_tag in Hr. rewrite T in Hr.
    unfold bind at 1, set_mesh_tag in Hr.
    unfold bind at 1 in Hr.
    destruct (face_groups_items (h_set_order h) mesh) as [items|];
      [|discriminate].
    cbn [lift ret] in Hr.
    destruct (steady_shapes_no_use _ _ _ _ _ _ _ _ _ Hr) as (Tg & seg' & L' & N).
    cbn [mesh_tag fw_log] in Tg, L'.
    assert (seg' = seg) as -> by (rewrite L in L'; now apply app_inv_head in L').
    split; [exact Tg|]. exists seg. split; [exact L|].
    now apply geometry_marks_one_def.
Qed.

Lemma tallies_indexed_face_set (h : Host) (opts : Options) (obj : Object)
    (mesh : Mesh) (matrix : Matrix) (world : option vec3) :
  table_unmarked (user_data opts) ->
  (has_faces mesh = true -> uv_per_face mesh) ->
  tallies (write_indexed_face_set h opts obj mesh matrix world)
          (if has_faces mesh then [me_key mesh] else []).
Proof.
  intros Ht U. unfold write_indexed_face_set, has_faces in *.
  apply tallies_bind_r; [apply steady_unique_name_object | intros obj_id].
  apply tallies_bind_r; [apply steady_unique_name_mesh | intros mesh_id].
  destruct (tessfaces_of mesh) as [|f fs] eqn:E; [apply tallies_ret|].
  apply tallies_bind_r; [now apply steady_transform_begin | intros r].
  apply tallies_bind_l.
  - apply tallies_geometry; [rewrite E; discriminate | now apply U].
  - intros _. destruct (fst r); [apply steady_ret | apply steady_transform_end].
Qed.

Lemma tallies_export_derived (h : Host) (opts : Options) (d : Derived) :
  table_unmarked (user_data opts) ->
  (forall me, derived_mesh opts d = Some me -> has_faces me = true ->
              uv_per_face me) ->
  tallies (export_derived h opts d)
          (map me_key match derived_mesh opts d with
                      | Some me => if has_faces me then [me] else []
                      | None => []
                      end).
Proof.
  intros Ht U. unfold export_derived, derived_mesh in *. cbv zeta in *.
  destruct (String.eqb (d_type d) "MESH" || String.eqb (d_type d) "CURVE"
            || String.eqb (d_type d) "SURFACE" || String.eqb (d_type d) "FONT");
    [|apply tallies_ret].
  destruct (if negb (String.eqb (d_type d) "MESH")
               || use_mesh_modifiers opts && d_is_modified d
            then d_to_mesh d else d_data d) as [me|]; [|apply tallies_ret].
  replace (map me_key (if has_faces me then [me] else []))
    with (if has_faces me then [me_key me] else [])
    by (now destruct (has_faces me)).
  apply tallies_indexed_face_set; [exact Ht | now apply U].
Qed.

Lemma tallies_derived (h : Host) (opts : Options) (obj_main : Object) :
  table_unmarked (user_data opts) ->
  Forall uv_per_face (derived_meshes h opts obj_main) ->
  tallies (for_each (match h_derived h obj_main with
                     | Some derived => derived
                     | None => []
                     end)
                    (export_derived h opts))
          (map me_key (derived_meshes h opts obj_main)).
Proof.
  intros Ht U. unfold derived_meshes in *. rewrite map_flat_map.
  apply tallies_for_each. intros d Hd. apply tallies_export_derived; [exact Ht|].
  intros me E F. rewrite Forall_forall in U. apply U.
  apply in_flat_map. exists d. split; [exact Hd|]. rewrite E, F. now left.
Qed.

Lemma tallies_export_object (h : Host) (opts : Options) (t : Tree) :
  table_unmarked (user_data opts) ->
  Forall uv_per_face (tree_meshes h opts t) ->
  forall parent,
    tallies (export_object h opts parent t) (map me_key (tree_meshes h opts t)).
Proof.
  intro Ht. induction t as [obj children IH] using tree_forall_ind.
  intros U parent. cbn [tree_meshes] in *.
  apply Forall_app in U as [U1 U2].
  intros st a st' Hr. rewrite export_object_eq in Hr.
  match type of Hr with
  | ?m _ = _ =>
    assert (K : tallies m (map me_key
                             (derived_meshes h opts obj
                              ++ flat_map (tree_meshes h opts) children)))
  end; [|exact (K st a st' Hr)].
  apply tallies_bind_r; [apply steady_unique_name_object | intros obj_main_id].
  apply tallies_bind_r; [now apply steady_transform_begin | intros r].
  rewrite map_app. apply tallies_bind; [now apply tallies_derived | intros _].
  apply tallies_bind_l.
  - rewrite map_flat_map. apply tallies_for_each. intros c Hc.
    rewrite Forall_forall in IH. apply IH; [exact Hc|].
    rewrite Forall_forall in U2 |- *. intros me Hme. apply U2.
    apply in_flat_map. now exists c.
  - intros _. destruct (fst r); [apply steady_ret | apply steady_transform_end].
Qed.

Lemma tallies_export_main (h : Host) (opts : Options) :
  table_unmarked (user_data opts) ->
  Forall uv_per_face (encountered h opts) ->
  tallies (write_header ;;;
           objects_hierarchy <- lift (build_hierarchy (selected_objects h opts)) ;;
           for_each objects_hierarchy (export_object h opts None))
          (map me_key (encountered h opts)).
Proof.
  intros Ht U. unfold encountered in *.
  apply tallies_bind_r; [apply steady_header | intros _].
  destruct (build_hierarchy (selected_objects h opts)) as [forest|];
    cbn [lift]; [|intros st a st' Hr; discriminate].
  apply tallies_bind_ret. rewrite map_flat_map.
  apply tallies_for_each. intros t Hin. apply tallies_export_object; [exact Ht|].
  rewrite Forall_forall in U |- *. intros me Hme. apply U.
  apply in_flat_map. now exists t.
Qed.

Lemma export_derived_mesh (h : Host) (opts : Options) (d : Derived)
    (mesh : Mesh) (st : State) :
  derived_mesh opts d = Some mesh ->
  export_derived h opts d st
  = write_indexed_face_set h opts (d_obj d) mesh (d_matrix d) (h_world h) st.
Proof.
  unfold export_derived, derived_mesh. cbv zeta.
  destruct (String.eqb (d_type d) "MESH" || String.eqb (d_type d) "CURVE"
            || String.eqb (d_type d) "SURFACE" || String.eqb (d_type d) "FONT");
    [|discriminate].
  now intros ->.
Qed.

(** C3 (as amended): over a complete export, the geometry of a mesh with
    faces is written in full, with the definition of its coordinate block,
    the first time the mesh is handed to [write_indexed_face_set], and as
    the single reuse reference [USE GROUP_] with the identifier of the mesh
    every other time: the marks of the file, definitions and references in
    order, are those of the encounters; there are as many definitions as
    distinct meshes, and definitions and references together are as many as
    encounters.  The mesh handed over is the one of the node itself only
    when the node is a mesh whose modifiers are not applied; a node whose
    geometry is evaluated with its modifiers, or converted from a curve, a
    surface or a font, hands over the mesh that [to_mesh] returns, a new one
    for each node: when no two encounters are of the same mesh, every
    encounter is written in full and there is no reference at all.  (No type
    of the override table reads as a mark; the UV layer of a mesh, when
    there is one, has an entry per face; a mesh that [to_mesh] returns
    bears a key of its own.) *)
Theorem shared_mesh_written_once (h : Host) (opts : Options) (st : State) :
  table_unmarked (user_data opts) ->
  Forall uv_per_face (encountered h opts) ->
  export h opts = Some st ->
  let keys := map me_key (encountered h opts) in
  geometry_marks (fw_log st) = first_met [] keys
  /\ coord_defs (fw_log st) = List.length (nodup Nat.eq_dec keys)
  /\ coord_defs (fw_log st) + use_refs (fw_log st) = List.length keys
  /\ (NoDup keys ->
      coord_defs (fw_log st) = List.length keys /\ use_refs (fw_log st) = 0)
  /\ (forall mesh mesh_id world st0,
        mem_key (me_key mesh) (mesh_tag st0) = true ->
        exists st1,
          write_geometry h opts mesh mesh_id world st0 = Some (tt, st1)
          /\ fw_log st1
             = fw_log st0 ++ [("USE " ++ GROUP_ ++ mesh_id ++ LF)%string])
  /\ (forall d mesh st0,
        derived_mesh opts d = Some mesh ->
        export_derived h opts d st0
        = write_indexed_face_set h opts (d_obj d) mesh (d_matrix d)
            (h_world h) st0).
Proof.
  intros Ht U H keys.
  apply export_some in H. rewrite export_main_initial in H.
  destruct (tallies_export_main h opts Ht U initial_state tt st H) as (_ & seg & L & M).
  change (fw_log initial_state) with (@nil string) in L.
  change (mesh_tag initial_state) with (@nil nat) in M.
  cbn [app] in L. rewrite <- L in M.
  fold keys in M. clearbody keys. clear H U.
  assert (D : coord_defs (fw_log st) = List.length (nodup Nat.eq_dec keys)).
  { rewrite marks_defs, M, first_met_new, filter_all_keys. reflexivity. }
  assert (S : coord_defs (fw_log st) + use_refs (fw_log st) = List.length keys).
  { rewrite marks_defs, marks_uses, filter_split_length, M.
    apply first_met_length. }
  split; [exact M|]. split; [exact D|]. split; [exact S|].
  split; [|split; [|intros d mesh st0; apply export_derived_mesh]].
  - intro N. rewrite (nodup_fixed_point Nat.eq_dec N) in D. lia.
  - intros mesh mesh_id world st0 T.
    destruct (write_geometry_tagged h opts mesh mesh_id world st0 T)
      as (st1 & R & L1 & _).
    exists st1. split; assumption.
Qed.

Lemma shared_mesh_written_once_witness :
  (exists st,
      export Scenes.two_cubes (Scenes.options []) = Some st
      /\ geometry_marks (fw_log st) = [true; false]
      /\ coord_defs (fw_log st) = 1
      /\ coord_defs (fw_log st) + use_refs (fw_log st) = 2)
  /\ (exists st,
        export Scenes.modified_cubes (Scenes.with_modifiers []) = Some st
        /\ coord_defs (fw_log st) = 2 /\ use_refs (fw_log st) = 0).
Proof.
  split.
  - destruct (export Scenes.two_cubes (Scenes.options [])) as [st|] eqn:E;
      [|vm_compute in E; discriminate].
    assert (K : encountered Scenes.two_cubes (Scenes.options [])
                = [Scenes.the_cube; Scenes.the_cube])
      by (vm_compute; reflexivity).
    assert (Ht : table_unmarked (user_data (Scenes.options [])))
      by constructor.
    assert (U : Forall uv_per_face
                  (encountered Scenes.two_cubes (Scenes.options []))).
    { rewrite K. repeat (apply Forall_cons; [exact I|]). apply Forall_nil. }
    destruct (shared_mesh_written_once Scenes.two_cubes (Scenes.options [])
                st Ht U E) as (M & D & S & _).
    rewrite K in M, D, S.
    exists st. split; [reflexivity|]. split; [exact M|]. split; [exact D|].
    exact S.
  - destruct (export Scenes.modified_cubes (Scenes.with_modifiers []))
      as [st|] eqn:E; [|vm_compute in E; discriminate].
    assert (K : encountered Scenes.modified_cubes (Scenes.with_modifiers [])
                = [Scenes.cube_mesh 201 "Cube" (8 # 10, 1 # 10, 3 # 2)%Q;
                   Scenes.cube_mesh 202 "Cube.000" (8 # 10, 1 # 10, 3 # 2)%Q])
      by (vm_compute; reflexivity).
    assert (Ht : table_unmarked (user_data (Scenes.with_modifiers [])))
      by constructor.
    assert (U : Forall uv_per_face
                  (encountered Scenes.modified_cubes (Scenes.with_modifiers []))).
    { rewrite K. repeat (apply Forall_cons; [exact I|]). apply Forall_nil. }
    destruct (shared_mesh_written_once Scenes.modified_cubes
                (Scenes.with_modifiers []) st Ht U E) as (_ & _ & _ & N & _ & _).
    rewrite K in N. destruct N as [D S].
    + repeat constructor; simpl; intuition discriminate.
    + exists st. split; [reflexivity|]. split; [exact D | exact S].
Defined.

(* ================================================================== *)
(** * Colours *)
(* ================================================================== *)

Lemma clamp_channel_range (c : Q) : (0 <= clamp_channel c <= 1)%Q.
Proof.
  unfold clamp_channel.
  destruct (Qle_bool c 1) eqn:E1.
  - destruct (Qle_bool c 0) eqn:E0.
    + split; [apply Qle_refl | discriminate].
    + apply Qle_bool_iff in E1. split; [|exact E1].
      apply Qlt_le_weak, Qnot_le_lt. intro H.
      apply Qle_bool_iff in H. congruence.
  - change (Qle_bool 1 0) with false. cbv iota.
    split; [discriminate | apply Qle_refl].
Qed.

Lemma clamp_channel_idem (c : Q) :
  clamp_channel (clamp_channel c) = clamp_channel c.
Proof.
  unfold clamp_channel at 2 3.
  destruct (Qle_bool c 1) eqn:E1.
  - destruct (Qle_bool c 0) eqn:E0; [reflexivity|].
    unfold clamp_channel. now rewrite E1, E0.
  - reflexivity.
Qed.

Lemma clamp_channel_fixed (c : Q) :
  (0 <= c <= 1)%Q -> (clamp_channel c == c)%Q.
Proof.
  intros [H0 H1]. unfold clamp_channel.
  apply Qle_bool_iff in H1. rewrite H1.
  destruct (Qle_bool c 0) eqn:E0; [|reflexivity].
  apply Qle_bool_iff in E0. symmetry. now apply Qle_antisym.
Qed.

Lemma clamp_channel_mono (c d : Q) :
  (c <= d)%Q -> (clamp_channel c <= clamp_channel d)%Q.
Proof.
  intro H. unfold clamp_channel.
  destruct (Qle_bool c 1) eqn:C1, (Qle_bool d 1) eqn:D1;
    try change (Qle_bool 1 0) with false; cbv iota.
  - destruct (Qle_bool c 0) eqn:C0, (Qle_bool d 0) eqn:D0.
    + apply Qle_refl.
    + apply Qlt_le_weak, Qnot_le_lt. intro K.
      apply Qle_bool_iff in K. congruence.
    + apply Qle_bool_iff in D0. exfalso.
      assert (K : (c <= 0)%Q) by (eapply Qle_trans; eassumption).
      apply Qle_bool_iff in K. congruence.
    + exact H.
  - destruct (Qle_bool c 0); [discriminate | now apply Qle_bool_iff].
  - exfalso. apply Qle_bool_iff in D1.
    assert (K : (c <= 1)%Q) by (eapply Qle_trans; eassumption).
    apply Qle_bool_iff in K. congruence.
  - apply Qle_refl.
Qed.

(** X1: [clamp_color] brings every channel into the interval from 0 to 1, leaves
    a colour that is already in range as it is, is monotone in every
    channel, and clamping twice is clamping once. *)
Theorem clamp_color_range (r g b : Q) :
  (let '(r', g', b') := clamp_color (r, g, b) in
   (0 <= r' <= 1 /\ 0 <= g' <= 1 /\ 0 <= b' <= 1)%Q)
  /\ clamp_color (clamp_color (r, g, b)) = clamp_color (r, g, b)
  /\ ((0 <= r <= 1)%Q -> (0 <= g <= 1)%Q -> (0 <= b <= 1)%Q ->
      let '(r', g', b') := clamp_color (r, g, b) in
      (r' == r /\ g' == g /\ b' == b)%Q)
  /\ (forall r2 g2 b2,
        (r <= r2)%Q -> (g <= g2)%Q -> (b <= b2)%Q ->
        let '(r', g', b') := clamp_color (r, g, b) in
        let '(r2', g2', b2') := clamp_color (r2, g2, b2) in
        (r' <= r2' /\ g' <= g2' /\ b' <= b2')%Q).
Proof.
  cbn [clamp_color]. split; [|split; [|split]].
  - repeat split; apply clamp_channel_range.
  - now rewrite !clamp_channel_idem.
  - intros Hr Hg Hb. repeat split; now apply clamp_channel_fixed.
  - intros r2 g2 b2 Hr Hg Hb. repeat split; now apply clamp_channel_mono.
Qed.

Lemma clamp_color_range_witness :
  clamp_color (clamp_color (3 # 2, -1 # 4, 1 # 2)%Q) = (1, 0, 1 # 2)%Q
  /\ (let '(r', g', b') := clamp_color (1 # 5, 1 # 2, 1)%Q in
      (r' == 1 # 5 /\ g' == 1 # 2 /\ b' == 1)%Q).
Proof.
  split.
  - destruct (clamp_color_range (3 # 2) (-1 # 4) (1 # 2)) as (_ & H & _).
    rewrite H. reflexivity.
  - destruct (clamp_color_range (1 # 5) (1 # 2) 1) as (_ & _ & H & _).
    apply H; split; discriminate.
Defined.

(* ================================================================== *)
(** * [nearly_equal] on binary64 numbers *)
(* ================================================================== *)

Section Binary64Facts.
Import PrimFloat.

Lemma SFcompare_refl (x : SpecFloat.spec_float) :
  x <> SpecFloat.S754_nan -> SpecFloat.SFcompare x x = Some Eq.
Proof.
  destruct x as [s | s | | s m e]; cbn; intro N.
  - reflexivity.
  - now destruct s.
  - now elim N.
  - rewrite Z.compare_refl, Pos.compare_cont_refl. now destruct s.
Qed.

Lemma SFeqb_refl (x : SpecFloat.spec_float) :
  x <> SpecFloat.S754_nan -> SpecFloat.SFeqb x x = true.
Proof. intro N. unfold SpecFloat.SFeqb. now rewrite SFcompare_refl. Qed.

(** Equal numbers are the same number, or two zeros. *)
Lemma SFeqb_true (x y : SpecFloat.spec_float) :
  SpecFloat.SFeqb x y = true ->
  (exists s1 s2, x = SpecFloat.S754_zero s1 /\ y = SpecFloat.S754_zero s2)
  \/ (x = y /\ x <> SpecFloat.S754_nan).
Proof.
  unfold SpecFloat.SFeqb.
  destruct x as [s1 | s1 | | s1 m1 e1], y as [s2 | s2 | | s2 m2 e2]; cbn;
    try discriminate; try (destruct s1; discriminate);
    try (destruct s2; discriminate).
  - intros _. left. now exists s1, s2.
  - destruct s1, s2; try discriminate; intros _; right;
      (split; [reflexivity | discriminate]).
  - destruct s1, s2; try discriminate;
      destruct (Z.compare e1 e2) eqn:Ec; try discriminate;
      destruct (Pos.compare_cont Eq m1 m2) eqn:Pc; try discriminate;
      intros _; apply Z.compare_eq in Ec; apply Pos.compare_eq in Pc;
      subst; right; (split; [reflexivity | discriminate]).
Qed.

Lemma SFeqb_sym (x y : SpecFloat.spec_float) :
  SpecFloat.SFeqb x y = SpecFloat.SFeqb y x.
Proof.
  assert (H : forall a b, SpecFloat.SFeqb a b = true ->
                          SpecFloat.SFeqb b a = true).
  { intros a b E.
    destruct (SFeqb_true a b E) as [(s1 & s2 & -> & ->) | [<- N]];
      [reflexivity | now apply SFeqb_refl]. }
  destruct (SpecFloat.SFeqb x y) eqn:A; destruct (SpecFloat.SFeqb y x) eqn:B;
    try reflexivity.
  - apply H in A. congruence.
  - apply H in B. congruence.
Qed.

Lemma SFeqb_trans (x y z : SpecFloat.spec_float) :
  SpecFloat.SFeqb x y = true -> SpecFloat.SFeqb y z = true ->
  SpecFloat.SFeqb x z = true.
Proof.
  intros A B.
  destruct (SFeqb_true x y A) as [(s1 & s2 & -> & ->) | [<- N]]; [|exact B].
  destruct (SFeqb_true _ z B) as [(s3 & s4 & _ & ->) | [<- _]]; reflexivity.
Qed.

Lemma b64_eqb_sym (a b : PrimFloat.float) :
  PrimFloat.eqb a b = PrimFloat.eqb b a.
Proof. rewrite !FloatAxioms.eqb_spec. apply SFeqb_sym. Qed.

Lemma b64_eqb_trans (a b c : PrimFloat.float) :
  PrimFloat.eqb a b = true -> PrimFloat.eqb b c = true ->
  PrimFloat.eqb a c = true.
Proof. rewrite !FloatAxioms.eqb_spec. apply SFeqb_trans. Qed.

(** [int] of the product with 10^5 does not tell equal numbers apart. *)
Lemma b64_int_eqb (a b : PrimFloat.float) :
  PrimFloat.eqb a b = true ->
  Binary64.b64_int (PrimFloat.mul a 100000%float)
  = Binary64.b64_int (PrimFloat.mul b 100000%float).
Proof.
  rewrite FloatAxioms.eqb_spec. intro E.
  destruct (SFeqb_true _ _ E) as [(s1 & s2 & Ea & Eb) | [Eq _]].
  - unfold Binary64.b64_int. rewrite !FloatAxioms.mul_spec, Ea, Eb.
    reflexivity.
  - apply FloatAxioms.Prim2SF_inj in Eq. now subst b.
Qed.

(** [int] raises on the product of a NaN. *)
Lemma b64_int_nan (a : PrimFloat.float) :
  PrimFloat.eqb a a = false ->
  Binary64.b64_int (PrimFloat.mul a 100000%float) = None.
Proof.
  rewrite FloatAxioms.eqb_spec. intro E.
  assert (N : FloatOps.Prim2SF a = SpecFloat.S754_nan).
  { destruct (FloatOps.Prim2SF a) as [s | s | | s m e] eqn:P;
      try reflexivity; rewrite SFeqb_refl in E; discriminate. }
  unfold Binary64.b64_int. rewrite FloatAxioms.mul_spec, N. reflexivity.
Qed.

(** X2: on binary64 numbers [nearly_equal] is symmetric; it holds of every
    number and itself, a NaN apart, on which [int] raises; it is transitive
    wherever it returns; equal numbers, the two zeros among them, are
    nearly equal without a call of [int]; and it raises exactly when the
    numbers differ and [int] raises on one of the products with 10^5, which
    are rounded: the numbers nearest to 0.00031 and to 0.000305 (their
    mantissas times 2^-64) are told apart, although both products, taken
    exactly, truncate to 30. *)
Theorem nearly_equal_equivalence :
  (forall a b, Binary64.nearly_equal_b64 a b = Binary64.nearly_equal_b64 b a)
  /\ (forall a, PrimFloat.eqb a a = true ->
                Binary64.nearly_equal_b64 a a = Some true)
  /\ (forall a, PrimFloat.eqb a a = false ->
                Binary64.nearly_equal_b64 a a = None)
  /\ (forall a b c,
        Binary64.nearly_equal_b64 a b = Some true ->
        Binary64.nearly_equal_b64 b c = Some true ->
        Binary64.nearly_equal_b64 a c = Some true)
  /\ (forall a b, PrimFloat.eqb a b = true ->
                  Binary64.nearly_equal_b64 a b = Some true)
  /\ (forall a b,
        Binary64.nearly_equal_b64 a b = None
        <-> PrimFloat.eqb a b = false
            /\ (Binary64.b64_int (PrimFloat.mul a 100000%float) = None
                \/ Binary64.b64_int (PrimFloat.mul b 100000%float) = None))
  /\ (Binary64.nearly_equal_b64 Binary64.near_31 Binary64.near_30_5 = Some false
      /\ FloatOps.Prim2SF Binary64.near_31
         = SpecFloat.S754_finite false 5718490662849961 (-64)
      /\ FloatOps.Prim2SF Binary64.near_30_5
         = SpecFloat.S754_finite false 5626256942481413 (-64)
      /\ nearly_equal (5718490662849961 # 18446744073709551616)
                      (5626256942481413 # 18446744073709551616) = true).
Proof.
  split; [|split; [|split; [|split; [|split; [|split]]]]].
  - intros a b. unfold Binary64.nearly_equal_b64. rewrite (b64_eqb_sym b a).
    destruct (PrimFloat.eqb a b); [reflexivity|].
    destruct (Binary64.b64_int (PrimFloat.mul a 100000%float)) as [x|],
             (Binary64.b64_int (PrimFloat.mul b 100000%float)) as [y|];
      try reflexivity.
    now rewrite Z.eqb_sym.
  - intros a E. unfold Binary64.nearly_equal_b64. now rewrite E.
  - intros a E. unfold Binary64.nearly_equal_b64.
    now rewrite E, (b64_int_nan a E).
  - intros a b c. unfold Binary64.nearly_equal_b64.
    destruct (PrimFloat.eqb a b) eqn:Eab; destruct (PrimFloat.eqb b c) eqn:Ebc.
    + intros _ _. now rewrite (b64_eqb_trans a b c Eab Ebc).
    + intros _ H. rewrite (b64_int_eqb a b Eab).
      now destruct (PrimFloat.eqb a c).
    + intros H _. rewrite <- (b64_int_eqb b c Ebc).
      now destruct (PrimFloat.eqb a c).
    + destruct (Binary64.b64_int (PrimFloat.mul a 100000%float)) as [x|];
        [|discriminate].
      destruct (Binary64.b64_int (PrimFloat.mul b 100000%float)) as [y|];
        [|discriminate].
      destruct (Binary64.b64_int (PrimFloat.mul c 100000%float)) as [z|];
        [|discriminate].
      intros H1 H2. injection H1 as H1. injection H2 as H2.
      apply Z.eqb_eq in H1, H2. subst.
      destruct (PrimFloat.eqb a c); [reflexivity | now rewrite Z.eqb_refl].
  - intros a b E. unfold Binary64.nearly_equal_b64. now rewrite E.
  - intros a b. unfold Binary64.nearly_equal_b64.
    destruct (PrimFloat.eqb a b).
    + split; [discriminate | intros [E _]; discriminate].
    + destruct (Binary64.b64_int (PrimFloat.mul a 100000%float)) as [x|],
               (Binary64.b64_int (PrimFloat.mul b 100000%float)) as [y|].
      * split; [discriminate | intros [_ [E | E]]; discriminate].
      * split; [intros _; split; [reflexivity | now right] | reflexivity].
      * split; [intros _; split; [reflexivity | now left] | reflexivity].
      * split; [intros _; split; [reflexivity | now left] | reflexivity].
  - repeat split; vm_compute; reflexivity.
Qed.

Lemma nearly_equal_equivalence_witness :
  Binary64.nearly_equal_b64 1%float 1%float = Some true
  /\ Binary64.nearly_equal_b64 PrimFloat.nan PrimFloat.nan = None
  /\ Binary64.nearly_equal_b64 0x1.000010c6f7a0bp+0%float 1%float = Some true.
Proof.
  destruct nearly_equal_equivalence as (_ & R & N & T & _).
  split; [|split].
  - apply R. vm_compute. reflexivity.
  - apply N. vm_compute. reflexivity.
  - apply (T _ 0x1.000053e2d6239p+0%float); vm_compute; reflexivity.
Defined.

End Binary64Facts.

(* ================================================================== *)
(** * [slugify]: empty results and a second application *)
(* ================================================================== *)

Lemma all_underscore_no_dunder (s : string) :
  PyStr.all_chars is_underscore s = true -> has_dunder s = false ->
  s = EmptyString \/ s = String underscore EmptyString.
Proof.
  destruct s as [|c [|d r]]; intros A H.
  - now left.
  - right. simpl in A. rewrite andb_true_r in A.
    apply Ascii.eqb_eq in A. now subst c.
  - exfalso. rewrite has_dunder_eq in H. apply orb_false_iff in H as [H _].
    cbn [PyStr.all_chars] in A.
    apply andb_true_iff in A as [Ac A]. apply andb_true_iff in A as [Ad _].
    unfold is_underscore in Ac, Ad. rewrite Ac, Ad in H. discriminate.
Qed.

Lemma replace_dunder_nonempty (s : string) :
  s <> EmptyString -> replace_dunder s <> EmptyString.
Proof.
  destruct s as [|c [|d r]]; intro H; [contradiction | discriminate |].
  rewrite replace_dunder_eq.
  destruct (Ascii.eqb c underscore && Ascii.eqb d underscore); discriminate.
Qed.

Lemma collapse_underscores (fuel : nat) :
  forall s,
    String.length s <= fuel -> s <> EmptyString ->
    PyStr.all_chars is_underscore s = true ->
    collapse fuel s = String underscore EmptyString.
Proof.
  induction fuel as [|f IH]; intros s L N A.
  - destruct s; [contradiction | simpl in L; lia].
  - simpl. destruct (has_dunder s) eqn:E.
    + apply IH.
      * pose proof (replace_dunder_length_lt s E). lia.
      * now apply replace_dunder_nonempty.
      * now apply replace_dunder_all.
    + destruct (all_underscore_no_dunder s A E); [contradiction | assumption].
Qed.

Lemma map_sanitize_no_AZ (s : string) :
  PyStr.any_char is_AZ s = false ->
  PyStr.all_chars is_underscore (PyStr.map_chars sanitize s) = true.
Proof.
  induction s as [|c s IH]; simpl; intro H; [reflexivity|].
  apply orb_false_iff in H as [Hc Hs].
  unfold sanitize at 1. rewrite Hc. unfold is_underscore at 1.
  rewrite Ascii.eqb_refl. simpl. now apply IH.
Qed.

Lemma map_chars_length (f : ascii -> ascii) (s : string) :
  String.length (PyStr.map_chars f s) = String.length s.
Proof. induction s as [|c s IH]; simpl; [reflexivity | now rewrite IH]. Qed.

Lemma slugify_no_letter (s : string) :
  s <> EmptyString -> PyStr.any_char is_letter s = false ->
  slugify s = EmptyString.
Proof.
  intros N H. rewrite slugify_unfold. cbv zeta.
  assert (B : exists r, slug_body s = String underscore r
                        /\ PyStr.all_chars is_underscore r = true).
  { unfold slug_body. rewrite slug_loop_map.
    destruct s as [|c0 s0]; [contradiction|].
    pose proof (map_sanitize_no_AZ (upper (String c0 s0))) as A.
    rewrite upper_any_AZ in A. specialize (A H).
    destruct (PyStr.map_chars sanitize (upper (String c0 s0))) as [|c r] eqn:E.
    - apply (f_equal String.length) in E.
      rewrite map_chars_length in E. unfold upper in E.
      rewrite map_chars_length in E. discriminate.
    - cbn [PyStr.all_chars] in A. apply andb_true_iff in A as [Ac Ar].
      unfold is_underscore in Ac. apply Ascii.eqb_eq in Ac. subst c.
      change (is_AZ underscore) with false. cbv iota.
      exists (String underscore r). split; [reflexivity|].
      cbn [PyStr.all_chars]. rewrite Ar. reflexivity. }
  destruct B as (r & -> & A).
  rewrite collapse_underscores.
  - reflexivity.
  - apply le_n.
  - discriminate.
  - cbn [PyStr.all_chars]. now rewrite A.
Qed.

(** X3: [slugify] returns the empty string exactly for the inputs that are not
    empty and hold no ASCII letter: digits, punctuation and blanks alone
    leave nothing of a name. *)
Theorem slugify_empty_iff (s : string) :
  slugify s = EmptyString
  <-> s <> EmptyString /\ PyStr.any_char is_letter s = false.
Proof.
  split.
  - intro E. split.
    + intros ->. discriminate E.
    + destruct (PyStr.any_char is_letter s) eqn:A; [|reflexivity].
      apply slugify_any_AZ in A. rewrite E in A. discriminate.
  - intros [N A]. now apply slugify_no_letter.
Qed.

(** ** A second application *)

Lemma upper_char_slug (c : ascii) : slug_char c = true -> upper_char c = c.
Proof.
  unfold slug_char, upper_char. intro H.
  assert (Z : is_az c = false).
  { apply orb_true_iff in H as [H | H].
    - unfold is_AZ, is_az in *. apply andb_true_iff in H as [H1 H2].
      apply Nat.leb_le in H1, H2.
      destruct (97 <=? nat_of_ascii c) eqn:E; [|reflexivity].
      apply Nat.leb_le in E. lia.
    - apply Ascii.eqb_eq in H. now subst c. }
  now rewrite Z.
Qed.

Lemma sanitize_slug (c : ascii) : slug_char c = true -> sanitize c = c.
Proof.
  unfold slug_char, sanitize. intro H.
  destruct (is_AZ c); [reflexivity|].
  simpl in H. apply Ascii.eqb_eq in H. now subst c.
Qed.

Lemma map_chars_fixed (f : ascii -> ascii) (p : ascii -> bool) (s : string) :
  (forall c, p c = true -> f c = c) ->
  PyStr.all_chars p s = true -> PyStr.map_chars f s = s.
Proof.
  intro F. induction s as [|c s IH]; simpl; intro H; [reflexivity|].
  apply andb_true_iff in H as [Hc Hs]. now rewrite (F c Hc), IH.
Qed.

Lemma replace_dunder_none (s : string) :
  has_dunder s = false -> replace_dunder s = s.
Proof.
  induction s as [| c | c d r IHr IHd] using replace_dunder_ind; intro H.
  - reflexivity.
  - reflexivity.
  - rewrite replace_dunder_eq. rewrite has_dunder_eq in H.
    apply orb_false_iff in H as [H1 H2]. rewrite H1. now rewrite IHd.
Qed.

Lemma collapse_none (fuel : nat) (s : string) :
  has_dunder s = false -> collapse fuel s = s.
Proof. intro H. destruct fuel; simpl; [reflexivity | now rewrite H]. Qed.

Lemma slugify_fixed (t : string) :
  t <> EmptyString ->
  PyStr.all_chars slug_char t = true ->
  has_dunder t = false ->
  PyStr.last t <> Some underscore ->
  slugify t = t.
Proof.
  intros N A D L. rewrite slugify_unfold. cbv zeta.
  assert (B : collapse (String.length (slug_body t)) (slug_body t) = t).
  { unfold slug_body. rewrite slug_loop_map.
    destruct t as [|c r]; [contradiction|].
    unfold upper.
    rewrite (map_chars_fixed upper_char slug_char _ upper_char_slug A).
    rewrite (map_chars_fixed sanitize slug_char _ sanitize_slug A).
    destruct (is_AZ c) eqn:E; [now apply collapse_none|].
    cbn [PyStr.all_chars] in A. apply andb_true_iff in A as [Ac _].
    unfold slug_char in Ac. rewrite E in Ac. simpl in Ac.
    apply Ascii.eqb_eq in Ac. subst c.
    cbn [String.length collapse].
    change (has_dunder (String underscore (String underscore r))) with true.
    cbv iota. rewrite replace_dunder_eq.
    change (Ascii.eqb underscore underscore && Ascii.eqb underscore underscore)
      with true. cbv iota.
    assert (Dr : has_dunder r = false).
    { destruct r as [|d r]; [reflexivity|].
      rewrite has_dunder_eq in D. now apply orb_false_iff in D as [_ D]. }
    rewrite (replace_dunder_none r Dr). now rewrite D. }
  rewrite B. destruct (PyStr.last t) as [c|]; [|reflexivity].
  destruct (Ascii.eqb c underscore) eqn:E; [|reflexivity].
  apply Ascii.eqb_eq in E. subst c. now elim L.
Qed.

(** X4: Applying [slugify] to one of its results gives that result again,
    unless the result is empty: the empty string is turned into the
    placeholder NONE. *)
Theorem slugify_idempotent (s : string) :
  (slugify s <> EmptyString -> slugify (slugify s) = slugify s)
  /\ (slugify s = EmptyString -> slugify (slugify s) = "NONE").
Proof.
  split.
  - intro N. apply slugify_fixed.
    + exact N.
    + apply slugify_all_slug_char.
    + apply slugify_no_dunder.
    + apply slugify_no_trailing_underscore.
  - intros ->. reflexivity.
Qed.

Lemma slugify_idempotent_witness :
  slugify (slugify "2 left-wheel") = "_LEFT_WHEEL"
  /\ slugify (slugify "42") = "NONE".
Proof.
  destruct (slugify_idempotent "2 left-wheel") as [H _].
  destruct (slugify_idempotent "42") as [_ K].
  split.
  - transitivity (slugify "2 left-wheel");
      [apply H; vm_compute; discriminate | vm_compute; reflexivity].
  - apply K. vm_compute. reflexivity.
Defined.

(* ================================================================== *)
(** * The header *)
(* ================================================================== *)

Lemma written_fold (lines : list string) :
  forall e, exists text,
    written (fold_left fw_step lines e) = (written e ++ text)%string.
Proof.
  induction lines as [|l r IH]; intro e; simpl.
  - exists EmptyString. induction (written e) as [|c w IHw]; simpl;
      [reflexivity | now rewrite <- IHw].
  - destruct (IH (fw_step e l)) as [text E]. rewrite E, fw_step_eq.
    cbn [written].
    destruct (isLastCharacterACariageReturn e).
    + eexists. rewrite !string_app_assoc. reflexivity.
    + eexists. rewrite !string_app_assoc. reflexivity.
Qed.

Lemma keeps_export_rest (h : Host) (opts : Options) :
  emits (objects_hierarchy <- lift (build_hierarchy (selected_objects h opts)) ;;
         for_each objects_hierarchy (export_object h opts None))
        anyQ.
Proof.
  apply emits_any_bind; [apply emits_lift; intros; exact I | intro forest].
  apply emits_any_for_each. intros t _. apply keeps_export_object.
Qed.

Lemma emits_fw_cons (line : string) (m : M unit) (rest : list string) :
  emits m (fun _ seg => seg = rest) ->
  emits (fw line ;;; m) (fun _ seg => seg = line :: rest).
Proof.
  intro H.
  eapply emits_bind with (Q1 := fun _ seg => seg = [line])
                         (Q2 := fun _ _ seg => seg = rest).
  - now apply emits_fw.
  - intros _. exact H.
  - intros a b s1 s2 -> ->. reflexivity.
Qed.

Lemma write_header_log :
  emits write_header (fun _ seg => seg = header_fragments).
Proof.
  unfold write_header, header_fragments.
  do 11 apply emits_fw_cons. now apply emits_fw.
Qed.


(** X5: Every completed export starts with the fixed header, fragment by
    fragment and in the text of the file; and when no object is visible (or
    none is selected, in selection mode) the export completes and the file
    is the header alone. *)
Theorem export_starts_with_header (h : Host) (opts : Options) :
  (forall st, export h opts = Some st ->
     (exists rest, fw_log st = header_fragments ++ rest)
     /\ (exists text, file st = (header_text ++ text)%string))
  /\ (selected_objects h opts = [] ->
      exists st, export h opts = Some st
                 /\ fw_log st = header_fragments
                 /\ file st = header_text).
Proof.
  split.
  - intros st H. apply export_some in H. rewrite export_main_initial in H.
    unfold bind at 1 in H.
    destruct (write_header initial_state) as [[[] st1]|] eqn:R; [|discriminate].
    destruct (write_header_log initial_state tt st1 R) as (s0 & (L & _) & ->).
    destruct (keeps_export_rest h opts st1 tt st H) as (seg & (E & _) & _).
    assert (F : fw_log st = header_fragments ++ seg) by (now rewrite E, L).
    split; [now exists seg|].
    unfold file. rewrite F, emit_app.
    destruct (written_fold seg (emit header_fragments)) as [text W].
    exists text. rewrite W. reflexivity.
  - intro S. exists header_state.
    split; [|split; vm_compute; reflexivity].
    unfold export, export_main. rewrite S. vm_compute. reflexivity.
Qed.

Lemma export_starts_with_header_witness :
  exists st,
    export (Scenes.scene [] Scenes.identity_matrix Scenes.the_cube)
           (Scenes.options []) = Some st
    /\ file st = header_text.
Proof.
  destruct (export_starts_with_header
              (Scenes.scene [] Scenes.identity_matrix Scenes.the_cube)
              (Scenes.options [])) as [_ H].
  destruct (H eq_refl) as (st & E & _ & F).
  exists st. split; assumption.
Defined.

(* ================================================================== *)
(** * When the transform writer raises *)
(* ================================================================== *)

Lemma total_ret {A : Type} (a : A) : total (ret a).
Proof. intros st. discriminate. Qed.

Lemma total_fw (line : string) : total (fw line).
Proof. intros st. discriminate. Qed.

Lemma total_bind {A B : Type} (m : M A) (f : A -> M B) :
  total m -> (forall a, total (f a)) -> total (bind m f).
Proof.
  intros H1 H2 st. unfold bind.
  destruct (m st) as [[a st']|] eqn:E; [apply H2 | now apply H1 in E].
Qed.

Lemma total_bind_ret {A B : Type} (a : A) (f : A -> M B) :
  total (f a) -> total (bind (ret a) f).
Proof. intros H st. apply H. Qed.

Ltac totality :=
  repeat
    match goal with
    | |- total (ret _) => apply total_ret
    | |- total (fw _) => apply total_fw
    | |- total (lift (Some _)) => apply total_ret
    | |- total (bind _ _) => apply total_bind; [|intros ?]
    | |- total (when _ _) => unfold when
    | |- total (match ?x with _ => _ end) => destruct x
    end.

Lemma bound_box_mid_some (x : Q) (r : list Q) :
  exists m, bound_box_mid (x :: r) = Some m.
Proof. unfold bound_box_mid. simpl. now eexists. Qed.

Lemma write_transform_fields_total (obj : Object) (matrix : Matrix)
    (node_data : option NodeData) (hj ph bo : bool) :
  (hj = true ->
   exists nd axis, node_data = Some nd
                   /\ hingeJointParameters_axis nd = Some axis) ->
  (bo = true -> ob_bound_box obj <> []) ->
  total (write_transform_fields obj matrix node_data hj ph bo).
Proof.
  intros Hh Hb. unfold write_transform_fields. cbv zeta.
  apply total_bind.
  - destruct hj; [|apply total_ret].
    destruct (Hh eq_refl) as (nd & axis & -> & Ea).
    cbn [lift]. apply total_bind_ret.
    do 2 (apply total_bind; [apply total_fw | intros _]).
    rewrite Ea. cbn [lift]. apply total_bind_ret. totality.
  - intros _. do 4 (apply total_bind; [totality | intros _]).
    apply total_bind; [|intros _; totality].
    destruct bo; [|apply total_ret]. cbn [when].
    destruct (ob_bound_box obj) as [|v bb]; [now elim (Hb eq_refl)|].
    cbn [map].
    destruct (bound_box_mid_some (vx v) (map vx bb)) as [x ->].
    destruct (bound_box_mid_some (vy v) (map vy bb)) as [y ->].
    destruct (bound_box_mid_some (vz v) (map vz bb)) as [z ->].
    cbn [lift]. apply total_bind; [apply total_fw | intros _].
    do 3 apply total_bind_ret. totality.
Qed.

Lemma bind_none_l {A B : Type} (m : M A) (f : A -> M B) (st : State) :
  m st = None -> bind m f st = None.
Proof. intro H. unfold bind. now rewrite H. Qed.

Lemma bind_some {A B : Type} (m : M A) (f : A -> M B) (st st' : State) (a : A) :
  m st = Some (a, st') -> bind m f st = f a st'.
Proof. intro H. unfold bind. now rewrite H. Qed.

Lemma write_transform_fields_hinge_raises (obj : Object) (matrix : Matrix)
    (node_data : option NodeData) (ph bo : bool) (st : State) :
  match node_data with
  | Some nd => hingeJointParameters_axis nd = None
  | None => True
  end ->
  write_transform_fields obj matrix node_data true ph bo st = None.
Proof.
  intro H. unfold write_transform_fields. cbv zeta.
  destruct node_data as [nd|]; [|reflexivity].
  match goal with
  | |- bind ?m _ st = None =>
    assert (E : m st = None)
      by (cbv [bind ret fw lift raise]; rewrite H; reflexivity)
  end.
  exact (bind_none_l _ _ _ E).
Qed.

Lemma write_transform_fields_box_raises (obj : Object) (matrix : Matrix)
    (node_data : option NodeData) (hj ph : bool) (st : State) :
  ob_bound_box obj = [] ->
  write_transform_fields obj matrix node_data hj ph true st = None.
Proof.
  intro H. unfold write_transform_fields. cbv zeta. rewrite H. cbn [map].
  change (bound_box_mid []) with (@None Q). cbn [lift when].
  match goal with
  | |- bind ?m _ st = None => destruct (m st) as [[[] st1]|] eqn:E
  end; [|exact (bind_none_l _ _ _ E)].
  rewrite (bind_some _ _ _ _ _ E).
  destruct ph; reflexivity.
Qed.

Lemma write_transform_fields_none (obj : Object) (matrix : Matrix)
    (node_data : option NodeData) (hj ph bo : bool) (st : State) :
  write_transform_fields obj matrix node_data hj ph bo st = None
  <-> (hj = true
       /\ match node_data with
          | Some nd => hingeJointParameters_axis nd = None
          | None => True
          end)
      \/ (bo = true /\ ob_bound_box obj = []).
Proof.
  split.
  - intro H.
    destruct hj.
    + destruct node_data as [nd|]; [|now left].
      destruct (hingeJointParameters_axis nd) as [axis|] eqn:Ea; [|now left].
      destruct bo.
      * destruct (ob_bound_box obj) as [|v bb] eqn:Eb; [now right|].
        exfalso. revert H. apply write_transform_fields_total.
        -- intros _. now exists nd, axis.
        -- intros _. rewrite Eb. discriminate.
      * exfalso. revert H. apply write_transform_fields_total.
        -- intros _. now exists nd, axis.
        -- discriminate.
    + destruct bo.
      * destruct (ob_bound_box obj) as [|v bb] eqn:Eb; [now right|].
        exfalso. revert H. apply write_transform_fields_total.
        -- discriminate.
        -- intros _. rewrite Eb. discriminate.
      * exfalso. revert H. apply write_transform_fields_total; discriminate.
  - intros [[-> H] | [-> H]].
    + now apply write_transform_fields_hinge_raises.
    + now apply write_transform_fields_box_raises.
Qed.

(** Under an override entry the node opens with its [DEF] and type lines and
    goes on with the fields. *)
Lemma write_transform_begin_entry (table : UserData) (obj : Object)
    (matrix : Matrix) (def_id : option string) (nd : NodeData) (st : State) :
  lookup_override table def_id = Some nd ->
  write_transform_begin table obj matrix def_id st
  = write_transform_fields obj matrix (Some nd)
      (String.eqb (webotsType nd) "HingeJoint")
      (negb (String.eqb (webotsType nd) "Robot")) true
      {| fw_log := (fw_log st
                    ++ [("DEF " ++ match def_id with
                                   | Some k => k | None => "None"
                                   end ++ " ")%string])
                   ++ [(webotsType nd ++ " {" ++ LF)%string];
         uuid_cache_object := uuid_cache_object st;
         uuid_cache_mesh := uuid_cache_mesh st;
         uuid_cache_image := uuid_cache_image st;
         mesh_tag := mesh_tag st;
         image_tag := image_tag st |}.
Proof.
  intro E. unfold write_transform_begin. rewrite E. reflexivity.
Qed.

(** A node without an override entry is always written. *)
Lemma write_transform_begin_plain (table : UserData) (obj : Object)
    (matrix : Matrix) (def_id : option string) :
  lookup_override table def_id = None ->
  total (write_transform_begin table obj matrix def_id).
Proof.
  intro E. unfold write_transform_begin. rewrite E.
  destruct (is_identity matrix); [apply total_ret|].
  apply total_bind; [totality | intros _].
  apply total_bind; [totality | intros _].
  apply write_transform_fields_total; discriminate.
Qed.

Lemma write_transform_begin_none_inv (table : UserData) (obj : Object)
    (matrix : Matrix) (def_id : option string) (st : State) :
  write_transform_begin table obj matrix def_id st = None ->
  exists nd,
    lookup_override table def_id = Some nd
    /\ ((webotsType nd = "HingeJoint"
         /\ hingeJointParameters_axis nd = None)
        \/ ob_bound_box obj = []).
Proof.
  destruct (lookup_override table def_id) as [nd|] eqn:E.
  - rewrite (write_transform_begin_entry _ _ _ _ _ _ E).
    rewrite write_transform_fields_none, String.eqb_eq.
    intros [[H1 H2] | [_ H]]; exists nd; (split; [reflexivity|]);
      [left; now split | now right].
  - intro H. exfalso. revert H. now apply write_transform_begin_plain.
Qed.

(** X6: for an override table whose entries carry their [webotsType] and
    a transform in range (so that line 93 finds its key and [int] does not
    overflow), [write_transform_begin] raises in two cases only, both under
    an override entry: the entry names a HingeJoint and has no axis (the
    key is missing), or the object has an empty bounding box, of which no
    maximum can be taken.  A node without an override entry is always
    written. *)
Theorem write_transform_begin_raises (table : UserData) (obj : Object)
    (matrix : Matrix) (def_id : option string) (st : State) :
  matrix_in_range matrix ->
  (write_transform_begin table obj matrix def_id st = None
   <-> exists nd,
         lookup_override table def_id = Some nd
         /\ ((webotsType nd = "HingeJoint"
              /\ hingeJointParameters_axis nd = None)
             \/ ob_bound_box obj = [])).
Proof.
  intros _. split; [apply write_transform_begin_none_inv|].
  intros (nd & E & H).
  rewrite (write_transform_begin_entry _ _ _ _ _ _ E).
  rewrite write_transform_fields_none, String.eqb_eq.
  destruct H as [[H1 H2] | H]; [left; now split | right; now split].
Qed.

Lemma write_transform_begin_raises_witness :
  write_transform_begin
    [("ARM_TRANSFORM",
      {| webotsType := "HingeJoint"; hingeJointParameters_axis := None;
         motorName := Some "motor"; positionSensorName := None |})]
    (Scenes.cube_object 1 "Arm" None) Scenes.identity_matrix
    (Some "ARM_TRANSFORM") initial_state = None.
Proof.
  apply write_transform_begin_raises.
  - repeat split.
  - eexists. split; [reflexivity|]. left. split; reflexivity.
Defined.

(** ** What the transform writer returns *)






(* ================================================================== *)
(** * Image textures *)
(* ================================================================== *)


Lemma write_image_texture_first (pm : string) (image : Image) (st : State) :
  mem_key (im_key image) (image_tag st) = false ->
  exists id st1,
    write_image_texture pm image st = Some (tt, st1)
    /\ fw_log st1
       = fw_log st
         ++ ["texture "; "DEF " ++ id ++ " "; "ImageTexture {" ++ LF;
             url_fragment pm image; "}" ++ LF]%string
    /\ cache_get (im_key image) (uuid_cache_image st1) = Some id
    /\ mem_key (im_key image) (image_tag st1) = true.
Proof.
  intro T. unfold write_image_texture.
  unfold bind at 1. unfold unique_name_image at 1.
  pose proof (unique_name_cached (im_key image) (IM_ ++ im_name image)
                (uuid_cache_image st)) as K.
  destruct (unique_name (im_key image) (IM_ ++ im_name image)
              (uuid_cache_image st)) as [id d].
  cbn [fst snd] in K.
  unfold bind at 1. unfold get_image_tag at 1. cbn [image_tag]. rewrite T.
  exists id. eexists. split; [reflexivity|].
  cbn [fw_log uuid_cache_image image_tag]. split; [|split].
  - rewrite <- !app_assoc. reflexivity.
  - exact K.
  - unfold mem_key. cbn [existsb]. now rewrite Nat.eqb_refl.
Qed.

Lemma write_image_texture_again (pm : string) (image : Image) (id : string)
    (st : State) :
  cache_get (im_key image) (uuid_cache_image st) = Some id ->
  mem_key (im_key image) (image_tag st) = true ->
  exists st',
    write_image_texture pm image st = Some (tt, st')
    /\ fw_log st' = fw_log st ++ ["texture USE " ++ id ++ LF]%string.
Proof.
  intros C T. unfold write_image_texture.
  unfold bind at 1. unfold unique_name_image at 1. unfold unique_name.
  rewrite C. unfold bind at 1. unfold get_image_tag at 1.
  cbn [image_tag]. rewrite T.
  eexists. split; reflexivity.
Qed.

(** X8: The first time an image is met in an export, [write_image_texture]
    defines it: the fragments are [texture], [DEF] with the identifier of
    the image, [ImageTexture {], the line of urls and the closing bracket.
    Every writer of the export keeps the tag and the identifier, so that
    whenever the image is met again, in any path mode, the single fragment
    [texture USE] with that same identifier is written: a reference to an
    image always follows its definition. *)
Theorem image_texture_def_then_use (pm : string) (image : Image) (st : State) :
  mem_key (im_key image) (image_tag st) = false ->
  exists id st1,
    write_image_texture pm image st = Some (tt, st1)
    /\ fw_log st1
       = fw_log st
         ++ ["texture "; "DEF " ++ id ++ " "; "ImageTexture {" ++ LF;
             url_fragment pm image; "}" ++ LF]%string
    /\ (forall h opts st2 st3,
          ((exists parent node,
               export_object h opts parent node st2 = Some (tt, st3))
           \/ (exists obj mesh matrix world,
                 write_indexed_face_set h opts obj mesh matrix world st2
                 = Some (tt, st3))) ->
          exists seg, extends st2 st3 seg)
    /\ (forall pm' st2 seg,
          extends st1 st2 seg ->
          exists st3,
            write_image_texture pm' image st2 = Some (tt, st3)
            /\ fw_log st3 = fw_log st2 ++ ["texture USE " ++ id ++ LF]%string).
Proof.
  intro T.
  destruct (write_image_texture_first pm image st T) as (id & st1 & R & L & C & G).
  exists id, st1. split; [exact R|]. split; [exact L|]. split.
  - intros h opts st2 st3 [(parent & node & H) | (obj & mesh & matrix & world & H)].
    + destruct (keeps_export_object h opts node parent st2 tt st3 H)
        as (seg & E & _). now exists seg.
    + destruct (keeps_indexed_face_set h opts obj mesh matrix world st2 tt st3 H)
        as (seg & E & _). now exists seg.
  - intros pm' st2 seg (_ & _ & Ti & _ & _ & Ci).
    apply write_image_texture_again; [now apply Ci | now apply Ti].
Qed.

Lemma image_texture_def_then_use_witness :
  exists id st1 st3,
    write_image_texture "AUTO" Scenes.image_a initial_state = Some (tt, st1)
    /\ In ("DEF " ++ id ++ " ")%string (fw_log st1)
    /\ write_image_texture "RELATIVE" Scenes.image_a st1 = Some (tt, st3)
    /\ fw_log st3 = fw_log st1 ++ ["texture USE " ++ id ++ LF]%string.
Proof.
  destruct (image_texture_def_then_use "AUTO" Scenes.image_a initial_state
              eq_refl) as (id & st1 & R & L & _ & U).
  destruct (U "RELATIVE" st1 [] (extends_refl st1)) as (st3 & R3 & L3).
  exists id, st1, st3. split; [exact R|]. split.
  - rewrite L. right. left. reflexivity.
  - split; assumption.
Defined.

(** ** The urls of an image *)



Lemma normalized_no_backslash (f : string) : no_backslash (normalized f).
Proof.
  unfold no_backslash, normalized.
  induction f as [|c f IH]; [reflexivity|].
  cbn [PyStr.replace_char].
  destruct (Ascii.eqb c BACKSLASH) eqn:E.
  - cbn [append PyStr.all_chars]. exact IH.
  - cbn [PyStr.all_chars]. now rewrite E.
Qed.

Lemma dedup_from_In (l : list string) :
  forall seen x,
    In x (dedup_from seen l) <-> In x l /\ ~ In x seen.
Proof.
  induction l as [|f r IH]; intros seen x; cbn [dedup_from].
  - split; [intros [] | intros [[] _]].
  - destruct (existsb (String.eqb f) seen) eqn:E.
    + rewrite IH. split.
      * intros [H N]. split; [now right|].
        intro K. apply N. apply in_or_app. now left.
      * intros [[-> | H] N].
        -- exfalso. apply N. apply existsb_exists in E as [y [Hy Ey]].
           apply String.eqb_eq in Ey. now subst y.
        -- split; [exact H|]. intro K. apply in_app_or in K as [K | [<- | []]].
           ++ now apply N.
           ++ apply N. apply existsb_exists in E as [y [Hy Ey]].
              apply String.eqb_eq in Ey. now subst y.
    + cbn [In]. rewrite IH. split.
      * intros [<- | [H N]].
        -- split; [now left|]. intro K.
           assert (X : existsb (String.eqb f) seen = true).
           { apply existsb_exists. exists f. split; [exact K|].
             apply String.eqb_refl. }
           congruence.
        -- split; [now right|]. intro K. apply N. apply in_or_app. now left.
      * intros [[-> | H] N]; [now left|].
        destruct (string_dec f x) as [-> | D]; [now left|].
        right. split; [exact H|].
        intro K. apply in_app_or in K as [K | [K | []]]; [now apply N | congruence].
Qed.

Lemma dedup_from_NoDup (l : list string) :
  forall seen, NoDup (dedup_from seen l).
Proof.
  induction l as [|f r IH]; intro seen; cbn [dedup_from]; [constructor|].
  destruct (existsb (String.eqb f) seen); [apply IH|].
  constructor; [|apply IH].
  rewrite dedup_from_In. intros [_ N]. apply N. apply in_or_app.
  right. now left.
Qed.

Lemma dedup_from_head (f : string) (r : list string) :
  dedup_from [] (f :: r) = f :: dedup_from [f] r.
Proof. reflexivity. Qed.

Lemma dedup_from_length (l : list string) :
  forall seen, List.length (dedup_from seen l) <= List.length l.
Proof.
  induction l as [|f r IH]; intro seen; cbn [dedup_from]; [apply le_n|].
  destruct (existsb (String.eqb f) seen); cbn [List.length].
  - specialize (IH (seen ++ [f])). lia.
  - specialize (IH (seen ++ [f])). lia.
Qed.

(** X9: The urls written for an image have no duplicates and no backslash;
    the first one is the path reference of the image, slashes normalised;
    they are the path reference, the base name and, unless the path mode is
    RELATIVE, the absolute path, each listed once in that order, so there
    are between one and three of them, and at most two in RELATIVE mode. *)
Theorem image_urls_distinct (pm : string) (image : Image) :
  NoDup (image_urls pm image)
  /\ (forall f, In f (image_urls pm image) -> no_backslash f)
  /\ hd_error (image_urls pm image) = Some (normalized (im_filepath_ref image))
  /\ (forall f,
        In f (image_urls pm image)
        <-> f = normalized (im_filepath_ref image)
            \/ f = normalized (im_filepath_base image)
            \/ (pm <> "RELATIVE" /\ f = normalized (im_filepath_full image)))
  /\ 1 <= List.length (image_urls pm image) <= 3
  /\ (pm = "RELATIVE" -> List.length (image_urls pm image) <= 2).
Proof.
  unfold image_urls. cbv zeta.
  set (l := map (PyStr.replace_char BACKSLASH "/")
              ([im_filepath_ref image; im_filepath_base image]
               ++ (if String.eqb pm "RELATIVE" then []
                   else [im_filepath_full image]))).
  assert (M : forall f,
             In f l
             <-> f = normalized (im_filepath_ref image)
                 \/ f = normalized (im_filepath_base image)
                 \/ (pm <> "RELATIVE"
                     /\ f = normalized (im_filepath_full image))).
  { intro f. unfold l, normalized.
    destruct (String.eqb pm "RELATIVE") eqn:E; cbn [app map In].
    - apply String.eqb_eq in E. split.
      + intros [<- | [<- | []]]; [now left | right; now left].
      + intros [-> | [-> | [N _]]]; [now left | right; now left | contradiction].
    - apply String.eqb_neq in E. split.
      + intros [<- | [<- | [<- | []]]];
          [now left | right; now left | right; right; now split].
      + intros [-> | [-> | [_ ->]]];
          [now left | right; now left | right; right; now left]. }
  split; [apply dedup_from_NoDup|].
  split.
  { intros f H. apply dedup_from_In in H as [H _]. apply M in H.
    destruct H as [-> | [-> | [_ ->]]]; apply normalized_no_backslash. }
  split; [reflexivity|].
  split.
  { intro f. rewrite dedup_from_In, <- M. split; [now intros [H _] | ].
    intro H. split; [exact H | intros []]. }
  assert (Ll : List.length l = if String.eqb pm "RELATIVE" then 2 else 3).
  { unfold l. rewrite length_map.
    now destruct (String.eqb pm "RELATIVE"). }
  pose proof (dedup_from_length l []) as B.
  split.
  - split.
    + unfold l. cbn [app map]. rewrite dedup_from_head. cbn [List.length]. lia.
    + rewrite Ll in B. destruct (String.eqb pm "RELATIVE"); lia.
  - intros ->. rewrite Ll in B. exact B.
Qed.

Lemma image_urls_distinct_witness :
  List.length (image_urls "RELATIVE" Scenes.image_a) <= 2.
Proof.
  destruct (image_urls_distinct "RELATIVE" Scenes.image_a)
    as (_ & _ & _ & _ & _ & H).
  now apply H.
Defined.

(* ================================================================== *)
(** * Every face in one group *)
(* ================================================================== *)

Lemma filter_or_perm {A : Type} (a b : A -> bool) (l : list A) :
  (forall x, In x l -> a x = true -> b x = false) ->
  Permutation (filter (fun x => a x || b x) l) (filter a l ++ filter b l).
Proof.
  induction l as [|x l IH]; intro H; cbn [filter]; [constructor|].
  assert (IH' : Permutation (filter (fun x => a x || b x) l)
                            (filter a l ++ filter b l)).
  { apply IH. intros y Hy. apply H. now right. }
  destruct (a x) eqn:Ea.
  - rewrite (H x (or_introl eq_refl) Ea). cbn [orb app]. now constructor.
  - cbn [orb]. destruct (b x).
    + apply Permutation_cons_app. exact IH'.
    + exact IH'.
Qed.

Lemma filter_all {A : Type} (p : A -> bool) (l : list A) :
  (forall x, In x l -> p x = true) -> filter p l = l.
Proof.
  induction l as [|x l IH]; intro H; cbn [filter]; [reflexivity|].
  rewrite (H x (or_introl eq_refl)), IH; [reflexivity|].
  intros y Hy. apply H. now right.
Qed.

Lemma groups_partition (faces : list (nat * GroupKey)) (d : FaceGroups) :
  distinct_keys d ->
  (forall kv, In kv d -> snd kv = faces_of_key faces (fst kv)) ->
  Permutation (flat_map snd d)
              (map fst (filter (fun e => has_key (snd e) d) faces)).
Proof.
  induction 1 as [|k v d Hk D IH]; intro V.
  - cbn [flat_map]. unfold has_key. cbn [existsb]. clear V.
    induction faces as [|e r IHr]; cbn [filter map];
      [apply perm_nil | exact IHr].
  - cbn [flat_map].
    rewrite (V (k, v) (or_introl eq_refl)). cbn [fst].
    assert (IH' : Permutation (flat_map snd d)
                    (map fst (filter (fun e => has_key (snd e) d) faces))).
    { apply IH. intros kv Hkv. apply V. now right. }
    unfold faces_of_key.
    rewrite IH'. rewrite <- map_app. apply Permutation_map. apply Permutation_sym.
    unfold has_key at 1. cbn [existsb fst].
    apply (filter_or_perm (fun e => key_eqb k (snd e))
             (fun e => existsb (fun kv => key_eqb (fst kv) (snd e)) d)).
    intros e _ Ek.
    destruct (existsb _ d) eqn:X; [|reflexivity].
    apply existsb_exists in X as [kv [Hkv Ekv]].
    rewrite key_eqb_sym in Ekv.
    pose proof (Hk kv Hkv) as N.
    now rewrite (key_eqb_trans k (snd e) (fst kv) Ek Ekv) in N.
Qed.

Lemma enumerate_fst {A : Type} (l : list A) :
  map fst (enumerate l) = seq 0 (List.length l).
Proof.
  unfold enumerate. generalize 0.
  induction l as [|x l IH]; intro n; [reflexivity|].
  cbn [List.length seq combine map fst]. now rewrite IH.
Qed.

Lemma groups_init_has_key (n : nat) (u : list (option Image)) (k : GroupKey) :
  has_key k (groups_init n u)
  = existsb (fun k0 => key_eqb k0 k) (init_keys n u).
Proof.
  rewrite groups_init_fold.
  destruct (fold_set_props (init_keys n u) [] distinct_nil (Forall_nil _))
    as (_ & _ & H & _).
  now rewrite H.
Qed.

Lemma groups_init_distinct (n : nat) (u : list (option Image)) :
  distinct_keys (groups_init n u).
Proof.
  rewrite groups_init_fold.
  now destruct (fold_set_props (init_keys n u) [] distinct_nil (Forall_nil _))
    as (D & _).
Qed.

Lemma face_keys_fst (mesh : Mesh) (imgs : list (option Image)) :
  List.length imgs = List.length (tessfaces_of mesh) ->
  map fst (face_keys mesh imgs) = seq 0 (List.length (tessfaces_of mesh)).
Proof.
  intro L. unfold face_keys.
  etransitivity; [apply enumerate_fst|]. f_equal.
  etransitivity; [apply length_combine|]. rewrite length_map. lia.
Qed.

(** X10: The groups of a mesh hold every face exactly once: the face indices of
    all groups together are a rearrangement of 0, 1, ..., n-1 for the n
    tessellated faces, so no face is lost and none is written in two
    shapes.  (The UV layer, when there is one, has an entry per face.) *)
Theorem face_groups_partition
    (o : list (option Image) -> list (option Image)) (mesh : Mesh)
    (items : FaceGroups) :
  uv_per_face mesh ->
  face_groups_items o mesh = Some items ->
  Permutation (flat_map snd items)
              (seq 0 (List.length (tessfaces_of mesh))).
Proof.
  intros U H. unfold face_groups_items in H.
  destruct (faces_images o mesh) as [[imgs u]|] eqn:Hf; [|discriminate].
  pose proof (faces_images_length o mesh imgs u U Hf) as L.
  fold (face_keys mesh imgs) in H.
  destruct (groups_fill _ _) as [d|] eqn:E; [|discriminate].
  injection H as <-.
  rewrite <- (Permutation_flat_map snd (sort_items_perm d)).
  destruct (groups_filled _ _ _ _ E) as (D & V & _ & K).
  rewrite (groups_partition _ _ D V).
  assert (S : forall e, In e (face_keys mesh imgs) -> has_key (snd e) d = true).
  { assert (N : groups_fill (face_keys mesh imgs)
                  (groups_init (List.length (mesh_materials_of mesh)) u)
                <> None) by (rewrite E; discriminate).
    pose proof (proj1 (groups_fill_some (face_keys mesh imgs)
                         (groups_init (List.length (mesh_materials_of mesh)) u)
                         (groups_init_distinct _ _)) N) as N'.
    intros e He. rewrite K, <- groups_init_has_key. now apply N'. }
  rewrite (filter_all _ _ S), (face_keys_fst mesh imgs L).
  apply Permutation_refl.
Qed.

Lemma face_groups_partition_witness :
  exists items,
    face_groups_items Scenes.first_seen Scenes.two_tone = Some items
    /\ Permutation (flat_map snd items) [0; 1; 2; 3].
Proof.
  destruct (face_groups_items Scenes.first_seen Scenes.two_tone)
    as [items|] eqn:E; [|vm_compute in E; discriminate].
  exists items. split; [reflexivity|].
  apply (face_groups_partition Scenes.first_seen Scenes.two_tone items);
    [reflexivity | exact E].
Defined.

(* ================================================================== *)
(** * When grouping the faces raises *)
(* ================================================================== *)

Lemma map_all_none {A B : Type} (f : A -> option B) (l : list A) :
  map_all f l = None <-> exists x, In x l /\ f x = None.
Proof.
  induction l as [|x l IH]; cbn [map_all].
  - split; [discriminate | intros (x & [] & _)].
  - destruct (f x) as [y|] eqn:E.
    + destruct (map_all f l) as [ys|].
      * split; [discriminate|]. intros (z & [<- | Hz] & Ez); [congruence|].
        assert (K : @None (list B) = None) by reflexivity.
        destruct IH as [_ IH]. discriminate IH. now exists z.
      * split; [|reflexivity]. intros _.
        destruct IH as [IH _]. destruct (IH eq_refl) as (z & Hz & Ez).
        exists z. split; [now right | exact Ez].
    + split; [|reflexivity]. intros _. exists x. split; [now left | exact E].
Qed.

Lemma map_all_In {A B : Type} (f : A -> option B) (l : list A) :
  forall l' y, map_all f l = Some l' -> In y l' ->
               exists x, In x l /\ f x = Some y.
Proof.
  induction l as [|x l IH]; intros l' y H Hy; cbn [map_all] in H.
  - injection H as <-. destruct Hy.
  - destruct (f x) as [y0|] eqn:E; [|discriminate].
    destruct (map_all f l) as [ys|]; [|discriminate].
    injection H as <-. destruct Hy as [<- | Hy].
    + exists x. split; [now left | exact E].
    + destruct (IH ys y eq_refl Hy) as (z & Hz & Ez).
      exists z. split; [now right | exact Ez].
Qed.

Lemma enumerate_In {A : Type} (l : list A) (i : nat) (x : A) :
  In (i, x) (enumerate l) <-> nth_error l i = Some x.
Proof.
  unfold enumerate.
  assert (G : forall n, In (i, x) (combine (seq n (List.length l)) l)
                        <-> n <= i /\ nth_error l (i - n) = Some x).
  { induction l as [|y l IH]; intro n; cbn [List.length seq combine In].
    - split; [intros [] | intros [_ H]; now destruct (i - n)].
    - rewrite IH. split.
      + intros [E | [H1 H2]].
        * injection E as -> ->. split; [apply le_n|].
          now rewrite Nat.sub_diag.
        * split; [lia|]. replace (i - n) with (S (i - S n)) by lia. exact H2.
      + intros [H1 H2]. destruct (Nat.eq_dec n i) as [-> | N].
        * left. rewrite Nat.sub_diag in H2. now injection H2 as ->.
        * right. split; [lia|].
          replace (i - n) with (S (i - S n)) in H2 by lia. exact H2. }
  rewrite G, Nat.sub_0_r. split; [now intros [_ H] | intro H; split; [lia | exact H]].
Qed.

(** The images of the faces are among the images the groups are made for,
    when the set of images is iterated in full. *)
Lemma faces_images_unique
    (o : list (option Image) -> list (option Image)) (mesh : Mesh)
    (imgs u : list (option Image)) :
  covers o ->
  faces_images o mesh = Some (imgs, u) ->
  forall x, In x imgs -> exists y, In y u /\ image_eqb y x = true.
Proof.
  intros O H. unfold faces_images in H. cbv zeta in H.
  destruct (me_uv_active mesh) as [data|].
  - destruct (existsb _ _).
    + destruct (map_all _ _) as [l|]; [|discriminate].
      injection H as <- <-. apply O.
    + destruct (existsb is_some _).
      * destruct (map_all _ _) as [l|]; [|discriminate].
        injection H as <- <-. apply O.
      * injection H as <- <-. intros x Hx.
        apply in_map_iff in Hx as (f & <- & _).
        exists None. split; [now left | reflexivity].
  - destruct (existsb is_some _).
    + destruct (map_all _ _) as [l|]; [|discriminate].
      injection H as <- <-. apply O.
    + injection H as <- <-. intros x Hx.
      apply in_map_iff in Hx as (f & <- & _).
      exists None. split; [now left | reflexivity].
Qed.

Lemma first_seen_covers : covers Scenes.first_seen.
Proof.
  intros l x. induction l as [|a r IH]; intros Hx; [destruct Hx|].
  cbn [Scenes.first_seen]. destruct Hx as [<- | Hx].
  - exists a. split; [now left | apply image_eqb_refl].
  - destruct (IH Hx) as (y & Hy & E).
    destruct (image_eqb a y) eqn:A.
    + exists a. split; [now left | eapply image_eqb_trans; eassumption].
    + exists y. split; [|exact E]. right. apply filter_In.
      split; [exact Hy | now rewrite A].
Qed.

Lemma init_has_key (n : nat) (u : list (option Image)) (k : GroupKey) :
  fst k < n -> (exists y, In y u /\ image_eqb y (snd k) = true) ->
  has_key k (groups_init n u) = true.
Proof.
  intros H1 (y & Hy & E). rewrite groups_init_has_key. apply existsb_exists.
  exists (fst k, y). split; [now apply in_init_keys|].
  unfold key_eqb. cbn [fst snd]. now rewrite Nat.eqb_refl, E.
Qed.

Lemma init_has_key_lt (n : nat) (u : list (option Image)) (k : GroupKey) :
  has_key k (groups_init n u) = true -> fst k < n.
Proof.
  rewrite groups_init_has_key. intro H.
  apply existsb_exists in H as (k0 & Hk0 & E).
  apply in_init_keys in Hk0 as [L _].
  unfold key_eqb in E. apply andb_true_iff in E as [E _].
  apply Nat.eqb_eq in E. lia.
Qed.

Lemma face_keys_In (mesh : Mesh) (imgs : list (option Image)) (i : nat)
    (k : GroupKey) :
  In (i, k) (face_keys mesh imgs)
  <-> exists f, nth_error (tessfaces_of mesh) i = Some f
                /\ fst k = f_material_index f
                /\ nth_error imgs i = Some (snd k).
Proof.
  unfold face_keys.
  etransitivity; [apply enumerate_In|].
  destruct k as [mi img]. cbn [fst snd].
  revert i imgs.
  induction (tessfaces_of mesh) as [|f fs IH]; intros i imgs.
  - cbn [map combine]. destruct i; split; try discriminate;
      intros (f & H & _); discriminate.
  - destruct imgs as [|im ims].
    + cbn [map combine]. destruct i; split; try discriminate;
        intros (f' & _ & _ & H); discriminate.
    + cbn [map combine]. destruct i as [|i]; cbn [nth_error].
      * split.
        -- intro H. injection H as <- <-. now exists f.
        -- intros (f' & H1 & H2 & H3). injection H1 as <-. injection H3 as <-.
           now subst mi.
      * apply IH.
Qed.

Lemma faces_images_some
    (o : list (option Image) -> list (option Image)) (mesh : Mesh) :
  uv_per_face mesh ->
  (forall f, In f (tessfaces_of mesh) ->
             f_material_index f < List.length (mesh_materials_of mesh)) ->
  faces_images o mesh <> None.
Proof.
  intros U B. unfold faces_images, uv_per_face in *. cbv zeta.
  assert (M : forall mi, In mi (map f_material_index (tessfaces_of mesh)) ->
                         nth_error (map material_image (mesh_materials_of mesh)) mi
                         <> None).
  { intros mi Hmi. apply in_map_iff in Hmi as (f & <- & Hf).
    apply nth_error_Some. rewrite length_map. now apply B. }
  assert (M2 : map_all (nth_error (map material_image (mesh_materials_of mesh)))
                 (map f_material_index (tessfaces_of mesh)) <> None).
  { intro K. apply map_all_none in K as (mi & Hmi & E). now apply (M mi). }
  destruct (me_uv_active mesh) as [data|].
  - destruct (existsb _ _).
    + match goal with
      | |- match ?m with _ => _ end <> None =>
        destruct m as [l|] eqn:E; [discriminate|]
      end.
      exfalso. apply map_all_none in E as ([i fuv] & Hi & E).
      apply enumerate_In in Hi. cbn [fst snd] in E.
      assert (Li : i < List.length (tessfaces_of mesh)).
      { rewrite <- U. apply nth_error_Some. congruence. }
      destruct (nth_error (map f_material_index (tessfaces_of mesh)) i)
        as [mi|] eqn:Em.
      * assert (Hmi : In mi (map f_material_index (tessfaces_of mesh)))
          by (eapply nth_error_In; eassumption).
        pose proof (M mi Hmi) as K.
        apply in_map_iff in Hmi as (f & <- & Hf). specialize (B f Hf).
        destruct (nth_error (map use_face_texture (mesh_materials_of mesh))
                    (f_material_index f)) as [[|]|] eqn:Eu.
        -- discriminate.
        -- now apply K.
        -- apply nth_error_None in Eu. rewrite length_map in Eu. lia.
      * apply nth_error_None in Em. rewrite length_map in Em. lia.
    + destruct (existsb is_some _).
      * destruct (map_all _ _); [discriminate | now elim M2].
      * discriminate.
  - destruct (existsb is_some _).
    + destruct (map_all _ _); [discriminate | now elim M2].
    + discriminate.
Qed.

(** Without a face whose material index is out of range the grouping
    completes. *)
Lemma face_groups_items_none_inv
    (o : list (option Image) -> list (option Image)) (mesh : Mesh) :
  uv_per_face mesh ->
  covers o ->
  face_groups_items o mesh = None ->
  exists f, In f (tessfaces_of mesh)
            /\ List.length (mesh_materials_of mesh) <= f_material_index f.
Proof.
  intros U O.
  intro H.
  destruct (forallb (fun f => f_material_index f
                              <? List.length (mesh_materials_of mesh))
                    (tessfaces_of mesh)) eqn:A.
  + exfalso. rewrite forallb_forall in A.
    assert (B : forall f, In f (tessfaces_of mesh) ->
                          f_material_index f
                          < List.length (mesh_materials_of mesh)).
    { intros f Hf. apply Nat.ltb_lt. now apply A. }
    unfold face_groups_items in H.
    destruct (faces_images o mesh) as [[imgs u]|] eqn:Hf;
      [|now apply (faces_images_some o mesh U B)].
    fold (face_keys mesh imgs) in H.
    destruct (groups_fill _ _) as [d|] eqn:E; [discriminate|].
    revert E.
    apply (groups_fill_some (face_keys mesh imgs)
             (groups_init (List.length (mesh_materials_of mesh)) u)
             (groups_init_distinct _ _)).
    intros [i k] He. cbn [snd].
    apply face_keys_In in He as (f & Ef & Ek & Ei).
    apply init_has_key.
    * rewrite Ek. apply B. eapply nth_error_In; eassumption.
    * apply (faces_images_unique o mesh imgs u O Hf).
      eapply nth_error_In; eassumption.
  + assert (X : exists f, In f (tessfaces_of mesh)
                          /\ (f_material_index f
                              <? List.length (mesh_materials_of mesh)) = false).
    { clear -A. induction (tessfaces_of mesh) as [|f fs IH];
        [discriminate|].
      cbn [forallb] in A. apply andb_false_iff in A as [A | A].
      - exists f. split; [now left | exact A].
      - destruct (IH A) as (g & Hg & Eg). exists g. split; [now right | exact Eg]. }
    destruct X as (f & Hf & Ef). exists f. split; [exact Hf|].
    apply Nat.ltb_ge in Ef. exact Ef.
Qed.

(** X11: Grouping the faces of a mesh raises exactly when a face names a
    material slot the mesh does not have (an index at or past the number of
    slots, one slot standing for no material at all): the lookup of the
    slot, or of the group, fails.  Otherwise the groups are built.  (The UV
    layer, when there is one, has an entry per face, and the set of images
    is iterated in full.) *)
Theorem face_groups_items_raises
    (o : list (option Image) -> list (option Image)) (mesh : Mesh) :
  uv_per_face mesh ->
  covers o ->
  (face_groups_items o mesh = None
   <-> exists f, In f (tessfaces_of mesh)
                 /\ List.length (mesh_materials_of mesh) <= f_material_index f).
Proof.
  intros U O. split.
  - now apply face_groups_items_none_inv.
  - intros (f & Hf & Bad).
    destruct (face_groups_items o mesh) as [items|] eqn:H; [|reflexivity].
    exfalso. unfold face_groups_items in H.
    destruct (faces_images o mesh) as [[imgs u]|] eqn:Hi; [|discriminate].
    pose proof (faces_images_length o mesh imgs u U Hi) as L.
    fold (face_keys mesh imgs) in H.
    destruct (groups_fill _ _) as [d|] eqn:E; [|discriminate].
    assert (N : groups_fill (face_keys mesh imgs)
                  (groups_init (List.length (mesh_materials_of mesh)) u)
                <> None) by (rewrite E; discriminate).
    pose proof (proj1 (groups_fill_some (face_keys mesh imgs)
                         (groups_init (List.length (mesh_materials_of mesh)) u)
                         (groups_init_distinct _ _)) N) as N'.
    apply In_nth_error in Hf as [i Ei].
    assert (Li : i < List.length imgs).
    { rewrite L. apply nth_error_Some. congruence. }
    destruct (nth_error imgs i) as [img|] eqn:Eg;
      [|apply nth_error_None in Eg; lia].
    assert (K : In (i, (f_material_index f, img)) (face_keys mesh imgs)).
    { apply face_keys_In. now exists f. }
    apply N' in K. cbn [snd] in K. apply init_has_key_lt in K.
    cbn [fst] in K. lia.
Qed.

Lemma face_groups_items_raises_witness :
  face_groups_items Scenes.first_seen
    {| me_key := 7; me_name := "Tri";
       me_tessfaces := [{| f_vertices := [0; 1; 2]; f_material_index := 1;
                           f_use_smooth := false |}];
       me_polygons := true; me_calc_tessface := [];
       me_materials := []; me_uv_active := None;
       me_vertices := [(0, 0, 0); (1, 0, 0); (0, 1, 0)]%Q;
       me_use_auto_smooth := false; me_auto_smooth_angle := 0 |}
  = None.
Proof.
  apply face_groups_items_raises.
  - exact I.
  - exact first_seen_covers.
  - eexists. split; [left; reflexivity|]. apply le_n.
Defined.

(* ================================================================== *)
(** * Exports that complete *)
(* ================================================================== *)

Lemma total_lift_bind {A B : Type} (o : option A) (f : A -> M B) :
  o <> None -> (forall a, o = Some a -> total (f a)) -> total (bind (lift o) f).
Proof.
  intros N H. destruct o as [a|]; [|now elim N].
  cbn [lift]. apply total_bind_ret. now apply H.
Qed.

Lemma total_for_each {A : Type} (l : list A) (body : A -> M unit) :
  (forall x, In x l -> total (body x)) -> total (for_each l body).
Proof.
  induction l as [|x l IH]; intro H; cbn [for_each]; [apply total_ret|].
  apply total_bind; [apply H; now left | intros _; apply IH].
  intros y Hy. apply H. now right.
Qed.

Lemma total_unique_name_object (key : nat) (name : string) :
  total (unique_name_object key name).
Proof.
  intro st. unfold unique_name_object.
  destruct (unique_name key name (uuid_cache_object st)). discriminate.
Qed.

Lemma total_unique_name_mesh (key : nat) (name : string) :
  total (unique_name_mesh key name).
Proof.
  intro st. unfold unique_name_mesh.
  destruct (unique_name key name (uuid_cache_mesh st)). discriminate.
Qed.

Lemma total_unique_name_image (key : nat) (name : string) :
  total (unique_name_image key name).
Proof.
  intro st. unfold unique_name_image.
  destruct (unique_name key name (uuid_cache_image st)). discriminate.
Qed.

Lemma total_get_mesh_tag (k : nat) : total (get_mesh_tag k).
Proof. intro st. discriminate. Qed.

Lemma total_set_mesh_tag (k : nat) : total (set_mesh_tag k).
Proof. intro st. discriminate. Qed.

Lemma total_get_image_tag (k : nat) : total (get_image_tag k).
Proof. intro st. discriminate. Qed.

Lemma total_set_image_tag (k : nat) : total (set_image_tag k).
Proof. intro st. discriminate. Qed.

Create HintDb totals discriminated.

#[local] Hint Resolve total_unique_name_object total_unique_name_mesh
  total_unique_name_image total_get_mesh_tag total_set_mesh_tag
  total_get_image_tag total_set_image_tag : totals.

Ltac totals :=
  repeat
    match goal with
    | |- total (ret _) => apply total_ret
    | |- total (fw _) => apply total_fw
    | |- total (lift (Some _)) => apply total_ret
    | |- total (bind (ret _) _) => apply total_bind_ret
    | |- total (bind _ _) => apply total_bind; [|intros ?]
    | |- total (for_each _ _) => apply total_for_each; intros ? ?
    | |- total (when _ _) => unfold when
    | |- total (match ?x with _ => _ end) => destruct x
    | |- total _ => solve [auto 1 with totals nocore]
    end.

Lemma total_transform_end (b : bool) : total (write_transform_end b).
Proof. unfold write_transform_end. totals. Qed.

Lemma total_image_texture (pm : string) (image : Image) :
  total (write_image_texture pm image).
Proof. unfold write_image_texture. totals. Qed.

#[local] Hint Resolve total_transform_end total_image_texture : totals.

Lemma dict_get_In {V : Type} (k : string) (d : list (string * V)) (v : V) :
  dict_get k d = Some v -> exists k', In (k', v) d.
Proof.
  induction d as [|[k' v'] d IH]; intro H; simpl in H; [discriminate|].
  destruct (String.eqb k' k).
  - injection H as <-. exists k'. now left.
  - destruct (IH H) as [k0 H0]. exists k0. now right.
Qed.

Lemma total_transform_begin (table : UserData) (obj : Object)
    (matrix : Matrix) (def_id : option string) :
  hinges_ok table -> ob_bound_box obj <> [] ->
  total (write_transform_begin table obj matrix def_id).
Proof.
  intros Ht Hb st E.
  apply write_transform_begin_none_inv in E as (nd & L & [[T A] | B]).
  - destruct def_id as [k|]; [|discriminate]. cbn [lookup_override] in L.
    apply dict_get_In in L as [k' L].
    unfold hinges_ok in Ht. rewrite Forall_forall in Ht.
    now apply (Ht _ L T).
  - now apply Hb.
Qed.

Lemma total_tex_coord_index (mesh_faces_vertices : list (list nat))
    (face_group : list nat) :
  (forall i, In i face_group -> i < List.length mesh_faces_vertices) ->
  forall j, total (tex_coord_index mesh_faces_vertices face_group j).
Proof.
  induction face_group as [|i r IH]; intros H j; cbn [tex_coord_index].
  - apply total_ret.
  - apply total_lift_bind.
    + apply nth_error_Some. apply H. now left.
    + intros fv _.
      destruct (List.length fv =? 4);
        (apply total_bind; [apply total_fw | intros _; apply IH]);
        intros i' Hi'; apply H; now right.
Qed.

Lemma total_shape (pm : string) (world : option vec3) (mesh : Mesh)
    (coords_id : string) (item : GroupKey * list nat) (w : bool) :
  mesh_wf mesh ->
  fst (fst item) < List.length (mesh_materials_of mesh) ->
  (forall i, In i (snd item) -> i < List.length (tessfaces_of mesh)) ->
  total (write_shape pm world mesh coords_id item w).
Proof.
  intros [U F] Hm Hi. unfold write_shape. cbv zeta.
  destruct item as [[material_index image] face_group]. cbn [fst snd] in *.
  destruct face_group as [|i0 face_group]; [apply total_ret|].
  set (g := i0 :: face_group) in *.
  apply total_lift_bind; [now apply nth_error_Some | intros material _].
  do 7 (apply total_bind; [solve [totals] | intros _]).
  apply total_bind.
  { destruct (me_uv_active mesh); [|apply total_ret].
    apply total_bind; [apply total_fw | intros _].
    apply total_bind; [|intros _; totals].
    apply total_tex_coord_index. intros i Hin. rewrite length_map. now apply Hi. }
  intros _. apply total_bind; [apply total_fw | intros _].
  apply total_bind.
  { apply total_for_each. intros i Hin.
    destruct (nth_error (tessfaces_of mesh) i) as [f|] eqn:Ef;
      [|apply nth_error_None in Ef; specialize (Hi i Hin); lia].
    apply total_lift_bind.
    - rewrite nth_error_map, Ef. discriminate.
    - intros fv Efv. rewrite nth_error_map, Ef in Efv. injection Efv as <-.
      destruct (F f (nth_error_In _ _ Ef)) as [_ V].
      apply total_lift_bind; [|intros; apply total_fw].
      unfold coord_index_line.
      destruct (f_vertices f) as [|a [|b [|c [|d [|e r]]]]];
        cbn [List.length] in V; try discriminate; destruct V; lia. }
  intros _. do 3 (apply total_bind; [solve [totals] | intros _]).
  apply total_bind.
  { unfold uv_per_face in U.
    destruct (me_uv_active mesh) as [data|]; [|apply total_ret].
    do 2 (apply total_bind; [apply total_fw | intros _]).
    apply total_bind; [|intros _; totals].
    apply total_for_each. intros i Hin.
    apply total_lift_bind; [|intros; totals].
    apply nth_error_Some. rewrite U. now apply Hi. }
  intros _. totals.
Qed.

Lemma total_shapes (pm : string) (world : option vec3) (mesh : Mesh)
    (coords_id : string) (items : FaceGroups) :
  mesh_wf mesh ->
  (forall kv, In kv items ->
     fst (fst kv) < List.length (mesh_materials_of mesh)
     /\ forall i, In i (snd kv) -> i < List.length (tessfaces_of mesh)) ->
  forall w, total (write_shapes pm world mesh coords_id items w).
Proof.
  intro W. induction items as [|item r IH]; intros H w; cbn [write_shapes].
  - apply total_ret.
  - apply total_bind.
    + destruct (H item (or_introl eq_refl)) as [H1 H2]. now apply total_shape.
    + intro w'. apply IH. intros kv Hkv. apply H. now right.
Qed.

(** The groups name material slots of the mesh and faces of the mesh. *)
Lemma face_groups_items_bounds
    (o : list (option Image) -> list (option Image)) (mesh : Mesh)
    (items : FaceGroups) :
  uv_per_face mesh ->
  face_groups_items o mesh = Some items ->
  forall kv, In kv items ->
    fst (fst kv) < List.length (mesh_materials_of mesh)
    /\ forall i, In i (snd kv) -> i < List.length (tessfaces_of mesh).
Proof.
  intros U H kv Hkv. unfold face_groups_items in H.
  destruct (faces_images o mesh) as [[imgs u]|] eqn:Hf; [|discriminate].
  pose proof (faces_images_length o mesh imgs u U Hf) as L.
  fold (face_keys mesh imgs) in H.
  destruct (groups_fill _ _) as [d|] eqn:E; [|discriminate].
  injection H as <-.
  apply (Permutation_in _ (Permutation_sym (sort_items_perm d))) in Hkv.
  destruct (groups_filled _ _ _ _ E) as (_ & V & K & _).
  split.
  - now apply (in_init_keys _ u (fst kv)), K.
  - intros i Hin. rewrite (V kv Hkv) in Hin. unfold faces_of_key in Hin.
    apply in_map_iff in Hin as (e & <- & He). apply filter_In in He as [He _].
    apply (in_map fst) in He. rewrite (face_keys_fst mesh imgs L) in He.
    now apply in_seq in He.
Qed.

Lemma total_geometry (h : Host) (opts : Options) (mesh : Mesh)
    (mesh_id : string) (world : option vec3) :
  covers (h_set_order h) -> mesh_wf mesh ->
  total (write_geometry h opts mesh mesh_id world).
Proof.
  intros C W. unfold write_geometry. cbv zeta.
  apply total_bind; [apply total_get_mesh_tag | intros tag].
  destruct tag; [apply total_fw|].
  apply total_bind; [apply total_set_mesh_tag | intros _].
  destruct W as [U F].
  apply total_lift_bind.
  - intro E. apply (face_groups_items_none_inv _ mesh U C) in E as (f & Hf & B).
    destruct (F f Hf) as [Lt _]. lia.
  - intros items E. apply total_shapes; [now split|].
    now apply (face_groups_items_bounds (h_set_order h) mesh items U E).
Qed.

Lemma total_indexed_face_set (h : Host) (opts : Options) (obj : Object)
    (mesh : Mesh) (matrix : Matrix) (world : option vec3) :
  covers (h_set_order h) -> hinges_ok (user_data opts) ->
  ob_bound_box obj <> [] -> mesh_wf mesh ->
  total (write_indexed_face_set h opts obj mesh matrix world).
Proof.
  intros C Ht Hb W. unfold write_indexed_face_set.
  apply total_bind; [apply total_unique_name_object | intros obj_id].
  apply total_bind; [apply total_unique_name_mesh | intros mesh_id].
  destruct (tessfaces_of mesh) eqn:E; [apply total_ret|].
  apply total_bind; [now apply total_transform_begin | intros r].
  apply total_bind; [now apply total_geometry | intros _].
  totals.
Qed.

Lemma total_export_derived (h : Host) (opts : Options) (d : Derived) :
  covers (h_set_order h) -> hinges_ok (user_data opts) ->
  ob_bound_box (d_obj d) <> [] ->
  (forall me, derived_mesh opts d = Some me -> mesh_wf me) ->
  total (export_derived h opts d).
Proof.
  intros C Ht Hb W. unfold export_derived, derived_mesh in *. cbv zeta in *.
  destruct (_ || _ || _ || _)%bool; [|apply total_ret].
  match goal with
  | |- total (match ?o with _ => _ end) => destruct o as [me|]
  end; [|apply total_ret].
  apply total_indexed_face_set; auto.
Qed.

Lemma total_export_object (h : Host) (opts : Options) (t : Tree) :
  covers (h_set_order h) -> hinges_ok (user_data opts) ->
  (forall n, In n (nodes t) -> object_wf h opts (root n)) ->
  forall parent, total (export_object h opts parent t).
Proof.
  intros C Ht.
  induction t as [obj children IH] using tree_forall_ind. intros W parent st.
  rewrite export_object_eq. revert st.
  change (total (obj_main_id <- unique_name_object (ob_key obj) (ob_name obj) ;;
                 r <- write_transform_begin (user_data opts) obj
                        (h_matrix h parent obj)
                        (Some (obj_main_id ++ _TRANSFORM)%string) ;;
                 for_each match h_derived h obj with
                          | Some derived => derived
                          | None => []
                          end (export_derived h opts) ;;;
                 for_each children (export_object h opts (Some obj)) ;;;
                 (if fst r then ret tt else write_transform_end (snd r)))).
  destruct (W (Node obj children) (or_introl eq_refl)) as [Hb Hd].
  cbn [root] in Hb, Hd.
  apply total_bind; [apply total_unique_name_object | intros obj_main_id].
  apply total_bind; [now apply total_transform_begin | intros r].
  apply total_bind.
  { destruct (h_derived h obj) as [derived|]; [|apply total_ret].
    apply total_for_each. intros d Hin.
    destruct (Hd derived d eq_refl Hin) as [Hbd Hm].
    now apply total_export_derived. }
  intros _. apply total_bind; [|intros _; totals].
  apply total_for_each. intros c Hc.
  rewrite Forall_forall in IH. apply (IH c Hc).
  intros n Hn. apply W. right. apply in_flat_map. now exists c.
Qed.

Lemma forest_of_nodes (objs : list Object) (f : nat) :
  forall p n, In n (all_nodes (forest_of f objs p)) -> In (root n) objs.
Proof.
  induction f as [|f IH]; intros p n H; [destruct H|].
  cbn [forest_of] in H. unfold all_nodes in H.
  apply in_flat_map in H as (t & Ht & Hn).
  apply in_map_iff in Ht as (c & <- & Hc).
  cbn [nodes] in Hn. destruct Hn as [<- | Hn].
  - cbn [root]. unfold children_of in Hc. now apply filter_In in Hc.
  - apply (IH (Some c) n Hn).
Qed.

(** X12: the export completes for every scene whose objects to export are
    distinct, have a bounding box and have well-formed meshes (each face
    with three or four vertices and a material slot of the mesh, the UV
    layer with an entry per face), as long as every override entry for a
    hinge joint has its axis and the set of images is iterated in full.
    This holds where the model follows the host: the transforms are in
    range, so that [int] does not overflow in [nearly_equal]; the path mode
    is one that [path_reference] accepts; the hierarchy stays below the
    recursion limit; and every override entry carries its [webotsType], as
    the entries of [UserData] do. *)
Theorem export_completes (h : Host) (opts : Options) :
  scene_wf (selected_objects h opts) ->
  covers (h_set_order h) ->
  hinges_ok (user_data opts) ->
  (forall o, In o (selected_objects h opts) -> object_wf h opts o) ->
  transforms_in_range h opts ->
  valid_path_mode (path_mode opts) ->
  within_recursion_limit (selected_objects h opts) ->
  exists st, export h opts = Some st.
Proof.
  intros Wf C Ht Wo _ _ _.
  assert (T : total (export_main h opts)).
  { unfold export_main.
    apply total_bind; [intro st; discriminate | intros _].
    apply total_bind; [unfold write_header; totals | intros _].
    rewrite (build_hierarchy_forest_of _ Wf). cbn [lift].
    apply total_bind_ret. apply total_for_each. intros t Hin.
    apply total_export_object; [assumption.. |].
    intros n Hn. apply Wo.
    apply (forest_of_nodes _ (List.length (selected_objects h opts)) None).
    unfold all_nodes. apply in_flat_map. now exists t. }
  unfold export. specialize (T initial_state).
  destruct (export_main h opts initial_state) as [[[] st]|];
    [now exists st | now elim T].
Qed.

Lemma export_completes_witness :
  exists st,
    export Scenes.two_cubes
      (Scenes.options
         [("CUBE_TRANSFORM",
           {| webotsType := "HingeJoint";
              hingeJointParameters_axis := Some "0 0 1";
              motorName := Some "motor"; positionSensorName := None |})])
    = Some st.
Proof.
  apply export_completes.
  - split.
    + cbn. repeat constructor; cbn; intuition discriminate.
    + intros c a p Hc Ha. cbn in Hc.
      destruct Hc as [<- | [<- | []]]; destruct Ha.
  - exact first_seen_covers.
  - constructor; [|constructor]. cbn. intros _. discriminate.
  - intros o Ho. split.
    + cbn in Ho. destruct Ho as [<- | [<- | []]]; discriminate.
    + intros derived d Hd Hin. cbn in Hd. injection Hd as <-.
      destruct Hin as [<- | []]. cbn [Scenes.derived_self d_obj]. split.
      * cbn in Ho. destruct Ho as [<- | [<- | []]]; discriminate.
      * intros me Hme. cbn in Hme. injection Hme as <-. split; [exact I|].
        intros f Hf. cbn in Hf.
        repeat (destruct Hf as [<- | Hf]; [cbn; split; [lia | now right]|]).
        destruct Hf.
  - intros o Ho. split.
    + intros parent. repeat split.
    + intros derived d Hd Hin. cbn in Hd. injection Hd as <-.
      destruct Hin as [<- | []]. repeat split.
  - left. reflexivity.
  - repeat constructor.
Defined.

(* ================================================================== *)
(** * The coordinate block of a mesh and the references to it *)
(* ================================================================== *)

Lemma numeric_quiet (line : string) :
  PyStr.all_chars numeric line = true -> quiet line.
Proof.
  intro H. split.
  - unfold is_coordinate_def.
    destruct (String.eqb line ("Coordinate {" ++ LF)) eqn:E; [|reflexivity].
    apply String.eqb_eq in E. subst line. discriminate H.
  - destruct line as [|c r]; [reflexivity|].
    cbn [PyStr.all_chars] in H. apply andb_true_iff in H as [H _].
    unfold is_coord_use. cbn [String.prefix].
    destruct (ascii_dec "c" c) as [<- | N]; [discriminate H | reflexivity].
Qed.

Lemma emits_quiet_bind {A B : Type} (m : M A) (f : A -> M B) :
  emits m quietQ -> (forall a, emits (f a) quietQ) -> emits (bind m f) quietQ.
Proof.
  intros H1 H2. eapply emits_bind; [exact H1 | exact H2 |].
  intros a b s1 s2 q1 q2. apply Forall_app. now split.
Qed.

Lemma emits_quiet_for_each {A : Type} (l : list A) (body : A -> M unit) :
  (forall x, In x l -> emits (body x) quietQ) -> emits (for_each l body) quietQ.
Proof.
  induction l as [|x l IH]; intro H; cbn [for_each].
  - apply emits_ret. constructor.
  - apply emits_quiet_bind; [apply H; now left | intros _; apply IH].
    intros y Hy. apply H. now right.
Qed.

Lemma emits_quiet_fw (line : string) : quiet line -> emits (fw line) quietQ.
Proof. intro H. apply emits_fw. now constructor. Qed.

Lemma emits_quiet_pure {A : Type} (m : M A) (P : A -> Prop) :
  emits m (pureQ P) -> emits m quietQ.
Proof. intro H. eapply emits_conseq; [exact H|]. intros a seg [_ ->]. constructor. Qed.

Lemma emits_quiet_coord_index_line (fv : list nat) :
  emits (line <- lift (coord_index_line fv) ;; fw line) quietQ.
Proof.
  destruct (coord_index_line fv) as [line|] eqn:E; cbn [lift].
  - intros st a st' Hr. unfold bind, ret in Hr.
    apply (emits_quiet_fw line); [|exact Hr].
    apply numeric_quiet. exact (numeric_coord_index_line fv line E).
  - intros st a st' Hr. discriminate.
Qed.

Create HintDb quiets discriminated.

#[local] Hint Resolve emits_quiet_coord_index_line : quiets.

Ltac quiets :=
  repeat
    match goal with
    | |- emits _ _ => solve [auto 1 with quiets nocore]
    | |- emits (ret _) _ => apply emits_ret; constructor
    | |- emits (fw _) _ =>
      apply emits_quiet_fw;
      first [ split; reflexivity
            | apply numeric_quiet;
              first [apply numeric_vec3 | apply numeric_uv | solve [numerics]] ]
    | |- emits raise _ => apply emits_raise
    | |- emits (lift _) _ => apply emits_lift; intros; constructor
    | |- emits (unique_name_image _ _) _ =>
      apply (emits_quiet_pure _ _ (emits_unique_name_image _ _))
    | |- emits (get_image_tag _) _ =>
      apply (emits_quiet_pure _ _ (emits_get_image_tag _))
    | |- emits (set_image_tag _) _ =>
      apply (emits_quiet_pure _ _ (emits_set_image_tag _))
    | |- emits (bind _ _) _ => apply emits_quiet_bind; [|intros ?]
    | |- emits (for_each _ _) _ => apply emits_quiet_for_each; intros ? ?
    | |- emits (when _ _) _ => unfold when
    | |- emits (match ?x with _ => _ end) _ => destruct x
    end.

Lemma quiet_image_texture (pm : string) (image : Image) :
  emits (write_image_texture pm image) quietQ.
Proof. unfold write_image_texture. quiets. Qed.

Lemma quiet_tex_coord_index (mesh_faces_vertices : list (list nat))
    (face_group : list nat) :
  forall j, emits (tex_coord_index mesh_faces_vertices face_group j) quietQ.
Proof.
  induction face_group as [|i r IH]; intro j; cbn [tex_coord_index]; quiets.
Qed.

#[local] Hint Resolve quiet_image_texture quiet_tex_coord_index : quiets.


Lemma emits_split_bind {A B : Type} (m : M A) (f : A -> M B)
    (P : B -> Prop) (mid : list string) :
  emits m quietQ ->
  (forall a, emits (f a)
               (fun b seg => P b /\ exists p q, Forall quiet p /\ Forall quiet q
                                               /\ seg = p ++ mid ++ q)) ->
  emits (bind m f)
        (fun b seg => P b /\ exists p q, Forall quiet p /\ Forall quiet q
                                        /\ seg = p ++ mid ++ q).
Proof.
  intros H1 H2. eapply emits_bind; [exact H1 | exact H2 |].
  intros a b s1 s2 q1 (Pb & p & q & Hp & Hq & ->). split; [exact Pb|].
  exists (s1 ++ p), q. split; [apply Forall_app; now split|].
  split; [exact Hq | now rewrite app_assoc].
Qed.

Lemma emits_mid_then {A B : Type} (m : M A) (f : A -> M B)
    (P : B -> Prop) (mid : list string) :
  emits m (fun _ seg => exists q, Forall quiet q /\ seg = mid ++ q) ->
  (forall a, emits (f a) (fun b seg => P b /\ Forall quiet seg)) ->
  emits (bind m f)
        (fun b seg => P b /\ exists p q, Forall quiet p /\ Forall quiet q
                                        /\ seg = p ++ mid ++ q).
Proof.
  intros H1 H2. eapply emits_bind; [exact H1 | exact H2 |].
  intros a b s1 s2 (q & Hq & ->) (Pb & Hs). split; [exact Pb|].
  exists [], (q ++ s2). split; [constructor|].
  split; [apply Forall_app; now split | now rewrite <- app_assoc].
Qed.

Lemma emits_quiet_R_bind {A B : Type} (m : M A) (f : A -> M B) (P : B -> Prop) :
  emits m quietQ ->
  (forall a, emits (f a) (fun b seg => P b /\ Forall quiet seg)) ->
  emits (bind m f) (fun b seg => P b /\ Forall quiet seg).
Proof.
  intros H1 H2. eapply emits_bind; [exact H1 | exact H2 |].
  intros a b s1 s2 q1 [Pb q2]. split; [exact Pb | apply Forall_app; now split].
Qed.

Lemma coord_block_mid (mesh : Mesh) (id : string) (w : bool) :
  emits (if w then fw ("coord USE " ++ id ++ LF)
         else
           fw "coord " ;;;
           fw ("DEF " ++ id ++ " ") ;;;
           fw ("Coordinate {" ++ LF) ;;;
           fw ("point [" ++ LF) ;;;
           for_each (me_vertices mesh) (fun v => fw (format_vec3 6 v ++ " ")) ;;;
           fw LF ;;;
           fw ("]" ++ LF) ;;;
           fw ("}" ++ LF))
        (fun _ seg =>
           exists q, Forall quiet q
                     /\ seg = (if w then [("coord USE " ++ id ++ LF)%string]
                               else ["coord "; ("DEF " ++ id ++ " ")%string;
                                     ("Coordinate {" ++ LF)%string]%string)
                              ++ q).
Proof.
  destruct w.
  - apply emits_fw. exists []. split; [constructor | reflexivity].
  - eapply emits_bind with (Q1 := fun _ seg => seg = ["coord "])
                           (Q2 := fun _ _ seg =>
                                    exists q, Forall quiet q
                                      /\ seg = [("DEF " ++ id ++ " ")%string;
                                                ("Coordinate {" ++ LF)%string]
                                               ++ q);
      [now apply emits_fw | intros _ | ].
    + eapply emits_bind with (Q1 := fun _ seg => seg = [("DEF " ++ id ++ " ")%string])
                             (Q2 := fun _ _ seg =>
                                      exists q, Forall quiet q
                                        /\ seg = [("Coordinate {" ++ LF)%string]
                                                 ++ q);
        [now apply emits_fw | intros _ | ].
      * eapply emits_bind with (Q1 := fun _ seg => seg = [("Coordinate {" ++ LF)%string])
                               (Q2 := fun _ _ seg => Forall quiet seg);
          [now apply emits_fw | intros _; quiets | ].
        intros a b s1 s2 -> H. now exists s2.
      * intros a b s1 s2 -> (q & Hq & ->). now exists q.
    + intros a b s1 s2 -> (q & Hq & ->). now exists q.
Qed.

Lemma coords_shape (pm : string) (world : option vec3) (mesh : Mesh)
    (id : string) (item : GroupKey * list nat) (w : bool) :
  emits (write_shape pm world mesh id item w) (shapeQ id w (snd item)).
Proof.
  unfold write_shape, shapeQ. cbv zeta.
  destruct item as [[material_index image] face_group]. cbn [snd].
  destruct face_group as [|i0 face_group]; [now apply emits_ret|].
  do 13 (apply emits_split_bind; [solve [quiets] | intros ?]).
  apply emits_mid_then; [apply coord_block_mid | intros ?].
  do 3 (apply emits_quiet_R_bind; [solve [quiets] | intros ?]).
  apply emits_ret. split; [reflexivity | constructor].
Qed.

Lemma quiet_uses_only (id line : string) : quiet line -> uses_only id line.
Proof. intros [H1 H2]. split; [exact H1 | congruence]. Qed.

Lemma coord_uses_app (a b : list string) :
  coord_uses (a ++ b) = coord_uses a + coord_uses b.
Proof. unfold coord_uses. now rewrite filter_app, length_app. Qed.

Lemma coord_uses_quiet (seg : list string) :
  Forall quiet seg -> coord_uses seg = 0.
Proof.
  unfold coord_uses. induction 1 as [|l r [_ H] _ IH]; [reflexivity|].
  cbn [filter]. now rewrite H.
Qed.

Lemma coord_defs_quiet (seg : list string) :
  Forall quiet seg -> coord_defs seg = 0.
Proof.
  unfold coord_defs. induction 1 as [|l r [H _] _ IH]; [reflexivity|].
  cbn [filter]. now rewrite H.
Qed.

Lemma prefix_app (a b : string) : String.prefix a (a ++ b) = true.
Proof.
  induction a as [|c a IH]; cbn [append String.prefix].
  - now destruct b.
  - destruct (ascii_dec c c) as [_ | N]; [exact IH | now elim N].
Qed.

Lemma use_line_uses_only (id : string) :
  uses_only id ("coord USE " ++ id ++ LF).
Proof. split; [reflexivity | intros _; reflexivity]. Qed.

Lemma use_line_is_use (id : string) :
  is_coord_use ("coord USE " ++ id ++ LF) = true.
Proof. apply prefix_app. Qed.


Lemma coords_shapes (pm : string) (world : option vec3) (mesh : Mesh)
    (id : string) (items : FaceGroups) :
  forall w,
    emits (write_shapes pm world mesh id items w)
          (shapesQ id w (List.length (filter nonempty_group items))).
Proof.
  induction items as [|item r IH]; intro w; cbn [write_shapes filter].
  - apply emits_ret. unfold shapesQ. destruct w; [split|]; constructor.
  - eapply emits_bind; [apply coords_shape | intro w'; apply IH |].
    intros w' [] s1 s2 H1 H2. unfold shapeQ in H1. unfold shapesQ in *.
    destruct item as [k g]. cbn [snd nonempty_group] in *.
    destruct g as [|i0 g].
    + destruct H1 as [-> ->]. exact H2.
    + destruct H1 as (-> & p & q & Hp & Hq & ->). cbn [List.length].
      destruct H2 as [H2 U2].
      assert (D2 : coord_defs s2 = 0).
      { clear -H2. unfold coord_defs.
        induction H2 as [|l r0 [H _] _ IH0]; [reflexivity|].
        cbn [filter]. now rewrite H. }
      destruct w.
      * split.
        -- apply Forall_app. split; [apply Forall_app; split|exact H2].
           ++ eapply Forall_impl; [apply quiet_uses_only | exact Hp].
           ++ apply Forall_app. split.
              ** constructor; [apply use_line_uses_only | constructor].
              ** eapply Forall_impl; [apply quiet_uses_only | exact Hq].
        -- rewrite !coord_uses_app, (coord_uses_quiet p Hp),
             (coord_uses_quiet q Hq), U2.
           unfold coord_uses at 1. cbn [filter].
           rewrite use_line_is_use. reflexivity.
      * exists p, (q ++ s2). split; [exact Hp|]. split; [|split; [|split]].
        -- apply Forall_app. split; [|exact H2].
           eapply Forall_impl; [apply quiet_uses_only | exact Hq].
        -- now rewrite coord_uses_app, (coord_uses_quiet q Hq).
        -- unfold coord_defs in *. rewrite filter_app, length_app.
           fold (coord_defs q). now rewrite (coord_defs_quiet q Hq), D2.
        -- now rewrite <- !app_assoc.
Qed.

(** X13: The first time the geometry of a mesh with faces is written, the first
    shape that has faces defines the coordinate block, under [COORDS_]
    followed by the identifier of the mesh, and every later shape of the
    mesh references it: for n shapes there is one definition, which comes
    first, and n-1 references, all to that same name.  (The UV layer, when
    there is one, has an entry per face.) *)
Theorem coordinates_defined_before_use (h : Host) (opts : Options)
    (mesh : Mesh) (mesh_id : string) (world : option vec3) (st st' : State) :
  tessfaces_of mesh <> [] -> uv_per_face mesh ->
  mem_key (me_key mesh) (mesh_tag st) = false ->
  write_geometry h opts mesh mesh_id world st = Some (tt, st') ->
  exists items p q,
    face_groups_items (h_set_order h) mesh = Some items
    /\ fw_log st'
       = fw_log st
         ++ p ++ ["coord "; ("DEF " ++ COORDS_ ++ mesh_id ++ " ")%string;
                  ("Coordinate {" ++ LF)%string]%string ++ q
    /\ Forall quiet p
    /\ Forall (uses_only (COORDS_ ++ mesh_id)) q
    /\ coord_defs q = 0
    /\ S (coord_uses q) = List.length (filter nonempty_group items).
Proof.
  intros F U T H. unfold write_geometry in H. cbv zeta in H.
  unfold bind at 1, get_mesh_tag in H. rewrite T in H.
  unfold bind at 1, set_mesh_tag in H.
  unfold bind at 1 in H.
  destruct (face_groups_items (h_set_order h) mesh) as [items|] eqn:E;
    [|discriminate].
  cbn [lift ret] in H.
  destruct (coords_shapes _ _ _ _ _ _ _ _ _ H) as (seg & (L & _) & Q).
  cbn [fw_log] in L. unfold shapesQ in Q.
  pose proof (face_groups_items_nonempty _ _ _ F U E) as N.
  destruct (List.length (filter nonempty_group items)) as [|k] eqn:Ek.
  - exfalso. apply existsb_exists in N as (x & Hx & Nx).
    assert (K : In x (filter nonempty_group items)) by (now apply filter_In).
    destruct (filter nonempty_group items); [destruct K | discriminate Ek].
  - destruct Q as (p & q & Hp & Hq & Uq & Dq & ->).
    exists items, p, q. repeat split; try assumption. now rewrite Uq.
Qed.

Lemma coordinates_defined_before_use_witness :
  exists st' p q,
    write_geometry (Scenes.two_tone_scene Scenes.first_seen) (Scenes.options [])
      Scenes.two_tone "ME_TWO_TONE" None initial_state = Some (tt, st')
    /\ fw_log st'
       = p ++ ["coord "; "DEF COORDS_ME_TWO_TONE ";
               ("Coordinate {" ++ LF)%string]%string ++ q
    /\ coord_uses q = 3.
Proof.
  destruct (write_geometry (Scenes.two_tone_scene Scenes.first_seen)
              (Scenes.options []) Scenes.two_tone "ME_TWO_TONE" None
              initial_state) as [[[] st']|] eqn:E;
    [|vm_compute in E; discriminate].
  assert (F : tessfaces_of Scenes.two_tone <> []) by discriminate.
  assert (U : uv_per_face Scenes.two_tone) by reflexivity.
  assert (T : mem_key (me_key Scenes.two_tone) (mesh_tag initial_state) = false)
    by reflexivity.
  destruct (coordinates_defined_before_use
              (Scenes.two_tone_scene Scenes.first_seen) (Scenes.options [])
              Scenes.two_tone "ME_TWO_TONE" None initial_state st' F U T E)
    as (items & p & q & Ei & L & _ & _ & _ & C).
  exists st', p, q. split; [reflexivity|]. split; [exact L|].
  assert (N : List.length (filter nonempty_group items) = 4)
    by (vm_compute in Ei; injection Ei as <-; reflexivity).
  rewrite N in C. now injection C.
Defined.
